(** * extio: byte-stream adapters (ScannerWriter, AsyncReader, Broadcaster,
    MultiWriter), embedded from the Go sources.

    Conventions of the embedding.
    - A Go [[]byte] is a [list byte]; where the code tests a slice against
      [nil] the slice is an [option (list byte)], [None] being [nil].
    - A Go [int] is a [Z]; the code only compares and slices with them.
    - A Go [error] is an [option error], [None] being [nil].
    - A function that may panic, block or loop returns an [outcome]. *)

From Stdlib Require Import List ZArith Lia Bool Permutation.
From Stdlib.Strings Require Import Byte.
Import ListNotations.
Open Scope Z_scope.

(** ** Shared definitions (package-level errors and helpers) *)

(** The error values the package compares against: its own sentinels
    ([ErrAborted], [ErrClosed]), the ones of package [io] it uses, and
    [ErrOther] for any error of a collaborator (source, sink, callback). *)
Inductive error : Type :=
| ErrAborted
| ErrClosed
| EOF
| ErrUnexpectedEOF
| ErrShortBuffer
| ErrShortWrite
| ErrOther (code : nat).

Definition error_eqb (a b : error) : bool :=
  match a, b with
  | ErrAborted, ErrAborted => true
  | ErrClosed, ErrClosed => true
  | EOF, EOF => true
  | ErrUnexpectedEOF, ErrUnexpectedEOF => true
  | ErrShortBuffer, ErrShortBuffer => true
  | ErrShortWrite, ErrShortWrite => true
  | ErrOther n, ErrOther m => Nat.eqb n m
  | _, _ => false
  end.

Lemma error_eqb_eq (a b : error) : error_eqb a b = true <-> a = b.
Proof.
  destruct a, b; simpl; split; intros H; try reflexivity; try discriminate.
  - apply Nat.eqb_eq in H. now subst.
  - injection H as ->. apply Nat.eqb_refl.
Qed.

Abbreviation bytes := (list byte) (only parsing).

(** [len] is Go's [len] on a slice. *)
Definition len {A : Type} (l : list A) : Z := Z.of_nat (length l).

(** How a call ends: it returns, it panics (a run-time error of Go), it
    blocks for ever on a channel, or the model ran out of [fuel]. *)
Inductive outcome (A : Type) : Type :=
| Ret (a : A)
| Panic
| Blocked
| OutOfFuel.
Arguments Ret {A} a.
Arguments Panic {A}.
Arguments Blocked {A}.
Arguments OutOfFuel {A}.

Lemma len_nonneg {A : Type} (l : list A) : 0 <= len l.
Proof. unfold len. lia. Qed.

Lemma len_app {A : Type} (l1 l2 : list A) : len (l1 ++ l2) = len l1 + len l2.
Proof. unfold len. rewrite length_app. lia. Qed.

Lemma len_nil_iff {A : Type} (l : list A) : len l = 0 <-> l = [].
Proof.
  unfold len. destruct l; simpl; split; intros; try reflexivity; try discriminate; lia.
Qed.

(** [l[n] = x] on a slice; out of range the list is left as it is. *)
Fixpoint update {A : Type} (n : nat) (x : A) (l : list A) : list A :=
  match l, n with
  | [], _ => []
  | _ :: t, O => x :: t
  | h :: t, S n' => h :: update n' x t
  end.

Lemma nth_error_update_eq {A : Type} (l : list A) : forall i x y,
  nth_error l i = Some y -> nth_error (update i x l) i = Some x.
Proof.
  induction l as [|h t IH]; intros [|i] x y H; simpl in *; try discriminate; eauto.
Qed.

Lemma nth_error_update_neq {A : Type} (l : list A) : forall i j x,
  i <> j -> nth_error (update i x l) j = nth_error l j.
Proof.
  induction l as [|h t IH]; intros [|i] [|j] x H; simpl; auto; try congruence.
Qed.

Lemma length_update {A : Type} (l : list A) : forall n x,
  length (update n x l) = length l.
Proof. induction l as [|h t IH]; intros [|n] x; simpl; auto. Qed.

(** ** scanner_writer.go *)

Module ScannerWriter.

Section Model.

(** The token callback is a Go closure: [TS] is the state it closes over. *)
Variable TS : Type.

(** [bufio.SplitFunc]: [(data, atEOF) -> (advance, token, err)]. *)
Definition SplitFunc : Type := bytes -> bool -> Z * option bytes * option error.

Definition TokenFunc : Type := TS -> bytes -> TS * option error.

Record ScannerWriter : Type := mkScannerWriter {
  buf : option bytes;
  maxBufSize : Z;
  closed : bool;
  splitFunc : SplitFunc;
  tokenFunc : TokenFunc
}.

Definition set_buf (sc : ScannerWriter) (b : option bytes) : ScannerWriter :=
  mkScannerWriter b (maxBufSize sc) (closed sc) (splitFunc sc) (tokenFunc sc).

Definition set_closed (sc : ScannerWriter) (c : bool) : ScannerWriter :=
  mkScannerWriter (buf sc) (maxBufSize sc) c (splitFunc sc) (tokenFunc sc).

Definition NewScannerWriter (split : SplitFunc) (maxBuf : Z) (tf : TokenFunc)
  : ScannerWriter :=
  mkScannerWriter None maxBuf false split tf.

(** What the instance did to its two callbacks, in order. *)
Inductive event : Type :=
| SplitCall (data : bytes) (atEOF : bool) (adv : Z) (token : option bytes)
            (err : option error)
| TokenCall (token : bytes) (err : option error).

Definition event_err (e : event) : option error :=
  match e with
  | SplitCall _ _ _ _ err => err
  | TokenCall _ err => err
  end.

(** The world outside the instance: the callback's state and the calls made. *)
Record world : Type := mkWorld {
  cb : TS;
  calls : list event
}.

Definition log (w : world) (e : event) : world :=
  mkWorld (cb w) (calls w ++ [e]).

(** [sc.tokenFunc(token)], recorded. *)
Definition callToken (sc : ScannerWriter) (w : world) (tok : bytes)
  : world * option error :=
  let '(cb', err) := tokenFunc sc (cb w) tok in
  (mkWorld cb' (calls w ++ [TokenCall tok err]), err).

(** The tokens handed to the token callback, in order. *)
Fixpoint delivered (evs : list event) : list bytes :=
  match evs with
  | [] => []
  | TokenCall tok _ :: evs' => tok :: delivered evs'
  | SplitCall _ _ _ _ _ :: evs' => delivered evs'
  end.

Definition result : Type := ScannerWriter * world * (Z * option error).

(** The [for len(data) > 0] loop of [Write]; [fuel] bounds the number of
    times its condition is evaluated. [data[adv:]] panics when [adv]
    exceeds [len(data)]. *)
Fixpoint writeLoop (fuel : nat) (sc : ScannerWriter) (w : world)
         (data : bytes) (dataLen : Z) : outcome result :=
  match fuel with
  | O => OutOfFuel
  | S fuel' =>
    if 0 <? len data then
      let '(adv, token, err) := splitFunc sc data false in
      let w1 := log w (SplitCall data false adv token err) in
      match err with
      | Some e => Ret (sc, w1, (0, Some e))
      | None =>
        let next (w2 : world) : outcome result :=
          if 0 <? adv then
            if adv <=? len data
            then writeLoop fuel' sc w2 (skipn (Z.to_nat adv) data) dataLen
            else Panic
          else writeLoop fuel' sc w2 data dataLen in
        match token with
        | None =>
          if adv =? 0 then
            if maxBufSize sc <? len data
            then Ret (sc, w1, (0, Some ErrShortBuffer))
            else Ret (set_buf sc (Some data), w1, (dataLen, None))
          else next w1
        | Some tok =>
          let '(w2, terr) := callToken sc w1 tok in
          match terr with
          | Some e => Ret (sc, w2, (0, Some e))
          | None => next w2
          end
        end
      end
    else Ret (sc, w, (dataLen, None))
  end.

Definition Write (fuel : nat) (sc : ScannerWriter) (w : world) (data : bytes)
  : outcome result :=
  if closed sc then Ret (sc, w, (0, Some ErrClosed))
  else
    let dataLen := len data in
    match buf sc with
    | Some b => writeLoop fuel (set_buf sc None) w (b ++ data) dataLen
    | None => writeLoop fuel sc w data dataLen
    end.

Definition Flush (sc : ScannerWriter) (w : world)
  : ScannerWriter * world * option error :=
  if closed sc then (sc, w, Some ErrClosed)
  else
    match buf sc with
    | None | Some [] => (sc, w, None)
    | Some b =>
      let '(adv, token, err) := splitFunc sc b true in
      let w1 := log w (SplitCall b true adv token err) in
      match err with
      | Some e => (sc, w1, Some e)
      | None =>
        let sc1 := set_buf sc None in
        match token with
        | Some ((_ :: _) as tok) =>
          let '(w2, terr) := callToken sc1 w1 tok in
          (sc1, w2, terr)
        | _ => (sc1, w1, None)
        end
      end
    end.

Definition Close (sc : ScannerWriter) (w : world)
  : ScannerWriter * world * option error :=
  if closed sc then (sc, w, Some ErrClosed)
  else
    let '(sc1, w1, err) := Flush sc w in
    match err with
    | Some e => (sc1, w1, Some e)
    | None => (set_closed sc1 true, w1, None)
    end.

(** A call that neither failed nor asked for more data: the loop of [Write]
    goes on after it. *)
Definition quiet (e : event) : Prop :=
  event_err e = None /\
  match e with
  | SplitCall _ false 0 None None => False
  | _ => True
  end.

(** The contract of a [bufio.SplitFunc] on a non-empty buffer that is not yet
    final: the advance stays within the buffer, and a token comes with a
    positive advance ([bufio.Scanner] panics on the former and gives up after
    a hundred empty tokens without progress). *)
Definition split_contract (split : SplitFunc) : Prop :=
  forall d adv tok, d <> [] -> split d false = (adv, tok, None) ->
    0 <= adv <= len d /\ (tok <> None -> 0 < adv).

(** The buffer the loop of [Write] scans: the pending bytes, then [data]. *)
Definition pending (sc : ScannerWriter) : bytes :=
  match buf sc with Some b => b | None => [] end.

(** What a returning run of the loop did: the calls it added are all quiet
    but possibly the last one, which decides the result. *)
Inductive loop_post (sc : ScannerWriter) (dataLen : Z) (evs : list event)
  : ScannerWriter -> Z * option error -> Prop :=
| post_exhausted :
    Forall quiet evs ->
    loop_post sc dataLen evs sc (dataLen, None)
| post_pending evs0 d :
    evs = evs0 ++ [SplitCall d false 0 None None] ->
    Forall quiet evs0 -> d <> [] -> len d <= maxBufSize sc ->
    loop_post sc dataLen evs (set_buf sc (Some d)) (dataLen, None)
| post_overflow evs0 d :
    evs = evs0 ++ [SplitCall d false 0 None None] ->
    Forall quiet evs0 -> maxBufSize sc < len d ->
    loop_post sc dataLen evs sc (0, Some ErrShortBuffer)
| post_failed evs0 ev e :
    evs = evs0 ++ [ev] ->
    Forall quiet evs0 -> event_err ev = Some e ->
    loop_post sc dataLen evs sc (0, Some e).

(** The calls [evs] are what the two callbacks answer, the token callback
    going from the state [s] to the state [s']. *)
Fixpoint answers (split : SplitFunc) (tf : TokenFunc) (s : TS)
         (evs : list event) (s' : TS) : Prop :=
  match evs with
  | [] => s' = s
  | SplitCall d atEOF adv tok err :: evs' =>
    split d atEOF = (adv, tok, err) /\ answers split tf s evs' s'
  | TokenCall tok err :: evs' =>
    exists s1, tf s tok = (s1, err) /\ answers split tf s1 evs' s'
  end.

(** A boundary function whose decisions survive the arrival of more bytes:
    a token found in a buffer is found, with the same advance, in every
    extension of the buffer; and a skip (a positive advance with no token)
    commutes with extension: on the extended buffer the function answers
    what it answers once the skipped bytes are gone, advancing that much
    further. *)
Definition split_stable (split : SplitFunc) : Prop :=
  (forall d e adv tok, d <> [] ->
     split d false = (adv, Some tok, None) ->
     split (d ++ e) false = (adv, Some tok, None)) /\
  (forall d e adv, d <> [] -> e <> [] -> 0 < adv ->
     split d false = (adv, None, None) ->
     split (d ++ e) false =
     (let '(a, t, err) := split (skipn (Z.to_nat adv) d ++ e) false in
      (adv + a, t, err))).

(** A caller writing [chunks] one after the other, whatever each [Write]
    returns, and keeping the results. *)
Fixpoint WriteAll (fuel : nat) (sc : ScannerWriter) (w : world)
         (chunks : list bytes)
  : outcome (ScannerWriter * world * list (Z * option error)) :=
  match chunks with
  | [] => Ret (sc, w, [])
  | c :: cs =>
    match Write fuel sc w c with
    | Ret (sc1, w1, r) =>
      match WriteAll fuel sc1 w1 cs with
      | Ret (sc2, w2, rs) => Ret (sc2, w2, r :: rs)
      | Panic => Panic
      | Blocked => Blocked
      | OutOfFuel => OutOfFuel
      end
    | Panic => Panic
    | Blocked => Blocked
    | OutOfFuel => OutOfFuel
    end
  end.

(** The tokens the callback has been handed once [chunks] are written and
    the instance is flushed. *)
Definition sessionTokens (fuel : nat) (sc : ScannerWriter) (w : world)
           (chunks : list bytes) : option (list bytes) :=
  match WriteAll fuel sc w chunks with
  | Ret (sc1, w1, _) =>
    let '(_, w2, _) := Flush sc1 w1 in Some (delivered (calls w2))
  | _ => None
  end.

(** Two worlds the callback cannot tell apart. *)
Definition weq (w w' : world) : Prop :=
  cb w = cb w' /\ delivered (calls w) = delivered (calls w').

(** What a caller and the callback see of a run of the loop. *)
Definition obs (o : outcome result)
  : option (option bytes * TS * list bytes * option error) :=
  match o with
  | Ret (sc', w', (_, err)) => Some (buf sc', cb w', delivered (calls w'), err)
  | _ => None
  end.

End Model.

Arguments mkWorld {TS} cb calls.
Arguments cb {TS} w.
Arguments calls {TS} w.
Arguments mkScannerWriter {TS} buf maxBufSize closed splitFunc tokenFunc.
Arguments buf {TS} s.
Arguments maxBufSize {TS} s.
Arguments closed {TS} s.
Arguments splitFunc {TS} s.
Arguments tokenFunc {TS} s.
Arguments set_buf {TS} sc b.
Arguments set_closed {TS} sc c.
Arguments NewScannerWriter {TS} split maxBuf tf.
Arguments log {TS} w e.
Arguments callToken {TS} sc w tok.
Arguments writeLoop {TS} fuel sc w data dataLen.
Arguments Write {TS} fuel sc w data.
Arguments Flush {TS} sc w.
Arguments Close {TS} sc w.
Arguments pending {TS} sc.
Arguments loop_post {TS} sc dataLen evs _ _.
Arguments answers {TS} split tf s evs s'.
Arguments WriteAll {TS} fuel sc w chunks.
Arguments sessionTokens {TS} fuel sc w chunks.
Arguments weq {TS} w w'.
Arguments obs {TS} o.

(** *** The callbacks of the package's tests *)

Definition splitErr : error := ErrOther 1.
Definition tokenErr : error := ErrOther 2.

Definition errSplitFunc : SplitFunc := fun _ _ => (0, None, Some splitErr).

Definition errTokenFunc : TokenFunc unit := fun s _ => (s, Some tokenErr).

Definition okTokenFunc : TokenFunc unit := fun s _ => (s, None).

(** A boundary function that hands over whatever it is given as one token. *)
Definition scanAll : SplitFunc := fun data _ => (len data, Some data, None).

(** [bufio.ScanBytes]: every byte is a token. *)
Definition ScanBytes : SplitFunc := fun data atEOF =>
  match data with
  | [] => (0, None, None)
  | b :: _ => (1, Some [b], None)
  end.

Definition isSpace (b : byte) : bool :=
  match b with
  | x09 | x0a | x0b | x0c | x0d | x20 => true
  | _ => false
  end.

(** The number of leading spaces of [data]. *)
Fixpoint leadingSpaces (data : bytes) : nat :=
  match data with
  | b :: rest => if isSpace b then S (leadingSpaces rest) else O
  | [] => O
  end.

(** The index of the first space of [data]. *)
Fixpoint firstSpace (data : bytes) : option nat :=
  match data with
  | [] => None
  | b :: rest => if isSpace b then Some O else option_map S (firstSpace rest)
  end.

(** [bufio.ScanWords] on single-byte characters: skip the leading spaces,
    return the word up to the next space; with no such space the rest is the
    last word at the end of the input, and more data is asked for otherwise. *)
Definition ScanWords : SplitFunc := fun data atEOF =>
  let start := leadingSpaces data in
  let rest := skipn start data in
  match firstSpace rest with
  | Some i => (Z.of_nat (start + i + 1), Some (firstn i rest), None)
  | None =>
    if atEOF && (start <? length data)%nat
    then (len data, Some rest, None)
    else (Z.of_nat start, None, None)
  end.

(** *** Instances of the tests *)

Definition world0 : world unit := mkWorld tt [].

(** [NewScannerWriter(bufio.ScanWords, 1, ...)]: overflows on two bytes. *)
Definition tinyWords : ScannerWriter unit :=
  NewScannerWriter ScanWords 1 okTokenFunc.

Definition okWords : ScannerWriter unit :=
  NewScannerWriter ScanWords 1024 okTokenFunc.

Definition failingWords : ScannerWriter unit :=
  NewScannerWriter ScanWords 1024 errTokenFunc.

(** [failingWords] once ["ab"] is written: the word is pending. *)
Definition pendingWords : ScannerWriter unit :=
  mkScannerWriter (Some ["a"; "b"]%byte) 1024 false ScanWords errTokenFunc.

Definition okAll : ScannerWriter unit :=
  NewScannerWriter scanAll 1024 okTokenFunc.

Section Properties.

Variable TS : Type.
Implicit Types (sc : ScannerWriter TS) (w : world TS).

(** *** The loop of [Write] *)

Lemma delivered_app (l1 l2 : list event) :
  delivered (l1 ++ l2) = delivered l1 ++ delivered l2.
Proof.
  induction l1 as [|[d a adv t e|t e] l1 IH]; simpl; auto. now rewrite IH.
Qed.

Lemma callToken_calls sc w tok w2 terr :
  callToken sc w tok = (w2, terr) ->
  calls w2 = calls w ++ [TokenCall tok terr] /\
  tokenFunc sc (cb w) tok = (cb w2, terr).
Proof.
  unfold callToken. destruct (tokenFunc sc (cb w) tok) as [cb' err'].
  intros H. injection H as <- <-. auto.
Qed.

Lemma loop_post_cons sc dl ev evs sc' r :
  quiet ev -> loop_post sc dl evs sc' r -> loop_post sc dl (ev :: evs) sc' r.
Proof.
  intros Hq H. destruct H.
  - apply post_exhausted. now constructor.
  - subst evs. eapply post_pending with (evs0 := ev :: evs0); simpl; eauto.
  - subst evs. eapply post_overflow with (evs0 := ev :: evs0); simpl; eauto.
  - subst evs. eapply post_failed with (evs0 := ev :: evs0); simpl; eauto.
Qed.

Lemma writeLoop_post fuel : forall sc w data dl sc' w' r,
  writeLoop fuel sc w data dl = Ret (sc', w', r) ->
  exists evs, calls w' = calls w ++ evs /\ loop_post sc dl evs sc' r.
Proof.
  induction fuel as [|fuel IH]; intros sc w data dl sc' w' r H; [discriminate|].
  cbn [writeLoop] in H.
  destruct (0 <? len data) eqn:Hlen.
  2:{ injection H as <- <- <-. exists []. rewrite app_nil_r. split; auto.
      apply post_exhausted. constructor. }
  destruct (splitFunc sc data false) as [[adv token] err] eqn:Hsp.
  destruct err as [e|].
  { injection H as <- <- <-. eexists; split; [reflexivity|].
    eapply post_failed with (evs0 := []); simpl; eauto. }
  assert (Hnext : forall w2 ev2s,
      calls w2 = calls w ++ ev2s -> Forall quiet ev2s ->
      (if 0 <? adv
       then if adv <=? len data
            then writeLoop fuel sc w2 (skipn (Z.to_nat adv) data) dl
            else Panic
       else writeLoop fuel sc w2 data dl) = Ret (sc', w', r) ->
      exists evs, calls w' = calls w ++ evs /\ loop_post sc dl evs sc' r).
  { intros w2 ev2s Hc Hq Hrun.
    assert (Hrec : exists d2, writeLoop fuel sc w2 d2 dl = Ret (sc', w', r)).
    { destruct (0 <? adv); [destruct (adv <=? len data)|]; try discriminate; eauto. }
    destruct Hrec as [d2 Hrec]. apply IH in Hrec as [evs [Hc' Hp]].
    exists (ev2s ++ evs). rewrite Hc', Hc, app_assoc. split; auto.
    clear -Hq Hp. induction Hq; simpl; auto using loop_post_cons. }
  destruct token as [tok|].
  - destruct (callToken sc (log w (SplitCall data false adv (Some tok) None)) tok)
      as [w2 terr] eqn:Hct.
    apply callToken_calls in Hct as [Hc _]. simpl in Hc.
    destruct terr as [e|].
    + injection H as <- <- <-. eexists; split.
      * rewrite Hc, <- app_assoc. reflexivity.
      * eapply post_failed with (evs0 := [SplitCall data false adv (Some tok) None]); simpl; eauto.
        repeat constructor. destruct adv; exact I.
    + apply (Hnext w2 [SplitCall data false adv (Some tok) None; TokenCall tok None]); auto.
      * rewrite Hc, <- app_assoc. reflexivity.
      * repeat constructor. destruct adv; exact I.
  - destruct (adv =? 0) eqn:Hadv.
    + apply Z.eqb_eq in Hadv. subst adv.
      destruct (maxBufSize sc <? len data) eqn:Hmax.
      * injection H as <- <- <-. eexists; split; [reflexivity|].
        eapply post_overflow with (evs0 := []); simpl; eauto. now apply Z.ltb_lt.
      * injection H as <- <- <-. eexists; split; [reflexivity|].
        eapply post_pending with (evs0 := []); simpl; eauto.
        -- intros ->. discriminate.
        -- now apply Z.ltb_ge.
    + apply (Hnext (log w (SplitCall data false adv None None))
                   [SplitCall data false adv None None]); auto.
      repeat constructor. apply Z.eqb_neq in Hadv. destruct adv; auto.
Qed.

(** Under the contract the loop returns within [length data + 1] rounds. *)
Lemma writeLoop_returns fuel : forall sc w data dl,
  split_contract (splitFunc sc) -> (length data < fuel)%nat ->
  exists r, writeLoop fuel sc w data dl = Ret r.
Proof.
  induction fuel as [|fuel IH]; intros sc w data dl Hc Hf; [lia|].
  cbn [writeLoop].
  destruct (0 <? len data) eqn:Hlen; [|eauto].
  apply Z.ltb_lt in Hlen.
  assert (Hne : data <> []) by (intros ->; unfold len in Hlen; simpl in Hlen; lia).
  destruct (splitFunc sc data false) as [[adv token] err] eqn:Hsp.
  destruct err as [e|]; [eauto|].
  destruct (Hc _ _ _ Hne Hsp) as [Hr Hp].
  assert (Hnext : 0 < adv -> forall w2, exists r,
      (if 0 <? adv
       then if adv <=? len data
            then writeLoop fuel sc w2 (skipn (Z.to_nat adv) data) dl
            else Panic
       else writeLoop fuel sc w2 data dl) = Ret r).
  { intros Hpos w2.
    replace (0 <? adv) with true by (symmetry; apply Z.ltb_lt; lia).
    replace (adv <=? len data) with true by (symmetry; apply Z.leb_le; lia).
    apply IH; auto. rewrite length_skipn. unfold len in *. lia. }
  destruct token as [tok|].
  - destruct (callToken sc _ tok) as [w2 [e|]]; [eauto|].
    apply Hnext. apply Hp. discriminate.
  - destruct (adv =? 0) eqn:Hadv.
    + destruct (maxBufSize sc <? len data); eauto.
    + apply Z.eqb_neq in Hadv. apply Hnext. lia.
Qed.

Lemma Write_loop sc w data fuel :
  closed sc = false ->
  Write fuel sc w data =
  writeLoop fuel (set_buf sc None) w (pending sc ++ data) (len data).
Proof.
  unfold Write, pending. intros ->. destruct sc as [[b|] m c sp tf]; reflexivity.
Qed.

Lemma Flush_empty sc w :
  closed sc = false -> buf sc = None -> Flush sc w = (sc, w, None).
Proof. unfold Flush. now intros -> ->. Qed.

Lemma Close_empty sc w :
  closed sc = false -> buf sc = None ->
  Close sc w = (set_closed sc true, w, None).
Proof.
  intros Hc Hb. unfold Close. rewrite (Flush_empty _ _ Hc Hb). now rewrite Hc.
Qed.

Lemma Forall_quiet_no_error (evs : list event) :
  Forall quiet evs -> Forall (fun x => event_err x = None) evs.
Proof. apply Forall_impl. now intros a [H _]. Qed.

Lemma quiet_not_need_more d : ~ quiet (SplitCall d false 0 None None).
Proof. now intros [_ H]. Qed.

Lemma In_last_or_quiet (evs0 : list event) ev d :
  Forall quiet evs0 -> In (SplitCall d false 0 None None) (evs0 ++ [ev]) ->
  ev = SplitCall d false 0 None None.
Proof.
  intros Hq Hin. apply in_app_or in Hin as [Hin|[Hin|[]]]; auto.
  rewrite Forall_forall in Hq. apply Hq in Hin. now apply quiet_not_need_more in Hin.
Qed.

Lemma answers_app (split : SplitFunc) (tf : TokenFunc TS) (evs1 evs2 : list event) :
  forall s s1 s2,
    answers split tf s evs1 s1 -> answers split tf s1 evs2 s2 ->
    answers split tf s (evs1 ++ evs2) s2.
Proof.
  induction evs1 as [|[d a adv t e|t e] evs1 IH]; intros s s1 s2 H1 H2; simpl in *.
  - now subst s1.
  - destruct H1 as [Hs H1]. split; [exact Hs|]. eapply IH; eauto.
  - destruct H1 as [s' [Hs H1]]. exists s'. split; [exact Hs|]. eapply IH; eauto.
Qed.

(** The calls the loop records are the calls it made: each is what the
    callback answered, in the state the callback was in. *)
Lemma writeLoop_answers fuel : forall sc w data dl sc' w' r,
  writeLoop fuel sc w data dl = Ret (sc', w', r) ->
  exists evs, calls w' = calls w ++ evs /\
              answers (splitFunc sc) (tokenFunc sc) (cb w) evs (cb w').
Proof.
  induction fuel as [|fuel IH]; intros sc w data dl sc' w' r H; [discriminate|].
  cbn [writeLoop] in H.
  destruct (0 <? len data) eqn:Hlen.
  2:{ injection H as <- <- <-. exists []. rewrite app_nil_r. split; reflexivity. }
  destruct (splitFunc sc data false) as [[adv token] err] eqn:Hsp.
  destruct err as [e|].
  { injection H as <- <- <-. eexists; split; [reflexivity|].
    simpl. split; [exact Hsp|reflexivity]. }
  assert (Hnext : forall w2 ev2s,
      calls w2 = calls w ++ ev2s ->
      answers (splitFunc sc) (tokenFunc sc) (cb w) ev2s (cb w2) ->
      (if 0 <? adv
       then if adv <=? len data
            then writeLoop fuel sc w2 (skipn (Z.to_nat adv) data) dl
            else Panic
       else writeLoop fuel sc w2 data dl) = Ret (sc', w', r) ->
      exists evs, calls w' = calls w ++ evs /\
                  answers (splitFunc sc) (tokenFunc sc) (cb w) evs (cb w')).
  { intros w2 ev2s Hc Ha Hrun.
    assert (Hrec : exists d2, writeLoop fuel sc w2 d2 dl = Ret (sc', w', r)).
    { destruct (0 <? adv); [destruct (adv <=? len data)|]; try discriminate; eauto. }
    destruct Hrec as [d2 Hrec]. apply IH in Hrec as [evs [Hc' Ha']].
    exists (ev2s ++ evs). rewrite Hc', Hc, app_assoc. split; [reflexivity|].
    eapply answers_app; eauto. }
  destruct token as [tok|].
  - destruct (callToken sc (log w (SplitCall data false adv (Some tok) None)) tok)
      as [w2 terr] eqn:Hct.
    apply callToken_calls in Hct as [Hc Htf]. simpl in Hc, Htf.
    assert (Ha : answers (splitFunc sc) (tokenFunc sc) (cb w)
                         [SplitCall data false adv (Some tok) None;
                          TokenCall tok terr] (cb w2)).
    { simpl. split; [exact Hsp|]. exists (cb w2). split; [exact Htf|reflexivity]. }
    destruct terr as [e|].
    + injection H as <- <- <-. eexists; split; [|exact Ha].
      rewrite Hc, <- app_assoc. reflexivity.
    + apply (Hnext w2 [SplitCall data false adv (Some tok) None; TokenCall tok None]);
        auto.
      rewrite Hc, <- app_assoc. reflexivity.
  - assert (Ha : answers (splitFunc sc) (tokenFunc sc) (cb w)
                         [SplitCall data false adv None None] (cb w)).
    { simpl. split; [exact Hsp|reflexivity]. }
    destruct (adv =? 0) eqn:Hadv.
    + destruct (maxBufSize sc <? len data) eqn:Hmax;
        injection H as <- <- <-; eexists; (split; [reflexivity|exact Ha]).
    + apply (Hnext (log w (SplitCall data false adv None None))
                   [SplitCall data false adv None None]); auto.
Qed.

(** C2. On an open instance [Write] returns either [(len(data), nil)] or
    [(0, err)]. The calls it made to the boundary function and the token
    callback are recorded as they were answered. It returns
    [(len(data), nil)] only when none of them returned an error; otherwise
    it returns [(0, err)], where [err] is the error of the last call made,
    no earlier call having failed (the first error, after which no call is
    made), or the buffer-overflow error [io.ErrShortBuffer]; and once the
    boundary function has answered "no advance, no token" on a remainder
    longer than [maxBufSize], the result is [(0, io.ErrShortBuffer)] with
    nothing pending. This holds of every returning run; under the contract
    of a split function the call does return, within
    [len(pending) + len(data) + 1] rounds. *)
Theorem Write_all_or_first_error sc w data fuel :
  closed sc = false ->
  (forall sc' w' n err,
      Write fuel sc w data = Ret (sc', w', (n, err)) ->
      exists evs, calls w' = calls w ++ evs /\
        answers (splitFunc sc) (tokenFunc sc) (cb w) evs (cb w') /\
        ((n = len data /\ err = None /\
          Forall (fun x => event_err x = None) evs) \/
         (n = 0 /\ buf sc' = None /\
          exists evs0 ev e,
            evs = evs0 ++ [ev] /\ err = Some e /\
            Forall (fun x => event_err x = None) evs0 /\
            (event_err ev = Some e \/
             (e = ErrShortBuffer /\
              exists d, ev = SplitCall d false 0 None None /\
                        maxBufSize sc < len d)))) /\
        (forall d, In (SplitCall d false 0 None None) evs ->
                   maxBufSize sc < len d ->
                   n = 0 /\ err = Some ErrShortBuffer /\ buf sc' = None)) /\
  (split_contract (splitFunc sc) ->
   (length (pending sc ++ data) < fuel)%nat ->
   exists r, Write fuel sc w data = Ret r).
Proof.
  intros Hopen. rewrite (Write_loop _ _ _ _ Hopen). split.
  - intros sc' w' n err Hrun.
    pose proof (writeLoop_answers _ _ _ _ _ _ _ _ Hrun) as [evs' [Hc' Ha]].
    apply writeLoop_post in Hrun as [evs [Hc Hp]].
    assert (evs' = evs) as -> by (rewrite Hc in Hc'; now apply app_inv_head in Hc').
    exists evs. split; [exact Hc|]. split; [exact Ha|].
    remember (n, err) as r eqn:Hr.
    destruct Hp as [Hq | evs0 d He Hq Hne Hle | evs0 d He Hq Hlt | evs0 ev e He Hq Hev];
      injection Hr as <- <-; simpl in *.
    + split; [left; auto using Forall_quiet_no_error|]. intros d Hin _.
      rewrite Forall_forall in Hq. apply Hq in Hin.
      now apply quiet_not_need_more in Hin.
    + split.
      * left. split; [reflexivity|]. split; [reflexivity|]. subst evs.
        apply Forall_app. split; [now apply Forall_quiet_no_error|].
        constructor; [reflexivity|constructor].
      * intros d0 Hin Hlt. subst evs.
        apply In_last_or_quiet in Hin; auto. injection Hin as <-. lia.
    + split.
      * right. repeat split; auto.
        exists evs0, (SplitCall d false 0 None None), ErrShortBuffer.
        repeat split; auto using Forall_quiet_no_error.
        right. split; auto. now exists d.
      * intros d0 _ _. auto.
    + split.
      * right. repeat split; auto. exists evs0, ev, e.
        repeat split; auto using Forall_quiet_no_error.
      * intros d Hin Hlt. subst evs.
        apply In_last_or_quiet in Hin; auto. subst ev. discriminate.
  - intros Hc Hf. apply writeLoop_returns; auto.
Qed.

(** C9. When [Write] on an open instance returns an error, it returns zero
    bytes, the calls already made (tokens delivered among them) stay made,
    and nothing is pending: the bytes buffered before the call are not
    restored. The next [Flush] therefore does nothing and returns nil, and
    [Close] succeeds. *)
Theorem failed_Write_leaves_nothing_pending sc w data fuel sc' w' n e :
  closed sc = false ->
  Write fuel sc w data = Ret (sc', w', (n, Some e)) ->
  n = 0 /\ sc' = set_buf sc None /\ buf sc' = None /\
  (exists evs, calls w' = calls w ++ evs /\
               delivered (calls w') = delivered (calls w) ++ delivered evs) /\
  Flush sc' w' = (sc', w', None) /\
  Close sc' w' = (set_closed sc' true, w', None).
Proof.
  intros Hopen Hrun. rewrite (Write_loop _ _ _ _ Hopen) in Hrun.
  apply writeLoop_post in Hrun as [evs [Hc Hp]].
  assert (Hsc : n = 0 /\ sc' = set_buf sc None).
  { remember (n, Some e) as r eqn:Hr.
    destruct Hp; injection Hr as <- ?; auto; discriminate. }
  destruct Hsc as [-> ->].
  repeat split; auto.
  - exists evs. split; auto. now rewrite Hc, delivered_app.
  - now apply Flush_empty.
  - now apply Close_empty.
Qed.

Lemma closed_rejects sc w fuel data :
  closed sc = true ->
  Write fuel sc w data = Ret (sc, w, (0, Some ErrClosed)) /\
  Flush sc w = (sc, w, Some ErrClosed) /\
  Close sc w = (sc, w, Some ErrClosed).
Proof. unfold Write, Flush, Close. now intros ->. Qed.

(** C3, as the code has it. [Close] on an open instance runs [Flush]. When
    [Flush] succeeds the instance is closed, and from then on [Write],
    [Flush] and [Close] return [ErrClosed] and change nothing. When [Flush]
    fails, [Close] returns its error and the instance stays open; if the
    boundary function failed, the pending bytes are kept and the next
    [Close] fails with the same error; if the token callback failed, the
    pending bytes are already dropped and the next [Close] succeeds. *)
Theorem Close_runs_Flush sc w sc1 w1 err :
  closed sc = false ->
  Flush sc w = (sc1, w1, err) ->
  match err with
  | None =>
    Close sc w = (set_closed sc1 true, w1, None) /\
    forall w2 fuel data,
      Write fuel (set_closed sc1 true) w2 data
        = Ret (set_closed sc1 true, w2, (0, Some ErrClosed)) /\
      Flush (set_closed sc1 true) w2 = (set_closed sc1 true, w2, Some ErrClosed) /\
      Close (set_closed sc1 true) w2 = (set_closed sc1 true, w2, Some ErrClosed)
  | Some e =>
    Close sc w = (sc1, w1, Some e) /\ closed sc1 = false /\
    exists b adv tok,
      buf sc = Some b /\
      ((splitFunc sc b true = (adv, tok, Some e) /\ sc1 = sc /\
        forall w2, exists w3, Close sc1 w2 = (sc1, w3, Some e)) \/
       (splitFunc sc b true = (adv, tok, None) /\ buf sc1 = None /\
        exists t, tok = Some t /\ tokenFunc sc (cb w) t = (cb w1, Some e) /\
        Close sc1 w1 = (set_closed sc1 true, w1, None)))
  end.
Proof.
  intros Hopen Hfl.
  assert (HC : Close sc w =
               match err with
               | Some e => (sc1, w1, Some e)
               | None => (set_closed sc1 true, w1, None)
               end).
  { unfold Close. now rewrite Hopen, Hfl. }
  destruct err as [e|].
  - split; [exact HC|].
    unfold Flush in Hfl. rewrite Hopen in Hfl.
    destruct (buf sc) as [[|b0 b]|] eqn:Hb; try discriminate.
    destruct (splitFunc sc (b0 :: b) true) as [[adv tok] serr] eqn:Hsp.
    destruct serr as [e'|].
    + injection Hfl as <- <- <-. split; auto.
      exists (b0 :: b), adv, tok. split; auto. left. repeat split; auto.
      intros w2. eexists. unfold Close, Flush. rewrite Hopen, Hb, Hsp. reflexivity.
    + assert (Hsc1 : forall w', Close (set_buf sc None) w'
                                = (set_closed (set_buf sc None) true, w', None)).
      { intros w'. now apply Close_empty. }
      destruct tok as [[|t0 t]|]; try discriminate.
      destruct (callToken (set_buf sc None) _ (t0 :: t)) as [w2 terr] eqn:Hct.
      injection Hfl as <- <- <-.
      apply callToken_calls in Hct as [_ Hct]. simpl in Hct.
      split; auto. exists (b0 :: b), adv, (Some (t0 :: t)). split; auto.
      right. repeat split; auto. exists (t0 :: t). auto.
  - split; [exact HC|]. intros w2 fuel data. now apply closed_rejects.
Qed.

(** *** Chunk independence *)

Lemma weq_refl w : weq w w.
Proof. now split. Qed.

Lemma weq_sym w w' : weq w w' -> weq w' w.
Proof. intros [H1 H2]. now split. Qed.

Lemma weq_trans w1 w2 w3 : weq w1 w2 -> weq w2 w3 -> weq w1 w3.
Proof. intros [H1 H2] [H3 H4]. split; congruence. Qed.

Lemma weq_log_l w w' d a adv t e :
  weq w w' -> weq (log w (SplitCall d a adv t e)) w'.
Proof.
  intros [H1 H2]. split; simpl; auto.
  rewrite delivered_app. simpl. now rewrite app_nil_r.
Qed.

Lemma weq_log w w' d a adv t e d' a' adv' t' e' :
  weq w w' ->
  weq (log w (SplitCall d a adv t e)) (log w' (SplitCall d' a' adv' t' e')).
Proof.
  intros H. apply weq_log_l. apply weq_sym. apply weq_log_l. now apply weq_sym.
Qed.

Lemma callToken_weq sc w w' tok :
  weq w w' ->
  snd (callToken sc w tok) = snd (callToken sc w' tok) /\
  weq (fst (callToken sc w tok)) (fst (callToken sc w' tok)).
Proof.
  intros [H1 H2]. unfold callToken. rewrite H1.
  destruct (tokenFunc sc (cb w') tok) as [cb' err]. simpl. split; auto.
  split; simpl; auto. rewrite !delivered_app. now rewrite H2.
Qed.

Lemma len_pos_nonempty {A : Type} (l : list A) : (0 <? len l) = true <-> l <> [].
Proof.
  rewrite Z.ltb_lt. unfold len. destruct l; simpl; split; intros H; try lia; congruence.
Qed.

Lemma len_pos_false {A : Type} (l : list A) : (0 <? len l) = false <-> l = [].
Proof.
  rewrite Z.ltb_ge. unfold len. destruct l; simpl; split; intros H; try lia; congruence.
Qed.

(** Under the contract, what is observed of the loop depends neither on the
    fuel (once it suffices), nor on the calls recorded so far, nor on the
    length [Write] is to report. *)
Lemma writeLoop_obs fuel : forall fuel' sc w w' data dl dl',
  split_contract (splitFunc sc) -> weq w w' ->
  (length data < fuel)%nat -> (length data < fuel')%nat ->
  obs (writeLoop fuel sc w data dl) = obs (writeLoop fuel' sc w' data dl').
Proof.
  induction fuel as [|fuel IH]; intros fuel' sc w w' data dl dl' Hc Hw Hf Hf'; [lia|].
  destruct fuel' as [|fuel']; [lia|].
  cbn [writeLoop].
  destruct (0 <? len data) eqn:Hlen.
  2:{ simpl. destruct Hw as [-> ->]. reflexivity. }
  apply len_pos_nonempty in Hlen.
  destruct (splitFunc sc data false) as [[adv token] err] eqn:Hsp.
  pose proof (weq_log _ _ data false adv token err data false adv token err Hw) as Hw1.
  destruct err as [e|].
  { simpl. destruct Hw1 as [H1 H2]. simpl in H1, H2. now rewrite H1, H2. }
  destruct (Hc _ _ _ Hlen Hsp) as [Hr Hp].
  assert (Hnext : 0 < adv -> forall w2 w2', weq w2 w2' ->
    obs (if 0 <? adv
         then if adv <=? len data
              then writeLoop fuel sc w2 (skipn (Z.to_nat adv) data) dl
              else Panic
         else writeLoop fuel sc w2 data dl) =
    obs (if 0 <? adv
         then if adv <=? len data
              then writeLoop fuel' sc w2' (skipn (Z.to_nat adv) data) dl'
              else Panic
         else writeLoop fuel' sc w2' data dl')).
  { intros Hpos w2 w2' Hw2.
    replace (0 <? adv) with true by (symmetry; apply Z.ltb_lt; lia).
    replace (adv <=? len data) with true by (symmetry; apply Z.leb_le; lia).
    apply IH; auto; rewrite length_skipn; unfold len in *; lia. }
  destruct token as [tok|].
  - destruct (callToken_weq sc _ _ tok Hw1) as [He Hw2].
    destruct (callToken sc (log w _) tok) as [w2 terr].
    destruct (callToken sc (log w' _) tok) as [w2' terr'].
    simpl in He, Hw2. subst terr'.
    destruct terr as [e|].
    + simpl. destruct Hw2 as [-> ->]. reflexivity.
    + apply Hnext; auto. apply Hp. discriminate.
  - destruct (adv =? 0) eqn:Hadv.
    + destruct (maxBufSize sc <? len data); simpl;
        destruct Hw1 as [H1 H2]; simpl in H1, H2; now rewrite H1, H2.
    + apply Z.eqb_neq in Hadv. apply Hnext; auto. lia.
Qed.

Lemma skipn_app_le {A : Type} (n : nat) (d e : list A) :
  (n <= length d)%nat -> skipn n (d ++ e) = skipn n d ++ e.
Proof.
  intros H. rewrite skipn_app. replace (n - length d)%nat with O by lia. reflexivity.
Qed.

Lemma obs_failed sc w w' n n' e :
  weq w w' -> obs (Ret (sc, w, (n, e))) = obs (Ret (sc, w', (n', e))).
Proof. intros [H1 H2]. simpl. now rewrite H1, H2. Qed.

(** A skip on [d] can be taken before more bytes [c2] are looked at. *)
Lemma writeLoop_skip fuel sc wm d c2 adv dl :
  split_contract (splitFunc sc) -> split_stable (splitFunc sc) ->
  d <> [] -> 0 < adv -> splitFunc sc d false = (adv, None, None) ->
  (length (d ++ c2) < fuel)%nat ->
  obs (writeLoop fuel sc wm (d ++ c2) dl) =
  obs (writeLoop fuel sc wm (skipn (Z.to_nat adv) d ++ c2) dl).
Proof.
  intros Hc [_ Hskip] Hne Hpos Hsp Hf.
  destruct (Hc _ _ _ Hne Hsp) as [Hr _].
  assert (Hadv : (Z.to_nat adv <= length d)%nat) by (unfold len in Hr; lia).
  destruct fuel as [|f]; [lia|].
  rewrite length_app in Hf.
  destruct c2 as [|c0 c2].
  { rewrite !app_nil_r.
    remember (obs (writeLoop (S f) sc wm (skipn (Z.to_nat adv) d) dl)) as R eqn:HR.
    cbn [writeLoop]. subst R.
    replace (0 <? len d) with true by (symmetry; now apply len_pos_nonempty).
    rewrite Hsp.
    replace (adv =? 0) with false by (symmetry; apply Z.eqb_neq; lia).
    replace (0 <? adv) with true by (symmetry; apply Z.ltb_lt; lia).
    replace (adv <=? len d) with true by (symmetry; apply Z.leb_le; lia).
    apply writeLoop_obs; auto using weq_log_l, weq_refl;
      rewrite length_skipn; simpl in Hf; lia. }
  set (c := c0 :: c2) in *.
  assert (Hcne : c <> []) by discriminate.
  assert (Hlc : (0 < length c)%nat) by (simpl; lia).
  specialize (Hskip d c adv Hne Hcne Hpos Hsp).
  set (d' := skipn (Z.to_nat adv) d) in *.
  assert (Hd'ne : d' ++ c <> []) by (intros H; apply app_eq_nil in H as [_ H]; auto).
  assert (Hld' : length (d' ++ c) = (length d - Z.to_nat adv + length c)%nat).
  { unfold d'. now rewrite length_app, length_skipn. }
  destruct (splitFunc sc (d' ++ c) false) as [[a' t'] err'] eqn:Hsp'.
  remember (obs (writeLoop (S f) sc wm (d' ++ c) dl)) as R eqn:HR.
  cbn [writeLoop].
  replace (0 <? len (d ++ c)) with true
    by (symmetry; apply len_pos_nonempty; intros H; apply app_eq_nil in H as [_ H]; auto).
  rewrite Hskip.
  destruct err' as [e|].
  { subst R. cbn [writeLoop].
    replace (0 <? len (d' ++ c)) with true by (symmetry; now apply len_pos_nonempty).
    rewrite Hsp'. apply obs_failed. apply weq_log, weq_refl. }
  destruct (Hc _ _ _ Hd'ne Hsp') as [Hr' Hp'].
  assert (Hdata : skipn (Z.to_nat (adv + a')) (d ++ c) = skipn (Z.to_nat a') (d' ++ c)).
  { unfold d'. rewrite <- (skipn_app_le (Z.to_nat adv) d c) by lia.
    rewrite skipn_skipn. f_equal. lia. }
  assert (Hlen' : len (d ++ c) = len d + len c) by apply len_app.
  assert (Hlen'' : len (d' ++ c) = len d - adv + len c).
  { unfold len. rewrite Hld'. unfold len in Hr. lia. }
  destruct t' as [t|].
  - assert (Ha' : 0 < a') by (apply Hp'; discriminate).
    subst R. cbn [writeLoop].
    replace (0 <? len (d' ++ c)) with true by (symmetry; now apply len_pos_nonempty).
    rewrite Hsp'.
    destruct (callToken_weq sc (log wm (SplitCall (d ++ c) false (adv + a') (Some t) None))
                (log wm (SplitCall (d' ++ c) false a' (Some t) None)) t) as [He Hw2].
    { apply weq_log, weq_refl. }
    destruct (callToken sc (log wm (SplitCall (d ++ c) _ _ _ _)) t) as [w2 terr].
    destruct (callToken sc (log wm (SplitCall (d' ++ c) _ _ _ _)) t) as [w2' terr'].
    simpl in He, Hw2. subst terr'.
    destruct terr as [e|]; [now apply obs_failed|].
    replace (0 <? adv + a') with true by (symmetry; apply Z.ltb_lt; lia).
    replace (adv + a' <=? len (d ++ c)) with true by (symmetry; apply Z.leb_le; lia).
    replace (0 <? a') with true by (symmetry; apply Z.ltb_lt; lia).
    replace (a' <=? len (d' ++ c)) with true by (symmetry; apply Z.leb_le; lia).
    rewrite Hdata. apply writeLoop_obs; auto; rewrite length_skipn, Hld'; lia.
  - destruct (a' =? 0) eqn:Ha'.
    + apply Z.eqb_eq in Ha'. subst a'.
      replace (adv + 0 =? 0) with false by (symmetry; apply Z.eqb_neq; lia).
      replace (0 <? adv + 0) with true by (symmetry; apply Z.ltb_lt; lia).
      replace (adv + 0 <=? len (d ++ c)) with true by (symmetry; apply Z.leb_le; lia).
      rewrite Hdata. simpl skipn. subst R.
      apply writeLoop_obs; auto using weq_log_l, weq_refl; rewrite Hld'; lia.
    + apply Z.eqb_neq in Ha'.
      subst R. cbn [writeLoop].
      replace (0 <? len (d' ++ c)) with true by (symmetry; now apply len_pos_nonempty).
      rewrite Hsp'.
      replace (a' =? 0) with false by (symmetry; apply Z.eqb_neq; lia).
      replace (adv + a' =? 0) with false by (symmetry; apply Z.eqb_neq; lia).
      replace (0 <? adv + a') with true by (symmetry; apply Z.ltb_lt; lia).
      replace (adv + a' <=? len (d ++ c)) with true by (symmetry; apply Z.leb_le; lia).
      replace (0 <? a') with true by (symmetry; apply Z.ltb_lt; lia).
      replace (a' <=? len (d' ++ c)) with true by (symmetry; apply Z.leb_le; lia).
      rewrite Hdata. apply writeLoop_obs; auto using weq_log, weq_refl;
        rewrite length_skipn, Hld'; lia.
Qed.

(** The instance a returning run of the loop leaves: the one it started
    with, or that one with a suffix of the data pending. *)
Lemma writeLoop_instance fuel : forall sc w data dl sc1 w1 r,
  writeLoop fuel sc w data dl = Ret (sc1, w1, r) ->
  sc1 = sc \/
  exists p, sc1 = set_buf sc (Some p) /\ (length p <= length data)%nat.
Proof.
  induction fuel as [|fuel IH]; intros sc w data dl sc1 w1 r H; [discriminate|].
  cbn [writeLoop] in H.
  destruct (0 <? len data); [|injection H as <- _ _; now left].
  destruct (splitFunc sc data false) as [[adv token] [e|]];
    [injection H as <- _ _; now left|].
  assert (Hnext : forall w2 : world TS,
      (if 0 <? adv
       then if adv <=? len data
            then writeLoop fuel sc w2 (skipn (Z.to_nat adv) data) dl
            else Panic
       else writeLoop fuel sc w2 data dl) = Ret (sc1, w1, r) ->
      sc1 = sc \/
      exists p, sc1 = set_buf sc (Some p) /\ (length p <= length data)%nat).
  { intros w2 Hrun.
    assert (Hrec : exists d2, writeLoop fuel sc w2 d2 dl = Ret (sc1, w1, r) /\
                              (length d2 <= length data)%nat).
    { destruct (0 <? adv); [destruct (adv <=? len data); [|discriminate]|];
        eexists; (split; [exact Hrun|]); [rewrite length_skipn|]; lia. }
    destruct Hrec as [d2 [Hrec Hl]].
    apply IH in Hrec as [->|[p [-> Hp]]]; auto.
    right. exists p. split; auto. lia. }
  destruct token as [tok|].
  - destruct (callToken sc _ tok) as [w2 [e|]]; [injection H as <- _ _; now left|].
    eauto.
  - destruct (adv =? 0); [|eauto].
    destruct (maxBufSize sc <? len data); injection H as <- _ _; [now left|].
    right. exists data. auto.
Qed.

(** Two writes in a row, the first accepted, are observed as the one write
    of their concatenation: the loop on [d ++ c2] against the loop on [d]
    followed by the loop on what it left pending and [c2]. *)
Lemma writeLoop_merge n : forall d, (length d <= n)%nat ->
  forall sc w wm c2 f1 fm f2 dl1 dlm dl2 sc1 w1 n1,
  split_contract (splitFunc sc) -> split_stable (splitFunc sc) ->
  buf sc = None -> weq w wm ->
  (length (d ++ c2) < fm)%nat -> (length (d ++ c2) < f2)%nat ->
  writeLoop f1 sc w d dl1 = Ret (sc1, w1, (n1, None)) ->
  obs (writeLoop fm sc wm (d ++ c2) dlm) =
  obs (writeLoop f2 sc w1 (pending sc1 ++ c2) dl2).
Proof.
  induction n as [|n IH];
    intros d Hn sc w wm c2 f1 fm f2 dl1 dlm dl2 sc1 w1 n1 Hc Hst Hb Hw Hfm Hf2 Hrun;
    (destruct f1 as [|f1]; [discriminate|]); cbn [writeLoop] in Hrun.
  - destruct d; [|simpl in Hn; lia]. simpl in Hrun.
    injection Hrun as <- <- _. unfold pending. rewrite Hb.
    apply writeLoop_obs; auto using weq_sym.
  - destruct (0 <? len d) eqn:Hlen.
    2:{ apply len_pos_false in Hlen. subst d.
        injection Hrun as <- <- _. unfold pending. rewrite Hb.
        apply writeLoop_obs; auto using weq_sym. }
    apply len_pos_nonempty in Hlen.
    destruct (splitFunc sc d false) as [[adv token] [e|]] eqn:Hsp; [discriminate|].
    destruct (Hc _ _ _ Hlen Hsp) as [Hr Hp].
    assert (Hladv : 0 < adv -> (length (skipn (Z.to_nat adv) d) <= n)%nat).
    { intros Hpos. rewrite length_skipn. lia. }
    assert (Hadv' : 0 < adv -> (1 <= Z.to_nat adv <= length d)%nat).
    { unfold len in Hr. lia. }
    rewrite length_app in Hfm, Hf2.
    destruct token as [tok|].
    + assert (Hpos : 0 < adv) by (apply Hp; discriminate).
      destruct Hst as [Htok Hskip].
      pose proof (Htok d c2 adv tok Hlen Hsp) as Hsp2.
      destruct (callToken_weq sc (log w (SplitCall d false adv (Some tok) None))
                  (log wm (SplitCall (d ++ c2) false adv (Some tok) None)) tok)
        as [He Hw2]; [now apply weq_log|].
      destruct (callToken sc (log w _) tok) as [w2 terr].
      destruct terr as [e|]; [discriminate|].
      replace (0 <? adv) with true in Hrun by (symmetry; apply Z.ltb_lt; lia).
      replace (adv <=? len d) with true in Hrun by (symmetry; apply Z.leb_le; lia).
      destruct fm as [|fm]; [lia|].
      remember (obs (writeLoop f2 sc w1 (pending sc1 ++ c2) dl2)) as R eqn:HR.
      cbn [writeLoop]. subst R.
      replace (0 <? len (d ++ c2)) with true
        by (symmetry; apply len_pos_nonempty; intros H; apply app_eq_nil in H as [H _]; auto).
      rewrite Hsp2.
      destruct (callToken sc (log wm _) tok) as [w2' terr'].
      simpl in He, Hw2. subst terr'.
      replace (0 <? adv) with true by (symmetry; apply Z.ltb_lt; lia).
      replace (adv <=? len (d ++ c2)) with true
        by (symmetry; apply Z.leb_le; rewrite len_app; pose proof (len_nonneg c2); lia).
      rewrite skipn_app_le by (unfold len in Hr; lia).
      specialize (Hadv' Hpos).
      apply (IH _ (Hladv Hpos) sc w2 w2' c2 f1 fm f2 dl1 dlm dl2 sc1 w1 n1); auto;
        try (split; assumption);
        rewrite length_app, length_skipn; lia.
    + destruct (adv =? 0) eqn:Hadv.
      * destruct (maxBufSize sc <? len d); [discriminate|].
        injection Hrun as <- <- _. unfold pending. simpl.
        apply writeLoop_obs; auto using weq_sym, weq_log_l; rewrite length_app; lia.
      * apply Z.eqb_neq in Hadv. assert (Hpos : 0 < adv) by lia.
        replace (0 <? adv) with true in Hrun by (symmetry; apply Z.ltb_lt; lia).
        replace (adv <=? len d) with true in Hrun by (symmetry; apply Z.leb_le; lia).
        specialize (Hadv' Hpos).
        rewrite (writeLoop_skip fm sc wm d c2 adv dlm); auto;
          [|rewrite length_app; lia].
        apply (IH _ (Hladv Hpos) sc (log w (SplitCall d false adv None None)) wm c2
                  f1 fm f2 dl1 dlm dl2 sc1 w1 n1); auto;
          try (apply weq_log_l; assumption);
          rewrite length_app, length_skipn; lia.
Qed.

Lemma Write_instance sc w data fuel sc1 w1 r :
  closed sc = false ->
  Write fuel sc w data = Ret (sc1, w1, r) ->
  closed sc1 = false /\ splitFunc sc1 = splitFunc sc /\
  tokenFunc sc1 = tokenFunc sc /\ maxBufSize sc1 = maxBufSize sc /\
  set_buf sc1 None = set_buf sc None /\
  (length (pending sc1) <= length (pending sc ++ data))%nat.
Proof.
  intros Hopen Hrun. rewrite (Write_loop _ _ _ _ Hopen) in Hrun.
  apply writeLoop_instance in Hrun as [->|[p [-> Hp]]]; unfold pending; simpl;
    repeat split; auto; lia.
Qed.

(** [Write c1] accepted, then [Write c2], against [Write (c1 ++ c2)]. *)
Lemma Write_merge sc w wm c1 c2 f1 fm f2 sc1 w1 n1 :
  closed sc = false ->
  split_contract (splitFunc sc) -> split_stable (splitFunc sc) ->
  weq w wm ->
  (length (pending sc ++ c1 ++ c2) < fm)%nat ->
  (length (pending sc ++ c1 ++ c2) < f2)%nat ->
  Write f1 sc w c1 = Ret (sc1, w1, (n1, None)) ->
  obs (Write fm sc wm (c1 ++ c2)) = obs (Write f2 sc1 w1 c2).
Proof.
  intros Hopen Hc Hst Hw Hfm Hf2 Hrun.
  destruct (Write_instance _ _ _ _ _ _ _ Hopen Hrun) as [Hopen1 [_ [_ [_ [Hsb _]]]]].
  rewrite (Write_loop _ _ _ _ Hopen) in Hrun.
  rewrite (Write_loop _ _ _ _ Hopen), (Write_loop _ _ _ _ Hopen1), Hsb.
  rewrite app_assoc in *.
  apply (writeLoop_merge _ _ (le_n _) (set_buf sc None) w wm c2 f1 fm f2
                         (len c1) _ _ sc1 w1 n1); auto.
Qed.

Lemma Write_obs sc w w' data fuel fuel' :
  closed sc = false -> split_contract (splitFunc sc) -> weq w w' ->
  (length (pending sc ++ data) < fuel)%nat ->
  (length (pending sc ++ data) < fuel')%nat ->
  obs (Write fuel sc w data) = obs (Write fuel' sc w' data).
Proof.
  intros Hopen Hc Hw Hf Hf'. rewrite !(Write_loop _ _ _ _ Hopen).
  now apply writeLoop_obs.
Qed.

Lemma WriteAll_cons sc w c cs fuel :
  WriteAll fuel sc w (c :: cs) =
  match Write fuel sc w c with
  | Ret (sc1, w1, r) =>
    match WriteAll fuel sc1 w1 cs with
    | Ret (sc2, w2, rs) => Ret (sc2, w2, r :: rs)
    | Panic => Panic
    | Blocked => Blocked
    | OutOfFuel => OutOfFuel
    end
  | Panic => Panic
  | Blocked => Blocked
  | OutOfFuel => OutOfFuel
  end.
Proof. reflexivity. Qed.

Lemma WriteAll_as_one_Write cs : forall c sc w wm fuel scE wE rs,
  closed sc = false ->
  split_contract (splitFunc sc) -> split_stable (splitFunc sc) ->
  weq w wm ->
  (length (pending sc ++ concat (c :: cs)) < fuel)%nat ->
  WriteAll fuel sc w (c :: cs) = Ret (scE, wE, rs) ->
  Forall (fun r => snd r = None) rs ->
  obs (Write fuel sc wm (concat (c :: cs)))
  = Some (buf scE, cb wE, delivered (calls wE), None) /\
  closed scE = false /\ splitFunc scE = splitFunc sc /\
  tokenFunc scE = tokenFunc sc /\ maxBufSize scE = maxBufSize sc.
Proof.
  induction cs as [|c2 cs IH]; intros c sc w wm fuel scE wE rs Hopen Hc Hst Hw Hf Hrun Hok;
    rewrite WriteAll_cons in Hrun;
    destruct (Write fuel sc w c) as [[[sc1 w1] [n1 e1]]| | |] eqn:HW; try discriminate.
  - simpl in Hrun. injection Hrun as <- <- <-.
    apply Forall_inv in Hok. simpl in Hok. subst e1.
    simpl concat in *. rewrite app_nil_r in *.
    destruct (Write_instance _ _ _ _ _ _ _ Hopen HW) as [H1 [H2 [H3 [H4 _]]]].
    repeat split; auto.
    rewrite (Write_obs sc wm w c fuel fuel); auto using weq_sym.
    now rewrite HW.
  - destruct (WriteAll fuel sc1 w1 (c2 :: cs)) as [[[sc2 w2] rs']| | |] eqn:HA;
      try discriminate.
    injection Hrun as <- <- <-.
    pose proof (Forall_inv Hok) as Hok1. simpl in Hok1. subst e1.
    apply Forall_inv_tail in Hok.
    destruct (Write_instance _ _ _ _ _ _ _ Hopen HW) as [H1 [H2 [H3 [H4 [_ H5]]]]].
    change (concat (c :: c2 :: cs)) with (c ++ concat (c2 :: cs)) in *.
    rewrite !length_app in Hf. rewrite length_app in H5.
    assert (Hf1 : (length (pending sc1 ++ concat (c2 :: cs)) < fuel)%nat).
    { rewrite length_app. lia. }
    destruct (IH c2 sc1 w1 w1 fuel sc2 w2 rs') as [Hobs [G1 [G2 [G3 G4]]]];
      auto using weq_refl; try (rewrite H2; assumption).
    repeat split; try congruence.
    rewrite <- Hobs.
    apply (Write_merge sc w wm c (concat (c2 :: cs)) fuel fuel fuel sc1 w1 n1); auto;
      rewrite !length_app; lia.
Qed.

Lemma sc_ext (sc sc' : ScannerWriter TS) :
  buf sc = buf sc' -> maxBufSize sc = maxBufSize sc' -> closed sc = closed sc' ->
  splitFunc sc = splitFunc sc' -> tokenFunc sc = tokenFunc sc' -> sc = sc'.
Proof. destruct sc, sc'; simpl; intros; subst; reflexivity. Qed.

Lemma Flush_weq sc w w' :
  weq w w' ->
  fst (fst (Flush sc w)) = fst (fst (Flush sc w')) /\
  snd (Flush sc w) = snd (Flush sc w') /\
  weq (snd (fst (Flush sc w))) (snd (fst (Flush sc w'))).
Proof.
  intros Hw. unfold Flush.
  destruct (closed sc); [simpl; auto|].
  destruct (buf sc) as [[|b0 b]|]; simpl; auto.
  destruct (splitFunc sc (b0 :: b) true) as [[adv token] [e|]]; simpl;
    auto using weq_log.
  destruct token as [[|t0 t]|]; simpl; auto using weq_log.
  destruct (callToken_weq (set_buf sc None)
              (log w (SplitCall (b0 :: b) true adv (Some (t0 :: t)) None))
              (log w' (SplitCall (b0 :: b) true adv (Some (t0 :: t)) None))
              (t0 :: t)) as [He Hw2]; [now apply weq_log|].
  destruct (callToken (set_buf sc None) (log w _) (t0 :: t)) as [w2 terr].
  destruct (callToken (set_buf sc None) (log w' _) (t0 :: t)) as [w2' terr'].
  simpl in *. auto.
Qed.

(** C1, as the code has it. Let the boundary function keep its contract and
    be stable under the arrival of more bytes, and let every [Write] of a
    caller that writes the input in chunks to a new instance be accepted.
    Then the one [Write] of the whole input is accepted too, leaves the same
    instance and a callback in the same state, and the tokens delivered once
    the instance is flushed are the same in the same order. *)
Theorem chunked_writes_deliver_the_same_tokens
        (split : SplitFunc) (maxBuf : Z) (tf : TokenFunc TS) (cb0 : TS)
        (chunks : list bytes) (fuel : nat) sc1 w1 rs :
  split_contract split -> split_stable split ->
  (length (concat chunks) < fuel)%nat ->
  WriteAll fuel (NewScannerWriter split maxBuf tf) (mkWorld cb0 []) chunks
  = Ret (sc1, w1, rs) ->
  Forall (fun r => snd r = None) rs ->
  (exists w1',
     Write fuel (NewScannerWriter split maxBuf tf) (mkWorld cb0 []) (concat chunks)
     = Ret (sc1, w1', (len (concat chunks), None)) /\
     cb w1' = cb w1 /\ delivered (calls w1') = delivered (calls w1)) /\
  (exists tokens,
     sessionTokens fuel (NewScannerWriter split maxBuf tf) (mkWorld cb0 []) chunks
     = Some tokens /\
     sessionTokens fuel (NewScannerWriter split maxBuf tf) (mkWorld cb0 [])
                   [concat chunks]
     = Some tokens).
Proof.
  intros Hc Hst Hf Hrun Hok.
  set (sc0 := NewScannerWriter split maxBuf tf) in *.
  set (w0 := mkWorld cb0 []) in *.
  assert (Hopen : closed sc0 = false) by reflexivity.
  assert (Hsp : splitFunc sc0 = split) by reflexivity.
  assert (Hpend : pending sc0 = []) by reflexivity.
  assert (Hsb : set_buf sc0 None = sc0) by reflexivity.
  clearbody sc0 w0. rewrite <- Hsp in Hc, Hst.
  assert (Hone : exists w1',
     Write fuel sc0 w0 (concat chunks) = Ret (sc1, w1', (len (concat chunks), None)) /\
     weq w1' w1).
  { destruct chunks as [|c cs].
    - simpl in Hrun. injection Hrun as <- <- _.
      rewrite (Write_loop _ _ _ _ Hopen), Hpend, Hsb.
      destruct fuel as [|fuel]; [simpl in Hf; lia|].
      exists w0. split; [reflexivity|apply weq_refl].
    - destruct (WriteAll_as_one_Write cs c sc0 w0 w0 fuel sc1 w1 rs)
        as [Hobs [G1 [G2 [G3 G4]]]]; auto using weq_refl.
      { now rewrite Hpend. }
      destruct (Write fuel sc0 w0 (concat (c :: cs)))
        as [[[sc1' w1'] [n' e']]| | |] eqn:HW; simpl in Hobs; try discriminate.
      injection Hobs as Hb Hcb Hdel ->.
      assert (Hsc : sc1' = sc1).
      { destruct (Write_instance sc0 w0 _ _ _ _ _ Hopen HW) as [H1 [H2 [H3 [H4 _]]]].
        apply sc_ext; congruence. }
      subst sc1'.
      assert (Hn : n' = len (concat (c :: cs))).
      { rewrite (Write_loop sc0 w0 _ _ Hopen) in HW.
        apply writeLoop_post in HW as [evs [_ Hp]].
        remember (n', @None error) as r eqn:Hr.
        destruct Hp; inversion Hr; auto. }
      subst n'. exists w1'. split; [reflexivity|now split]. }
  destruct Hone as [w1' [HW Hw]].
  split.
  - exists w1'. destruct Hw as [H1 H2]. auto.
  - unfold sessionTokens. rewrite Hrun, WriteAll_cons, HW. cbn [WriteAll].
    destruct (Flush_weq sc1 w1' w1 Hw) as [_ [_ Hdel]]. destruct Hdel as [_ Hdel].
    destruct (Flush sc1 w1) as [[s2 w2] e2].
    destruct (Flush sc1 w1') as [[s2' w2'] e2'].
    simpl in Hdel. exists (delivered (calls w2)). split; congruence.
Qed.

End Properties.

(** *** The callbacks of the tests keep the contract *)

Lemma leadingSpaces_le (d : bytes) : (leadingSpaces d <= length d)%nat.
Proof. induction d as [|b d IH]; simpl; [lia|]. destruct (isSpace b); simpl; lia. Qed.

Lemma firstSpace_lt (d : bytes) i : firstSpace d = Some i -> (i < length d)%nat.
Proof.
  revert i. induction d as [|b d IH]; simpl; intros i H; [discriminate|].
  destruct (isSpace b).
  - injection H as <-. lia.
  - destruct (firstSpace d) as [j|]; [|discriminate].
    injection H as <-. specialize (IH j eq_refl). lia.
Qed.

Lemma firstSpace_app (d e : bytes) i :
  firstSpace d = Some i ->
  firstSpace (d ++ e) = Some i /\ firstn i (d ++ e) = firstn i d.
Proof.
  revert i. induction d as [|b d IH]; simpl; intros i H; [discriminate|].
  destruct (isSpace b).
  - injection H as <-. auto.
  - destruct (firstSpace d) as [j|]; [|discriminate].
    injection H as <-. destruct (IH j eq_refl) as [-> H2]. simpl. now rewrite H2.
Qed.

Lemma leadingSpaces_app (d e : bytes) :
  leadingSpaces (d ++ e)
  = (leadingSpaces d + leadingSpaces (skipn (leadingSpaces d) d ++ e))%nat.
Proof.
  induction d as [|b d IH]; simpl; [reflexivity|].
  destruct (isSpace b) eqn:Hb; simpl.
  - now rewrite IH.
  - now rewrite Hb.
Qed.

Lemma leadingSpaces_word (d e : bytes) :
  skipn (leadingSpaces d) d <> [] ->
  leadingSpaces (d ++ e) = leadingSpaces d.
Proof.
  induction d as [|b d IH]; simpl; [congruence|].
  destruct (isSpace b); simpl; auto.
Qed.

Lemma ScanWords_contract : split_contract ScanWords.
Proof.
  intros d adv tok _ H. unfold ScanWords in H.
  pose proof (leadingSpaces_le d) as Hle.
  destruct (firstSpace (skipn (leadingSpaces d) d)) as [i|] eqn:Hfs.
  - apply firstSpace_lt in Hfs. rewrite length_skipn in Hfs.
    injection H as <- <-. unfold len. split; [lia|]. intros _. lia.
  - simpl in H. injection H as <- <-. unfold len. split; [lia|]. congruence.
Qed.

Lemma ScanWords_stable : split_stable ScanWords.
Proof.
  split.
  - intros d e adv tok _ H. unfold ScanWords in *.
    destruct (firstSpace (skipn (leadingSpaces d) d)) as [i|] eqn:Hfs;
      [|simpl in H; discriminate].
    assert (Hne : skipn (leadingSpaces d) d <> []).
    { intros Heq. rewrite Heq in Hfs. discriminate. }
    rewrite (leadingSpaces_word d e Hne).
    rewrite skipn_app_le by apply leadingSpaces_le.
    destruct (firstSpace_app _ e _ Hfs) as [-> ->]. exact H.
  - intros d e adv _ _ Hpos H.
    assert (Hadv : adv = Z.of_nat (leadingSpaces d)).
    { unfold ScanWords in H.
      destruct (firstSpace (skipn (leadingSpaces d) d)); [discriminate|].
      simpl in H. now injection H as <-. }
    subst adv. rewrite Nat2Z.id. clear H Hpos.
    unfold ScanWords. simpl andb.
    rewrite (leadingSpaces_app d e).
    set (s := leadingSpaces d).
    set (k := leadingSpaces (skipn s d ++ e)).
    rewrite Nat.add_comm, <- skipn_skipn.
    rewrite (skipn_app_le s d e) by apply leadingSpaces_le.
    destruct (firstSpace (skipn k (skipn s d ++ e))) as [i|].
    + f_equal. f_equal. lia.
    + f_equal. f_equal. lia.
Qed.

(** *** The theorems at the inputs of the tests *)

(** With [maxBufSize = 1], writing ["ab"] returns, and what it returns is
    the overflow: zero bytes, [io.ErrShortBuffer], nothing pending. With a
    token callback that fails, writing ["ab c"] returns zero bytes and the
    error of the callback. *)
Lemma Write_all_or_first_error_witness :
  closed tinyWords = false /\
  (exists r, Write 3 tinyWords world0 ["a"; "b"]%byte = Ret r) /\
  (forall sc' w' n err,
      Write 3 tinyWords world0 ["a"; "b"]%byte = Ret (sc', w', (n, err)) ->
      n = 0 /\ err = Some ErrShortBuffer /\ buf sc' = None) /\
  (exists r, Write 5 failingWords world0 ["a"; "b"; " "; "c"]%byte = Ret r) /\
  (forall sc' w' n err,
      Write 5 failingWords world0 ["a"; "b"; " "; "c"]%byte
      = Ret (sc', w', (n, err)) ->
      n = 0 /\ err = Some tokenErr /\ buf sc' = None).
Proof.
  split; [reflexivity|].
  destruct (Write_all_or_first_error unit tinyWords world0 ["a"; "b"]%byte 3 eq_refl)
    as [Hpost Hret].
  destruct (Write_all_or_first_error unit failingWords world0
              ["a"; "b"; " "; "c"]%byte 5 eq_refl) as [Hpost' Hret'].
  split; [|split; [|split]].
  - apply Hret; [apply ScanWords_contract|simpl; lia].
  - intros sc' w' n err Hrun.
    destruct (Hpost _ _ _ _ Hrun) as [evs [Hcalls [_ [_ Hov]]]].
    apply (Hov ["a"; "b"]%byte); [|reflexivity].
    vm_compute in Hrun. injection Hrun as _ <- _ _.
    simpl in Hcalls. subst evs. left. reflexivity.
  - apply Hret'; [apply ScanWords_contract|simpl; lia].
  - intros sc' w' n err Hrun.
    destruct (Hpost' _ _ _ _ Hrun) as [evs [Hcalls [_ [Hres _]]]].
    assert (Hevs : evs = [SplitCall ["a"; "b"; " "; "c"]%byte false 3
                                    (Some ["a"; "b"]%byte) None]
                         ++ [TokenCall ["a"; "b"]%byte (Some tokenErr)]).
    { vm_compute in Hrun. injection Hrun as _ <- _ _.
      simpl in Hcalls. subst evs. reflexivity. }
    destruct Hres as [[_ [_ Hall]]|[Hn [Hb [evs0 [ev [e [He [Herr [_ Hlast]]]]]]]]].
    + exfalso. rewrite Hevs in Hall. apply Forall_app in Hall as [_ Hall].
      apply Forall_inv in Hall. discriminate Hall.
    + rewrite Hevs in He. apply app_inj_tail in He as [_ <-].
      split; [exact Hn|]. split; [|exact Hb]. rewrite Herr.
      destruct Hlast as [Hl|[_ [d [Hd _]]]]; [|discriminate Hd].
      simpl in Hl. congruence.
Defined.

(** ["ab"] is pending and [" c"] is written: the word ["ab"] is handed to
    the callback, which fails; nothing is pending afterwards. *)
Lemma failed_Write_leaves_nothing_pending_witness :
  Write 5 pendingWords world0 [" "; "c"]%byte
  = Ret (set_buf pendingWords None,
         mkWorld tt [SplitCall ["a"; "b"; " "; "c"]%byte false 3
                               (Some ["a"; "b"]%byte) None;
                     TokenCall ["a"; "b"]%byte (Some tokenErr)],
         (0, Some tokenErr)) /\
  buf (set_buf pendingWords None) = None /\
  Flush (set_buf pendingWords None)
        (mkWorld tt [SplitCall ["a"; "b"; " "; "c"]%byte false 3
                               (Some ["a"; "b"]%byte) None;
                     TokenCall ["a"; "b"]%byte (Some tokenErr)])
  = (set_buf pendingWords None,
     mkWorld tt [SplitCall ["a"; "b"; " "; "c"]%byte false 3
                           (Some ["a"; "b"]%byte) None;
                 TokenCall ["a"; "b"]%byte (Some tokenErr)],
     None).
Proof.
  split; [reflexivity|].
  destruct (failed_Write_leaves_nothing_pending unit pendingWords world0
              [" "; "c"]%byte 5 _ _ _ _ eq_refl eq_refl)
    as [_ [_ [Hb [_ [Hf _]]]]].
  split; [exact Hb|exact Hf].
Defined.

(** C3 at an input: the word ["ab"] is pending and the callback fails.
    [Close] returns the callback's error and leaves the instance open;
    the second [Close] then succeeds and closes it. *)
Lemma Close_runs_Flush_witness :
  Close pendingWords world0
  = (set_buf pendingWords None,
     mkWorld tt [SplitCall ["a"; "b"]%byte true 2 (Some ["a"; "b"]%byte) None;
                 TokenCall ["a"; "b"]%byte (Some tokenErr)],
     Some tokenErr) /\
  closed (set_buf pendingWords None) = false.
Proof.
  destruct (Close_runs_Flush unit pendingWords world0 _ _ _ eq_refl eq_refl)
    as [HC [Hopen _]].
  split; [exact HC|exact Hopen].
Defined.

(** C3 as stated fails: after a [Close] that failed in the token callback,
    the next [Close] does not fail again. *)
Lemma Close_again_succeeds_counterexample :
  Write 3 failingWords world0 ["a"; "b"]%byte
  = Ret (pendingWords,
         mkWorld tt [SplitCall ["a"; "b"]%byte false 0 None None],
         (2, None)) /\
  snd (Close pendingWords world0) = Some tokenErr /\
  closed (fst (fst (Close pendingWords world0))) = false /\
  snd (Close (fst (fst (Close pendingWords world0)))
             (snd (fst (Close pendingWords world0)))) = None /\
  closed (fst (fst (Close (fst (fst (Close pendingWords world0)))
                          (snd (fst (Close pendingWords world0)))))) = true.
Proof. repeat split. Qed.

(** The scenario of the specification: ["a b"] then ["c"] give the token
    ["a"] and, at the flush, ["bc"]; so does ["a bc"] written at once. *)
Lemma chunked_writes_deliver_the_same_tokens_witness :
  sessionTokens 5 okWords world0 [["a"; " "; "b"]; ["c"]]%byte
  = Some [["a"]; ["b"; "c"]]%byte /\
  sessionTokens 5 okWords world0 [["a"; " "; "b"; "c"]]%byte
  = Some [["a"]; ["b"; "c"]]%byte.
Proof.
  destruct (chunked_writes_deliver_the_same_tokens unit ScanWords 1024 okTokenFunc tt
              [["a"; " "; "b"]; ["c"]]%byte 5 _ _ _
              ScanWords_contract ScanWords_stable
              ltac:(simpl; lia) eq_refl ltac:(repeat constructor))
    as [_ [tokens [H1 H2]]].
  assert (Ht : tokens = [["a"]; ["b"; "c"]]%byte).
  { vm_compute in H1. now injection H1 as <-. }
  subst tokens. split; [exact H1|exact H2].
Defined.

(** C1 as stated fails: a boundary function that hands over whatever it is
    given makes one token of each chunk. *)
Lemma chunking_changes_tokens_counterexample :
  sessionTokens 3 okAll world0 [["a"]; ["b"]]%byte = Some [["a"]; ["b"]]%byte /\
  sessionTokens 3 okAll world0 [concat [["a"]; ["b"]]]%byte = Some [["a"; "b"]]%byte /\
  sessionTokens 3 okAll world0 [["a"]; ["b"]]%byte
  <> sessionTokens 3 okAll world0 [concat [["a"]; ["b"]]]%byte.
Proof. repeat split. discriminate. Qed.

(** *** What the callbacks are shown *)

Section Scanning.

Variable TS : Type.
Implicit Types (sc : ScannerWriter TS) (w : world TS).

(** A call made while [whole] is scanned by [Write]: the boundary function
    is shown a non-empty tail of [whole], and is not told that the input
    ends. *)
Definition scans (whole : bytes) (ev : event) : Prop :=
  match ev with
  | SplitCall d atEOF _ _ _ =>
    atEOF = false /\ d <> [] /\ exists pre, whole = pre ++ d
  | TokenCall _ _ => True
  end.

(** The tokens the boundary function returned. *)
Fixpoint found (evs : list event) : list bytes :=
  match evs with
  | [] => []
  | SplitCall _ _ _ (Some tok) None :: evs' => tok :: found evs'
  | _ :: evs' => found evs'
  end.

Lemma scans_tail whole n ev :
  scans (skipn n whole) ev -> scans whole ev.
Proof.
  destruct ev as [d a adv t e|t e]; simpl; auto.
  intros [Ha [Hd [pre Hp]]]. split; [exact Ha|]. split; [exact Hd|].
  exists (firstn n whole ++ pre). rewrite <- app_assoc, <- Hp.
  now rewrite firstn_skipn.
Qed.

Lemma found_app (l1 l2 : list event) : found (l1 ++ l2) = found l1 ++ found l2.
Proof.
  induction l1 as [|[d a adv [t|] [e|]|t e] l1 IH]; simpl; auto. now rewrite IH.
Qed.

Lemma writeLoop_scans fuel : forall sc w data dl sc' w' r,
  writeLoop fuel sc w data dl = Ret (sc', w', r) ->
  (exists evs, calls w' = calls w ++ evs /\ Forall (scans data) evs /\
               delivered evs = found evs) /\
  (sc' = sc \/
   exists d, sc' = set_buf sc (Some d) /\ d <> [] /\ len d <= maxBufSize sc /\
             exists pre, data = pre ++ d).
Proof.
  induction fuel as [|fuel IH]; intros sc w data dl sc' w' r H; [discriminate|].
  cbn [writeLoop] in H.
  destruct (0 <? len data) eqn:Hlen.
  2:{ injection H as <- <- <-. split; [|now left].
      exists []. rewrite app_nil_r. repeat split. constructor. }
  assert (Hne : data <> []).
  { intros ->. discriminate. }
  destruct (splitFunc sc data false) as [[adv token] err] eqn:Hsp.
  assert (Hself : forall a t e, scans data (SplitCall data false a t e)).
  { intros a t e. split; [reflexivity|]. split; [exact Hne|]. now exists []. }
  destruct err as [e|].
  { injection H as <- <- <-. split; [|now left].
    eexists. split; [reflexivity|]. split; [constructor; [apply Hself|constructor]|].
    destruct token; reflexivity. }
  assert (Hnext : forall w2 ev2s,
      calls w2 = calls w ++ ev2s -> Forall (scans data) ev2s ->
      delivered ev2s = found ev2s ->
      (if 0 <? adv
       then if adv <=? len data
            then writeLoop fuel sc w2 (skipn (Z.to_nat adv) data) dl
            else Panic
       else writeLoop fuel sc w2 data dl) = Ret (sc', w', r) ->
      (exists evs, calls w' = calls w ++ evs /\ Forall (scans data) evs /\
                   delivered evs = found evs) /\
      (sc' = sc \/
       exists d, sc' = set_buf sc (Some d) /\ d <> [] /\ len d <= maxBufSize sc /\
                 exists pre, data = pre ++ d)).
  { intros w2 ev2s Hc Hq Hdf Hrun.
    assert (Hrec : exists n, writeLoop fuel sc w2 (skipn n data) dl = Ret (sc', w', r)).
    { destruct (0 <? adv); [destruct (adv <=? len data)|]; try discriminate.
      - eauto.
      - exists 0%nat. exact Hrun. }
    destruct Hrec as [n Hrec]. apply IH in Hrec as [[evs [Hc' [Hs Hd]]] Hsc].
    split.
    - exists (ev2s ++ evs). rewrite Hc', Hc, app_assoc. split; [reflexivity|].
      split.
      + apply Forall_app. split; [exact Hq|].
        eapply Forall_impl; [|exact Hs]. intros ev. apply scans_tail.
      + now rewrite delivered_app, found_app, Hdf, Hd.
    - destruct Hsc as [->|[d [-> [Hd1 [Hd2 [pre Hpre]]]]]]; [now left|right].
      exists d. repeat split; auto. exists (firstn n data ++ pre).
      rewrite <- app_assoc, <- Hpre. now rewrite firstn_skipn. }
  destruct token as [tok|].
  - destruct (callToken sc (log w (SplitCall data false adv (Some tok) None)) tok)
      as [w2 terr] eqn:Hct.
    apply callToken_calls in Hct as [Hc _]. simpl in Hc.
    destruct terr as [e|].
    + injection H as <- <- <-. split; [|now left]. eexists. split.
      * rewrite Hc, <- app_assoc. reflexivity.
      * split; [|reflexivity]. constructor; [apply Hself|].
        constructor; [exact I|constructor].
    + apply (Hnext w2 [SplitCall data false adv (Some tok) None; TokenCall tok None]);
        auto.
      * rewrite Hc, <- app_assoc. reflexivity.
      * constructor; [apply Hself|]. constructor; [exact I|constructor].
  - destruct (adv =? 0) eqn:Hadv.
    + destruct (maxBufSize sc <? len data) eqn:Hmax.
      * injection H as <- <- <-. split; [|now left].
        eexists. split; [reflexivity|]. split; [|reflexivity].
        constructor; [apply Hself|constructor].
      * injection H as <- <- <-. split.
        -- eexists. split; [reflexivity|]. split; [|reflexivity].
           constructor; [apply Hself|constructor].
        -- right. exists data. repeat split; auto.
           ++ now apply Z.ltb_ge.
           ++ now exists [].
    + apply (Hnext (log w (SplitCall data false adv None None))
                   [SplitCall data false adv None None]); auto.
Qed.

(** [Write] shows the boundary function only non-empty tails of the pending
    bytes followed by [data], never announcing the end of the input; the
    token callback is handed the tokens the boundary function returned, in
    that order; and what [Write] leaves pending is a non-empty tail of those
    bytes, of at most [maxBufSize] bytes. *)
Theorem Write_scans_the_unconsumed_tail sc w data fuel sc' w' r :
  closed sc = false ->
  Write fuel sc w data = Ret (sc', w', r) ->
  (exists evs, calls w' = calls w ++ evs /\
               Forall (scans (pending sc ++ data)) evs /\
               delivered evs = found evs) /\
  (forall d, buf sc' = Some d ->
             d <> [] /\ len d <= maxBufSize sc /\
             exists pre, pending sc ++ data = pre ++ d).
Proof.
  intros Hopen Hrun. rewrite (Write_loop _ _ _ _ _ Hopen) in Hrun.
  apply writeLoop_scans in Hrun as [Hevs Hsc]. split; [exact Hevs|].
  intros d Hd. destruct Hsc as [->|[d' [-> Hd']]].
  - discriminate.
  - simpl in Hd. injection Hd as ->. exact Hd'.
Qed.

(** [Flush], when the boundary function does not fail: whatever advance and
    token it returns, no byte is pending afterwards, at most one token has
    been handed to the callback, and a second [Flush] makes no call. *)
Theorem Flush_empties_the_buffer sc w sc1 w1 err :
  closed sc = false ->
  (forall b, buf sc = Some b -> snd (splitFunc sc b true) = None) ->
  Flush sc w = (sc1, w1, err) ->
  pending sc1 = [] /\
  (exists toks, delivered (calls w1) = delivered (calls w) ++ toks /\
                (length toks <= 1)%nat) /\
  forall w2, Flush sc1 w2 = (sc1, w2, None).
Proof.
  intros Hopen Hsplit H. unfold Flush in H. rewrite Hopen in H.
  assert (Hnil : forall toks : list bytes, toks = [] ->
            delivered (calls w) = delivered (calls w) ++ toks /\
            (length toks <= 1)%nat).
  { intros toks ->. rewrite app_nil_r. simpl. split; [reflexivity|lia]. }
  destruct (buf sc) as [[|b0 b]|] eqn:Hb.
  - injection H as <- <- <-. unfold pending, Flush. rewrite Hopen, Hb.
    split; [reflexivity|]. split; [exists []; now apply Hnil|reflexivity].
  - specialize (Hsplit _ eq_refl).
    destruct (splitFunc sc (b0 :: b) true) as [[adv tok] serr]. simpl in Hsplit.
    subst serr.
    assert (Hdone : pending (set_buf sc None) = [] /\
                    forall w2, Flush (set_buf sc None) w2 = (set_buf sc None, w2, None)).
    { split; [reflexivity|]. intros w2. now apply Flush_empty. }
    destruct tok as [[|t0 t]|].
    + injection H as <- <- <-. split; [apply Hdone|]. split; [|apply Hdone].
      exists []. simpl. rewrite delivered_app. simpl. split; [reflexivity|lia].
    + destruct (callToken (set_buf sc None) _ (t0 :: t)) as [w2 terr] eqn:Hct.
      injection H as <- <- <-. split; [apply Hdone|]. split; [|apply Hdone].
      apply callToken_calls in Hct as [Hc _]. simpl in Hc.
      exists [t0 :: t]. rewrite Hc, !delivered_app. simpl.
      rewrite app_nil_r. split; [reflexivity|lia].
    + injection H as <- <- <-. split; [apply Hdone|]. split; [|apply Hdone].
      exists []. simpl. rewrite delivered_app. simpl. split; [reflexivity|lia].
  - injection H as <- <- <-. unfold pending, Flush. rewrite Hopen, Hb.
    split; [reflexivity|]. split; [exists []; now apply Hnil|reflexivity].
Qed.

End Scanning.

(** ["a b"] written to a new instance scanning words: the word ["a"] is
    delivered, the byte ["b"] is pending, a tail of what was written. *)
Lemma Write_scans_the_unconsumed_tail_witness :
  closed okWords = false /\
  exists sc' w',
    Write 5 okWords world0 ["a"; " "; "b"]%byte = Ret (sc', w', (3, None)) /\
    buf sc' = Some ["b"]%byte /\
    (["b"]%byte <> [] /\ len ["b"]%byte <= maxBufSize okWords /\
     exists pre, pending okWords ++ ["a"; " "; "b"]%byte = pre ++ ["b"]%byte).
Proof.
  split; [reflexivity|]. eexists. eexists.
  match goal with
  | |- ?W = Ret (?s, ?x, _) /\ _ =>
    assert (Hw : W = Ret (s, x, (3, None))) by reflexivity
  end.
  split; [exact Hw|]. split; [reflexivity|].
  destruct (Write_scans_the_unconsumed_tail unit okWords world0 _ 5 _ _ _ eq_refl Hw)
    as [_ Hb].
  apply Hb. reflexivity.
Defined.

(** The word ["ab"] is pending; [Flush] hands it to the callback, which
    fails: nothing is pending afterwards. *)
Lemma Flush_empties_the_buffer_witness :
  snd (Flush pendingWords world0) = Some tokenErr /\
  pending (fst (fst (Flush pendingWords world0))) = [] /\
  forall w2, Flush (fst (fst (Flush pendingWords world0))) w2
             = (fst (fst (Flush pendingWords world0)), w2, None).
Proof.
  split; [reflexivity|].
  destruct (Flush_empties_the_buffer unit pendingWords world0 _ _ _ eq_refl
              ltac:(intros b Hb; injection Hb as <-; reflexivity) eq_refl)
    as [Hp [_ Hf]].
  split; [exact Hp|exact Hf].
Defined.

End ScannerWriter.

(** ** Sources ([io.Reader]) *)

Module Source.

(** The source

    An [io.Reader] is a script of what its successive [Read] calls return:
    a chunk of bytes and an error, possibly nil. A [Read] into a buffer
    shorter than the chunk returns the part that fits and leaves the rest
    for the next call. Past the end of the script [Read] returns
    [(0, io.EOF)]. *)
Definition source : Type := list (bytes * option error).

(** The loop of [io.ReadAtLeast(r, buf, need)], from the documentation of
    package [io]: call [r.Read] until [need] bytes are in or an error
    comes. *)
Fixpoint readAtLeast (s : source) (need : nat) : bytes * option error * source :=
  match need with
  | O => ([], None, s)
  | S _ =>
    match s with
    | [] => ([], Some EOF, [])
    | (d, e) :: s' =>
      if (need <? length d)%nat
      then (firstn need d, None, (skipn need d, e) :: s')
      else
        match e with
        | Some err => (d, Some err, s')
        | None =>
          let '(d2, e2, s2) := readAtLeast s' (need - length d) in
          (d ++ d2, e2, s2)
        end
    end
  end.

(** [io.ReadFull(r, buf)] with [len(buf) = n]: the error is dropped when the
    buffer is full, and [io.EOF] after some bytes is [io.ErrUnexpectedEOF]. *)
Definition ReadFull (s : source) (n : nat) : bytes * option error * source :=
  let '(d, e, s') := readAtLeast s n in
  let e' :=
    if (n <=? length d)%nat then None
    else
      match e with
      | Some EOF => if (0 <? length d)%nat then Some ErrUnexpectedEOF else Some EOF
      | _ => e
      end in
  (d, e', s').

(** A source that yields its bytes chunk by chunk without error, as
    [bytes.Reader] or a file does. *)
Definition finite (chunks : list bytes) : source :=
  map (fun d => (d, None)) chunks.

End Source.

(** ** async_reader.go *)

Module AsyncReader.

Import Source.

(** *** The reader *)

Record segment : Type := mkSegment {
  b : bytes;
  err : option error
}.

(** Where the goroutine of [Start] stands: not spawned, at the top of its
    loop ([bufs.Get] and [io.ReadFull]), at its [select] with a segment in
    hand, at the deferred [close(ar.c)], or gone. *)
Inductive goroutine : Type :=
| NotStarted
| AtGet
| AtSelect (s : segment)
| AtClose
| Exited.

(** The fields of the Go struct, the channel [c] as its queue and its closed
    flag (it is nil while the goroutine is [NotStarted]), the channel
    [abort] as its closed flag, the pool [bufs] as the lengths of the
    slices it holds, and the goroutine. *)
Record AsyncReader : Type := mkAsyncReader {
  r : source;
  cq : list segment;
  cclosed : bool;
  abort : bool;
  bufs : list nat;
  buf : bytes;
  BufferSize : Z;
  ChannelSize : Z;
  task : goroutine
}.

Definition NewAsyncReader (src : source) : AsyncReader :=
  mkAsyncReader src [] false false [] [] (Z.shiftl 2 20) 32 NotStarted.

(** [make(chan segment, ar.ChannelSize)] panics on a negative size. *)
Definition Start (ar : AsyncReader) : outcome AsyncReader :=
  if ChannelSize ar <? 0 then Panic
  else Ret (mkAsyncReader (r ar) [] false (abort ar) [] (buf ar)
                          (BufferSize ar) (ChannelSize ar) AtGet).

(** What the scheduler lets happen next while a [Read] is in progress: a
    step of the goroutine, a step of the [Read], or a call of [Close] from
    elsewhere. [hit] is what the pool answers to [Get]: one of the slices
    it holds, or none, and a new slice is made. [preferAbort] settles a
    [select] both cases of which are ready. *)
Inductive tick : Type :=
| Producer (hit : option nat) (preferAbort : bool)
| Consumer (preferAbort : bool)
| CloseCall.

Definition removeNth {A : Type} (n : nat) (l : list A) : list A :=
  firstn n l ++ skipn (S n) l.

(** [ar.bufs.Get().([]byte)]: the length of the slice obtained and the pool
    left; [make([]byte, ar.BufferSize)] panics on a negative size. *)
Definition poolGet (ar : AsyncReader) (hit : option nat) : outcome (nat * list nat) :=
  match hit with
  | Some i =>
    match nth_error (bufs ar) i with
    | Some n => Ret (n, removeNth i (bufs ar))
    | None =>
      if BufferSize ar <? 0 then Panic else Ret (Z.to_nat (BufferSize ar), bufs ar)
    end
  | None =>
    if BufferSize ar <? 0 then Panic else Ret (Z.to_nat (BufferSize ar), bufs ar)
  end.

(** [ar.c <- s] can proceed: there is room in the queue, or the channel is
    unbuffered and the receiver waits. *)
Definition sendReady (ar : AsyncReader) (receiverWaits : bool) : bool :=
  (len (cq ar) <? ChannelSize ar) ||
  (receiverWaits && (ChannelSize ar =? 0) && (length (cq ar) =? 0)%nat).

(** One step of the goroutine; [Blocked] when it cannot move. *)
Definition stepProducer (hit : option nat) (preferAbort receiverWaits : bool)
           (ar : AsyncReader) : outcome AsyncReader :=
  match task ar with
  | NotStarted | Exited => Blocked
  | AtGet =>
    match poolGet ar hit with
    | Ret (n, pool) =>
      let '(d, e, src) := ReadFull (r ar) n in
      Ret (mkAsyncReader src (cq ar) (cclosed ar) (abort ar) pool (buf ar)
                         (BufferSize ar) (ChannelSize ar)
                         (AtSelect (mkSegment d e)))
    | Panic => Panic
    | Blocked => Blocked
    | OutOfFuel => OutOfFuel
    end
  | AtSelect s =>
    if abort ar && (preferAbort || negb (sendReady ar receiverWaits))
    then Ret (mkAsyncReader (r ar) (cq ar) (cclosed ar) (abort ar) (bufs ar)
                            (buf ar) (BufferSize ar) (ChannelSize ar) AtClose)
    else if sendReady ar receiverWaits
    then Ret (mkAsyncReader (r ar) (cq ar ++ [s]) (cclosed ar) (abort ar)
                            (bufs ar) (buf ar) (BufferSize ar) (ChannelSize ar)
                            (match err s with Some _ => AtClose | None => AtGet end))
    else Blocked
  | AtClose =>
    if cclosed ar then Panic
    else Ret (mkAsyncReader (r ar) (cq ar) true (abort ar) (bufs ar) (buf ar)
                            (BufferSize ar) (ChannelSize ar) Exited)
  end.

(** [s.err != nil && s.err != io.EOF && s.err != io.ErrUnexpectedEOF]. *)
Definition fatal (e : option error) : bool :=
  match e with
  | None | Some EOF | Some ErrUnexpectedEOF => false
  | Some _ => true
  end.

(** The end of [Read], after its loop: hand over up to [k] buffered bytes. *)
Definition deliver (ar : AsyncReader) (k : nat)
  : AsyncReader * (bytes * option error) :=
  if (k <? length (buf ar))%nat
  then (mkAsyncReader (r ar) (cq ar) (cclosed ar) (abort ar) (bufs ar)
                      (skipn k (buf ar)) (BufferSize ar) (ChannelSize ar) (task ar),
        (firstn k (buf ar), None))
  else if (0 <? length (buf ar))%nat
  then (mkAsyncReader (r ar) (cq ar) (cclosed ar) (abort ar) (bufs ar)
                      [] (BufferSize ar) (ChannelSize ar) (task ar),
        (buf ar, None))
  else (ar, ([], Some EOF)).

(** [<-ar.c] can proceed: a segment is queued or the channel is closed
    (a nil channel never is ready). *)
Definition recvReady (ar : AsyncReader) : bool :=
  match task ar with
  | NotStarted => false
  | _ => negb (length (cq ar) =? 0)%nat || cclosed ar
  end.

(** [Read(b)] with [k = len(b)], under the schedule [sched]; it returns the
    bytes copied into [b] and the error. [OutOfFuel]: the schedule is over
    and the call has not returned. *)
Fixpoint Read (sched : list tick) (ar : AsyncReader) (k : nat)
  : outcome (AsyncReader * (bytes * option error)) :=
  if (length (buf ar) <? k)%nat then
    match sched with
    | [] => OutOfFuel
    | Producer hit pa :: sched' =>
      match stepProducer hit pa true ar with
      | Ret ar' => Read sched' ar' k
      | Blocked => Read sched' ar k
      | Panic => Panic
      | OutOfFuel => OutOfFuel
      end
    | CloseCall :: sched' =>
      if abort ar then Panic
      else Read sched'
                (mkAsyncReader (r ar) (cq ar) (cclosed ar) true (bufs ar) (buf ar)
                               (BufferSize ar) (ChannelSize ar) (task ar)) k
    | Consumer pa :: sched' =>
      if abort ar && (pa || negb (recvReady ar)) then Ret (ar, ([], None))
      else if recvReady ar then
        match cq ar with
        | [] => Ret (deliver ar k)
        | s :: q =>
          if fatal (err s)
          then Ret (mkAsyncReader (r ar) q (cclosed ar) (abort ar) (bufs ar)
                                  (buf ar) (BufferSize ar) (ChannelSize ar)
                                  (task ar),
                    ([], err s))
          else Read sched'
                    (mkAsyncReader (r ar) q (cclosed ar) (abort ar)
                                   (length (b s) :: bufs ar) (buf ar ++ b s)
                                   (BufferSize ar) (ChannelSize ar) (task ar)) k
        end
      else Read sched' ar k
    end
  else Ret (deliver ar k).

(** [Close()]: [close(ar.abort)], which panics the second time. *)
Definition Close (ar : AsyncReader) : outcome (AsyncReader * option error) :=
  if abort ar then Panic
  else Ret (mkAsyncReader (r ar) (cq ar) (cclosed ar) true (bufs ar) (buf ar)
                          (BufferSize ar) (ChannelSize ar) (task ar), None).

(** A caller reading to the end of the data, as [ioutil.ReadAll] does: one
    [Read] after the other, each with its buffer length and the schedule it
    runs under, until one returns an error. The result is the bytes read
    and that error. *)
Fixpoint readToEnd (calls : list (nat * list tick)) (ar : AsyncReader)
         (acc : bytes) : outcome (bytes * option error) :=
  match calls with
  | [] => OutOfFuel
  | (k, sched) :: calls' =>
    match Read sched ar k with
    | Ret (ar', (data, None)) => readToEnd calls' ar' (acc ++ data)
    | Ret (_, (data, Some e)) => Ret (acc ++ data, Some e)
    | Panic => Panic
    | Blocked => Blocked
    | OutOfFuel => OutOfFuel
    end
  end.

(** The fair schedule: the two tasks take turns, [n] times; the pool always
    makes a new slice. *)
Fixpoint fair (n : nat) : list tick :=
  match n with
  | O => []
  | S n' => Producer None false :: Consumer false :: fair n'
  end.

(** [ar.BufferSize = bs; ar.ChannelSize = cs], set before [Start]. *)
Definition withSizes (ar : AsyncReader) (bs cs : Z) : AsyncReader :=
  mkAsyncReader (r ar) (cq ar) (cclosed ar) (abort ar) (bufs ar) (buf ar)
                bs cs (task ar).

(** A started reader of the bytes ["abc"] with segments of two bytes: the
    segment ["ab"] is queued, the byte ["c"] is still in the source. *)
Definition halfway : AsyncReader :=
  mkAsyncReader (finite [["c"]]%byte) [mkSegment ["a"; "b"]%byte None]
                false false [] [] 2 4 AtGet.

(** *** What a run keeps true *)

(** The bytes a source still holds. *)
Definition content (s : source) : bytes := concat (map fst s).

(** The bytes queued in the channel. *)
Definition qdata (q : list segment) : bytes := concat (map b q).

(** The bytes the goroutine has read and not yet sent. *)
Definition inhand (g : goroutine) : bytes :=
  match g with
  | AtSelect s => b s
  | _ => []
  end.

Definition errorFree (s : source) : Prop := Forall (fun it => snd it = None) s.

Definition noClose (t : tick) : Prop :=
  match t with CloseCall => False | _ => True end.

(** The state of a started reader of a finite source with bytes [src], of
    which [delivered] have been returned by [Read], nobody having called
    [Close]: no byte is lost or repeated on the way, the channel is closed
    exactly when the goroutine is gone, and the goroutine leaves its loop
    only once the source is exhausted. *)
Definition inv (src : bytes) (ar : AsyncReader) (delivered : bytes) : Prop :=
  abort ar = false /\
  0 <= ChannelSize ar /\
  errorFree (r ar) /\
  Forall (fun s => fatal (err s) = false) (cq ar) /\
  delivered ++ buf ar ++ qdata (cq ar) ++ inhand (task ar) ++ content (r ar) = src /\
  (cclosed ar = true <-> task ar = Exited) /\
  match task ar with
  | NotStarted => False
  | AtGet => True
  | AtSelect s => fatal (err s) = false /\ (err s <> None -> content (r ar) = [])
  | AtClose | Exited => content (r ar) = []
  end.

(** A bound on the steps still to be taken: three for each byte yet to be
    read (a segment is read, sent and received) and four for the last,
    empty or short segment and the close. *)
Definition mu (ar : AsyncReader) : nat :=
  length (cq ar) +
  match task ar with
  | NotStarted | Exited => 0
  | AtGet => 3 * length (content (r ar)) + 4
  | AtSelect s =>
    match err s with
    | None => 3 * length (content (r ar)) + 6
    | Some _ => 3
    end
  | AtClose => 1
  end.

Lemma content_cons d e (s : source) : content ((d, e) :: s) = d ++ content s.
Proof. reflexivity. Qed.

Lemma readAtLeast_finite (s : source) : forall n d e s',
  errorFree s -> readAtLeast s n = (d, e, s') ->
  d ++ content s' = content s /\ errorFree s' /\
  ((e = None /\ length d = n) \/
   (e = Some EOF /\ s' = [] /\ (length d < n)%nat)).
Proof.
  induction s as [|[c ce] s IH]; intros n d e s' Hs H.
  - destruct n; simpl in H; injection H as <- <- <-; simpl.
    + repeat split; auto.
    + repeat split; auto. right. repeat split; auto. lia.
  - destruct n as [|n]; [simpl in H; injection H as <- <- <-; simpl; auto|].
    pose proof (Forall_inv Hs) as Hce. simpl in Hce. subst ce.
    pose proof (Forall_inv_tail Hs) as Hs'.
    cbn [readAtLeast] in H.
    destruct (S n <? length c)%nat eqn:Hlt.
    + apply Nat.ltb_lt in Hlt. injection H as <- <- <-.
      assert (Hcat : firstn (S n) c ++ content ((skipn (S n) c, None) :: s)
                     = content ((c, None) :: s)).
      { rewrite (content_cons c None s), (content_cons (skipn (S n) c) None s).
        rewrite (app_assoc (firstn (S n) c)). now rewrite (firstn_skipn (S n) c). }
      split; [exact Hcat|]. split.
      * constructor; auto.
      * assert (Hl : length (firstn (S n) c) = S n) by (rewrite length_firstn; lia).
        left. split; [reflexivity|exact Hl].
    + apply Nat.ltb_ge in Hlt.
      destruct (readAtLeast s (S n - length c)) as [[d2 e2] s2] eqn:Hrec.
      injection H as <- <- <-.
      destruct (IH _ _ _ _ Hs' Hrec) as [H1 [H2 H3]].
      rewrite content_cons, <- app_assoc, H1. repeat split; auto.
      rewrite length_app. destruct H3 as [[-> H3]|[-> [-> H3]]].
      * left. split; auto. lia.
      * right. repeat split; auto. lia.
Qed.

(** [io.ReadFull] on a finite source: the next [n] bytes and no error, or
    all the bytes left, fewer than [n], and an end-of-data error. *)
Lemma ReadFull_finite (s : source) n d e s' :
  errorFree s -> ReadFull s n = (d, e, s') ->
  d ++ content s' = content s /\ errorFree s' /\ fatal e = false /\
  ((e = None /\ length d = n) \/
   (e <> None /\ content s' = [] /\ (length d < n)%nat)).
Proof.
  intros Hs H. unfold ReadFull in H.
  destruct (readAtLeast s n) as [[d1 e1] s1] eqn:Hr.
  injection H as <- <- <-.
  destruct (readAtLeast_finite _ _ _ _ _ Hs Hr) as [H1 [H2 H3]].
  split; auto. split; auto.
  destruct H3 as [[-> H3]|[-> [-> H3]]].
  - replace (n <=? length d1)%nat with true by (symmetry; apply Nat.leb_le; lia).
    auto.
  - replace (n <=? length d1)%nat with false by (symmetry; apply Nat.leb_gt; lia).
    destruct (0 <? length d1)%nat; simpl; split; auto; right; repeat split; auto;
      discriminate.
Qed.

Lemma qdata_app (q1 q2 : list segment) : qdata (q1 ++ q2) = qdata q1 ++ qdata q2.
Proof. unfold qdata. now rewrite map_app, concat_app. Qed.

(** A step of the goroutine keeps the invariant and leaves the reassembly
    buffer alone. *)
Lemma stepProducer_inv src ar delivered hit pa w ar' :
  inv src ar delivered ->
  stepProducer hit pa w ar = Ret ar' ->
  inv src ar' delivered /\ buf ar' = buf ar /\
  BufferSize ar' = BufferSize ar /\ ChannelSize ar' = ChannelSize ar.
Proof.
  destruct ar as [r0 cq0 cc ab pool bf bs cs g].
  unfold inv, stepProducer. simpl.
  intros [Hab [Hcs [Hr [Hq [Heq [Hcl Hg]]]]]] Hstep. subst ab.
  destruct g as [| |s| |]; try discriminate.
  - destruct (poolGet _ hit) as [[n pool']| | |]; try discriminate.
    destruct (ReadFull r0 n) as [[d e] src'] eqn:HRF.
    injection Hstep as <-. simpl.
    destruct (ReadFull_finite _ _ _ _ _ Hr HRF) as [H1 [H2 [H3 H4]]].
    repeat split; auto.
    + now rewrite H1.
    + intros H. apply Hcl in H. discriminate.
    + discriminate.
    + intros He. destruct H4 as [[-> _]|[_ [H4 _]]]; [congruence|exact H4].
  - simpl in Hstep. destruct (sendReady _ w); [|discriminate].
    injection Hstep as <-. simpl. destruct Hg as [Hf Hd].
    repeat split; auto.
    + apply Forall_app. split; auto.
    + rewrite qdata_app. unfold qdata at 2. simpl. rewrite app_nil_r.
      rewrite <- Heq. simpl.
      destruct (err s); simpl; now rewrite <- !app_assoc.
    + intros H. apply Hcl in H. discriminate.
    + destruct (err s); discriminate.
    + destruct (err s) eqn:He; auto. apply Hd. discriminate.
  - destruct cc.
    + destruct Hcl as [Hcl _]. specialize (Hcl eq_refl). discriminate.
    + injection Hstep as <-. simpl. repeat split; auto.
Qed.

Lemma deliver_inv src ar delivered k ar' data e :
  inv src ar delivered ->
  deliver ar k = (ar', (data, e)) ->
  (e = None /\ inv src ar' (delivered ++ data) /\ (0 < k -> data <> [])%nat /\
   mu ar' = mu ar /\ BufferSize ar' = BufferSize ar) \/
  (e = Some EOF /\ data = [] /\ buf ar = [] /\ ar' = ar).
Proof.
  destruct ar as [r0 cq0 cc ab pool bf bs cs g].
  unfold inv, deliver. simpl.
  intros [Hab [Hcs [Hr [Hq [Heq [Hcl Hg]]]]]] H.
  destruct (k <? length bf)%nat eqn:Hk.
  - apply Nat.ltb_lt in Hk. injection H as <- <- <-. left. simpl.
    repeat split; auto; try apply Hcl.
    + rewrite <- Heq. rewrite <- (firstn_skipn k bf) at 3. now rewrite <- !app_assoc.
    + intros Hpos Hnil. apply (f_equal (@length byte)) in Hnil.
      rewrite length_firstn in Hnil. simpl in Hnil. lia.
  - destruct (0 <? length bf)%nat eqn:H0.
    + apply Nat.ltb_lt in H0. injection H as <- <- <-. left. simpl.
      repeat split; auto; try apply Hcl.
      * rewrite <- Heq. now rewrite <- !app_assoc.
      * intros _ Hnil. subst bf. simpl in H0. lia.
    + apply Nat.ltb_ge in H0. injection H as <- <- <-. right.
      repeat split; auto. destruct bf; auto. simpl in H0. lia.
Qed.

(** Safety of one [Read]: under any schedule without [Close], a returning
    [Read] hands over the next bytes of the source, or reports the end of
    the data once all of them have been delivered. *)
Lemma Read_inv src sched : forall ar delivered k ar' data e,
  inv src ar delivered -> Forall noClose sched ->
  Read sched ar k = Ret (ar', (data, e)) ->
  (e = None /\ inv src ar' (delivered ++ data) /\ (0 < k -> data <> [])%nat) \/
  (e = Some EOF /\ data = [] /\ ((0 < k)%nat -> delivered = src)).
Proof.
  induction sched as [|t sched IH]; intros ar delivered k ar' data e Hinv Hnc Hrun.
  - cbn [Read] in Hrun. destruct (length (buf ar) <? k)%nat eqn:Hlen; [discriminate|].
    injection Hrun as Hrun. apply Nat.ltb_ge in Hlen.
    destruct (deliver_inv _ _ _ _ _ _ _ Hinv Hrun) as [[-> [H1 [H2 _]]]|[-> [-> [Hb _]]]];
      [left; auto|right].
    repeat split; auto. intros Hk. rewrite Hb in Hlen. simpl in Hlen. lia.
  - cbn [Read] in Hrun. destruct (length (buf ar) <? k)%nat eqn:Hlen.
    2:{ injection Hrun as Hrun. apply Nat.ltb_ge in Hlen.
        destruct (deliver_inv _ _ _ _ _ _ _ Hinv Hrun)
          as [[-> [H1 [H2 _]]]|[-> [-> [Hb _]]]]; [left; auto|right].
        repeat split; auto. intros Hk. rewrite Hb in Hlen. simpl in Hlen. lia. }
    pose proof (Forall_inv Hnc) as Ht. apply Forall_inv_tail in Hnc.
    destruct t as [hit pa|pa|]; [| |destruct Ht].
    + destruct (stepProducer hit pa true ar) as [ar1| | |] eqn:Hstep; try discriminate.
      * destruct (stepProducer_inv _ _ _ _ _ _ _ Hinv Hstep) as [Hinv1 _].
        eapply IH; eauto.
      * eapply IH; eauto.
    + pose proof Hinv as [Hab [Hcs [Hr [Hq [Heq [Hcl Hg]]]]]].
      rewrite Hab in Hrun. simpl in Hrun.
      destruct (recvReady ar) eqn:Hrr; [|eapply IH; eauto].
      destruct (cq ar) as [|s q] eqn:Hcq.
      * injection Hrun as Hrun.
        destruct (deliver_inv _ _ _ _ _ _ _ Hinv Hrun)
          as [[-> [H1 [H2 _]]]|[-> [-> [Hb _]]]]; [left; auto|right].
        repeat split; auto. intros _.
        unfold recvReady in Hrr. rewrite Hcq in Hrr. simpl in Hrr.
        assert (Hex : task ar = Exited).
        { apply Hcl. destruct (task ar); auto; discriminate. }
        rewrite Hex in Hg, Heq. rewrite Hb, Hg in Heq. simpl in Heq.
        now rewrite app_nil_r in Heq.
      * pose proof (Forall_inv Hq) as Hf. rewrite Hf in Hrun.
        eapply IH; [|exact Hnc|exact Hrun].
        destruct ar as [r0 cq0 cc ab pool bf bs cs g]. simpl in *. subst cq0.
        unfold inv. simpl. repeat split; auto.
        -- now apply Forall_inv_tail in Hq.
        -- rewrite <- Heq. unfold qdata. simpl. now rewrite <- !app_assoc.
        -- apply Hcl.
        -- apply Hcl.
Qed.

(** [Read] takes a segment off the queue. *)
Lemma receive_inv src ar delivered s q :
  inv src ar delivered -> cq ar = s :: q ->
  fatal (err s) = false /\
  inv src (mkAsyncReader (r ar) q (cclosed ar) (abort ar)
                         (length (b s) :: bufs ar) (buf ar ++ b s)
                         (BufferSize ar) (ChannelSize ar) (task ar)) delivered.
Proof.
  destruct ar as [r0 cq0 cc ab pool bf bs cs g]. unfold inv. simpl.
  intros [Hab [Hcs [Hr [Hq [Heq [Hcl Hg]]]]]] ->.
  split; [exact (Forall_inv Hq)|].
  repeat split; auto; try apply Hcl.
  - now apply Forall_inv_tail in Hq.
  - rewrite <- Heq. unfold qdata. simpl. now rewrite <- !app_assoc.
Qed.

(** In turn with a waiting [Read], the goroutine moves, and the bound
    decreases, or it is blocked and the [Read] can receive. *)
Lemma stepProducer_fair src ar delivered :
  inv src ar delivered -> 0 < BufferSize ar ->
  match stepProducer None false true ar with
  | Ret ar' => (mu ar' < mu ar)%nat
  | Blocked => recvReady ar = true
  | _ => False
  end.
Proof.
  destruct ar as [r0 cq0 cc ab pool bf bs cs g].
  unfold inv, stepProducer, recvReady, mu, poolGet, sendReady. simpl.
  intros [Hab [Hcs [Hr [Hq [Heq [Hcl Hg]]]]]] Hbs. subst ab.
  destruct g as [| |s| |]; simpl.
  - destruct Hg.
  - replace (bs <? 0) with false by (symmetry; apply Z.ltb_ge; lia).
    destruct (ReadFull r0 (Z.to_nat bs)) as [[d e] src'] eqn:HRF. simpl.
    destruct (ReadFull_finite _ _ _ _ _ Hr HRF) as [H1 [H2 [H3 H4]]].
    apply (f_equal (@length byte)) in H1. rewrite length_app in H1.
    destruct H4 as [[-> H4]|[He _]].
    + lia.
    + destruct e; [lia|congruence].
  - destruct ((len cq0 <? cs) || (cs =? 0) && (length cq0 =? 0)%nat) eqn:Hsend.
    + simpl. rewrite length_app. simpl. destruct (err s); lia.
    + apply orb_false_iff in Hsend as [H1 H2].
      destruct cq0 as [|s0 q]; [|reflexivity].
      unfold len in H1. simpl in H1, H2. apply Z.ltb_ge in H1.
      rewrite andb_true_r in H2. apply Z.eqb_neq in H2. lia.
  - destruct cc; simpl; [|lia].
    destruct Hcl as [Hcl _]. specialize (Hcl eq_refl). discriminate.
  - destruct Hcl as [_ Hcl]. rewrite (Hcl eq_refl). apply orb_true_r.
Qed.

Lemma Read_Producer hit pa sched ar k :
  Read (Producer hit pa :: sched) ar k =
  if (length (buf ar) <? k)%nat then
    match stepProducer hit pa true ar with
    | Ret ar' => Read sched ar' k
    | Blocked => Read sched ar k
    | Panic => Panic
    | OutOfFuel => OutOfFuel
    end
  else Ret (deliver ar k).
Proof. reflexivity. Qed.

(** Liveness of one [Read]: under the fair schedule, long enough, it
    returns. *)
Lemma Read_fair_returns src n : forall ar delivered k,
  inv src ar delivered -> 0 < BufferSize ar -> (mu ar < n)%nat ->
  exists ar' res,
    Read (fair n) ar k = Ret (ar', res) /\
    (mu ar' <= mu ar)%nat /\ BufferSize ar' = BufferSize ar.
Proof.
  induction n as [|n IH]; intros ar delivered k Hinv Hbs Hmu; [lia|].
  assert (Hdel : exists ar' res, Ret (deliver ar k) = Ret (ar', res) /\
                   (mu ar' <= mu ar)%nat /\ BufferSize ar' = BufferSize ar).
  { destruct (deliver ar k) as [ar' [data e]] eqn:Hd. exists ar', (data, e).
    split; auto.
    destruct (deliver_inv _ _ _ _ _ _ _ Hinv Hd)
      as [[_ [_ [_ [H1 H2]]]]|[_ [_ [_ ->]]]]; split; auto; lia. }
  assert (Hrecv : forall ar1 d1,
             inv src ar1 d1 -> BufferSize ar1 = BufferSize ar ->
             (mu ar1 <= mu ar)%nat -> buf ar1 = buf ar ->
             (mu ar1 < mu ar)%nat \/ recvReady ar1 = true ->
             exists ar' res,
               Read (Consumer false :: fair n) ar1 k = Ret (ar', res) /\
               (mu ar' <= mu ar)%nat /\ BufferSize ar' = BufferSize ar).
  { intros ar1 d1 Hinv1 Hbs1 Hle Hbuf Hor.
    cbn [Read]. destruct (length (buf ar1) <? k)%nat eqn:Hlen.
    2:{ destruct (deliver ar1 k) as [ar' [data e]] eqn:Hd. exists ar', (data, e).
        split; auto.
        destruct (deliver_inv _ _ _ _ _ _ _ Hinv1 Hd)
          as [[_ [_ [_ [H1 H2]]]]|[_ [_ [_ ->]]]]; split; auto; lia. }
    pose proof Hinv1 as [Hab _]. rewrite Hab. simpl.
    destruct (recvReady ar1) eqn:Hrr.
    - destruct (cq ar1) as [|s q] eqn:Hcq.
      + destruct (deliver ar1 k) as [ar' [data e]] eqn:Hd. exists ar', (data, e).
        split; auto.
        destruct (deliver_inv _ _ _ _ _ _ _ Hinv1 Hd)
          as [[_ [_ [_ [H1 H2]]]]|[_ [_ [_ ->]]]]; split; auto; lia.
      + destruct (receive_inv _ _ _ _ _ Hinv1 Hcq) as [Hf Hinv2]. rewrite Hf.
        assert (Hmu2 : (S (mu (mkAsyncReader (r ar1) q (cclosed ar1) (abort ar1)
                                 (length (b s) :: bufs ar1) (buf ar1 ++ b s)
                                 (BufferSize ar1) (ChannelSize ar1) (task ar1)))
                        = mu ar1)%nat).
        { unfold mu. simpl. rewrite Hcq. simpl. reflexivity. }
        destruct (IH _ _ k Hinv2) as [ar' [res [H1 [H2 H3]]]];
          [simpl; lia|lia|].
        rewrite Hab in H1.
        exists ar', res. simpl in H3. split; auto. split; [lia|congruence].
    - destruct Hor as [Hlt|Hr]; [|discriminate].
      destruct (IH _ _ k Hinv1) as [ar' [res [H1 [H2 H3]]]]; [lia|lia|].
      exists ar', res. split; auto. split; [lia|congruence]. }
  change (fair (S n)) with (Producer None false :: Consumer false :: fair n).
  rewrite Read_Producer.
  destruct (length (buf ar) <? k)%nat eqn:Hlen; [|exact Hdel].
  pose proof (stepProducer_fair _ _ _ Hinv Hbs) as Hfair.
  destruct (stepProducer None false true ar) as [ar1| | |] eqn:Hstep;
    try contradiction.
  - destruct (stepProducer_inv _ _ _ _ _ _ _ Hinv Hstep) as [Hinv1 [Hb1 [Hbs1 _]]].
    apply (Hrecv ar1 delivered); auto. lia.
  - apply (Hrecv ar delivered); auto.
Qed.

Lemma fair_noClose n : Forall noClose (fair n).
Proof. induction n; simpl; repeat constructor; auto. Qed.

Lemma content_finite chunks : content (finite chunks) = concat chunks.
Proof. unfold content, finite. rewrite map_map. simpl. now rewrite map_id. Qed.

Lemma inv_length src ar delivered :
  inv src ar delivered -> (length delivered <= length src)%nat.
Proof.
  intros [_ [_ [_ [_ [Heq _]]]]]. rewrite <- Heq, length_app. lia.
Qed.

(** Safety of reading to the end: whatever the schedules, if the caller
    sees the end of the data it has read exactly the source. *)
Lemma readToEnd_safe src calls : forall ar delivered acc out e,
  inv src ar delivered ->
  Forall (fun c => (0 < fst c)%nat /\ Forall noClose (snd c)) calls ->
  readToEnd calls ar acc = Ret (out, e) ->
  e = Some EOF /\ exists rest, out = acc ++ rest /\ delivered ++ rest = src.
Proof.
  induction calls as [|[k sched] calls IH]; intros ar delivered acc out e Hinv Hc Hrun;
    [discriminate|].
  pose proof (Forall_inv Hc) as [Hk Hnc]. simpl in Hk, Hnc.
  apply Forall_inv_tail in Hc. cbn [readToEnd] in Hrun.
  destruct (Read sched ar k) as [[ar' [data e1]]| | |] eqn:HR; try discriminate.
  destruct (Read_inv _ _ _ _ _ _ _ _ Hinv Hnc HR) as [[-> [Hinv' _]]|[-> [-> Hd]]].
  - destruct (IH _ _ _ _ _ Hinv' Hc Hrun) as [-> [rest [-> Hrest]]].
    split; auto. exists (data ++ rest). now rewrite <- !app_assoc in *.
  - injection Hrun as <- <-. split; auto. exists []. rewrite !app_nil_r. auto.
Qed.

(** Liveness of reading to the end: under the fair schedule the caller
    does see the end of the data. *)
Lemma readToEnd_fair src k n m : forall ar delivered acc,
  inv src ar delivered -> 0 < BufferSize ar -> (mu ar < n)%nat -> (0 < k)%nat ->
  (length src < m + length delivered)%nat ->
  exists rest,
    readToEnd (repeat (k, fair n) m) ar acc = Ret (acc ++ rest, Some EOF) /\
    delivered ++ rest = src.
Proof.
  induction m as [|m IH]; intros ar delivered acc Hinv Hbs Hmu Hk Hm.
  - apply inv_length in Hinv. simpl in Hm. lia.
  - cbn [repeat readToEnd].
    destruct (Read_fair_returns src n ar delivered k Hinv Hbs Hmu)
      as [ar' [[data e] [HR [Hmu' Hbs']]]].
    rewrite HR.
    destruct (Read_inv _ _ _ _ _ _ _ _ Hinv (fair_noClose n) HR)
      as [[-> [Hinv' Hne]]|[-> [-> Hd]]].
    + assert (Hlen : (length src < m + length (delivered ++ data))%nat).
      { rewrite length_app. specialize (Hne Hk).
        destruct data; [congruence|simpl; lia]. }
      assert (Hbs2 : 0 < BufferSize ar') by (rewrite Hbs'; exact Hbs).
      assert (Hmu2 : (mu ar' < n)%nat) by lia.
      destruct (IH ar' (delivered ++ data) (acc ++ data) Hinv' Hbs2 Hmu2 Hk Hlen)
        as [rest [H1 H2]].
      exists (data ++ rest). rewrite <- !app_assoc in *. split; assumption.
    + exists []. rewrite !app_nil_r. split; [reflexivity|].
      apply Hd. exact Hk.
Qed.

(** C6. For every finite source, handed over in chunks of any sizes, every
    positive segment size and every queue capacity (zero included), the
    bytes returned by successive [Read] calls with non-empty buffers after
    [Start], up to the call that reports the end of the data, are exactly
    the bytes of the source: under every schedule of the goroutine and the
    reads (nobody calling [Close]) a caller that gets an error gets
    [io.EOF] after the whole source; and under the fair schedule it does
    get there. *)
Theorem reads_reproduce_the_source (chunks : list bytes) (segmentSize queueCap : Z) :
  0 < segmentSize -> 0 <= queueCap ->
  exists ar,
    Start (withSizes (NewAsyncReader (finite chunks)) segmentSize queueCap) = Ret ar /\
    (forall calls out e,
        Forall (fun c => (0 < fst c)%nat /\ Forall noClose (snd c)) calls ->
        readToEnd calls ar [] = Ret (out, e) ->
        out = concat chunks /\ e = Some EOF) /\
    (forall k n m,
        (0 < k)%nat ->
        (3 * length (concat chunks) + 4 < n)%nat ->
        (length (concat chunks) < m)%nat ->
        readToEnd (repeat (k, fair n) m) ar [] = Ret (concat chunks, Some EOF)).
Proof.
  intros Hbs Hcs. unfold Start, withSizes, NewAsyncReader. simpl.
  replace (queueCap <? 0) with false by (symmetry; apply Z.ltb_ge; lia).
  eexists. split; [reflexivity|].
  set (ar := mkAsyncReader (finite chunks) [] false false [] []
                           segmentSize queueCap AtGet).
  assert (Hinv : inv (concat chunks) ar []).
  { unfold inv, ar. simpl. repeat split; auto; try discriminate.
    - unfold errorFree, finite. apply Forall_map. simpl. now apply Forall_forall.
    - apply content_finite. }
  split.
  - intros calls out e Hc Hrun.
    destruct (readToEnd_safe _ _ _ _ _ _ _ Hinv Hc Hrun) as [-> [rest [-> <-]]].
    auto.
  - intros k n m Hk Hn Hm.
    destruct (readToEnd_fair (concat chunks) k n m ar [] [] Hinv) as [rest [H1 H2]];
      auto.
    + unfold mu, ar. simpl. rewrite content_finite. lia.
    + simpl. lia.
    + simpl in H1, H2. now subst rest.
Qed.

(** C10. With nothing in the reassembly buffer, [Read] into a buffer of
    length zero returns [(0, io.EOF)] at once: no step of the schedule is
    taken and the reader is left as it was, whatever the source and the
    queue still hold. *)
Theorem Read_zero_length_reports_EOF (sched : list tick) (ar : AsyncReader) :
  buf ar = [] -> Read sched ar 0 = Ret (ar, ([], Some EOF)).
Proof.
  intros Hb. destruct sched; cbn [Read]; rewrite Hb; simpl; unfold deliver;
    rewrite Hb; reflexivity.
Qed.

(** Three bytes in segments of two, read one byte at a time, and with a
    buffer of five bytes. *)
Lemma reads_reproduce_the_source_witness :
  exists ar,
    Start (withSizes (NewAsyncReader (finite [["a"; "b"]; ["c"]]%byte)) 2 1) = Ret ar /\
    readToEnd (repeat (1%nat, fair 14) 4) ar [] = Ret (["a"; "b"; "c"]%byte, Some EOF) /\
    readToEnd (repeat (5%nat, fair 14) 4) ar [] = Ret (["a"; "b"; "c"]%byte, Some EOF).
Proof.
  destruct (reads_reproduce_the_source [["a"; "b"]; ["c"]]%byte 2 1)
    as [ar [HS [_ Hlive]]]; [lia|lia|].
  exists ar. split; [exact HS|].
  split; apply Hlive; simpl; lia.
Defined.

(** [halfway] holds two queued bytes and one more in its source: a [Read]
    of one byte gets ["a"], yet a [Read] of no byte reports the end. *)
Lemma Read_zero_length_reports_EOF_witness :
  buf halfway = [] /\
  Read (fair 3) halfway 0 = Ret (halfway, ([], Some EOF)) /\
  (exists ar', Read (fair 3) halfway 1 = Ret (ar', (["a"]%byte, None))).
Proof.
  split; [reflexivity|]. split.
  - apply (Read_zero_length_reports_EOF (fair 3) halfway). reflexivity.
  - eexists. reflexivity.
Defined.

(** *** Edges of the reader *)

(** [Read] on a reader that was not started: the channel [ar.c] is nil, so
    until somebody calls [Close] a [Read] that needs more bytes than are
    buffered has not returned, however long the schedule. *)
Theorem Read_before_Start_never_returns
        (sched : list tick) (ar : AsyncReader) (k : nat) :
  task ar = NotStarted -> abort ar = false -> Forall noClose sched ->
  (length (buf ar) < k)%nat ->
  Read sched ar k = OutOfFuel.
Proof.
  intros Ht Ha Hnc Hk. induction sched as [|t sched IH]; cbn [Read];
    replace (length (buf ar) <? k)%nat with true by (symmetry; now apply Nat.ltb_lt).
  - reflexivity.
  - pose proof (Forall_inv Hnc) as Hn. apply Forall_inv_tail in Hnc.
    specialize (IH Hnc).
    destruct t as [hit pa|pa|]; [| |destruct Hn].
    + unfold stepProducer. rewrite Ht. exact IH.
    + rewrite Ha. cbn [andb]. unfold recvReady. rewrite Ht. exact IH.
Qed.

Lemma Read_before_Start_never_returns_witness :
  Read (fair 3) (NewAsyncReader (finite [["a"; "b"; "c"]]%byte)) 1 = OutOfFuel.
Proof.
  apply Read_before_Start_never_returns; try reflexivity.
  - apply fair_noClose.
  - simpl. lia.
Defined.

Lemma deliver_shape ar k ar' data e :
  deliver ar k = (ar', (data, e)) ->
  (length data <= k)%nat /\ abort ar' = abort ar /\
  match e with
  | Some x => data = [] /\ x = EOF
  | None => data = [] -> k = 0%nat
  end.
Proof.
  unfold deliver. intros H.
  destruct (k <? length (buf ar))%nat eqn:Hk.
  - apply Nat.ltb_lt in Hk. injection H as <- <- <-. simpl.
    split; [rewrite length_firstn; lia|]. split; [reflexivity|].
    intros Hnil. apply (f_equal (@length byte)) in Hnil.
    rewrite length_firstn in Hnil. simpl in Hnil. lia.
  - apply Nat.ltb_ge in Hk. destruct (0 <? length (buf ar))%nat eqn:H0.
    + apply Nat.ltb_lt in H0. injection H as <- <- <-. simpl.
      split; [exact Hk|]. split; [reflexivity|].
      intros Hnil. rewrite Hnil in H0. simpl in H0. lia.
    + injection H as <- <- <-. simpl. split; [lia|]. auto.
Qed.

Lemma fatal_Some e : fatal e = true ->
  exists x, e = Some x /\ x <> EOF /\ x <> ErrUnexpectedEOF.
Proof.
  destruct e as [[]|]; simpl; intros H; try discriminate;
    eexists; (split; [reflexivity|split; discriminate]).
Qed.

Lemma Read_shape sched : forall ar k ar' data e,
  Read sched ar k = Ret (ar', (data, e)) ->
  (length data <= k)%nat /\
  match e with
  | Some x => data = [] /\ x <> ErrUnexpectedEOF
  | None => data = [] -> k = 0%nat \/ abort ar' = true
  end.
Proof.
  assert (Hd : forall ar k ar' data e,
             deliver ar k = (ar', (data, e)) ->
             (length data <= k)%nat /\
             match e with
             | Some x => data = [] /\ x <> ErrUnexpectedEOF
             | None => data = [] -> k = 0%nat \/ abort ar' = true
             end).
  { intros ar k ar' data e H. apply deliver_shape in H as [H1 [_ H2]].
    split; [exact H1|]. destruct e as [x|].
    - destruct H2 as [-> ->]. split; [reflexivity|discriminate].
    - intros Hn. left. auto. }
  induction sched as [|t sched IH]; intros ar k ar' data e H; cbn [Read] in H;
    destruct (length (buf ar) <? k)%nat eqn:Hlen;
    try discriminate; try (injection H as H'; exact (Hd _ _ _ _ _ H')).
  destruct t as [hit pa|pa|].
  - destruct (stepProducer hit pa true ar) as [ar1| | |]; try discriminate; eauto.
  - destruct (abort ar && (pa || negb (recvReady ar))) eqn:Hab.
    + injection H as <- <- <-. simpl. split; [lia|]. intros _. right.
      apply andb_true_iff in Hab. apply Hab.
    + destruct (recvReady ar); [|eauto].
      destruct (cq ar) as [|s q]; [injection H as H'; exact (Hd _ _ _ _ _ H')|].
      destruct (fatal (err s)) eqn:Hf; [|eauto].
      injection H as <- <- <-. simpl. split; [lia|].
      apply fatal_Some in Hf as [x [-> [_ Hx]]]. auto.
  - destruct (abort ar); [discriminate|]. eauto.
Qed.

(** What a [Read] returns: at most [len(b)] bytes; with an error no byte,
    and never [io.ErrUnexpectedEOF] (a short last segment is data, not a
    failure); and it returns no byte and no error only for an empty [b] or
    once [Close] was called. *)
Theorem Read_result_shape (sched : list tick) (ar : AsyncReader) (k : nat)
        (ar' : AsyncReader) (data : bytes) (e : option error) :
  Read sched ar k = Ret (ar', (data, e)) ->
  (length data <= k)%nat /\
  match e with
  | Some x => data = [] /\ x <> ErrUnexpectedEOF
  | None => data = [] -> k = 0%nat \/ abort ar' = true
  end.
Proof. apply Read_shape. Qed.

(** The segment ["ab"] is queued: a [Read] of two bytes returns it. *)
Lemma Read_result_shape_witness :
  exists ar',
    Read [Consumer false] halfway 2 = Ret (ar', (["a"; "b"]%byte, None)) /\
    (length ["a"; "b"]%byte <= 2)%nat.
Proof.
  eexists.
  match goal with
  | |- ?R = Ret (?a, _) /\ _ =>
    assert (Hr : R = Ret (a, (["a"; "b"]%byte, None))) by reflexivity
  end.
  split; [exact Hr|].
  exact (proj1 (Read_result_shape _ _ _ _ _ _ Hr)).
Defined.

(** *** A segment size of zero *)

(** A reader whose segments are empty: nothing is buffered, the channel
    and the pool hold empty slices only, and the goroutine is in its loop. *)
Definition spinning (ar : AsyncReader) : Prop :=
  BufferSize ar = 0 /\ abort ar = false /\ cclosed ar = false /\ buf ar = [] /\
  Forall (fun s => b s = [] /\ err s = None) (cq ar) /\
  Forall (fun n => n = 0%nat) (bufs ar) /\
  (task ar = AtGet \/ task ar = AtSelect (mkSegment [] None)).

Lemma ReadFull_zero (s : source) : ReadFull s 0 = ([], None, s).
Proof. destruct s; reflexivity. Qed.

Lemma Forall_removeNth {A : Type} (P : A -> Prop) n (l : list A) :
  Forall P l -> Forall P (removeNth n l).
Proof.
  intros H. unfold removeNth. apply Forall_app. split.
  - rewrite <- (firstn_skipn n l) in H. now apply Forall_app in H.
  - rewrite <- (firstn_skipn (S n) l) in H. now apply Forall_app in H.
Qed.

Lemma poolGet_spinning ar hit :
  spinning ar ->
  exists pool, poolGet ar hit = Ret (0%nat, pool) /\
               Forall (fun n => n = 0%nat) pool.
Proof.
  intros [Hbs [_ [_ [_ [_ [Hpool _]]]]]]. unfold poolGet. rewrite Hbs. simpl.
  destruct hit as [i|]; [|eauto].
  destruct (nth_error (bufs ar) i) as [n|] eqn:Hn; [|eauto].
  rewrite Forall_forall in Hpool.
  rewrite (Hpool n (nth_error_In _ _ Hn)). eexists. split; [reflexivity|].
  apply Forall_removeNth. now apply Forall_forall.
Qed.

(** The goroutine goes on reading and sending empty segments. *)
Lemma stepProducer_spinning hit pa w ar :
  spinning ar ->
  stepProducer hit pa w ar = Blocked \/
  exists ar', stepProducer hit pa w ar = Ret ar' /\ spinning ar'.
Proof.
  intros Hs. pose proof Hs as [Hbs [Hab [Hcc [Hbuf [Hq [Hpool Ht]]]]]].
  unfold stepProducer. destruct Ht as [Ht|Ht]; rewrite Ht.
  - destruct (poolGet_spinning ar hit Hs) as [pool [Hg Hp]].
    rewrite Hg, ReadFull_zero. right. eexists. split; [reflexivity|].
    repeat split; auto.
  - rewrite Hab. cbn [andb].
    destruct (sendReady ar w); [right|now left].
    eexists. split; [reflexivity|].
    repeat split; auto. apply Forall_app. split; [exact Hq|].
    constructor; [split; reflexivity|constructor].
Qed.

Lemma Read_spinning sched : forall ar k,
  spinning ar -> Forall noClose sched -> (0 < k)%nat ->
  Read sched ar k = OutOfFuel.
Proof.
  induction sched as [|t sched IH]; intros ar k Hs Hnc Hk; cbn [Read];
    pose proof Hs as [Hbs [Hab [Hcc [Hbuf [Hq [Hpool Ht]]]]]];
    replace (length (buf ar) <? k)%nat with true
      by (symmetry; apply Nat.ltb_lt; rewrite Hbuf; exact Hk);
    [reflexivity|].
  pose proof (Forall_inv Hnc) as Hn. apply Forall_inv_tail in Hnc.
  destruct t as [hit pa|pa|]; [| |destruct Hn].
  - destruct (stepProducer_spinning hit pa true ar Hs) as [->|[ar1 [-> Hs1]]];
      now apply IH.
  - rewrite Hab. cbn [andb]. unfold recvReady. rewrite Hcc.
    destruct (cq ar) as [|s q] eqn:Hcq.
    + destruct Ht as [-> | ->]; simpl; now apply IH.
    + pose proof (Forall_inv Hq) as [Hb He]. apply Forall_inv_tail in Hq.
      replace (match task ar with
               | NotStarted => false
               | _ => negb (length (s :: q) =? 0)%nat || false
               end) with true by (destruct Ht as [-> | ->]; reflexivity).
      rewrite He. cbn [fatal]. apply IH; auto.
      rewrite Hb, Hbuf. repeat split; auto. simpl. constructor; auto.
Qed.

(** With [BufferSize = 0] the goroutine sends empty segments for ever and
    [Read] appends them for ever: until somebody calls [Close], a [Read]
    into a non-empty buffer has not returned, however long the schedule,
    whatever the source holds. *)
Theorem zero_BufferSize_Read_never_returns
        (src : source) (queueCap : Z) (ar : AsyncReader) (sched : list tick)
        (k : nat) :
  Start (withSizes (NewAsyncReader src) 0 queueCap) = Ret ar ->
  Forall noClose sched -> (0 < k)%nat ->
  Read sched ar k = OutOfFuel.
Proof.
  intros HS Hnc Hk. apply Read_spinning; auto.
  unfold Start, withSizes, NewAsyncReader in HS. simpl in HS.
  destruct (queueCap <? 0); [discriminate|]. injection HS as <-.
  repeat split; auto.
Qed.

Lemma zero_BufferSize_Read_never_returns_witness :
  exists ar,
    Start (withSizes (NewAsyncReader (finite [["a"; "b"; "c"]]%byte)) 0 4) = Ret ar /\
    Read (fair 5) ar 1 = OutOfFuel.
Proof.
  eexists. split; [reflexivity|].
  apply (zero_BufferSize_Read_never_returns (finite [["a"; "b"; "c"]]%byte) 4).
  - reflexivity.
  - apply fair_noClose.
  - lia.
Defined.

(** *** The goroutine after [Close] *)

(** The goroutine running by itself, nobody receiving: each step with what
    the pool answers and what its select prefers. *)
Fixpoint producerAlone (steps : list (option nat * bool)) (ar : AsyncReader)
  : outcome AsyncReader :=
  match steps with
  | [] => Ret ar
  | (hit, pa) :: steps' =>
    match stepProducer hit pa false ar with
    | Ret ar' => producerAlone steps' ar'
    | Blocked => producerAlone steps' ar
    | Panic => Panic
    | OutOfFuel => OutOfFuel
    end
  end.

(** The steps the goroutine can still take once [abort] is closed: two for
    each free place of the channel, and the last select and the close. *)
Definition toExit (ar : AsyncReader) : nat :=
  let free := Z.to_nat (ChannelSize ar - len (cq ar)) in
  match task ar with
  | AtGet => 2 * free + 3
  | AtSelect _ => 2 * free + 2
  | AtClose => 1
  | NotStarted | Exited => 0
  end.

Definition closing (ar : AsyncReader) : Prop :=
  abort ar = true /\ task ar <> NotStarted /\ 0 <= BufferSize ar /\
  (cclosed ar = true <-> task ar = Exited).

Lemma stepProducer_closing hit pa ar :
  closing ar -> task ar <> Exited ->
  exists ar', stepProducer hit pa false ar = Ret ar' /\ closing ar' /\
              (toExit ar' < toExit ar)%nat.
Proof.
  intros [Hab [Hns [Hbs Hcl]]] Hne. unfold stepProducer, toExit.
  destruct (task ar) as [| |s| |] eqn:Ht; try contradiction.
  - assert (Hget : exists n pool, poolGet ar hit = Ret (n, pool)).
    { unfold poolGet.
      replace (BufferSize ar <? 0) with false by (symmetry; apply Z.ltb_ge; lia).
      destruct hit as [i|]; [destruct (nth_error (bufs ar) i)|]; eauto. }
    destruct Hget as [n [pool ->]].
    destruct (ReadFull (r ar) n) as [[d e] src]. eexists. split; [reflexivity|].
    simpl. split; [|lia]. repeat split; auto; try discriminate.
    intros Hc. apply Hcl in Hc. congruence.
  - rewrite Hab. cbn [andb]. unfold sendReady. cbn [andb]. rewrite orb_false_r.
    assert (Hcc : cclosed ar = true -> False).
    { intros Hc. apply Hcl in Hc. congruence. }
    destruct (len (cq ar) <? ChannelSize ar) eqn:Hroom.
    + apply Z.ltb_lt in Hroom. destruct pa; simpl.
      * eexists. split; [reflexivity|]. simpl. split; [|lia].
        repeat split; auto; try discriminate. intros Hc. now apply Hcc in Hc.
      * eexists. split; [reflexivity|]. simpl. split.
        -- repeat split; auto; try (destruct (err s); discriminate).
           intros Hc. now apply Hcc in Hc.
        -- rewrite len_app. change (len [s]) with 1.
           destruct (err s); lia.
    + rewrite orb_true_r. eexists. split; [reflexivity|]. simpl. split; [|lia].
      repeat split; auto; try discriminate. intros Hc. now apply Hcc in Hc.
  - destruct (cclosed ar) eqn:Hc.
    + destruct Hcl as [Hcl _]. specialize (Hcl eq_refl). congruence.
    + eexists. split; [reflexivity|]. simpl. split; [|lia].
      repeat split; auto. discriminate.
Qed.

Lemma producerAlone_exits steps : forall ar,
  closing ar -> (toExit ar <= length steps)%nat ->
  exists ar', producerAlone steps ar = Ret ar' /\ task ar' = Exited /\
              cclosed ar' = true.
Proof.
  induction steps as [|[hit pa] steps IH]; intros ar Hc Hn.
  - exists ar. split; [reflexivity|].
    assert (Ht : task ar = Exited).
    { destruct Hc as [_ [Hns _]]. unfold toExit in Hn. simpl in Hn.
      destruct (task ar); try lia; congruence. }
    split; [exact Ht|]. now apply Hc.
  - cbn [producerAlone]. destruct (task ar) eqn:Ht.
    1-4: destruct (stepProducer_closing hit pa ar Hc) as [ar1 [-> [Hc1 Hlt]]];
      [congruence|apply IH; [exact Hc1|simpl in Hn; lia]].
    unfold stepProducer. rewrite Ht. apply IH; [exact Hc|].
    unfold toExit. rewrite Ht. lia.
Qed.

(** Once [Close] was called, the goroutine does not outlive its channel:
    left to itself it may still send a segment into each free place of the
    channel, and within two steps for each of them and three more it has
    closed the channel and is gone. *)
Theorem goroutine_exits_after_Close
        (ar : AsyncReader) (steps : list (option nat * bool)) :
  abort ar = true -> task ar <> NotStarted -> 0 <= BufferSize ar ->
  (cclosed ar = true <-> task ar = Exited) ->
  (2 * Z.to_nat (ChannelSize ar - len (cq ar)) + 3 <= length steps)%nat ->
  exists ar', producerAlone steps ar = Ret ar' /\ task ar' = Exited /\
              cclosed ar' = true.
Proof.
  intros Hab Hns Hbs Hcl Hn. apply producerAlone_exits.
  - repeat split; auto; apply Hcl.
  - unfold toExit. destruct (task ar); lia.
Qed.

(** [halfway] once [Close] is called. *)
Definition halfwayClosed : AsyncReader :=
  mkAsyncReader (finite [["c"]]%byte) [mkSegment ["a"; "b"]%byte None]
                false true [] [] 2 4 AtGet.

(** Three places are free in the channel of [halfwayClosed]: nine steps are
    enough. *)
Lemma goroutine_exits_after_Close_witness :
  Close halfway = Ret (halfwayClosed, None) /\
  exists ar', producerAlone (repeat (None, false) 9) halfwayClosed = Ret ar' /\
              task ar' = Exited /\ cclosed ar' = true.
Proof.
  split; [reflexivity|].
  apply goroutine_exits_after_Close.
  - reflexivity.
  - discriminate.
  - simpl. lia.
  - split; discriminate.
  - simpl. lia.
Defined.

(** *** Sources that fail *)

(** The errors a source can return. *)
Definition errorsOf (s : source) : list (option error) := map snd s.

Lemma readAtLeast_content (s : source) : forall n d e s',
  readAtLeast s n = (d, e, s') ->
  d ++ content s' = content s /\
  incl (errorsOf s') (errorsOf s) /\
  (forall x, e = Some x -> x = EOF \/ In (Some x) (errorsOf s)).
Proof.
  induction s as [|[c ce] s IH]; intros n d e s' H.
  - destruct n; simpl in H; injection H as <- <- <-;
      (split; [reflexivity|]); (split; [apply incl_refl|]);
      intros x Hx; try discriminate.
    injection Hx as <-. now left.
  - destruct n as [|n].
    { simpl in H. injection H as <- <- <-.
      split; [reflexivity|]. split; [apply incl_refl|discriminate]. }
    cbn [readAtLeast] in H.
    destruct (S n <? length c)%nat.
    + injection H as <- <- <-. split.
      * change (firstn (S n) c ++ (skipn (S n) c ++ content s) = c ++ content s).
        now rewrite app_assoc, firstn_skipn.
      * split; [apply incl_refl|discriminate].
    + destruct ce as [x|].
      * injection H as <- <- <-. split; [reflexivity|].
        split; [apply incl_tl, incl_refl|].
        intros y Hy. injection Hy as <-. right. now left.
      * destruct (readAtLeast s (S n - length c)) as [[d2 e2] s2] eqn:Hrec.
        injection H as <- <- <-. destruct (IH _ _ _ _ Hrec) as [H1 [H2 H3]].
        split; [rewrite content_cons, <- app_assoc, H1; reflexivity|].
        split; [now apply incl_tl|].
        intros x Hx. destruct (H3 x Hx) as [->|Hin]; [now left|right; now right].
Qed.

Lemma ReadFull_content (s : source) n d e s' :
  ReadFull s n = (d, e, s') ->
  d ++ content s' = content s /\
  incl (errorsOf s') (errorsOf s) /\
  (fatal e = true -> In e (errorsOf s)).
Proof.
  unfold ReadFull. intros H.
  destruct (readAtLeast s n) as [[d1 e1] s1] eqn:Hr.
  injection H as <- <- <-.
  destruct (readAtLeast_content _ _ _ _ _ Hr) as [H1 [H2 H3]].
  split; [exact H1|]. split; [exact H2|].
  destruct (n <=? length d1)%nat; [discriminate|].
  destruct e1 as [x|]; [|discriminate].
  destruct (H3 x eq_refl) as [->|Hin].
  - destruct (0 <? length d1)%nat; discriminate.
  - intros Hf. destruct x; try discriminate; try exact Hin.
    destruct (0 <? length d1)%nat; discriminate.
Qed.

(** The state of a started reader of the source [src], of which [delivered]
    have been returned by [Read], nobody having called [Close] and no
    failure having reached a [Read]: no byte is lost or repeated on the
    way, and a failure on the way is a failure of the source. *)
Definition tracks (src : source) (ar : AsyncReader) (delivered : bytes) : Prop :=
  abort ar = false /\
  delivered ++ buf ar ++ qdata (cq ar) ++ inhand (task ar) ++ content (r ar)
  = content src /\
  incl (errorsOf (r ar)) (errorsOf src) /\
  Forall (fun s => fatal (err s) = true -> In (err s) (errorsOf src)) (cq ar) /\
  match task ar with
  | AtSelect s => fatal (err s) = true -> In (err s) (errorsOf src)
  | _ => True
  end.

Lemma stepProducer_tracks src ar delivered hit pa w ar' :
  tracks src ar delivered ->
  stepProducer hit pa w ar = Ret ar' ->
  tracks src ar' delivered.
Proof.
  destruct ar as [r0 cq0 cc ab pool bf bs cs g].
  unfold tracks, stepProducer. simpl.
  intros [Hab [Heq [Hin [Hq Hg]]]] Hstep. subst ab.
  destruct g as [| |s| |]; try discriminate.
  - destruct (poolGet _ hit) as [[n pool']| | |]; try discriminate.
    destruct (ReadFull r0 n) as [[d e] src'] eqn:HRF.
    injection Hstep as <-. simpl.
    destruct (ReadFull_content _ _ _ _ _ HRF) as [H1 [H2 H3]].
    split; [reflexivity|]. split; [now rewrite H1|].
    split; [eapply incl_tran; eauto|]. split; [exact Hq|].
    intros Hf. apply Hin. auto.
  - simpl in Hstep. destruct (sendReady _ w); [|discriminate].
    injection Hstep as <-. simpl.
    split; [reflexivity|]. split; [|split; [exact Hin|split]].
    + rewrite qdata_app. unfold qdata at 2. simpl. rewrite app_nil_r.
      rewrite <- Heq. simpl.
      destruct (err s); simpl; now rewrite <- !app_assoc.
    + apply Forall_app. split; auto.
    + destruct (err s); exact I.
  - destruct cc; [discriminate|]. injection Hstep as <-. simpl. auto.
Qed.

Lemma deliver_tracks src ar delivered k ar' data e :
  tracks src ar delivered ->
  deliver ar k = (ar', (data, e)) ->
  (e = None /\ tracks src ar' (delivered ++ data)) \/
  (e = Some EOF /\ data = []).
Proof.
  destruct ar as [r0 cq0 cc ab pool bf bs cs g].
  unfold tracks, deliver. simpl.
  intros [Hab [Heq [Hin [Hq Hg]]]] H.
  destruct (k <? length bf)%nat.
  - injection H as <- <- <-. left. simpl. repeat split; auto.
    rewrite <- Heq. rewrite <- (firstn_skipn k bf) at 3. now rewrite <- !app_assoc.
  - destruct (0 <? length bf)%nat.
    + injection H as <- <- <-. left. simpl. repeat split; auto.
      rewrite <- Heq. now rewrite <- !app_assoc.
    + injection H as <- <- <-. right. auto.
Qed.

Lemma Read_tracks src sched : forall ar delivered k ar' data e,
  tracks src ar delivered -> Forall noClose sched ->
  Read sched ar k = Ret (ar', (data, e)) ->
  (e = None /\ tracks src ar' (delivered ++ data)) \/
  (data = [] /\
   exists x, e = Some x /\
             (x = EOF \/ (In (Some x) (errorsOf src) /\ x <> ErrUnexpectedEOF))).
Proof.
  assert (Hd : forall ar delivered k ar' data e,
             tracks src ar delivered -> deliver ar k = (ar', (data, e)) ->
             (e = None /\ tracks src ar' (delivered ++ data)) \/
             (data = [] /\
              exists x, e = Some x /\
                (x = EOF \/ (In (Some x) (errorsOf src) /\ x <> ErrUnexpectedEOF)))).
  { intros ar delivered k ar' data e Ht H.
    destruct (deliver_tracks _ _ _ _ _ _ _ Ht H) as [?|[-> ->]]; [now left|right].
    split; [reflexivity|]. exists EOF. auto. }
  induction sched as [|t sched IH]; intros ar delivered k ar' data e Ht Hnc H;
    cbn [Read] in H; destruct (length (buf ar) <? k)%nat eqn:Hlen;
    try discriminate; try (injection H as H'; exact (Hd _ _ _ _ _ _ Ht H')).
  pose proof (Forall_inv Hnc) as Hn. apply Forall_inv_tail in Hnc.
  destruct t as [hit pa|pa|]; [| |destruct Hn].
  - destruct (stepProducer hit pa true ar) as [ar1| | |] eqn:Hstep;
      try discriminate; [|eauto].
    eapply IH; [|exact Hnc|exact H]. eapply stepProducer_tracks; eauto.
  - pose proof Ht as [Hab [Heq [Hin [Hq Hg]]]].
    rewrite Hab in H. cbn [andb] in H.
    destruct (recvReady ar); [|eauto].
    destruct (cq ar) as [|s q] eqn:Hcq;
      [injection H as H'; exact (Hd _ _ _ _ _ _ Ht H')|].
    pose proof (Forall_inv Hq) as Hs. apply Forall_inv_tail in Hq.
    destruct (fatal (err s)) eqn:Hf.
    + injection H as <- <- <-. right. split; [reflexivity|].
      destruct (fatal_Some _ Hf) as [x [Hx [_ Hne]]]. exists x.
      split; [exact Hx|]. right. split; [|exact Hne].
      rewrite <- Hx. now apply Hs.
    + eapply IH; [|exact Hnc|exact H].
      unfold tracks. simpl. repeat split; auto.
      rewrite <- Heq. unfold qdata. simpl. now rewrite <- !app_assoc.
Qed.

Lemma readToEnd_tracks src calls : forall ar delivered out e,
  tracks src ar delivered ->
  Forall (fun c => Forall noClose (snd c)) calls ->
  readToEnd calls ar delivered = Ret (out, e) ->
  (exists rest, content src = out ++ rest) /\
  exists x, e = Some x /\
            (x = EOF \/ (In (Some x) (errorsOf src) /\ x <> ErrUnexpectedEOF)).
Proof.
  induction calls as [|[k sched] calls IH]; intros ar delivered out e Ht Hc Hrun;
    [discriminate|].
  pose proof (Forall_inv Hc) as Hnc. simpl in Hnc.
  apply Forall_inv_tail in Hc. cbn [readToEnd] in Hrun.
  destruct (Read sched ar k) as [[ar' [data e1]]| | |] eqn:HR; try discriminate.
  destruct (Read_tracks _ _ _ _ _ _ _ _ Ht Hnc HR) as [[-> Ht']|[-> [x [-> Hx]]]].
  - exact (IH _ _ _ _ Ht' Hc Hrun).
  - injection Hrun as <- <-. split; [|eauto].
    destruct Ht as [_ [Heq _]]. rewrite app_nil_r, <- Heq. eauto.
Qed.

(** Whatever the source does: under every schedule, nobody calling
    [Close], the bytes a caller has read when a [Read] first reports an
    error are a prefix of the bytes of the source, in order, and the error is
    [io.EOF] or an error the source returned, never
    [io.ErrUnexpectedEOF]. *)
Theorem reads_return_a_prefix_until_the_first_error
        (src : source) (segmentSize queueCap : Z) (ar : AsyncReader)
        (calls : list (nat * list tick)) (out : bytes) (e : option error) :
  Start (withSizes (NewAsyncReader src) segmentSize queueCap) = Ret ar ->
  Forall (fun c => Forall noClose (snd c)) calls ->
  readToEnd calls ar [] = Ret (out, e) ->
  (exists rest, content src = out ++ rest) /\
  exists x, e = Some x /\
            (x = EOF \/ (In (Some x) (errorsOf src) /\ x <> ErrUnexpectedEOF)).
Proof.
  intros HS Hc Hrun. apply (readToEnd_tracks src calls ar [] out e); auto.
  unfold Start, withSizes, NewAsyncReader in HS. simpl in HS.
  destruct (queueCap <? 0); [discriminate|]. injection HS as <-.
  unfold tracks. simpl. repeat split; auto using incl_refl.
Qed.

(** A source that yields ["ab"] and then fails: with segments of two bytes
    the caller reads ["ab"], then gets the failure. *)
Definition failingSource : source :=
  [(["a"; "b"]%byte, None); ([], Some (ErrOther 7))].

Lemma reads_return_a_prefix_until_the_first_error_witness :
  exists ar,
    Start (withSizes (NewAsyncReader failingSource) 2 4) = Ret ar /\
    readToEnd [(2%nat, fair 2); (2%nat, fair 2)] ar []
    = Ret (["a"; "b"]%byte, Some (ErrOther 7)) /\
    exists rest, content failingSource = ["a"; "b"]%byte ++ rest.
Proof.
  eexists. split; [reflexivity|].
  match goal with
  | |- ?R = _ /\ _ =>
    assert (Hr : R = Ret (["a"; "b"]%byte, Some (ErrOther 7))) by reflexivity
  end.
  split; [exact Hr|].
  refine (proj1 (reads_return_a_prefix_until_the_first_error
                   failingSource 2 4 _ _ _ _ eq_refl _ Hr)).
  repeat constructor.
Defined.

End AsyncReader.

(** ** The broadcaster (Broadcaster, BroadcasterReader) *)

Module Broadcaster.

Import Source.

(** A reader. The channel [data] is its queue, its capacity and its closed
    flag; the channel [err], of capacity two, likewise; the channel
    [shutdown] is its closed flag. [errLog] is not a field of the Go struct:
    it records every value sent on [err]. *)
Record BroadcasterReader : Type := mkReader {
  buf : bytes;
  data : list bytes;
  dataCap : Z;
  dataClosed : bool;
  errq : list (option error);
  errClosed : bool;
  shutdown : bool;
  last : option error;
  errLog : list (option error)
}.

(** The broadcaster. Readers are pointers: indices in [heap], the readers
    made so far. The slice [brs] is the part of its backing array [arr]
    from [off] on. The channel [abort] is its closed flag. *)
Record Broadcaster : Type := mkBroadcaster {
  r : source;
  ReadChanLength : Z;
  ReadBufferSize : Z;
  arr : list nat;
  off : nat;
  abort : bool;
  heap : list BroadcasterReader
}.

Definition DefaultBufferSize : Z := Z.shiftl 8 10.
Definition DefaultReadChanLength : Z := 32.

Definition NewBroadcaster (src : source) : Broadcaster :=
  mkBroadcaster src DefaultReadChanLength DefaultBufferSize [] 0 false [].

(** [b.brs]. *)
Definition brs (b : Broadcaster) : list nat := skipn (off b) (arr b).

Definition getReader (b : Broadcaster) (i : nat) : option BroadcasterReader :=
  nth_error (heap b) i.

Definition setReader (b : Broadcaster) (i : nat) (br : BroadcasterReader)
  : Broadcaster :=
  mkBroadcaster (r b) (ReadChanLength b) (ReadBufferSize b) (arr b) (off b)
                (abort b) (update i br (heap b)).

Definition setSlice (b : Broadcaster) (a : list nat) (o : nat) : Broadcaster :=
  mkBroadcaster (r b) (ReadChanLength b) (ReadBufferSize b) a o (abort b) (heap b).

Definition setSource (b : Broadcaster) (src : source) : Broadcaster :=
  mkBroadcaster src (ReadChanLength b) (ReadBufferSize b) (arr b) (off b)
                (abort b) (heap b).

(** [NewReader()]: the pointer to the new reader and the broadcaster;
    [make(chan []byte, b.ReadChanLength)] panics on a negative length. *)
Definition NewReader (b : Broadcaster) : outcome (nat * Broadcaster) :=
  if ReadChanLength b <? 0 then Panic
  else
    Ret (length (heap b),
         mkBroadcaster (r b) (ReadChanLength b) (ReadBufferSize b)
                       (arr b ++ [length (heap b)]) (off b) (abort b)
                       (heap b ++ [mkReader [] [] (ReadChanLength b) false
                                            [] false false None []])).

Fixpoint indexOf (x : nat) (l : list nat) : option nat :=
  match l with
  | [] => None
  | y :: l' => if (y =? x)%nat then Some O else option_map S (indexOf x l')
  end.

(** [deleteBroadcasterReader(brs, br)] on the slice [a[o:]]: the first
    element takes the place of the one deleted, in the backing array, and
    the slice then starts one further. *)
Definition deleteBroadcasterReader (a : list nat) (o : nat) (br : nat)
  : list nat * nat :=
  match indexOf br (skipn o a) with
  | Some i =>
    ((if (0 <? i)%nat then update (o + i) (nth o a O) a else a), S o)
  | None => (a, o)
  end.

(** [Abort()]: [close(b.abort)], which panics the second time. *)
Definition Abort (b : Broadcaster) : outcome Broadcaster :=
  if abort b then Panic
  else Ret (mkBroadcaster (r b) (ReadChanLength b) (ReadBufferSize b) (arr b)
                          (off b) true (heap b)).

(** *** Channel operations on a reader *)

(** [br.data <- d]: panics when the channel is closed, proceeds when there
    is room or, on an unbuffered channel, when the receiver waits. *)
Definition sendData (i : nat) (d : bytes) (peerWaits : bool) (b : Broadcaster)
  : outcome Broadcaster :=
  match getReader b i with
  | None => Panic
  | Some br =>
    if dataClosed br then Panic
    else if (len (data br) <? dataCap br) ||
            (peerWaits && (dataCap br =? 0) && (length (data br) =? 0)%nat)
    then Ret (setReader b i
                (mkReader (buf br) (data br ++ [d]) (dataCap br) (dataClosed br)
                          (errq br) (errClosed br) (shutdown br) (last br)
                          (errLog br)))
    else Blocked
  end.

(** [close(br.data)]. *)
Definition closeData (i : nat) (b : Broadcaster) : outcome Broadcaster :=
  match getReader b i with
  | None => Panic
  | Some br =>
    if dataClosed br then Panic
    else Ret (setReader b i
                (mkReader (buf br) (data br) (dataCap br) true
                          (errq br) (errClosed br) (shutdown br) (last br)
                          (errLog br)))
  end.

(** [close(br.err)]. *)
Definition closeErr (i : nat) (b : Broadcaster) : outcome Broadcaster :=
  match getReader b i with
  | None => Panic
  | Some br =>
    if errClosed br then Panic
    else Ret (setReader b i
                (mkReader (buf br) (data br) (dataCap br) (dataClosed br)
                          (errq br) true (shutdown br) (last br) (errLog br)))
  end.

(** [br.err <- e]: the channel holds two values. *)
Definition sendErr (i : nat) (e : option error) (b : Broadcaster)
  : outcome Broadcaster :=
  match getReader b i with
  | None => Panic
  | Some br =>
    if errClosed br then Panic
    else if (length (errq br) <? 2)%nat
    then Ret (setReader b i
                (mkReader (buf br) (data br) (dataCap br) (dataClosed br)
                          (errq br ++ [e]) (errClosed br) (shutdown br) (last br)
                          (errLog br ++ [e])))
    else Blocked
  end.

(** The [shutdown] case of the select of [Broadcast]. *)
Definition detach (i : nat) (b : Broadcaster) : outcome Broadcaster :=
  match closeData i b with
  | Ret b1 =>
    match closeErr i b1 with
    | Ret b2 =>
      let '(a, o) := deleteBroadcasterReader (arr b2) (off b2) i in
      Ret (setSlice b2 a o)
    | o => o
    end
  | o => o
  end.

(** [select { case br.last = <-br.err: default: }]: a closed and empty
    channel yields nil. *)
Definition pollErr (i : nat) (b : Broadcaster) : outcome Broadcaster :=
  match getReader b i with
  | None => Panic
  | Some br =>
    match errq br with
    | e :: q =>
      Ret (setReader b i
             (mkReader (buf br) (data br) (dataCap br) (dataClosed br)
                       q (errClosed br) (shutdown br) e (errLog br)))
    | [] =>
      if errClosed br
      then Ret (setReader b i
                  (mkReader (buf br) (data br) (dataCap br) (dataClosed br)
                            [] (errClosed br) (shutdown br) None (errLog br)))
      else Ret b
    end
  end.

(** [data, open := <-br.data] with a buffer queued. *)
Definition recvData (i : nat) (b : Broadcaster) : outcome Broadcaster :=
  match getReader b i with
  | None => Panic
  | Some br =>
    match data br with
    | d :: q =>
      Ret (setReader b i
             (mkReader (buf br ++ d) q (dataCap br) (dataClosed br)
                       (errq br) (errClosed br) (shutdown br) (last br)
                       (errLog br)))
    | [] => Blocked
    end
  end.

(** [close(br.shutdown)]. *)
Definition closeShutdown (i : nat) (b : Broadcaster) : outcome Broadcaster :=
  match getReader b i with
  | None => Panic
  | Some br =>
    if shutdown br then Panic
    else Ret (setReader b i
                (mkReader (buf br) (data br) (dataCap br) (dataClosed br)
                          (errq br) (errClosed br) true (last br) (errLog br)))
  end.

(** *** Interleaving

    What the other goroutines may do between two steps of a call: on the
    side of reader [i], its [Read] takes a buffer off [data] or polls
    [err], its [Close] closes [shutdown] and then sends [ErrClosed]; on the
    side of [Broadcast], a buffer is sent, the reader is detached, and the
    deferred function closes [data] and sends the error; and anyone may
    call [Abort]. *)
Inductive action : Type :=
| Recv (i : nat)
| Poll (i : nat)
| Shutdown (i : nat)
| SendClosed (i : nat)
| PumpSend (i : nat) (d : bytes)
| PumpDetach (i : nat)
| PumpClose (i : nat)
| PumpErr (i : nat) (e : option error)
| AbortCall.

(** An action that cannot proceed leaves the state as it is. *)
Definition unblocked (o : outcome Broadcaster) (b : Broadcaster)
  : outcome Broadcaster :=
  match o with
  | Blocked => Ret b
  | _ => o
  end.

Definition applyAction (a : action) (b : Broadcaster) : outcome Broadcaster :=
  match a with
  | Recv i => unblocked (recvData i b) b
  | Poll i => pollErr i b
  | Shutdown i => closeShutdown i b
  | SendClosed i => unblocked (sendErr i (Some ErrClosed) b) b
  | PumpSend i d => unblocked (sendData i d false b) b
  | PumpDetach i => detach i b
  | PumpClose i => closeData i b
  | PumpErr i e => unblocked (sendErr i e b) b
  | AbortCall => Abort b
  end.

(** The cases of the two selects. *)
Inductive choice : Type := ChData | ChShutdown | ChAbort.

(** A schedule: actions of the others, and steps of the call itself, each
    with the case its select tries and whether the peer of an unbuffered
    channel waits. A step whose case is not ready waits for the next. *)
Inductive tick : Type :=
| Env (a : action)
| Go (c : choice) (peerWaits : bool).

Inductive selected : Type := Sent | Detached | Aborted.

(** The select of [Broadcast] for reader [i] and the buffer [d]. *)
Fixpoint sendSelect (ticks : list tick) (i : nat) (d : bytes) (b : Broadcaster)
  : outcome (selected * Broadcaster * list tick) :=
  match ticks with
  | [] => Blocked
  | Env a :: ts =>
    match applyAction a b with
    | Ret b' => sendSelect ts i d b'
    | Panic => Panic
    | Blocked => Blocked
    | OutOfFuel => OutOfFuel
    end
  | Go ChData w :: ts =>
    match sendData i d w b with
    | Ret b' => Ret (Sent, b', ts)
    | Blocked => sendSelect ts i d b
    | Panic => Panic
    | OutOfFuel => OutOfFuel
    end
  | Go ChShutdown _ :: ts =>
    match getReader b i with
    | None => Panic
    | Some br =>
      if shutdown br then
        match detach i b with
        | Ret b' => Ret (Detached, b', ts)
        | Panic => Panic
        | Blocked => Blocked
        | OutOfFuel => OutOfFuel
        end
      else sendSelect ts i d b
    end
  | Go ChAbort _ :: ts =>
    if abort b then Ret (Aborted, b, ts) else sendSelect ts i d b
  end.

(** [for _, br := range b.brs { select ... }]: the slice is read once, its
    elements from the backing array as the loop goes; [n] elements are
    left, the next at [o + idx]. The result tells whether the abort case
    was taken. *)
Fixpoint rangeSend (n idx o : nat) (ticks : list tick) (d : bytes)
         (b : Broadcaster) : outcome (bool * Broadcaster * list tick) :=
  match n with
  | O => Ret (false, b, ticks)
  | S n' =>
    match nth_error (arr b) (o + idx) with
    | None => Panic
    | Some i =>
      match sendSelect ticks i d b with
      | Ret (Aborted, b', ts) => Ret (true, b', ts)
      | Ret (_, b', ts) => rangeSend n' (S idx) o ts d b'
      | Panic => Panic
      | Blocked => Blocked
      | OutOfFuel => OutOfFuel
      end
    end
  end.

(** The loop of [Broadcast]: what it returns, the local variable [err] at
    that point, the broadcaster and the schedule left. [fuel] bounds the
    rounds. *)
Fixpoint pump (fuel : nat) (ticks : list tick) (b : Broadcaster)
  : outcome (option error * option error * Broadcaster * list tick) :=
  match fuel with
  | O => OutOfFuel
  | S fuel' =>
    if ReadBufferSize b <? 0 then Panic
    else
      let '(d, err, src) := readAtLeast (r b) (Z.to_nat (ReadBufferSize b)) in
      let b1 := setSource b src in
      match (if (0 <? length d)%nat
             then rangeSend (length (brs b1)) 0 (off b1) ticks d b1
             else Ret (false, b1, ticks)) with
      | Ret (true, b2, ts) => Ret (Some ErrAborted, err, b2, ts)
      | Ret (false, b2, ts) =>
        match err with
        | Some EOF => Ret (None, err, b2, ts)
        | Some e => Ret (Some e, err, b2, ts)
        | None => pump fuel' ts b2
        end
      | Panic => Panic
      | Blocked => Blocked
      | OutOfFuel => OutOfFuel
      end
  end.

(** [for _, br := range b.brs { close(br.data) }]. *)
Fixpoint closeAll (ids : list nat) (b : Broadcaster) : outcome Broadcaster :=
  match ids with
  | [] => Ret b
  | i :: ids' =>
    match closeData i b with
    | Ret b' => closeAll ids' b'
    | o => o
    end
  end.

(** A send on [br.err] that waits for room; the others act first. *)
Fixpoint awaitSendErr (ticks : list tick) (i : nat) (e : option error)
         (b : Broadcaster) : outcome (Broadcaster * list tick) :=
  match ticks with
  | Env a :: ts =>
    match applyAction a b with
    | Ret b' => awaitSendErr ts i e b'
    | Panic => Panic
    | Blocked => Blocked
    | OutOfFuel => OutOfFuel
    end
  | Go _ _ :: ts =>
    match sendErr i e b with
    | Ret b' => Ret (b', ts)
    | Blocked => awaitSendErr ts i e b
    | Panic => Panic
    | OutOfFuel => OutOfFuel
    end
  | [] =>
    match sendErr i e b with
    | Ret b' => Ret (b', [])
    | o => match o with Panic => Panic | _ => Blocked end
    end
  end.

(** [for _, br := range b.brs { br.err <- err }]. *)
Fixpoint sendErrs (ticks : list tick) (ids : list nat) (e : option error)
         (b : Broadcaster) : outcome (Broadcaster * list tick) :=
  match ids with
  | [] => Ret (b, ticks)
  | i :: ids' =>
    match awaitSendErr ticks i e b with
    | Ret (b', ts) => sendErrs ts ids' e b'
    | Panic => Panic
    | Blocked => Blocked
    | OutOfFuel => OutOfFuel
    end
  end.

Definition isAborted (e : option error) : bool :=
  match e with Some ErrAborted => true | _ => false end.

(** [Broadcast()]: the loop, then the deferred function, which tests the
    local variable [err], not the value returned. *)
Definition Broadcast (fuel : nat) (ticks : list tick) (b : Broadcaster)
  : outcome (option error * Broadcaster * list tick) :=
  match pump fuel ticks b with
  | Ret (res, err, b1, ts) =>
    match closeAll (brs b1) b1 with
    | Ret b2 =>
      if isAborted err then Ret (res, b2, ts)
      else
        match sendErrs ts (brs b2) err b2 with
        | Ret (b3, ts') => Ret (res, b3, ts')
        | Panic => Panic
        | Blocked => Blocked
        | OutOfFuel => OutOfFuel
        end
    | Panic => Panic
    | Blocked => Blocked
    | OutOfFuel => OutOfFuel
    end
  | Panic => Panic
  | Blocked => Blocked
  | OutOfFuel => OutOfFuel
  end.

(** *** BroadcasterReader *)

Definition isClosedOrAborted (e : option error) : bool :=
  match e with
  | Some ErrClosed | Some ErrAborted => true
  | _ => false
  end.

(** The loop of [Read] of reader [i] with [k = len(b)]: [true] when it
    returned through the abort case. *)
Fixpoint readLoop (ticks : list tick) (i k : nat) (b : Broadcaster)
  : outcome (bool * Broadcaster) :=
  match getReader b i with
  | None => Panic
  | Some br =>
    if (length (buf br) <? k)%nat then
      match ticks with
      | [] => Blocked
      | Env a :: ts =>
        match applyAction a b with
        | Ret b' => readLoop ts i k b'
        | Panic => Panic
        | Blocked => Blocked
        | OutOfFuel => OutOfFuel
        end
      | Go ChAbort _ :: ts =>
        if abort b
        then Ret (true,
                  setReader b i
                    (mkReader (buf br) (data br) (dataCap br) (dataClosed br)
                              (errq br) (errClosed br) (shutdown br)
                              (Some ErrAborted) (errLog br)))
        else readLoop ts i k b
      | Go ChData _ :: ts =>
        match data br with
        | d :: q =>
          readLoop ts i k
                   (setReader b i
                      (mkReader (buf br ++ d) q (dataCap br) (dataClosed br)
                                (errq br) (errClosed br) (shutdown br) (last br)
                                (errLog br)))
        | [] => if dataClosed br then Ret (false, b) else readLoop ts i k b
        end
      | Go ChShutdown _ :: ts => readLoop ts i k b
      end
    else Ret (false, b)
  end.

(** [Read(b)] of reader [i] with [k = len(b)]: the bytes copied into [b]
    and the error. *)
Definition Read (ticks : list tick) (i k : nat) (b : Broadcaster)
  : outcome (Broadcaster * (bytes * option error)) :=
  match getReader b i with
  | None => Panic
  | Some br0 =>
    if isClosedOrAborted (last br0) then Ret (b, ([], last br0))
    else
      match readLoop ticks i k b with
      | Ret (true, b1) => Ret (b1, ([], Some ErrAborted))
      | Ret (false, b1) =>
        match getReader b1 i with
        | None => Panic
        | Some br =>
          if (k <? length (buf br))%nat
          then Ret (setReader b1 i
                      (mkReader (skipn k (buf br)) (data br) (dataCap br)
                                (dataClosed br) (errq br) (errClosed br)
                                (shutdown br) (last br) (errLog br)),
                    (firstn k (buf br), None))
          else if (0 <? length (buf br))%nat
          then Ret (setReader b1 i
                      (mkReader [] (data br) (dataCap br)
                                (dataClosed br) (errq br) (errClosed br)
                                (shutdown br) (last br) (errLog br)),
                    (buf br, None))
          else
            match pollErr i b1 with
            | Ret b2 =>
              match getReader b2 i with
              | Some br2 => Ret (b2, ([], last br2))
              | None => Panic
              end
            | Panic => Panic
            | Blocked => Blocked
            | OutOfFuel => OutOfFuel
            end
        end
      | Panic => Panic
      | Blocked => Blocked
      | OutOfFuel => OutOfFuel
      end
  end.

(** [Close()] of reader [i]: [close(br.shutdown)], then
    [br.err <- ErrClosed]. *)
Definition Close (ticks : list tick) (i : nat) (b : Broadcaster)
  : outcome (Broadcaster * option error) :=
  match closeShutdown i b with
  | Ret b1 =>
    match awaitSendErr ticks i (Some ErrClosed) b1 with
    | Ret (b2, _) => Ret (b2, None)
    | Panic => Panic
    | Blocked => Blocked
    | OutOfFuel => OutOfFuel
    end
  | Panic => Panic
  | Blocked => Blocked
  | OutOfFuel => OutOfFuel
  end.

(** The actions of the readers' side, and [Abort]. *)
Definition readerSide (t : tick) : Prop :=
  match t with
  | Env (PumpSend _ _) | Env (PumpDetach _) | Env (PumpClose _)
  | Env (PumpErr _ _) => False
  | _ => True
  end.

(** The error values a source can return. *)
Definition sourceErrors (s : source) : list (option error) := map snd s.

(** *** Scenarios *)

(** A broadcaster over an empty source with one reader. *)
Definition oneReaderNoData : Broadcaster :=
  mkBroadcaster [] DefaultReadChanLength DefaultBufferSize [O] 0 false
                [mkReader [] [] DefaultReadChanLength false [] false false None []].

(** A broadcaster over the bytes ["abcdef"] with one reader. *)
Definition oneReader : Broadcaster :=
  mkBroadcaster (finite [["a"; "b"; "c"; "d"; "e"; "f"]]%byte)
                DefaultReadChanLength DefaultBufferSize [O] 0 false
                [mkReader [] [] DefaultReadChanLength false [] false false None []].

(** A broadcaster with one reader over a source that yields ["abc"] and
    then fails. *)
Definition sourceErr : error := ErrOther 5.

Definition oneReaderFailing : Broadcaster :=
  mkBroadcaster [(["a"; "b"; "c"]%byte, Some sourceErr)]
                DefaultReadChanLength DefaultBufferSize [O] 0 false
                [mkReader [] [] DefaultReadChanLength false [] false false None []].

(** [oneReader] once [Broadcast] has returned and the reader has read two
    bytes with [Read]: four bytes are left in its reassembly buffer. *)
Definition fourBuffered : Broadcaster :=
  mkBroadcaster [] DefaultReadChanLength DefaultBufferSize [O] 0 false
                [mkReader ["c"; "d"; "e"; "f"]%byte [] DefaultReadChanLength true
                          [Some EOF] false false None [Some EOF]].

(** [fourBuffered] once [Abort] is called. *)
Definition fourBufferedAborted : Broadcaster :=
  mkBroadcaster [] DefaultReadChanLength DefaultBufferSize [O] 0 true
                [mkReader ["c"; "d"; "e"; "f"]%byte [] DefaultReadChanLength true
                          [Some EOF] false false None [Some EOF]].

(** A new broadcaster, no reader, once [Abort] is called. *)
Definition abortedAtOnce : Broadcaster :=
  mkBroadcaster [] DefaultReadChanLength DefaultBufferSize [] 0 true [].

(** *** What every step keeps *)

(** From [b] to [b']: readers stay, a closed [data] stays closed, a value
    sent on [err] stays sent. *)
Definition grows (b b' : Broadcaster) : Prop :=
  forall i br, getReader b i = Some br ->
    exists br', getReader b' i = Some br' /\
      (dataClosed br = true -> dataClosed br' = true) /\
      incl (errLog br) (errLog br').

Definition sameSlice (b b' : Broadcaster) : Prop :=
  arr b' = arr b /\ off b' = off b /\ r b' = r b /\
  (abort b = true -> abort b' = true).

Lemma grows_refl b : grows b b.
Proof. intros i br H. exists br. repeat split; auto. apply incl_refl. Qed.

Lemma grows_trans b1 b2 b3 : grows b1 b2 -> grows b2 b3 -> grows b1 b3.
Proof.
  intros H12 H23 i br H. destruct (H12 i br H) as [br2 [G1 [G2 G3]]].
  destruct (H23 i br2 G1) as [br3 [K1 [K2 K3]]].
  exists br3. repeat split; auto. eapply incl_tran; eauto.
Qed.

Lemma sameSlice_refl b : sameSlice b b.
Proof. repeat split; auto. Qed.

Lemma sameSlice_trans b1 b2 b3 :
  sameSlice b1 b2 -> sameSlice b2 b3 -> sameSlice b1 b3.
Proof.
  intros [A1 [A2 [A3 A4]]] [B1 [B2 [B3 B4]]]. repeat split; try congruence. auto.
Qed.

Lemma setReader_grows b i br br' :
  getReader b i = Some br ->
  (dataClosed br = true -> dataClosed br' = true) ->
  incl (errLog br) (errLog br') ->
  grows b (setReader b i br') /\ sameSlice b (setReader b i br') /\
  getReader (setReader b i br') i = Some br'.
Proof.
  intros Hg Hd Hl. unfold grows, getReader in *. split; [|split].
  - intros j brj Hj. destruct (Nat.eq_dec i j) as [<-|Hne].
    + exists br'. simpl. rewrite (nth_error_update_eq _ _ _ _ Hg).
      rewrite Hg in Hj. injection Hj as <-. auto.
    + exists brj. simpl. rewrite nth_error_update_neq by exact Hne.
      repeat split; auto. apply incl_refl.
  - repeat split; auto.
  - simpl. apply (nth_error_update_eq _ _ _ _ Hg).
Qed.

(** The channel operations grow the state and leave the slice alone. *)
Ltac reader_op H :=
  match type of H with
  | context [getReader ?b ?i] =>
    let br := fresh "br" in let Hg := fresh "Hg" in
    destruct (getReader b i) as [br|] eqn:Hg; [|discriminate]
  end.

Lemma sendData_grows i d w b b' :
  sendData i d w b = Ret b' -> grows b b' /\ sameSlice b b'.
Proof.
  unfold sendData. intros H. reader_op H.
  destruct (dataClosed br) eqn:Hc; [discriminate|].
  destruct (_ || _); [|discriminate]. injection H as <-.
  destruct (setReader_grows b i br
              (mkReader (buf br) (data br ++ [d]) (dataCap br) false
                        (errq br) (errClosed br) (shutdown br) (last br)
                        (errLog br)) Hg) as [G1 [G2 _]]; simpl; auto.
  - congruence.
  - apply incl_refl.
Qed.

Lemma closeData_grows i b b' :
  closeData i b = Ret b' ->
  grows b b' /\ sameSlice b b' /\
  exists br', getReader b' i = Some br' /\ dataClosed br' = true.
Proof.
  unfold closeData. intros H. reader_op H.
  destruct (dataClosed br); [discriminate|]. injection H as <-.
  destruct (setReader_grows b i br
              (mkReader (buf br) (data br) (dataCap br) true
                        (errq br) (errClosed br) (shutdown br) (last br)
                        (errLog br)) Hg) as [G1 [G2 G3]]; simpl; auto.
  - apply incl_refl.
  - repeat split; auto. eexists. split; [exact G3|reflexivity].
Qed.

Lemma closeErr_grows i b b' :
  closeErr i b = Ret b' -> grows b b' /\ sameSlice b b'.
Proof.
  unfold closeErr. intros H. reader_op H.
  destruct (errClosed br); [discriminate|]. injection H as <-.
  destruct (setReader_grows b i br
              (mkReader (buf br) (data br) (dataCap br) (dataClosed br)
                        (errq br) true (shutdown br) (last br)
                        (errLog br)) Hg) as [G1 [G2 _]]; simpl; auto.
  apply incl_refl.
Qed.

Lemma sendErr_grows i e b b' :
  sendErr i e b = Ret b' ->
  grows b b' /\ sameSlice b b' /\
  exists br', getReader b' i = Some br' /\ In e (errLog br').
Proof.
  unfold sendErr. intros H. reader_op H.
  destruct (errClosed br); [discriminate|].
  destruct (length (errq br) <? 2)%nat; [|discriminate]. injection H as <-.
  destruct (setReader_grows b i br
              (mkReader (buf br) (data br) (dataCap br) (dataClosed br)
                        (errq br ++ [e]) false (shutdown br) (last br)
                        (errLog br ++ [e])) Hg) as [G1 [G2 G3]]; simpl; auto.
  - apply incl_appl, incl_refl.
  - repeat split; auto. eexists. split; [exact G3|]. simpl.
    apply in_or_app. right. now left.
Qed.

Lemma pollErr_grows i b b' :
  pollErr i b = Ret b' -> grows b b' /\ sameSlice b b'.
Proof.
  unfold pollErr. intros H. reader_op H.
  destruct (errq br) as [|e q].
  - destruct (errClosed br); injection H as <-.
    + destruct (setReader_grows b i br
                  (mkReader (buf br) (data br) (dataCap br) (dataClosed br)
                            [] true (shutdown br) None (errLog br)) Hg)
        as [G1 [G2 _]]; simpl; auto. apply incl_refl.
    + split; [apply grows_refl|apply sameSlice_refl].
  - injection H as <-.
    destruct (setReader_grows b i br
                (mkReader (buf br) (data br) (dataCap br) (dataClosed br)
                          q (errClosed br) (shutdown br) e (errLog br)) Hg)
      as [G1 [G2 _]]; simpl; auto. apply incl_refl.
Qed.

Lemma recvData_grows i b b' :
  recvData i b = Ret b' -> grows b b' /\ sameSlice b b'.
Proof.
  unfold recvData. intros H. reader_op H.
  destruct (data br) as [|d q]; [discriminate|]. injection H as <-.
  destruct (setReader_grows b i br
              (mkReader (buf br ++ d) q (dataCap br) (dataClosed br)
                        (errq br) (errClosed br) (shutdown br) (last br)
                        (errLog br)) Hg) as [G1 [G2 _]]; simpl; auto.
  apply incl_refl.
Qed.

Lemma closeShutdown_grows i b b' :
  closeShutdown i b = Ret b' -> grows b b' /\ sameSlice b b'.
Proof.
  unfold closeShutdown. intros H. reader_op H.
  destruct (shutdown br); [discriminate|]. injection H as <-.
  destruct (setReader_grows b i br
              (mkReader (buf br) (data br) (dataCap br) (dataClosed br)
                        (errq br) (errClosed br) true (last br)
                        (errLog br)) Hg) as [G1 [G2 _]]; simpl; auto.
  apply incl_refl.
Qed.

Lemma detach_grows i b b' :
  detach i b = Ret b' ->
  grows b b' /\ r b' = r b /\ (abort b = true -> abort b' = true).
Proof.
  unfold detach. intros H.
  destruct (closeData i b) as [b1| | |] eqn:H1; try discriminate.
  destruct (closeErr i b1) as [b2| | |] eqn:H2; try discriminate.
  destruct (deleteBroadcasterReader (arr b2) (off b2) i) as [a o].
  injection H as <-.
  apply closeData_grows in H1 as [G1 [[_ [_ [S1 S1']]] _]].
  apply closeErr_grows in H2 as [G2 [_ [_ [S2 S2']]]].
  split; [|split].
  - intros j br Hj. destruct (grows_trans _ _ _ G1 G2 j br Hj) as [br' [K1 K2]].
    exists br'. split; auto.
  - simpl. congruence.
  - simpl. auto.
Qed.

Lemma unblocked_Ret o b b' :
  unblocked o b = Ret b' -> o = Ret b' \/ (o = Blocked /\ b' = b).
Proof. destruct o; simpl; intros H; try discriminate; auto. injection H; auto. Qed.

(** An action of the others grows the state; one of the readers' side
    leaves the slice of the broadcaster alone. *)
Lemma applyAction_grows a b b' :
  applyAction a b = Ret b' ->
  grows b b' /\ r b' = r b /\ (abort b = true -> abort b' = true) /\
  (readerSide (Env a) -> sameSlice b b').
Proof.
  assert (Hs : forall b b', grows b b' /\ sameSlice b b' ->
             grows b b' /\ r b' = r b /\ (abort b = true -> abort b' = true) /\
             (readerSide (Env a) -> sameSlice b b')).
  { intros b0 b0' [G S]. pose proof S as [_ [_ [S1 S2]]]. auto. }
  assert (Hrefl : grows b b /\ sameSlice b b)
    by (split; [apply grows_refl|apply sameSlice_refl]).
  destruct a; simpl; intros H.
  - apply unblocked_Ret in H as [H|[_ ->]]; apply Hs; auto.
    now apply recvData_grows in H.
  - apply Hs. now apply pollErr_grows in H.
  - apply Hs. now apply closeShutdown_grows in H.
  - apply unblocked_Ret in H as [H|[_ ->]]; apply Hs; auto.
    apply sendErr_grows in H as [G [S _]]. auto.
  - apply unblocked_Ret in H as [H|[_ ->]]; apply Hs; auto.
    now apply sendData_grows in H.
  - apply detach_grows in H as [G [S1 S2]].
    split; [exact G|]. split; [exact S1|]. split; [exact S2|]. intros [].
  - apply Hs. apply closeData_grows in H as [G [S _]]. auto.
  - apply unblocked_Ret in H as [H|[_ ->]]; apply Hs; auto.
    apply sendErr_grows in H as [G [S _]]. auto.
  - unfold Abort in H. destruct (abort b); [discriminate|]. injection H as <-.
    split; [|repeat split; auto].
    intros j br Hj. exists br. repeat split; auto. apply incl_refl.
Qed.

(** What a step of [Broadcast] towards one reader keeps. *)
Definition pumped (b b' : Broadcaster) : Prop :=
  grows b b' /\ r b' = r b /\ (abort b = true -> abort b' = true).

Lemma pumped_refl b : pumped b b.
Proof. repeat split; auto. apply grows_refl. Qed.

Lemma pumped_trans b1 b2 b3 : pumped b1 b2 -> pumped b2 b3 -> pumped b1 b3.
Proof.
  intros [G1 [R1 A1]] [G2 [R2 A2]]. repeat split; try congruence; auto.
  eapply grows_trans; eauto.
Qed.

Lemma applyAction_pumped a b b' : applyAction a b = Ret b' -> pumped b b'.
Proof. intros H. apply applyAction_grows in H as [G [R [A _]]]. now split. Qed.

Lemma sendSelect_spec ticks : forall i d b sel b' ts,
  sendSelect ticks i d b = Ret (sel, b', ts) ->
  pumped b b' /\ (sel = Aborted -> abort b' = true) /\
  exists pre, ticks = pre ++ ts.
Proof.
  induction ticks as [|t ticks IH]; intros i d b sel b' ts H; [discriminate|].
  assert (Hrec : forall b1, pumped b b1 ->
             sendSelect ticks i d b1 = Ret (sel, b', ts) ->
             pumped b b' /\ (sel = Aborted -> abort b' = true) /\
             exists pre, t :: ticks = pre ++ ts).
  { intros b1 Hp Hr. destruct (IH _ _ _ _ _ _ Hr) as [P [A [pre ->]]].
    split; [eapply pumped_trans; eauto|]. split; auto. now exists (t :: pre). }
  destruct t as [a|c w]; cbn [sendSelect] in H.
  - destruct (applyAction a b) as [b1| | |] eqn:Ha; try discriminate.
    apply (Hrec b1); auto. now apply applyAction_pumped in Ha.
  - destruct c.
    + destruct (sendData i d w b) as [b1| | |] eqn:Hs; try discriminate.
      * injection H as <- <- <-. apply sendData_grows in Hs as [G [_ [_ [R A]]]].
        split; [now split|]. split; [discriminate|]. now exists [Go ChData w].
      * apply (Hrec b); auto using pumped_refl.
    + destruct (getReader b i) as [br|]; [|discriminate].
      destruct (shutdown br); [|apply (Hrec b); auto using pumped_refl].
      destruct (detach i b) as [b1| | |] eqn:Hd; try discriminate.
      injection H as <- <- <-. apply detach_grows in Hd.
      split; auto. split; [discriminate|]. now exists [Go ChShutdown w].
    + destruct (abort b) eqn:Hab; [|apply (Hrec b); auto using pumped_refl].
      injection H as <- <- <-. split; [apply pumped_refl|]. split; auto.
      now exists [Go ChAbort w].
Qed.

Lemma rangeSend_spec n : forall idx o ticks d b ab b' ts,
  rangeSend n idx o ticks d b = Ret (ab, b', ts) ->
  pumped b b' /\ (ab = true -> abort b' = true) /\
  exists pre, ticks = pre ++ ts.
Proof.
  induction n as [|n IH]; intros idx o ticks d b ab b' ts H; cbn [rangeSend] in H.
  - injection H as <- <- <-. split; [apply pumped_refl|].
    split; [discriminate|]. now exists [].
  - destruct (nth_error (arr b) (o + idx)) as [i|]; [|discriminate].
    destruct (sendSelect ticks i d b) as [[[sel b1] ts1]| | |] eqn:Hs;
      try discriminate.
    destruct (sendSelect_spec _ _ _ _ _ _ _ Hs) as [P1 [A1 [pre1 ->]]].
    assert (Hrec : rangeSend n (S idx) o ts1 d b1 = Ret (ab, b', ts) ->
                   pumped b b' /\ (ab = true -> abort b' = true) /\
                   exists pre, pre1 ++ ts1 = pre ++ ts).
    { intros Hr. destruct (IH _ _ _ _ _ _ _ _ Hr) as [P2 [A2 [pre2 ->]]].
      split; [eapply pumped_trans; eauto|]. split; auto.
      exists (pre1 ++ pre2). now rewrite app_assoc. }
    destruct sel; auto.
    injection H as <- <- <-. split; auto. split; auto. now exists pre1.
Qed.

Lemma readAtLeast_errors (s : source) : forall n d e s',
  readAtLeast s n = (d, e, s') ->
  incl (sourceErrors s') (sourceErrors s) /\
  (forall x, e = Some x -> x = EOF \/ In (Some x) (sourceErrors s)).
Proof.
  induction s as [|[c ce] s IH]; intros n d e s' H.
  - destruct n; simpl in H; injection H as <- <- <-; split;
      try apply incl_refl; intros x Hx; try discriminate.
    injection Hx as <-. now left.
  - destruct n as [|n]; [simpl in H; injection H as <- <- <-;
                         split; [apply incl_refl|discriminate]|].
    cbn [readAtLeast] in H.
    destruct (S n <? length c)%nat.
    + injection H as <- <- <-. split; [apply incl_refl|discriminate].
    + destruct ce as [x|].
      * injection H as <- <- <-. split; [apply incl_tl, incl_refl|].
        intros y Hy. injection Hy as <-. right. now left.
      * destruct (readAtLeast s (S n - length c)) as [[d2 e2] s2] eqn:Hrec.
        injection H as <- <- <-. destruct (IH _ _ _ _ Hrec) as [H1 H2].
        split; [now apply incl_tl|].
        intros x Hx. destruct (H2 x Hx) as [->|Hin]; [now left|right; now right].
Qed.

Lemma pump_spec fuel : forall ticks b res err b' ts,
  pump fuel ticks b = Ret (res, err, b', ts) ->
  grows b b' /\ (abort b = true -> abort b' = true) /\
  (exists pre, ticks = pre ++ ts) /\
  ((res = None /\ err = Some EOF) \/
   (res = Some ErrAborted /\ abort b' = true) \/
   (exists e, res = Some e /\ err = Some e /\ e <> EOF /\
              In (Some e) (sourceErrors (r b)))).
Proof.
  induction fuel as [|fuel IH]; intros ticks b res err b' ts H; [discriminate|].
  cbn [pump] in H.
  destruct (ReadBufferSize b <? 0); [discriminate|].
  destruct (readAtLeast (r b) (Z.to_nat (ReadBufferSize b))) as [[d e] src] eqn:Hr.
  destruct (readAtLeast_errors _ _ _ _ _ Hr) as [Hincl Herr].
  set (b1 := setSource b src) in *.
  assert (Hb1 : pumped b1 b1 /\ grows b b1 /\ abort b1 = abort b /\ r b1 = src).
  { split; [apply pumped_refl|]. split; [|split; reflexivity].
    intros i br Hi. exists br. repeat split; auto. apply incl_refl. }
  destruct Hb1 as [_ [Hg1 [Ha1 Hr1]]].
  assert (Hsend : exists ab b2 ts2,
             (if (0 <? length d)%nat
              then rangeSend (length (brs b1)) 0 (off b1) ticks d b1
              else Ret (false, b1, ticks)) = Ret (ab, b2, ts2) /\
             pumped b1 b2 /\ (ab = true -> abort b2 = true) /\
             exists pre, ticks = pre ++ ts2).
  { destruct (0 <? length d)%nat.
    - destruct (rangeSend _ _ _ _ _ _) as [[[ab b2] ts2]| | |] eqn:Hrs;
        try discriminate.
      exists ab, b2, ts2. split; auto. eapply rangeSend_spec; eauto.
    - exists false, b1, ticks. split; auto. split; [apply pumped_refl|].
      split; [discriminate|]. now exists []. }
  destruct Hsend as [ab [b2 [ts2 [Heq [[G2 [R2 A2]] [Hab [pre2 Hpre]]]]]]].
  rewrite Heq in H.
  assert (Hg : grows b b2) by exact (grows_trans _ _ _ Hg1 G2).
  assert (Ha : abort b = true -> abort b2 = true).
  { intros Hx. apply A2. now rewrite Ha1. }
  destruct ab.
  - injection H as <- <- <- <-.
    split; [exact Hg|]. split; [exact Ha|]. split; [now exists pre2|].
    right. left. auto.
  - destruct e as [x|].
    + assert (Hx : (x = EOF /\ res = None \/ x <> EOF /\ res = Some x) /\
                   err = Some x /\ b' = b2 /\ ts = ts2).
      { destruct x; injection H as <- <- <- <-; repeat split; auto;
          right; split; auto; discriminate. }
      destruct Hx as [Hx [-> [-> ->]]].
      split; [exact Hg|]. split; [exact Ha|]. split; [now exists pre2|].
      destruct Hx as [[-> ->]|[Hne ->]]; [now left|].
        right. right. exists x. repeat split; auto.
        destruct (Herr x eq_refl) as [->|Hin]; [congruence|exact Hin].
    + destruct (IH _ _ _ _ _ _ H) as [G3 [A3 [[pre3 ->] Hres]]].
      split; [eapply grows_trans; eauto|]. split; [auto|].
      split; [exists (pre2 ++ pre3); now rewrite <- app_assoc|].
      destruct Hres as [Hres|[Hres|[x [H1 [H2 [H3 H4]]]]]]; auto.
      right. right. exists x. repeat split; auto.
      apply Hincl. rewrite <- Hr1, <- R2. exact H4.
Qed.

Lemma closeAll_spec ids : forall b b',
  closeAll ids b = Ret b' ->
  grows b b' /\ sameSlice b b' /\
  forall i, In i ids ->
    exists br, getReader b' i = Some br /\ dataClosed br = true.
Proof.
  induction ids as [|j ids IH]; intros b b' H; cbn [closeAll] in H.
  - injection H as <-. split; [apply grows_refl|]. split; [apply sameSlice_refl|].
    intros i [].
  - destruct (closeData j b) as [b1| | |] eqn:Hc; try discriminate.
    apply closeData_grows in Hc as [G1 [S1 [br1 [Hg1 Hd1]]]].
    destruct (IH _ _ H) as [G2 [S2 Hall]].
    split; [eapply grows_trans; eauto|]. split; [eapply sameSlice_trans; eauto|].
    intros i [<-|Hin]; auto.
    destruct (G2 _ _ Hg1) as [br' [K1 [K2 _]]]. exists br'. auto.
Qed.

Lemma awaitSendErr_spec ticks : forall i e b b' ts,
  Forall readerSide ticks ->
  awaitSendErr ticks i e b = Ret (b', ts) ->
  grows b b' /\ sameSlice b b' /\ Forall readerSide ts /\
  exists br, getReader b' i = Some br /\ In e (errLog br).
Proof.
  induction ticks as [|t ticks IH]; intros i e b b' ts Hrs H; cbn [awaitSendErr] in H.
  - destruct (sendErr i e b) as [b1| | |] eqn:Hs; try discriminate.
    injection H as <- <-. apply sendErr_grows in Hs as [G [S Hin]]. auto.
  - pose proof (Forall_inv Hrs) as Ht. apply Forall_inv_tail in Hrs.
    assert (Hrec : forall b1, grows b b1 -> sameSlice b b1 ->
               awaitSendErr ticks i e b1 = Ret (b', ts) ->
               grows b b' /\ sameSlice b b' /\ Forall readerSide ts /\
               exists br, getReader b' i = Some br /\ In e (errLog br)).
    { intros b1 G1 S1 Hr. destruct (IH _ _ _ _ _ Hrs Hr) as [G2 [S2 [F2 Hin]]].
      split; [eapply grows_trans; eauto|].
      split; [eapply sameSlice_trans; eauto|]. auto. }
    destruct t as [a|c w].
    + destruct (applyAction a b) as [b1| | |] eqn:Ha; try discriminate.
      apply applyAction_grows in Ha as [G [_ [_ S]]]. apply (Hrec b1); auto.
    + destruct (sendErr i e b) as [b1| | |] eqn:Hs; try discriminate.
      * injection H as <- <-. apply sendErr_grows in Hs as [G [S Hin]]. auto.
      * apply (Hrec b); auto using grows_refl, sameSlice_refl.
Qed.

Lemma sendErrs_spec ids : forall ticks e b b' ts,
  Forall readerSide ticks ->
  sendErrs ticks ids e b = Ret (b', ts) ->
  grows b b' /\ sameSlice b b' /\
  forall i, In i ids -> exists br, getReader b' i = Some br /\ In e (errLog br).
Proof.
  induction ids as [|j ids IH]; intros ticks e b b' ts Hrs H; cbn [sendErrs] in H.
  - injection H as <- <-. split; [apply grows_refl|]. split; [apply sameSlice_refl|].
    intros i [].
  - destruct (awaitSendErr ticks j e b) as [[b1 ts1]| | |] eqn:Ha; try discriminate.
    destruct (awaitSendErr_spec _ _ _ _ _ _ Hrs Ha) as [G1 [S1 [F1 [br1 [Hg1 Hin1]]]]].
    destruct (IH _ _ _ _ _ F1 H) as [G2 [S2 Hall]].
    split; [eapply grows_trans; eauto|]. split; [eapply sameSlice_trans; eauto|].
    intros i [<-|Hin]; auto.
    destruct (G2 _ _ Hg1) as [br' [K1 [_ K3]]]. exists br'. auto.
Qed.

(** The value the deferred function of [Broadcast] sends to the readers
    when [Broadcast] returns [res]: [io.EOF] with nil, the error itself
    otherwise. *)
Definition terminal (res : option error) : option error :=
  match res with
  | None => Some EOF
  | Some e => Some e
  end.

(** The first error the source returns: the first error of its script, or
    [io.EOF] past the end of the script. *)
Fixpoint firstError (s : source) : error :=
  match s with
  | [] => EOF
  | (_, Some e) :: _ => e
  | (_, None) :: s' => firstError s'
  end.

Lemma readAtLeast_firstError (s : source) : forall n d e s',
  readAtLeast s n = (d, e, s') ->
  match e with
  | Some x => x = firstError s
  | None => firstError s' = firstError s
  end.
Proof.
  induction s as [|[c ce] s IH]; intros n d e s' H.
  - destruct n; simpl in H; injection H as <- <- <-; reflexivity.
  - destruct n as [|n]; [simpl in H; injection H as <- <- <-; reflexivity|].
    cbn [readAtLeast] in H.
    destruct (S n <? length c)%nat.
    + injection H as <- <- <-. reflexivity.
    + destruct ce as [x|].
      * injection H as <- <- <-. reflexivity.
      * destruct (readAtLeast s (S n - length c)) as [[d2 e2] s2] eqn:Hrec.
        injection H as <- <- <-. exact (IH _ _ _ _ Hrec).
Qed.

(** The loop of [Broadcast] ends by the abort case of its select or at the
    first error of the source, which it returns unless it is [io.EOF]. *)
Lemma pump_end fuel : forall ticks b res err b' ts,
  pump fuel ticks b = Ret (res, err, b', ts) ->
  (res = Some ErrAborted /\ abort b' = true) \/
  (err = Some (firstError (r b)) /\
   res = match firstError (r b) with
         | EOF => None
         | e => Some e
         end).
Proof.
  induction fuel as [|fuel IH]; intros ticks b res err b' ts H; [discriminate|].
  cbn [pump] in H.
  destruct (ReadBufferSize b <? 0); [discriminate|].
  destruct (readAtLeast (r b) (Z.to_nat (ReadBufferSize b))) as [[d e] src] eqn:Hr.
  pose proof (readAtLeast_firstError _ _ _ _ _ Hr) as Hfe.
  set (b1 := setSource b src) in *.
  assert (Hsend : exists ab b2 ts2,
             (if (0 <? length d)%nat
              then rangeSend (length (brs b1)) 0 (off b1) ticks d b1
              else Ret (false, b1, ticks)) = Ret (ab, b2, ts2) /\
             r b2 = src /\ (ab = true -> abort b2 = true)).
  { destruct (0 <? length d)%nat.
    - destruct (rangeSend _ _ _ _ _ _) as [[[ab b2] ts2]| | |] eqn:Hrs;
        try discriminate.
      exists ab, b2, ts2. split; [reflexivity|].
      destruct (rangeSend_spec _ _ _ _ _ _ _ _ _ Hrs) as [[_ [R _]] [A _]].
      split; [exact R|exact A].
    - exists false, b1, ticks. split; [reflexivity|].
      split; [reflexivity|discriminate]. }
  destruct Hsend as [ab [b2 [ts2 [Heq [Hsrc Hab]]]]]. rewrite Heq in H.
  destruct ab.
  - injection H as <- <- <- <-. left. auto.
  - destruct e as [x|].
    + right. rewrite <- Hfe.
      destruct x; injection H as <- <- <- <-; split; reflexivity.
    + destruct (IH _ _ _ _ _ _ H) as [Hl|Hrt]; [now left|right].
      rewrite Hsrc, Hfe in Hrt. exact Hrt.
Qed.

(** C7, as the code has it. Whatever the readers do meanwhile, a returning
    [Broadcast] returns nil and the first error of the source is [io.EOF],
    or it returns [ErrAborted] with the abort signal raised, or it returns
    the first error of the source, which is not [io.EOF]; and when it
    returns anything but [ErrAborted], every reader still registered has
    its [data] channel closed and has been sent the terminal condition on
    its [err] channel: the error returned, or [io.EOF], not nil, when
    [Broadcast] returns nil. *)
Theorem Broadcast_result (fuel : nat) (ticks : list tick) (b : Broadcaster)
        (res : option error) (b' : Broadcaster) (ts : list tick) :
  Forall readerSide ticks ->
  Broadcast fuel ticks b = Ret (res, b', ts) ->
  ((res = None /\ firstError (r b) = EOF) \/
   (res = Some ErrAborted /\ abort b' = true) \/
   (exists e, res = Some e /\ e <> EOF /\ firstError (r b) = e /\
              In (Some e) (sourceErrors (r b)))) /\
  (res <> Some ErrAborted ->
   forall i, In i (brs b') ->
     exists br, getReader b' i = Some br /\
                dataClosed br = true /\ In (terminal res) (errLog br)).
Proof.
  intros Hrs H. unfold Broadcast in H.
  destruct (pump fuel ticks b) as [[[[res1 err] b1] ts1]| | |] eqn:Hp; try discriminate.
  pose proof (pump_end _ _ _ _ _ _ _ Hp) as Hend.
  destruct (pump_spec _ _ _ _ _ _ _ Hp) as [G1 [A1 [[pre ->] Hres]]].
  assert (Hfirst : (res1 = None /\ firstError (r b) = EOF) \/
                   (res1 = Some ErrAborted /\ abort b1 = true) \/
                   (exists e, res1 = Some e /\ e <> EOF /\ firstError (r b) = e /\
                              In (Some e) (sourceErrors (r b)))).
  { destruct Hres as [[Hn He]|[[Hr Ha]|[e [Hr [He [Hne Hin]]]]]].
    - left. split; [exact Hn|].
      destruct Hend as [[Hx _]|[He' _]]; congruence.
    - right. left. auto.
    - destruct Hend as [[Hx Ha]|[He' _]].
      + right. left. auto.
      + right. right. exists e. repeat split; auto. congruence. }
  apply Forall_app in Hrs as [_ Hrs1].
  destruct (closeAll (brs b1) b1) as [b2| | |] eqn:Hc; try discriminate.
  destruct (closeAll_spec _ _ _ Hc) as [G2 [[S2a [S2o [_ S2b]]] Hclosed]].
  assert (Hbrs2 : brs b2 = brs b1) by (unfold brs; congruence).
  destruct (isAborted err) eqn:Hia.
  - injection H as <- <- <-.
    assert (Herr : err = Some ErrAborted).
    { destruct err as [[]|]; simpl in Hia; congruence. }
    subst err. split.
    + destruct Hfirst as [[-> Hf]|[[-> Ha]|[e [-> [Hne [Hf Hin]]]]]].
      * left. auto.
      * right. left. auto.
      * right. right. exists e. auto.
    + intros Hne. destruct Hres as [[_ He]|[[-> _]|[e [-> [He _]]]]];
        try discriminate; congruence.
  - destruct (sendErrs ts1 (brs b2) err b2) as [[b3 ts3]| | |] eqn:Hse;
      try discriminate.
    injection H as <- <- <-.
    destruct (sendErrs_spec _ _ _ _ _ _ Hrs1 Hse) as [G3 [[S3a [S3o [_ S3b]]] Hsent]].
    assert (Hbrs3 : brs b3 = brs b1) by (unfold brs; congruence).
    split.
    + destruct Hfirst as [[-> Hf]|[[-> Ha]|[e [-> [Hne [Hf Hin]]]]]].
      * left. auto.
      * right. left. auto.
      * right. right. exists e. auto.
    + intros Hne i Hi. rewrite Hbrs3 in Hi.
      assert (Hterm : err = terminal res1).
      { destruct Hres as [[-> ->]|[[-> _]|[e [-> [-> _]]]]]; auto. congruence. }
      destruct (Hclosed i Hi) as [br2 [Hg2 Hd2]].
      destruct (G3 _ _ Hg2) as [br3 [Hg3 [Hd3 _]]].
      exists br3. repeat split; auto.
      rewrite Hbrs2 in Hsent. destruct (Hsent i Hi) as [br3' [Hg3' Hin]].
      rewrite Hg3 in Hg3'. injection Hg3' as <-. now rewrite <- Hterm.
Qed.

(** A caller that lets the only reader receive: the source ["abcdef"] ends
    cleanly, [Broadcast] returns nil, the reader's [data] is closed and
    [io.EOF] is in its [err] channel; the source that fails after ["abc"]
    makes [Broadcast] return its error, which is sent to the reader. *)
Lemma Broadcast_result_witness :
  (exists b',
     Broadcast 2 [Go ChData false] oneReader = Ret (None, b', []) /\
     exists br, getReader b' 0 = Some br /\
                dataClosed br = true /\ In (Some EOF) (errLog br)) /\
  (forall res b' ts,
     Broadcast 2 [Go ChData false] oneReaderFailing = Ret (res, b', ts) ->
     res = Some sourceErr) /\
  (exists b',
     Broadcast 2 [Go ChData false] oneReaderFailing
     = Ret (Some sourceErr, b', []) /\
     exists br, getReader b' 0 = Some br /\
                dataClosed br = true /\ In (Some sourceErr) (errLog br)).
Proof.
  split; [|split].
  - destruct (Broadcast 2 [Go ChData false] oneReader)
      as [[[res b'] ts]| | |] eqn:HB; try discriminate.
    assert (Hres : res = None /\ ts = [] /\ In 0%nat (brs b')).
    { vm_compute in HB. injection HB as <- <- <-. repeat split. now left. }
    destruct Hres as [-> [-> Hin]].
    exists b'. split; [reflexivity|].
    destruct (Broadcast_result 2 [Go ChData false] oneReader None b' [])
      as [_ Hall]; [repeat constructor|exact HB|].
    apply Hall; [discriminate|exact Hin].
  - intros res b' ts HB.
    destruct (Broadcast_result 2 [Go ChData false] oneReaderFailing res b' ts)
      as [[[_ Hf]|[[_ Ha]|[e [-> [_ [Hf _]]]]]] _];
      [repeat constructor|exact HB| | |].
    + discriminate Hf.
    + vm_compute in HB. injection HB as _ <- _. discriminate Ha.
    + simpl in Hf. now subst e.
  - destruct (Broadcast 2 [Go ChData false] oneReaderFailing)
      as [[[res b'] ts]| | |] eqn:HB; try discriminate.
    assert (Hres : res = Some sourceErr /\ ts = [] /\ In 0%nat (brs b')).
    { vm_compute in HB. injection HB as <- <- <-. repeat split. now left. }
    destruct Hres as [-> [-> Hin]].
    exists b'. split; [reflexivity|].
    destruct (Broadcast_result 2 [Go ChData false] oneReaderFailing
                               (Some sourceErr) b' [])
      as [_ Hall]; [repeat constructor|exact HB|].
    apply Hall; [discriminate|exact Hin].
Defined.

(** C7 as stated fails: on a clean end [Broadcast] returns nil, and what the
    reader finds in its error slot is [io.EOF]; nil was never sent. *)
Lemma Broadcast_delivers_EOF_counterexample :
  exists b' br,
    Broadcast 1 [] oneReaderNoData = Ret (None, b', []) /\
    In 0%nat (brs b') /\ getReader b' 0 = Some br /\
    errq br = [Some EOF] /\ ~ In None (errLog br).
Proof.
  eexists. eexists. split; [reflexivity|]. split; [now left|].
  split; [reflexivity|]. split; [reflexivity|].
  simpl. intros [H|[]]. discriminate.
Qed.

(** C8 fails on the code: [Abort] called before [Broadcast] starts, no
    reader registered; [Broadcast] returns nil, not [ErrAborted]. *)
Lemma Broadcast_after_Abort_returns_nil :
  Abort (NewBroadcaster []) = Ret abortedAtOnce /\
  Broadcast 1 [] abortedAtOnce = Ret (None, abortedAtOnce, []).
Proof. split; reflexivity. Qed.

(** C8 fails on the code: the reader holds four undelivered bytes when
    [Abort] is called; its next [Read] of two bytes delivers ["cd"] with a
    nil error, whichever case its select would prefer. *)
Lemma Read_after_Abort_delivers_bytes :
  (exists b1, Broadcast 2 [Go ChData false] oneReader = Ret (None, b1, []) /\
              Read [Go ChData false] 0 2 b1
              = Ret (fourBuffered, (["a"; "b"]%byte, None))) /\
  Abort fourBuffered = Ret fourBufferedAborted /\
  forall ticks, exists b2,
    Read ticks 0 2 fourBufferedAborted = Ret (b2, (["c"; "d"]%byte, None)).
Proof.
  split; [eexists; split; reflexivity|]. split; [reflexivity|].
  intros ticks. eexists. unfold Read. simpl.
  destruct ticks; reflexivity.
Qed.

(** *** A read buffer of size zero *)

Lemma readAtLeast_zero (s : source) : readAtLeast s 0 = ([], None, s).
Proof. destruct s; reflexivity. Qed.

Lemma pump_zero fuel : forall ticks b,
  ReadBufferSize b = 0 -> pump fuel ticks b = OutOfFuel.
Proof.
  induction fuel as [|fuel IH]; intros ticks b Hz; [reflexivity|].
  cbn [pump]. rewrite Hz. simpl. rewrite readAtLeast_zero. simpl.
  apply IH. exact Hz.
Qed.

(** With [ReadBufferSize = 0] the loop of [Broadcast] reads nothing, sends
    nothing and sees no error: it has not ended after any number of rounds,
    whatever the readers do and whether or not [Abort] was called. *)
Theorem zero_ReadBufferSize_Broadcast_never_returns
        (fuel : nat) (ticks : list tick) (b : Broadcaster) :
  ReadBufferSize b = 0 -> Broadcast fuel ticks b = OutOfFuel.
Proof. intros Hz. unfold Broadcast. now rewrite pump_zero. Qed.

(** [oneReader] with [ReadBufferSize = 0]. *)
Definition oneReaderNoBuffer : Broadcaster :=
  mkBroadcaster (finite [["a"; "b"; "c"; "d"; "e"; "f"]]%byte)
                DefaultReadChanLength 0 [O] 0 false
                [mkReader [] [] DefaultReadChanLength false [] false false None []].

Lemma zero_ReadBufferSize_Broadcast_never_returns_witness :
  Broadcast 100 [Go ChData false; Go ChAbort false] oneReaderNoBuffer = OutOfFuel.
Proof. apply zero_ReadBufferSize_Broadcast_never_returns. reflexivity. Defined.

(** *** [deleteBroadcasterReader] *)

Lemma indexOf_nth x l : forall i,
  indexOf x l = Some i -> nth_error l i = Some x.
Proof.
  induction l as [|y l IH]; intros i H; [discriminate|]. simpl in H.
  destruct (Nat.eqb_spec y x) as [->|Hne].
  - injection H as <-. reflexivity.
  - destruct (indexOf x l) as [j|]; [|discriminate]. injection H as <-.
    simpl. now apply IH.
Qed.

Lemma indexOf_In x l : In x l -> exists i, indexOf x l = Some i.
Proof.
  induction l as [|y l IH]; intros Hin; [destruct Hin|]. simpl.
  destruct (Nat.eqb_spec y x) as [->|Hne]; [eauto|].
  destruct Hin as [->|Hin]; [congruence|].
  destruct (IH Hin) as [i ->]. simpl. eauto.
Qed.

Lemma indexOf_not_In x l : ~ In x l -> indexOf x l = None.
Proof.
  induction l as [|y l IH]; intros Hn; [reflexivity|]. simpl.
  destruct (Nat.eqb_spec y x) as [->|Hne]; [exfalso; apply Hn; now left|].
  rewrite IH; [reflexivity|]. intros Hin. apply Hn. now right.
Qed.

Lemma skipn_update {A : Type} (x : A) : forall n j l,
  skipn n (update (n + j) x l) = update j x (skipn n l).
Proof.
  induction n as [|n IH]; intros j l; [reflexivity|].
  destruct l as [|h t]; simpl.
  - destruct j; reflexivity.
  - apply IH.
Qed.

Lemma update_Permutation {A : Type} (h x : A) : forall l j,
  nth_error l j = Some x -> Permutation (h :: l) (x :: update j h l).
Proof.
  induction l as [|y l IH]; intros [|j] H; simpl in H; try discriminate.
  - injection H as ->. simpl. apply perm_swap.
  - simpl. eapply perm_trans; [apply perm_swap|].
    eapply perm_trans; [|apply perm_swap]. apply perm_skip. now apply IH.
Qed.

Lemma nth_skipn_hd (a : list nat) o h t :
  skipn o a = h :: t -> nth o a O = h /\ skipn (S o) a = t.
Proof.
  revert a. induction o as [|o IH]; intros a H.
  - simpl in H. subst a. split; reflexivity.
  - destruct a as [|y a]; [discriminate|]. simpl in H. apply IH in H as [H1 H2].
    split; [exact H1|exact H2].
Qed.

(** What [deleteBroadcasterReader] does to the slice [a[o:]] holding [br]
    at index [i]: in the slice as it was, only place [i] changes, and the
    new slice, one shorter, holds the other elements. *)
Lemma deleteBroadcasterReader_spec a o br i :
  indexOf br (skipn o a) = Some i ->
  snd (deleteBroadcasterReader a o br) = S o /\
  skipn o (fst (deleteBroadcasterReader a o br))
  = (if (0 <? i)%nat then update i (nth o a O) (skipn o a) else skipn o a) /\
  Permutation (skipn o a)
              (br :: skipn (S o) (fst (deleteBroadcasterReader a o br))).
Proof.
  intros Hi. unfold deleteBroadcasterReader. rewrite Hi. cbn [fst snd].
  split; [reflexivity|].
  pose proof (indexOf_nth _ _ _ Hi) as Hn.
  destruct (skipn o a) as [|h t] eqn:Hsk; [destruct i; discriminate|].
  destruct (nth_skipn_hd _ _ _ _ Hsk) as [Hh Ht].
  destruct i as [|i].
  - change (0 <? 0)%nat with false. cbv iota. split; [exact Hsk|].
    simpl in Hn. injection Hn as ->. rewrite Ht. apply Permutation_refl.
  - change (0 <? S i)%nat with true. cbv iota.
    rewrite skipn_update, Hsk. split; [reflexivity|].
    replace (o + S i)%nat with (S o + i)%nat by lia.
    rewrite skipn_update, Ht, Hh. simpl in Hn. now apply update_Permutation.
Qed.

(** [deleteBroadcasterReader] removes one occurrence of the reader and
    nothing else: the slice returned holds, in some order, the other
    elements of the slice given; in the slice given only the place of the
    reader deleted has changed, so a loop over it goes on undisturbed; and
    a reader that is not in the slice leaves everything as it is. *)
Theorem deleteBroadcasterReader_removes_one (a : list nat) (o br : nat) :
  (In br (skipn o a) ->
   Permutation (skipn o a)
               (br :: skipn (snd (deleteBroadcasterReader a o br))
                            (fst (deleteBroadcasterReader a o br))) /\
   forall i k, indexOf br (skipn o a) = Some i -> k <> i ->
               nth_error (skipn o (fst (deleteBroadcasterReader a o br))) k
               = nth_error (skipn o a) k) /\
  (~ In br (skipn o a) -> deleteBroadcasterReader a o br = (a, o)).
Proof.
  split.
  - intros Hin. destruct (indexOf_In _ _ Hin) as [i Hi].
    destruct (deleteBroadcasterReader_spec _ _ _ _ Hi) as [Ho [Hs Hp]].
    rewrite Ho. split; [exact Hp|].
    intros i' k Hi' Hk. rewrite Hi in Hi'. injection Hi' as <-. rewrite Hs.
    destruct (0 <? i)%nat; [|reflexivity].
    apply nth_error_update_neq. congruence.
  - intros Hn. unfold deleteBroadcasterReader.
    now rewrite (indexOf_not_In _ _ Hn).
Qed.

(** *** What the steps do to a reader *)

(** The bytes a reader holds: reassembled, and queued on [data]. *)
Definition received (br : BroadcasterReader) : bytes := buf br ++ concat (data br).

(** Reader [i] of [b] is replaced, in [b'], by one related to it by [R]. *)
Definition changes (i : nat) (b b' : Broadcaster)
           (R : BroadcasterReader -> BroadcasterReader -> Prop) : Prop :=
  exists br br', getReader b i = Some br /\ b' = setReader b i br' /\ R br br'.

(** A step that takes no byte from a reader, gives it none and does not
    reopen its [err] channel. *)
Definition steady (br br' : BroadcasterReader) : Prop :=
  received br' = received br /\ (errClosed br = true -> errClosed br' = true).

Lemma sendData_changes i d w b b' :
  sendData i d w b = Ret b' ->
  changes i b b' (fun br br' => received br' = received br ++ d /\
                                errClosed br' = errClosed br).
Proof.
  unfold sendData. intros H. reader_op H.
  destruct (dataClosed br); [discriminate|].
  destruct (_ || _); [|discriminate]. injection H as <-.
  exists br. eexists. split; [exact Hg|]. split; [reflexivity|].
  unfold received. simpl. split; [|reflexivity].
  rewrite concat_app. simpl. now rewrite app_nil_r, app_assoc.
Qed.

Lemma closeData_changes i b b' :
  closeData i b = Ret b' -> changes i b b' steady.
Proof.
  unfold closeData. intros H. reader_op H.
  destruct (dataClosed br); [discriminate|]. injection H as <-.
  exists br. eexists. split; [exact Hg|]. split; [reflexivity|].
  split; [reflexivity|auto].
Qed.

Lemma closeErr_changes i b b' :
  closeErr i b = Ret b' ->
  changes i b b' (fun br br' => steady br br' /\ errClosed br' = true).
Proof.
  unfold closeErr. intros H. reader_op H.
  destruct (errClosed br); [discriminate|]. injection H as <-.
  exists br. eexists. split; [exact Hg|]. split; [reflexivity|].
  split; [split|]; auto.
Qed.

Lemma sendErr_changes i e b b' :
  sendErr i e b = Ret b' -> changes i b b' steady.
Proof.
  unfold sendErr. intros H. reader_op H.
  destruct (errClosed br) eqn:Hc; [discriminate|].
  destruct (length (errq br) <? 2)%nat; [|discriminate]. injection H as <-.
  exists br. eexists. split; [exact Hg|]. split; [reflexivity|].
  split; [reflexivity|simpl; congruence].
Qed.

Lemma pollErr_changes i b b' :
  pollErr i b = Ret b' -> b' = b \/ changes i b b' steady.
Proof.
  unfold pollErr. intros H. reader_op H.
  destruct (errq br) as [|e q].
  - destruct (errClosed br) eqn:Hc; injection H as <-; [right|now left].
    exists br. eexists. split; [exact Hg|]. split; [reflexivity|].
    split; [reflexivity|auto].
  - injection H as <-. right.
    exists br. eexists. split; [exact Hg|]. split; [reflexivity|].
    split; [reflexivity|auto].
Qed.

Lemma recvData_changes i b b' :
  recvData i b = Ret b' -> changes i b b' steady.
Proof.
  unfold recvData. intros H. reader_op H.
  destruct (data br) as [|d q] eqn:Hd; [discriminate|]. injection H as <-.
  exists br. eexists. split; [exact Hg|]. split; [reflexivity|].
  split; [|auto]. unfold received. simpl. rewrite Hd. simpl.
  now rewrite app_assoc.
Qed.

Lemma closeShutdown_changes i b b' :
  closeShutdown i b = Ret b' -> changes i b b' steady.
Proof.
  unfold closeShutdown. intros H. reader_op H.
  destruct (shutdown br); [discriminate|]. injection H as <-.
  exists br. eexists. split; [exact Hg|]. split; [reflexivity|].
  split; [reflexivity|auto].
Qed.

(** From [b] to [b']: a closed [err] channel stays closed. *)
Definition errStays (b b' : Broadcaster) : Prop :=
  forall j br, getReader b j = Some br -> errClosed br = true ->
    exists br', getReader b' j = Some br' /\ errClosed br' = true.

Lemma errStays_refl b : errStays b b.
Proof. intros j br H1 H2. eauto. Qed.

Lemma errStays_trans b1 b2 b3 : errStays b1 b2 -> errStays b2 b3 -> errStays b1 b3.
Proof.
  intros H12 H23 j br H1 H2. destruct (H12 _ _ H1 H2) as [br2 [K1 K2]].
  exact (H23 _ _ K1 K2).
Qed.

Lemma changes_errStays i b b' R :
  changes i b b' R ->
  (forall br br', R br br' -> errClosed br = true -> errClosed br' = true) ->
  errStays b b'.
Proof.
  intros [br [br' [Hg [-> HR]]]] Hk j brj Hj Hc. unfold getReader in *. simpl.
  destruct (Nat.eq_dec i j) as [<-|Hne].
  - rewrite (nth_error_update_eq _ _ _ _ Hg). exists br'. split; [reflexivity|].
    rewrite Hg in Hj. injection Hj as <-. eapply Hk; eauto.
  - rewrite nth_error_update_neq by exact Hne. eauto.
Qed.

Lemma detach_errStays i b b' : detach i b = Ret b' -> errStays b b'.
Proof.
  unfold detach. intros H.
  destruct (closeData i b) as [b1| | |] eqn:H1; try discriminate.
  destruct (closeErr i b1) as [b2| | |] eqn:H2; try discriminate.
  destruct (deleteBroadcasterReader (arr b2) (off b2) i) as [a o].
  injection H as <-.
  apply closeData_changes in H1. apply closeErr_changes in H2.
  eapply errStays_trans; [eapply changes_errStays; [exact H1|]|].
  - intros br br' [_ Hs]. exact Hs.
  - eapply errStays_trans; [eapply changes_errStays; [exact H2|]|].
    + intros br br' [_ Hs] _. exact Hs.
    + intros j br Hj Hc. exists br. auto.
Qed.

Lemma applyAction_errStays a b b' : applyAction a b = Ret b' -> errStays b b'.
Proof.
  assert (Hst : forall i b0 b0', changes i b0 b0' steady -> errStays b0 b0').
  { intros i b0 b0' H. eapply changes_errStays; [exact H|].
    intros br br' [_ Hs]. exact Hs. }
  destruct a; simpl; intros H.
  - apply unblocked_Ret in H as [H|[_ ->]]; [|apply errStays_refl].
    apply recvData_changes in H. eauto.
  - apply pollErr_changes in H as [->|H]; [apply errStays_refl|eauto].
  - apply closeShutdown_changes in H. eauto.
  - apply unblocked_Ret in H as [H|[_ ->]]; [|apply errStays_refl].
    apply sendErr_changes in H. eauto.
  - apply unblocked_Ret in H as [H|[_ ->]]; [|apply errStays_refl].
    apply sendData_changes in H. eapply changes_errStays; [exact H|].
    intros br br' [_ Hs]. congruence.
  - now apply detach_errStays in H.
  - apply closeData_changes in H. eauto.
  - apply unblocked_Ret in H as [H|[_ ->]]; [|apply errStays_refl].
    apply sendErr_changes in H. eauto.
  - unfold Abort in H. destruct (abort b); [discriminate|]. injection H as <-.
    intros j br Hj Hc. exists br. auto.
Qed.

Lemma applyAction_outcome a b :
  applyAction a b = Panic \/ exists b', applyAction a b = Ret b'.
Proof.
  assert (Hu : forall o, unblocked o b = Panic \/ (exists b', unblocked o b = Ret b') \/
                         o = OutOfFuel).
  { intros [b'| | |]; simpl; eauto. }
  destruct a; simpl.
  - unfold recvData. destruct (getReader b i) as [br|]; simpl; auto.
    destruct (data br); simpl; eauto.
  - unfold pollErr. destruct (getReader b i) as [br|]; auto.
    destruct (errq br); [destruct (errClosed br)|]; eauto.
  - unfold closeShutdown. destruct (getReader b i) as [br|]; auto.
    destruct (shutdown br); eauto.
  - unfold sendErr. destruct (getReader b i) as [br|]; simpl; auto.
    destruct (errClosed br); simpl; auto.
    destruct (length (errq br) <? 2)%nat; simpl; eauto.
  - unfold sendData. destruct (getReader b i) as [br|]; simpl; auto.
    destruct (dataClosed br); simpl; auto.
    destruct (_ || _); simpl; eauto.
  - unfold detach, closeData. destruct (getReader b i) as [br|]; auto.
    destruct (dataClosed br); auto.
    unfold closeErr. destruct (getReader _ i) as [br1|]; auto.
    destruct (errClosed br1); auto.
    destruct (deleteBroadcasterReader _ _ i) as [x o]. eauto.
  - unfold closeData. destruct (getReader b i) as [br|]; auto.
    destruct (dataClosed br); eauto.
  - unfold sendErr. destruct (getReader b i) as [br|]; simpl; auto.
    destruct (errClosed br); simpl; auto.
    destruct (length (errq br) <? 2)%nat; simpl; eauto.
  - unfold Abort. destruct (abort b); eauto.
Qed.

(** A send on an [err] channel that is closed panics, whatever happens
    before it. *)
Lemma awaitSendErr_closed ticks : forall i e b br,
  getReader b i = Some br -> errClosed br = true ->
  awaitSendErr ticks i e b = Panic.
Proof.
  assert (Hsend : forall i e b br, getReader b i = Some br ->
                    errClosed br = true -> sendErr i e b = Panic).
  { intros i e b br Hg Hc. unfold sendErr. now rewrite Hg, Hc. }
  induction ticks as [|t ticks IH]; intros i e b br Hg Hc; cbn [awaitSendErr].
  - now rewrite (Hsend _ e _ _ Hg Hc).
  - destruct t as [a|c w].
    + destruct (applyAction_outcome a b) as [->|[b' Ha]]; [reflexivity|].
      rewrite Ha. destruct (applyAction_errStays _ _ _ Ha _ _ Hg Hc) as [br' [Hg' Hc']].
      eapply IH; eauto.
    + now rewrite (Hsend _ e _ _ Hg Hc).
Qed.

(** [Close] of a reader is two steps, [close(br.shutdown)] and
    [br.err <- ErrClosed]. When [Broadcast] takes the shutdown case for the
    reader in between, it closes [br.err], and the send of [Close]
    panics, whatever happens next. *)
Theorem Close_panics_when_detached_in_between
        (i : nat) (b : Broadcaster) (br : BroadcasterReader) (ticks : list tick) :
  getReader b i = Some br ->
  shutdown br = false -> dataClosed br = false -> errClosed br = false ->
  Close (Env (PumpDetach i) :: ticks) i b = Panic.
Proof.
  intros Hg Hs Hd He. unfold Close, closeShutdown. rewrite Hg, Hs.
  cbn [awaitSendErr applyAction].
  set (br1 := mkReader (buf br) (data br) (dataCap br) (dataClosed br) (errq br)
                       (errClosed br) true (last br) (errLog br)).
  assert (Hg1 : getReader (setReader b i br1) i = Some br1).
  { unfold getReader. simpl. apply (nth_error_update_eq _ _ _ _ Hg). }
  destruct (detach i (setReader b i br1)) as [b2| | |] eqn:Hdet.
  - assert (Hc : exists br2, getReader b2 i = Some br2 /\ errClosed br2 = true).
    { unfold detach in Hdet.
      destruct (closeData i _) as [b3| | |] eqn:H1; try discriminate.
      destruct (closeErr i b3) as [b4| | |] eqn:H2; try discriminate.
      destruct (deleteBroadcasterReader (arr b4) (off b4) i) as [a o].
      injection Hdet as <-.
      apply closeErr_changes in H2 as [x [y [Hx [-> [_ Hy]]]]].
      exists y. split; [|exact Hy]. unfold getReader in *. simpl.
      apply (nth_error_update_eq _ _ _ _ Hx). }
    destruct Hc as [br2 [Hg2 Hc2]].
    now rewrite (awaitSendErr_closed _ _ _ _ _ Hg2 Hc2).
  - reflexivity.
  - exfalso. destruct (applyAction_outcome (PumpDetach i) (setReader b i br1))
      as [H|[b' H]]; simpl in H; congruence.
  - exfalso. destruct (applyAction_outcome (PumpDetach i) (setReader b i br1))
      as [H|[b' H]]; simpl in H; congruence.
Qed.

Lemma Close_panics_when_detached_in_between_witness :
  Close [Env (PumpDetach 0)] 0 oneReader = Panic.
Proof.
  eapply Close_panics_when_detached_in_between; reflexivity.
Defined.

(** *** What [Broadcast] delivers *)

(** The bytes held by the reader at [i], if there is one. *)
Definition holds (b : Broadcaster) (i : nat) : option bytes :=
  option_map received (getReader b i).

(** From [b] to [b']: the slice of readers is the same and no reader was
    given or taken a byte. *)
Definition quiet (b b' : Broadcaster) : Prop :=
  arr b' = arr b /\ off b' = off b /\ forall j, holds b' j = holds b j.

Lemma quiet_refl b : quiet b b.
Proof. repeat split. Qed.

Lemma quiet_trans b1 b2 b3 : quiet b1 b2 -> quiet b2 b3 -> quiet b1 b3.
Proof.
  intros [A1 [O1 H1]] [A2 [O2 H2]].
  split; [congruence|]. split; [congruence|]. intros j. now rewrite H2, H1.
Qed.

Lemma holds_setReader b i br br' j :
  getReader b i = Some br ->
  holds (setReader b i br') j = if (j =? i)%nat then Some (received br') else holds b j.
Proof.
  intros Hg. unfold holds, getReader in *. simpl.
  destruct (Nat.eqb_spec j i) as [->|Hne].
  - now rewrite (nth_error_update_eq _ _ _ _ Hg).
  - rewrite nth_error_update_neq by congruence. reflexivity.
Qed.

Lemma changes_quiet i b b' R :
  changes i b b' R ->
  (forall br br', R br br' -> received br' = received br) ->
  quiet b b'.
Proof.
  intros [br [br' [Hg [-> HR]]]] Hk. repeat split. intros j.
  rewrite (holds_setReader _ _ _ _ _ Hg).
  destruct (Nat.eqb_spec j i) as [->|Hne]; [|reflexivity].
  unfold holds. rewrite Hg. simpl. f_equal. now apply Hk.
Qed.

Lemma steady_quiet i b b' : changes i b b' steady -> quiet b b'.
Proof. intros H. eapply changes_quiet; [exact H|]. now intros br br' [Hr _]. Qed.

(** The readers and [Abort] take no byte and give none. *)
Lemma applyAction_quiet a b b' :
  readerSide (Env a) -> applyAction a b = Ret b' -> quiet b b'.
Proof.
  destruct a; simpl; intros Hrs H; try contradiction.
  - apply unblocked_Ret in H as [H|[_ ->]]; [|apply quiet_refl].
    apply recvData_changes in H. now apply steady_quiet in H.
  - apply pollErr_changes in H as [->|H]; [apply quiet_refl|].
    now apply steady_quiet in H.
  - apply closeShutdown_changes in H. now apply steady_quiet in H.
  - apply unblocked_Ret in H as [H|[_ ->]]; [|apply quiet_refl].
    apply sendErr_changes in H. now apply steady_quiet in H.
  - unfold Abort in H. destruct (abort b); [discriminate|]. injection H as <-.
    repeat split.
Qed.

(** The bytes a source yields up to its first error. *)
Fixpoint readable (s : source) : bytes :=
  match s with
  | [] => []
  | (d, None) :: s' => d ++ readable s'
  | (d, Some _) :: _ => d
  end.

Lemma readAtLeast_readable (s : source) : forall n d e s',
  readAtLeast s n = (d, e, s') ->
  readable s = match e with
               | None => d ++ readable s'
               | Some _ => d
               end.
Proof.
  induction s as [|[c ce] s IH]; intros n d e s' H.
  - destruct n; simpl in H; injection H as <- <- <-; reflexivity.
  - destruct n as [|n]; [simpl in H; injection H as <- <- <-; reflexivity|].
    cbn [readAtLeast] in H.
    destruct (S n <? length c)%nat.
    + injection H as <- <- <-.
      destruct ce as [x|].
      * change (c = firstn (S n) c ++ skipn (S n) c).
        symmetry. apply firstn_skipn.
      * change (c ++ readable s = firstn (S n) c ++ (skipn (S n) c ++ readable s)).
        now rewrite app_assoc, firstn_skipn.
    + destruct ce as [x|].
      * injection H as <- <- <-. reflexivity.
      * destruct (readAtLeast s (S n - length c)) as [[d2 e2] s2] eqn:Hrec.
        injection H as <- <- <-. simpl. rewrite (IH _ _ _ _ Hrec).
        destruct e2; [reflexivity|now rewrite app_assoc].
Qed.

(** The select of [Broadcast] for reader [i], the others being readers:
    the buffer is added to what the reader holds, or the reader is taken
    off the slice, and nothing else changes. *)
Lemma sendSelect_delivers ticks : forall i d b sel b' ts,
  Forall readerSide ticks ->
  sendSelect ticks i d b = Ret (sel, b', ts) ->
  Forall readerSide ts /\
  match sel with
  | Sent =>
    arr b' = arr b /\ off b' = off b /\
    holds b' i = option_map (fun x => x ++ d) (holds b i) /\
    forall j, j <> i -> holds b' j = holds b j
  | Detached =>
    (arr b', off b') = deleteBroadcasterReader (arr b) (off b) i /\
    forall j, holds b' j = holds b j
  | Aborted => True
  end.
Proof.
  induction ticks as [|t ticks IH]; intros i d b sel b' ts Hrs H; [discriminate|].
  pose proof (Forall_inv Hrs) as Ht. apply Forall_inv_tail in Hrs.
  assert (Hrec : forall b1, quiet b b1 ->
             sendSelect ticks i d b1 = Ret (sel, b', ts) ->
             Forall readerSide ts /\
             match sel with
             | Sent =>
               arr b' = arr b /\ off b' = off b /\
               holds b' i = option_map (fun x => x ++ d) (holds b i) /\
               forall j, j <> i -> holds b' j = holds b j
             | Detached =>
               (arr b', off b') = deleteBroadcasterReader (arr b) (off b) i /\
               forall j, holds b' j = holds b j
             | Aborted => True
             end).
  { intros b1 [A1 [O1 H1]] Hr. destruct (IH _ _ _ _ _ _ Hrs Hr) as [F S].
    split; [exact F|]. destruct sel; auto.
    - destruct S as [S1 [S2 [S3 S4]]].
      split; [congruence|]. split; [congruence|]. split.
      + now rewrite S3, H1.
      + intros j Hj. now rewrite (S4 j Hj), H1.
    - destruct S as [S1 S2]. split; [congruence|].
      intros j. now rewrite S2, H1. }
  destruct t as [a|c w]; cbn [sendSelect] in H.
  - destruct (applyAction a b) as [b1| | |] eqn:Ha; try discriminate.
    apply (Hrec b1); auto. now apply applyAction_quiet in Ha.
  - destruct c.
    + destruct (sendData i d w b) as [b1| | |] eqn:Hs; try discriminate.
      * injection H as <- <- <-. split; [exact Hrs|].
        apply sendData_changes in Hs as [br [br' [Hg [-> [Hr _]]]]].
        split; [reflexivity|]. split; [reflexivity|]. split.
        -- rewrite (holds_setReader _ _ _ _ _ Hg), Nat.eqb_refl.
           unfold holds. rewrite Hg. simpl. now rewrite Hr.
        -- intros j Hj. rewrite (holds_setReader _ _ _ _ _ Hg).
           now replace (j =? i)%nat with false by (symmetry; now apply Nat.eqb_neq).
      * apply (Hrec b); auto using quiet_refl.
    + destruct (getReader b i) as [br|]; [|discriminate].
      destruct (shutdown br); [|apply (Hrec b); auto using quiet_refl].
      destruct (detach i b) as [b1| | |] eqn:Hd; try discriminate.
      injection H as <- <- <-. split; [exact Hrs|].
      unfold detach in Hd.
      destruct (closeData i b) as [b2| | |] eqn:H1; try discriminate.
      destruct (closeErr i b2) as [b3| | |] eqn:H2; try discriminate.
      apply closeData_changes, steady_quiet in H1 as [A1 [O1 K1]].
      apply closeErr_changes in H2.
      assert (Q2 : quiet b2 b3).
      { eapply changes_quiet; [exact H2|]. now intros x y [[Hr _] _]. }
      destruct Q2 as [A2 [O2 K2]].
      destruct (deleteBroadcasterReader (arr b3) (off b3) i) as [a o] eqn:Hdel.
      injection Hd as <-. simpl. split.
      -- rewrite <- Hdel. congruence.
      -- intros j. unfold holds, getReader. simpl.
         change (holds b3 j = holds b j). now rewrite K2, K1.
    + destruct (abort b); [|apply (Hrec b); auto using quiet_refl].
      injection H as <- <- <-. split; [exact Hrs|exact I].
Qed.

Lemma skipn_nth_cons {A : Type} (l : list A) : forall m x,
  nth_error l m = Some x -> skipn m l = x :: skipn (S m) l.
Proof.
  induction l as [|y l IH]; intros [|m] x H; simpl in H; try discriminate.
  - injection H as ->. reflexivity.
  - apply IH in H. exact H.
Qed.

Lemma NoDup_skipn {A : Type} (l : list A) k : NoDup l -> NoDup (skipn k l).
Proof.
  intros H. rewrite <- (firstn_skipn k l) in H. now apply NoDup_app_remove_l in H.
Qed.

Lemma skipn_le_split {A : Type} (l : list A) p m :
  (p <= m)%nat -> skipn m l = skipn (m - p) (skipn p l).
Proof.
  intros H. rewrite skipn_skipn. f_equal. lia.
Qed.

Lemma incl_skipn {A : Type} (l : list A) k : incl (skipn k l) l.
Proof.
  intros x Hx. rewrite <- (firstn_skipn k l). apply in_or_app. now right.
Qed.

Lemma skipn_S_update {A : Type} (x : A) : forall k l,
  skipn (S k) (update k x l) = skipn (S k) l.
Proof.
  induction k as [|k IH]; intros [|y l]; try reflexivity.
  simpl. destruct l; [destruct k; reflexivity|]. apply (IH (a :: l)).
Qed.

Lemma indexOf_NoDup x l k :
  NoDup l -> nth_error l k = Some x -> indexOf x l = Some k.
Proof.
  intros Hnd Hk.
  destruct (indexOf_In x l (nth_error_In _ _ Hk)) as [k' Hk'].
  pose proof (indexOf_nth _ _ _ Hk') as Hn.
  rewrite Hk'. f_equal.
  apply (proj1 (NoDup_nth_error l) Hnd).
  - apply nth_error_Some. congruence.
  - congruence.
Qed.

(** What taking the reader at place [m] of the backing array off the slice
    does: the slice loses that reader and nothing else, and the places
    after [m] keep their readers. *)
Lemma delete_at a p m i :
  NoDup (skipn p a) -> (p <= m)%nat -> nth_error a m = Some i ->
  snd (deleteBroadcasterReader a p i) = S p /\
  skipn (S m) (fst (deleteBroadcasterReader a p i)) = skipn (S m) a /\
  Permutation (skipn p a) (i :: skipn (S p) (fst (deleteBroadcasterReader a p i))).
Proof.
  intros Hnd Hle Hm.
  assert (Hk : nth_error (skipn p a) (m - p) = Some i).
  { rewrite nth_error_skipn. rewrite <- Hm. f_equal. lia. }
  pose proof (indexOf_NoDup _ _ _ Hnd Hk) as Hi.
  destruct (deleteBroadcasterReader_spec _ _ _ _ Hi) as [Ho [Hs Hp]].
  split; [exact Ho|]. split; [|exact Hp].
  rewrite (skipn_le_split (fst (deleteBroadcasterReader a p i)) p (S m)) by lia.
  rewrite (skipn_le_split a p (S m)) by lia.
  rewrite Hs. replace (S m - p)%nat with (S (m - p)) by lia.
  destruct (0 <? m - p)%nat; [apply skipn_S_update|reflexivity].
Qed.

(** One round of [Broadcast], the others being readers and nobody
    aborting: every reader left on the slice has been given the buffer, and
    only those of before are left. *)
Lemma rangeSend_delivers n :
  forall idx o ticks d b b' ts (h0 : nat -> option bytes) (B0 : list nat),
  Forall readerSide ticks ->
  rangeSend n idx o ticks d b = Ret (false, b', ts) ->
  NoDup (brs b) -> (off b <= o + idx)%nat ->
  length (skipn (o + idx) (arr b)) = n ->
  incl (brs b) B0 ->
  (forall j, In j (brs b) ->
     (In j (skipn (o + idx) (arr b)) /\ holds b j = h0 j) \/
     (~ In j (skipn (o + idx) (arr b)) /\
      holds b j = option_map (fun x => x ++ d) (h0 j))) ->
  Forall readerSide ts /\ NoDup (brs b') /\ incl (brs b') B0 /\
  forall j, In j (brs b') -> holds b' j = option_map (fun x => x ++ d) (h0 j).
Proof.
  induction n as [|n IH]; intros idx o ticks d b b' ts h0 B0 Hrs H Hnd Hle Hlen Hin Hall;
    cbn [rangeSend] in H.
  - injection H as <- <-. split; [exact Hrs|]. split; [exact Hnd|].
    split; [exact Hin|]. intros j Hj.
    apply length_zero_iff_nil in Hlen.
    destruct (Hall j Hj) as [[Hx _]|[_ Hx]]; [|exact Hx].
    rewrite Hlen in Hx. destruct Hx.
  - destruct (nth_error (arr b) (o + idx)) as [i|] eqn:Hi; [|discriminate].
    pose proof (skipn_nth_cons _ _ _ Hi) as Hsk.
    assert (Htodo : NoDup (skipn (o + idx) (arr b))).
    { rewrite (skipn_le_split (arr b) (off b) (o + idx) Hle).
      apply NoDup_skipn. exact Hnd. }
    rewrite Hsk in Htodo. apply NoDup_cons_iff in Htodo as [Hni Hrest].
    assert (Hib : In i (brs b)).
    { unfold brs. rewrite (skipn_le_split (arr b) (off b) (o + idx) Hle) in Hsk.
      apply (incl_skipn (skipn (off b) (arr b)) (o + idx - off b)).
      rewrite Hsk. now left. }
    assert (Hi0 : holds b i = h0 i).
    { destruct (Hall i Hib) as [[_ Hx]|[Hx _]]; [exact Hx|].
      exfalso. apply Hx. rewrite Hsk. now left. }
    assert (Hlen' : length (skipn (S (o + idx)) (arr b)) = n).
    { rewrite Hsk in Hlen. injection Hlen as Hlen. exact Hlen. }
    destruct (sendSelect ticks i d b) as [[[sel b1] ts1]| | |] eqn:Hs;
      try discriminate.
    destruct (sendSelect_delivers _ _ _ _ _ _ _ Hrs Hs) as [F1 S1].
    destruct sel; [| |discriminate].
    + destruct S1 as [A1 [O1 [K1 K2]]].
      assert (Hb1 : brs b1 = brs b) by (unfold brs; congruence).
      apply (IH (S idx) o ts1 d b1 b' ts h0 B0 F1 H).
      * now rewrite Hb1.
      * rewrite O1. lia.
      * rewrite Nat.add_succ_r, A1. exact Hlen'.
      * now rewrite Hb1.
      * intros j Hj. rewrite Hb1 in Hj. rewrite Nat.add_succ_r, A1.
        destruct (Nat.eq_dec j i) as [->|Hne].
        -- right. split; [exact Hni|]. now rewrite K1, Hi0.
        -- rewrite (K2 j Hne).
           destruct (Hall j Hj) as [[Hx Hh]|[Hx Hh]]; [left|right].
           ++ split; [|exact Hh]. rewrite Hsk in Hx.
              destruct Hx as [Hx|Hx]; [congruence|exact Hx].
           ++ split; [|exact Hh]. intros Hy. apply Hx. rewrite Hsk. now right.
    + destruct S1 as [D1 K1].
      destruct (delete_at (arr b) (off b) (o + idx) i Hnd Hle Hi) as [Ho [Hs' Hp]].
      rewrite <- D1 in Ho, Hs', Hp. cbn [fst snd] in Ho, Hs', Hp.
      assert (Hnd1 : NoDup (i :: brs b1)).
      { unfold brs. rewrite Ho. eapply Permutation_NoDup; [exact Hp|exact Hnd]. }
      apply NoDup_cons_iff in Hnd1 as [Hni1 Hnd1].
      assert (Hsub : forall j, In j (brs b1) -> In j (brs b) /\ j <> i).
      { intros j Hj. split.
        - apply (Permutation_in j (Permutation_sym Hp)). right.
          unfold brs in Hj. now rewrite Ho in Hj.
        - intros ->. contradiction. }
      apply (IH (S idx) o ts1 d b1 b' ts h0 B0 F1 H).
      * exact Hnd1.
      * rewrite Ho. lia.
      * rewrite Nat.add_succ_r, Hs'. exact Hlen'.
      * intros j Hj. apply Hin. now apply Hsub.
      * intros j Hj. destruct (Hsub j Hj) as [Hjb Hne].
        rewrite Nat.add_succ_r, Hs', K1.
        destruct (Hall j Hjb) as [[Hx Hh]|[Hx Hh]]; [left|right].
        -- split; [|exact Hh]. rewrite Hsk in Hx.
           destruct Hx as [Hx|Hx]; [congruence|exact Hx].
        -- split; [|exact Hh]. intros Hy. apply Hx. rewrite Hsk. now right.
Qed.

Lemma option_map_app_nil (h : option bytes) :
  option_map (fun x => x ++ []) h = h.
Proof. destruct h; simpl; [now rewrite app_nil_r|reflexivity]. Qed.

Lemma option_map_app_app (h : option bytes) d1 d2 :
  option_map (fun x => x ++ d2) (option_map (fun x => x ++ d1) h)
  = option_map (fun x => x ++ d1 ++ d2) h.
Proof. destruct h; simpl; [now rewrite app_assoc|reflexivity]. Qed.

(** The loop of [Broadcast], the others being readers: when it ends other
    than by [Abort], every reader left on the slice has been given, in
    order, all the bytes the source yielded. *)
Lemma pump_delivers fuel : forall ticks b res err b' ts,
  Forall readerSide ticks -> NoDup (brs b) ->
  pump fuel ticks b = Ret (res, err, b', ts) -> res <> Some ErrAborted ->
  Forall readerSide ts /\ NoDup (brs b') /\ incl (brs b') (brs b) /\
  forall j, In j (brs b') ->
            holds b' j = option_map (fun x => x ++ readable (r b)) (holds b j).
Proof.
  induction fuel as [|fuel IH]; intros ticks b res err b' ts Hrs Hnd H Hres;
    [discriminate|].
  cbn [pump] in H.
  destruct (ReadBufferSize b <? 0); [discriminate|].
  destruct (readAtLeast (r b) (Z.to_nat (ReadBufferSize b))) as [[d e] src] eqn:Hr.
  pose proof (readAtLeast_readable _ _ _ _ _ Hr) as Hrd.
  set (b1 := setSource b src) in *.
  assert (Hsend : exists ab b2 ts2,
             (if (0 <? length d)%nat
              then rangeSend (length (brs b1)) 0 (off b1) ticks d b1
              else Ret (false, b1, ticks)) = Ret (ab, b2, ts2) /\
             r b2 = src /\
             (ab = false ->
              Forall readerSide ts2 /\ NoDup (brs b2) /\ incl (brs b2) (brs b) /\
              forall j, In j (brs b2) ->
                        holds b2 j = option_map (fun x => x ++ d) (holds b j))).
  { destruct (0 <? length d)%nat eqn:Hd.
    - destruct (rangeSend _ _ _ _ _ _) as [[[ab b2] ts2]| | |] eqn:Hrs2;
        try discriminate.
      exists ab, b2, ts2. split; [reflexivity|].
      destruct (rangeSend_spec _ _ _ _ _ _ _ _ _ Hrs2) as [[_ [R2 _]] _].
      split; [exact R2|]. intros ->.
      apply (rangeSend_delivers _ _ _ _ _ _ _ _ (holds b) (brs b) Hrs Hrs2).
      + exact Hnd.
      + lia.
      + now rewrite Nat.add_0_r.
      + apply incl_refl.
      + intros j Hj. left. split; [|reflexivity].
        rewrite Nat.add_0_r. exact Hj.
    - exists false, b1, ticks. split; [reflexivity|]. split; [reflexivity|].
      intros _. split; [exact Hrs|]. split; [exact Hnd|]. split; [apply incl_refl|].
      intros j _. apply Nat.ltb_ge in Hd.
      assert (d = []) as -> by (destruct d; [reflexivity|simpl in Hd; lia]).
      rewrite option_map_app_nil. reflexivity. }
  destruct Hsend as [ab [b2 [ts2 [Heq [Hr2 Hdel]]]]]. rewrite Heq in H.
  destruct ab.
  { injection H as <- _ _ _. congruence. }
  destruct (Hdel eq_refl) as [F2 [N2 [I2 K2]]].
  destruct e as [x|].
  - assert (Hx : b' = b2 /\ ts = ts2).
    { destruct x; injection H as _ _ <- <-; auto. }
    destruct Hx as [-> ->]. rewrite Hrd. auto.
  - destruct (IH _ _ _ _ _ _ F2 N2 H Hres) as [F3 [N3 [I3 K3]]].
    split; [exact F3|]. split; [exact N3|].
    split; [eapply incl_tran; eauto|].
    intros j Hj. rewrite (K3 j Hj), (K2 j (I3 j Hj)), Hr2, Hrd.
    apply option_map_app_app.
Qed.

Lemma closeAll_quiet ids : forall b b', closeAll ids b = Ret b' -> quiet b b'.
Proof.
  induction ids as [|j ids IH]; intros b b' H; cbn [closeAll] in H.
  - injection H as <-. apply quiet_refl.
  - destruct (closeData j b) as [b1| | |] eqn:Hc; try discriminate.
    apply closeData_changes, steady_quiet in Hc.
    eapply quiet_trans; [exact Hc|]. now apply IH.
Qed.

Lemma awaitSendErr_quiet ticks : forall i e b b' ts,
  Forall readerSide ticks ->
  awaitSendErr ticks i e b = Ret (b', ts) -> quiet b b'.
Proof.
  assert (Hsend : forall i e b b', sendErr i e b = Ret b' -> quiet b b').
  { intros i e b b' H. now apply sendErr_changes, steady_quiet in H. }
  induction ticks as [|t ticks IH]; intros i e b b' ts Hrs H; cbn [awaitSendErr] in H.
  - destruct (sendErr i e b) as [b1| | |] eqn:Hs; try discriminate.
    injection H as <- <-. eauto.
  - pose proof (Forall_inv Hrs) as Ht. apply Forall_inv_tail in Hrs.
    destruct t as [a|c w].
    + destruct (applyAction a b) as [b1| | |] eqn:Ha; try discriminate.
      eapply quiet_trans; [exact (applyAction_quiet _ _ _ Ht Ha)|]. eauto.
    + destruct (sendErr i e b) as [b1| | |] eqn:Hs; try discriminate.
      * injection H as <- <-. eauto.
      * eauto.
Qed.

Lemma sendErrs_quiet ids : forall ticks e b b' ts,
  Forall readerSide ticks ->
  sendErrs ticks ids e b = Ret (b', ts) -> quiet b b'.
Proof.
  induction ids as [|j ids IH]; intros ticks e b b' ts Hrs H; cbn [sendErrs] in H.
  - injection H as <- <-. apply quiet_refl.
  - destruct (awaitSendErr ticks j e b) as [[b1 ts1]| | |] eqn:Ha; try discriminate.
    destruct (awaitSendErr_spec _ _ _ _ _ _ Hrs Ha) as [_ [_ [F1 _]]].
    eapply quiet_trans; [exact (awaitSendErr_quiet _ _ _ _ _ _ Hrs Ha)|]. eauto.
Qed.

(** Whatever the readers do meanwhile, nobody else sending on their
    channels: when [Broadcast] returns anything but [ErrAborted], every
    reader still registered was registered at the start and has been given,
    in order and once, all the bytes the source yielded up to its first
    error, after what it held before. *)
Theorem Broadcast_delivers_the_source
        (fuel : nat) (ticks : list tick) (b : Broadcaster)
        (res : option error) (b' : Broadcaster) (ts : list tick) :
  Forall readerSide ticks -> NoDup (brs b) ->
  Broadcast fuel ticks b = Ret (res, b', ts) ->
  res <> Some ErrAborted ->
  forall i, In i (brs b') ->
    In i (brs b) /\
    exists br br', getReader b i = Some br /\ getReader b' i = Some br' /\
                   received br' = received br ++ readable (r b).
Proof.
  intros Hrs Hnd H Hres. unfold Broadcast in H.
  destruct (pump fuel ticks b) as [[[[res1 err] b1] ts1]| | |] eqn:Hp; try discriminate.
  destruct (closeAll (brs b1) b1) as [b2| | |] eqn:Hc; try discriminate.
  assert (Hq : quiet b1 b' /\ res1 = res).
  { pose proof (closeAll_quiet _ _ _ Hc) as Q2.
    destruct (isAborted err).
    - injection H as <- <- <-. auto.
    - destruct (sendErrs ts1 (brs b2) err b2) as [[b3 ts3]| | |] eqn:Hse;
        try discriminate.
      injection H as <- <- <-. split; [|reflexivity].
      eapply quiet_trans; [exact Q2|].
      destruct (pump_spec _ _ _ _ _ _ _ Hp) as [_ [_ [[pre ->] _]]].
      apply Forall_app in Hrs as [_ Hrs1].
      exact (sendErrs_quiet _ _ _ _ _ _ Hrs1 Hse). }
  destruct Hq as [[A [O K]] ->].
  destruct (pump_delivers _ _ _ _ _ _ _ Hrs Hnd Hp Hres) as [_ [_ [I1 K1]]].
  assert (Hb : brs b' = brs b1) by (unfold brs; congruence).
  intros i Hi. rewrite Hb in Hi. split; [now apply I1|].
  specialize (K1 i Hi). rewrite <- K in K1.
  destruct (closeAll_spec _ _ _ Hc) as [_ [_ Hex]].
  destruct (Hex i Hi) as [br2 [Hg2 _]].
  assert (Hh2 : holds b2 i <> None) by (unfold holds; rewrite Hg2; discriminate).
  pose proof (closeAll_quiet _ _ _ Hc) as [_ [_ K2]].
  rewrite K2, <- K in Hh2.
  unfold holds in K1, Hh2.
  destruct (getReader b' i) as [br'|]; [|contradiction].
  destruct (getReader b i) as [br|]; [|discriminate].
  simpl in K1. injection K1 as K1. eauto.
Qed.

(** A broadcaster over the bytes ["abcdef"], read four at a time, with two
    readers. *)
Definition twoReaders : Broadcaster :=
  mkBroadcaster (finite [["a"; "b"; "c"; "d"; "e"; "f"]]%byte)
                DefaultReadChanLength 4 [0; 1]%nat 0 false
                [mkReader [] [] DefaultReadChanLength false [] false false None [];
                 mkReader [] [] DefaultReadChanLength false [] false false None []].

(** Both readers are sent ["abcd"]; the second one then closes and is taken
    off the slice; the first is sent ["ef"] and holds the six bytes when
    [Broadcast] returns nil. *)
Lemma Broadcast_delivers_the_source_witness :
  exists b',
    Broadcast 3 [Go ChData false; Go ChData false; Env (Shutdown 1);
                 Go ChData false; Go ChShutdown false] twoReaders
    = Ret (None, b', []) /\
    brs b' = [0%nat] /\
    exists br', getReader b' 0 = Some br' /\
                received br' = ["a"; "b"; "c"; "d"; "e"; "f"]%byte.
Proof.
  destruct (Broadcast 3 [Go ChData false; Go ChData false; Env (Shutdown 1);
                         Go ChData false; Go ChShutdown false] twoReaders)
    as [[[res b'] ts]| | |] eqn:HB; try discriminate.
  assert (Hres : res = None /\ ts = [] /\ brs b' = [0%nat]).
  { vm_compute in HB. injection HB as <- <- <-. repeat split. }
  destruct Hres as [-> [-> Hb]].
  exists b'. split; [reflexivity|]. split; [exact Hb|].
  assert (Hrs : Forall readerSide
                  [Go ChData false; Go ChData false; Env (Shutdown 1);
                   Go ChData false; Go ChShutdown false])
    by (repeat constructor).
  assert (Hnd : NoDup (brs twoReaders)).
  { repeat constructor; simpl; intuition discriminate. }
  assert (Hin : In 0%nat (brs b')) by (rewrite Hb; now left).
  destruct (Broadcast_delivers_the_source 3 _ twoReaders None b' [] Hrs Hnd HB
              ltac:(discriminate) 0%nat Hin) as [_ [br [br' [Hg [Hg' Hr]]]]].
  exists br'. split; [exact Hg'|]. injection Hg as <-. exact Hr.
Defined.

(** *** A reader once the broadcast is over *)

(** The select of [Read] takes its data case [n] times. *)
Definition drain (n : nat) : list tick := repeat (Go ChData false) n.

Lemma drain_S n : drain (S n) = Go ChData false :: drain n.
Proof. reflexivity. Qed.

(** The loop of [Read] on a reader whose [data] channel is closed: it takes
    whole buffers off the queue until enough bytes are reassembled or the
    queue is empty. *)
Lemma readLoop_drain n : forall i k b br,
  getReader b i = Some br -> dataClosed br = true ->
  (length (data br) < n)%nat ->
  exists b' br',
    readLoop (drain n) i k b = Ret (false, b') /\
    getReader b' i = Some br' /\
    received br' = received br /\
    ((k <= length (buf br'))%nat \/ data br' = []) /\
    (length (data br') <= length (data br))%nat /\
    dataClosed br' = true /\ errq br' = errq br /\ errClosed br' = errClosed br /\
    last br' = last br.
Proof.
  induction n as [|n IH]; intros i k b br Hg Hc Hn; [lia|].
  rewrite drain_S. cbn [readLoop]. rewrite Hg.
  destruct (length (buf br) <? k)%nat eqn:Hk.
  - destruct (data br) as [|d q] eqn:Hd.
    + rewrite Hc. exists b, br. rewrite Hd. repeat split; auto.
    + set (br1 := mkReader (buf br ++ d) q (dataCap br) (dataClosed br) (errq br)
                           (errClosed br) (shutdown br) (last br) (errLog br)).
      assert (Hg1 : getReader (setReader b i br1) i = Some br1).
      { unfold getReader. simpl. apply (nth_error_update_eq _ _ _ _ Hg). }
      destruct (IH i k _ br1 Hg1 Hc) as [b' [br' [H1 [H2 [H3 [H4 [H5 H6]]]]]]].
      { simpl in Hn. simpl. lia. }
      exists b', br'. split; [exact H1|]. split; [exact H2|]. split.
      * rewrite H3. unfold received. simpl. rewrite Hd. simpl.
        now rewrite app_assoc.
      * split; [exact H4|]. split; [simpl in H5; simpl; lia|exact H6].
  - apply Nat.ltb_ge in Hk. exists b, br. repeat split; auto.
Qed.

Lemma firstn_app_le {A : Type} (l1 l2 : list A) k :
  (k <= length l1)%nat -> firstn k (l1 ++ l2) = firstn k l1.
Proof.
  intros H. rewrite firstn_app.
  replace (k - length l1)%nat with 0%nat by lia. simpl. apply app_nil_r.
Qed.

Lemma skipn_app_le' {A : Type} (l1 l2 : list A) k :
  (k <= length l1)%nat -> skipn k (l1 ++ l2) = skipn k l1 ++ l2.
Proof.
  intros H. rewrite skipn_app.
  replace (k - length l1)%nat with 0%nat by lia. reflexivity.
Qed.

(** One [Read] of [k > 0] bytes by such a reader, left alone: the next
    bytes it holds, at most [k] and at least one, and when it holds none
    the next value of its [err] channel. *)
Lemma Read_drain n i k b br :
  getReader b i = Some br -> isClosedOrAborted (last br) = false ->
  dataClosed br = true -> (length (data br) < n)%nat -> (0 < k)%nat ->
  (received br <> [] ->
   exists b' br',
     Read (drain n) i k b = Ret (b', (firstn k (received br), None)) /\
     getReader b' i = Some br' /\
     received br' = skipn k (received br) /\
     (length (data br') <= length (data br))%nat /\
     dataClosed br' = true /\ errq br' = errq br /\ last br' = last br) /\
  (received br = [] ->
   forall e q, errq br = e :: q ->
     exists b', Read (drain n) i k b = Ret (b', ([], e))).
Proof.
  intros Hg Hl Hc Hn Hk. unfold Read. rewrite Hg, Hl.
  destruct (readLoop_drain n i k b br Hg Hc Hn)
    as [b1 [br1 [H1 [H2 [H3 [H4 [H5 [H6 [H7 [H8 H9]]]]]]]]]].
  rewrite H1, H2. unfold received in *.
  assert (Hg' : forall x, getReader (setReader b1 i x) i = Some x).
  { intros x. unfold getReader. simpl. apply (nth_error_update_eq _ _ _ _ H2). }
  destruct (k <? length (buf br1))%nat eqn:Hlt.
  - apply Nat.ltb_lt in Hlt. split.
    + intros _. eexists. eexists. split; [|split; [apply Hg'|]].
      * rewrite <- H3, firstn_app_le by lia. reflexivity.
      * simpl. rewrite <- H3, skipn_app_le' by lia. repeat split; auto.
    + intros Hnil. rewrite <- H3 in Hnil.
      apply app_eq_nil in Hnil as [Hb _]. rewrite Hb in Hlt. simpl in Hlt. lia.
  - apply Nat.ltb_ge in Hlt. destruct (0 <? length (buf br1))%nat eqn:H0.
    + apply Nat.ltb_lt in H0. split.
      * intros _. eexists. eexists. split; [|split; [apply Hg'|]].
        -- rewrite <- H3. destruct H4 as [H4|H4].
           ++ rewrite firstn_app_le by lia. rewrite firstn_all2 by lia. reflexivity.
           ++ rewrite H4. simpl. rewrite app_nil_r.
              rewrite firstn_all2 by lia. reflexivity.
        -- simpl. rewrite <- H3. split; [|repeat split; auto].
           destruct H4 as [H4|H4].
           ++ rewrite skipn_app_le' by lia. rewrite skipn_all2 by lia. reflexivity.
           ++ rewrite H4. simpl. rewrite app_nil_r.
              rewrite skipn_all2 by lia. reflexivity.
      * intros Hnil. rewrite <- H3 in Hnil.
        apply app_eq_nil in Hnil as [Hb _]. rewrite Hb in H0. simpl in H0. lia.
    + apply Nat.ltb_ge in H0.
      assert (Hb : buf br1 = []) by (destruct (buf br1); [reflexivity|simpl in H0; lia]).
      assert (Hd : data br1 = []).
      { destruct H4 as [H4|H4]; [rewrite Hb in H4; simpl in H4; lia|exact H4]. }
      split.
      * intros Hne. exfalso. apply Hne. rewrite <- H3, Hb, Hd. reflexivity.
      * intros _ e q He. unfold pollErr. rewrite H2, H7, He.
        rewrite Hg'. eexists. reflexivity.
Qed.

(** A caller reading from reader [i] until a [Read] reports an error, each
    [Read] with its buffer length and its schedule. *)
Fixpoint readAll (calls : list (nat * list tick)) (i : nat) (b : Broadcaster)
         (acc : bytes) : outcome (bytes * option error) :=
  match calls with
  | [] => OutOfFuel
  | (k, ticks) :: calls' =>
    match Read ticks i k b with
    | Ret (b', (data, None)) => readAll calls' i b' (acc ++ data)
    | Ret (_, (data, Some e)) => Ret (acc ++ data, Some e)
    | Panic => Panic
    | Blocked => Blocked
    | OutOfFuel => OutOfFuel
    end
  end.

Lemma readAll_drain k n m : forall i b br acc e q,
  getReader b i = Some br -> isClosedOrAborted (last br) = false ->
  dataClosed br = true -> errq br = Some e :: q ->
  (length (data br) < n)%nat -> (0 < k)%nat ->
  (length (received br) < m)%nat ->
  readAll (repeat (k, drain n) m) i b acc = Ret (acc ++ received br, Some e).
Proof.
  induction m as [|m IH]; intros i b br acc e q Hg Hl Hc He Hn Hk Hm; [lia|].
  simpl repeat. cbn [readAll].
  destruct (Read_drain n i k b br Hg Hl Hc Hn Hk) as [Hsome Hnone].
  destruct (received br) as [|x rest] eqn:Hr.
  - destruct (Hnone eq_refl _ _ He) as [b' ->]. now rewrite !app_nil_r.
  - destruct Hsome as [b' [br' [-> [Hg' [Hr' [Hd' [Hc' [He' Hl']]]]]]]];
      [discriminate|].
    rewrite (IH i b' br' _ e q); auto.
    + rewrite Hr', <- app_assoc. now rewrite firstn_skipn.
    + congruence.
    + congruence.
    + lia.
    + rewrite Hr', length_skipn. cbn [length] in Hm |- *. lia.
Qed.

(** Once [Broadcast] has closed the reader's [data] channel and sent it an
    error (as it does when it ends, the error being [io.EOF] on a clean
    end), a caller reading with non-empty buffers, the select of [Read]
    taking its data case, gets exactly the bytes the reader holds, in order,
    and then that error. *)
Theorem reader_gets_what_it_holds
        (i : nat) (b : Broadcaster) (br : BroadcasterReader) (e : error)
        (q : list (option error)) (k n m : nat) :
  getReader b i = Some br -> isClosedOrAborted (last br) = false ->
  dataClosed br = true -> errq br = Some e :: q ->
  (length (data br) < n)%nat -> (0 < k)%nat ->
  (length (received br) < m)%nat ->
  readAll (repeat (k, drain n) m) i b [] = Ret (received br, Some e).
Proof.
  intros Hg Hl Hc He Hn Hk Hm.
  exact (readAll_drain k n m i b br [] e q Hg Hl Hc He Hn Hk Hm).
Qed.

(** [oneReader] once [Broadcast] has returned: the six bytes are queued and
    [io.EOF] is in the [err] channel. *)
Definition sixQueuedReader : BroadcasterReader :=
  mkReader [] [["a"; "b"; "c"; "d"; "e"; "f"]%byte] DefaultReadChanLength true
           [Some EOF] false false None [Some EOF].

Definition sixQueued : Broadcaster :=
  mkBroadcaster [] DefaultReadChanLength DefaultBufferSize [O] 0 false
                [sixQueuedReader].

(** The reader reads the six bytes four at a time, then gets [io.EOF]. *)
Lemma reader_gets_what_it_holds_witness :
  Broadcast 2 [Go ChData false] oneReader = Ret (None, sixQueued, []) /\
  readAll (repeat (4%nat, drain 2) 7) 0 sixQueued []
  = Ret (["a"; "b"; "c"; "d"; "e"; "f"]%byte, Some EOF).
Proof.
  split; [reflexivity|].
  apply (reader_gets_what_it_holds 0 sixQueued sixQueuedReader EOF [] 4 2 7);
    try reflexivity; simpl; lia.
Defined.

End Broadcaster.

(** ** The multi writer (MultiWriter) *)

Module MultiWriter.

(** A sink, an [io.Writer]: [accept] is what its [Write] returns, given the
    payloads it was handed before; [closer] is what its [Close] returns
    when it is an [io.WriteCloser]. [received] and [closeCalls] record the
    calls made to it. *)
Record sink : Type := mkSink {
  accept : list bytes -> bytes -> Z * option error;
  closer : option (option error);
  received : list bytes;
  closeCalls : nat
}.

(** Where the goroutine of a writer stands: not spawned, at the receive of
    [range mww.wc], sending the error of a write on [mw.err], in its
    deferred function, sending the error of [Close] on [mw.err], or gone
    ([mw.wg.Done()] is called). *)
Inductive worker : Type :=
| NotSpawned
| Idle
| SendingErr (e : error)
| Deferred
| SendingCloseErr (e : error)
| Done.

(** [mwWriter]: the sink, the channel [wc] as its queue and closed flag (it
    is nil while the worker is [NotSpawned]), and the worker. The channel
    carries the slice given to [Write], not a copy: a payload is here the
    value of that slice, which neither the caller nor a sink writes to once
    it is queued. *)
Record mwWriter : Type := mkWriter {
  w : sink;
  wc : list bytes;
  wcClosed : bool;
  task : worker
}.

(** The channel [err], of capacity one, is its queue and closed flag. *)
Record MultiWriter : Type := mkMultiWriter {
  writers : list mwWriter;
  WriteChanLength : Z;
  inited : bool;
  closed : bool;
  errq : list error;
  errClosed : bool
}.

Definition DefaultWriteChanLength : Z := 32.

Definition NewMultiWriter (ws : list sink) : MultiWriter :=
  mkMultiWriter (map (fun s => mkWriter s [] false NotSpawned) ws)
                DefaultWriteChanLength false false [] false.

(** [mw.WriteChanLength = n], set before the first [Write]. *)
Definition withChanLength (mw : MultiWriter) (n : Z) : MultiWriter :=
  mkMultiWriter (writers mw) n (inited mw) (closed mw) (errq mw) (errClosed mw).

Definition setWriters (mw : MultiWriter) (ws : list mwWriter) : MultiWriter :=
  mkMultiWriter ws (WriteChanLength mw) (inited mw) (closed mw) (errq mw)
                (errClosed mw).

Definition setErrq (mw : MultiWriter) (q : list error) : MultiWriter :=
  mkMultiWriter (writers mw) (WriteChanLength mw) (inited mw) (closed mw) q
                (errClosed mw).

(** [init()]: a channel and a goroutine for every writer;
    [make(chan []byte, mw.WriteChanLength)] panics on a negative length. *)
Definition init (mw : MultiWriter) : outcome MultiWriter :=
  match writers mw with
  | [] => Ret (mkMultiWriter [] (WriteChanLength mw) true (closed mw) (errq mw)
                             (errClosed mw))
  | _ :: _ =>
    if WriteChanLength mw <? 0 then Panic
    else Ret (mkMultiWriter
                (map (fun mww => mkWriter (w mww) [] false Idle) (writers mw))
                (WriteChanLength mw) true (closed mw) (errq mw) (errClosed mw))
  end.

(** [mw.err <- e] by a worker, which goes on as [next]. *)
Definition sendErr (j : nat) (mww : mwWriter) (e : error) (next : worker)
           (mw : MultiWriter) : outcome MultiWriter :=
  if errClosed mw then Panic
  else if (length (errq mw) <? 1)%nat
  then Ret (mkMultiWriter
              (update j (mkWriter (w mww) (wc mww) (wcClosed mww) next)
                      (writers mw))
              (WriteChanLength mw) (inited mw) (closed mw) (errq mw ++ [e])
              (errClosed mw))
  else Blocked.

(** One step of the goroutine of writer [j]; [Blocked] when it cannot move. *)
Definition stepWorker (j : nat) (mw : MultiWriter) : outcome MultiWriter :=
  match nth_error (writers mw) j with
  | None => Blocked
  | Some mww =>
    match task mww with
    | NotSpawned | Done => Blocked
    | Idle =>
      match wc mww with
      | d :: q =>
        let '(n, err) := accept (w mww) (received (w mww)) d in
        let s := mkSink (accept (w mww)) (closer (w mww))
                        (received (w mww) ++ [d]) (closeCalls (w mww)) in
        let next :=
          match err with
          | Some e => SendingErr e
          | None => if n <? len d then SendingErr ErrShortWrite else Idle
          end in
        Ret (setWriters mw (update j (mkWriter s q (wcClosed mww) next)
                                   (writers mw)))
      | [] =>
        if wcClosed mww
        then Ret (setWriters mw (update j (mkWriter (w mww) [] true Deferred)
                                        (writers mw)))
        else Blocked
      end
    | SendingErr e => sendErr j mww e Deferred mw
    | Deferred =>
      match closer (w mww) with
      | Some res =>
        let s := mkSink (accept (w mww)) (closer (w mww)) (received (w mww))
                        (S (closeCalls (w mww))) in
        Ret (setWriters mw
               (update j (mkWriter s (wc mww) (wcClosed mww)
                                   (match res with
                                    | Some e => SendingCloseErr e
                                    | None => Done
                                    end))
                       (writers mw)))
      | None =>
        Ret (setWriters mw (update j (mkWriter (w mww) (wc mww) (wcClosed mww) Done)
                                   (writers mw)))
      end
    | SendingCloseErr e => sendErr j mww e Done mw
    end
  end.

(** The cases of the select of [Write]. *)
Inductive choice : Type := ChSend | ChErr.

(** A schedule: steps of the workers, and steps of the call itself, each
    with the case its select tries. A step that cannot proceed waits for
    the next. *)
Inductive tick : Type :=
| Worker (j : nat)
| Go (c : choice).

Definition isIdle (t : worker) : bool :=
  match t with Idle => true | _ => false end.

(** [mww.wc <- data]: a nil channel blocks, a closed one panics; there must
    be room, or the channel is unbuffered and the worker waits for it. *)
Definition sendData (j : nat) (d : bytes) (mw : MultiWriter) : outcome MultiWriter :=
  match nth_error (writers mw) j with
  | None => Panic
  | Some mww =>
    match task mww with
    | NotSpawned => Blocked
    | _ =>
      if wcClosed mww then Panic
      else if (len (wc mww) <? WriteChanLength mw) ||
              ((WriteChanLength mw =? 0) && (length (wc mww) =? 0)%nat &&
               isIdle (task mww))
      then Ret (setWriters mw
                  (update j (mkWriter (w mww) (wc mww ++ [d]) (wcClosed mww)
                                      (task mww))
                          (writers mw)))
      else Blocked
    end
  end.

(** The select of [Write] for writer [j]: [None] when the payload is queued,
    [Some err] when the error case is taken. *)
Fixpoint writeSelect (ticks : list tick) (j : nat) (d : bytes) (mw : MultiWriter)
  : outcome (option (option error) * MultiWriter * list tick) :=
  match ticks with
  | [] => Blocked
  | Worker i :: ts =>
    match stepWorker i mw with
    | Ret mw' => writeSelect ts j d mw'
    | Blocked => writeSelect ts j d mw
    | Panic => Panic
    | OutOfFuel => OutOfFuel
    end
  | Go ChSend :: ts =>
    match sendData j d mw with
    | Ret mw' => Ret (None, mw', ts)
    | Blocked => writeSelect ts j d mw
    | Panic => Panic
    | OutOfFuel => OutOfFuel
    end
  | Go ChErr :: ts =>
    match errq mw with
    | e :: q => Ret (Some (Some e), setErrq mw q, ts)
    | [] => if errClosed mw then Ret (Some None, mw, ts) else writeSelect ts j d mw
    end
  end.

(** [for _, mww := range mw.writers { select ... }]: [n] writers are left,
    the next is [j]. *)
Fixpoint writeRange (n j : nat) (ticks : list tick) (d : bytes) (mw : MultiWriter)
  : outcome (option (option error) * MultiWriter * list tick) :=
  match n with
  | O => Ret (None, mw, ticks)
  | S n' =>
    match writeSelect ticks j d mw with
    | Ret (None, mw', ts) => writeRange n' (S j) ts d mw'
    | o => o
    end
  end.

Definition Write (ticks : list tick) (d : bytes) (mw : MultiWriter)
  : outcome (MultiWriter * (Z * option error)) :=
  if closed mw then Ret (mw, (0, Some ErrClosed))
  else
    match (if inited mw then Ret mw else init mw) with
    | Ret mw1 =>
      match writeRange (length (writers mw1)) 0 ticks d mw1 with
      | Ret (None, mw2, _) => Ret (mw2, (len d, None))
      | Ret (Some e, mw2, _) => Ret (mw2, (0, e))
      | Panic => Panic
      | Blocked => Blocked
      | OutOfFuel => OutOfFuel
      end
    | Panic => Panic
    | Blocked => Blocked
    | OutOfFuel => OutOfFuel
    end.

(** [for _, mww := range mw.writers { close(mww.wc) }]: closing a closed or
    a nil channel panics. *)
Fixpoint closeChans (ws : list mwWriter) : outcome (list mwWriter) :=
  match ws with
  | [] => Ret []
  | mww :: ws' =>
    match task mww with
    | NotSpawned => Panic
    | _ =>
      if wcClosed mww then Panic
      else
        match closeChans ws' with
        | Ret ws'' => Ret (mkWriter (w mww) (wc mww) true (task mww) :: ws'')
        | o => o
        end
    end
  end.

Definition isDone (mww : mwWriter) : bool :=
  match task mww with Done => true | _ => false end.

(** [mw.wg.Wait()]: until every worker is gone. *)
Fixpoint waitAll (ticks : list tick) (mw : MultiWriter)
  : outcome (MultiWriter * list tick) :=
  if forallb isDone (writers mw) then Ret (mw, ticks)
  else
    match ticks with
    | [] => Blocked
    | Worker i :: ts =>
      match stepWorker i mw with
      | Ret mw' => waitAll ts mw'
      | Blocked => waitAll ts mw
      | Panic => Panic
      | OutOfFuel => OutOfFuel
      end
    | Go _ :: ts => waitAll ts mw
    end.

(** [Close()]. It does not look at [mw.closed]. *)
Definition Close (ticks : list tick) (mw : MultiWriter)
  : outcome (MultiWriter * option error) :=
  if inited mw then
    match closeChans (writers mw) with
    | Ret ws =>
      match waitAll ticks
                    (mkMultiWriter ws (WriteChanLength mw) true true (errq mw)
                                   (errClosed mw)) with
      | Ret (mw1, _) =>
        if errClosed mw1 then Panic
        else
          match errq mw1 with
          | e :: q =>
            Ret (mkMultiWriter (writers mw1) (WriteChanLength mw1) true true q true,
                 Some e)
          | [] =>
            Ret (mkMultiWriter (writers mw1) (WriteChanLength mw1) true true [] true,
                 None)
          end
      | Panic => Panic
      | Blocked => Blocked
      | OutOfFuel => OutOfFuel
      end
    | Panic => Panic
    | Blocked => Blocked
    | OutOfFuel => OutOfFuel
    end
  else
    Ret (mkMultiWriter (writers mw) (WriteChanLength mw) false true (errq mw)
                       (errClosed mw), None).

(** A caller writing payloads one after the other, each under its schedule,
    whatever each [Write] returns, and keeping the results. *)
Fixpoint writeAll (calls : list (bytes * list tick)) (mw : MultiWriter)
  : outcome (MultiWriter * list (Z * option error)) :=
  match calls with
  | [] => Ret (mw, [])
  | (d, ticks) :: calls' =>
    match Write ticks d mw with
    | Ret (mw1, res) =>
      match writeAll calls' mw1 with
      | Ret (mw2, rs) => Ret (mw2, res :: rs)
      | o => o
      end
    | Panic => Panic
    | Blocked => Blocked
    | OutOfFuel => OutOfFuel
    end
  end.

(** *** The sinks of the tests *)

Definition closeErr : error := ErrOther 3.
Definition writeErr : error := ErrOther 4.

(** [bytes.Buffer]. *)
Definition buffer : sink := mkSink (fun _ d => (len d, None)) None [] 0.

Definition testOKWriteCloser : sink :=
  mkSink (fun _ d => (len d, None)) (Some None) [] 0.

Definition testErrorWriteCloser : sink :=
  mkSink (fun _ d => (len d, None)) (Some (Some closeErr)) [] 0.

Definition testErrorWriter : sink := mkSink (fun _ _ => (0, Some writeErr)) None [] 0.

Definition testShortWriter : sink := mkSink (fun _ d => (len d - 1, None)) None [] 0.

(** *** What a run keeps true *)

(** The payloads handed to a writer: those its sink has got and those
    queued for it. *)
Definition handed (mww : mwWriter) : list bytes := received (w mww) ++ wc mww.

(** A worker that has not failed: at its receive, or past its loop with
    its channel closed and drained. *)
Definition okW (mww : mwWriter) : Prop :=
  match task mww with
  | Idle => True
  | Deferred | Done => wc mww = [] /\ wcClosed mww = true
  | _ => False
  end.

Definition sendingW (mww : mwWriter) : Prop :=
  match task mww with
  | SendingErr _ | SendingCloseErr _ => True
  | _ => False
  end.

(** No worker has failed, and writer [k] was handed the payloads [f k]. *)
Definition sound (f : nat -> list bytes) (mw : MultiWriter) : Prop :=
  errq mw = [] /\ errClosed mw = false /\
  forall k mww, nth_error (writers mw) k = Some mww ->
                okW mww /\ handed mww = f k.

(** A worker has failed and its error is on its way to the caller: queued
    on [mw.err], or still to be sent. *)
Definition tainted (mw : MultiWriter) : Prop :=
  errClosed mw = false /\ (errq mw <> [] \/ Exists sendingW (writers mw)).

(** What no step changes. *)
Definition frame (mw mw' : MultiWriter) : Prop :=
  inited mw' = inited mw /\ closed mw' = closed mw /\
  WriteChanLength mw' = WriteChanLength mw /\
  length (writers mw') = length (writers mw) /\
  errClosed mw' = errClosed mw.

Lemma frame_refl mw : frame mw mw.
Proof. repeat split. Qed.

Lemma frame_trans m1 m2 m3 : frame m1 m2 -> frame m2 m3 -> frame m1 m3.
Proof.
  intros [A1 [A2 [A3 [A4 A5]]]] [B1 [B2 [B3 [B4 B5]]]]. repeat split; congruence.
Qed.

Lemma nth_error_update {A : Type} (l : list A) j x k y :
  nth_error (update j x l) k = Some y ->
  (k = j /\ y = x /\ exists z, nth_error l j = Some z) \/
  (k <> j /\ nth_error l k = Some y).
Proof.
  intros H. destruct (Nat.eq_dec j k) as [<-|Hne].
  - left. destruct (nth_error l j) as [z|] eqn:Hz.
    + rewrite (nth_error_update_eq _ _ _ _ Hz) in H. injection H as <-. eauto.
    + apply nth_error_None in Hz.
      assert (Hn : nth_error (update j x l) j = None).
      { apply nth_error_None. now rewrite length_update. }
      congruence.
  - right. rewrite nth_error_update_neq in H by exact Hne. auto.
Qed.

Lemma Exists_update {A : Type} (P : A -> Prop) (l : list A) j x y :
  Exists P l -> nth_error l j = Some y -> ~ P y -> Exists P (update j x l).
Proof.
  intros HE Hy Hn. apply Exists_exists in HE as [z [Hin Hz]].
  apply In_nth_error in Hin as [k Hk].
  destruct (Nat.eq_dec j k) as [<-|Hne]; [congruence|].
  apply Exists_exists. exists z. split; auto.
  apply nth_error_In with (n := k). now rewrite nth_error_update_neq.
Qed.

Lemma Exists_update_here {A : Type} (P : A -> Prop) (l : list A) j x y :
  nth_error l j = Some y -> P x -> Exists P (update j x l).
Proof.
  intros Hy Hx. apply Exists_exists. exists x. split; auto.
  apply nth_error_In with (n := j). eapply nth_error_update_eq; eauto.
Qed.

(** A step of a worker keeps the run sound, or a worker has failed. *)
Lemma stepWorker_sound f j mw mw' :
  sound f mw -> stepWorker j mw = Ret mw' ->
  frame mw mw' /\ (sound f mw' \/ tainted mw').
Proof.
  intros [Hq [Hc Hall]] H. unfold stepWorker in H.
  destruct (nth_error (writers mw) j) as [mww|] eqn:Hj; [|discriminate].
  destruct (Hall _ _ Hj) as [Hok Hh]. unfold okW in Hok.
  assert (Hupd : forall x, okW x -> handed x = handed mww ->
             frame mw (setWriters mw (update j x (writers mw))) /\
             (sound f (setWriters mw (update j x (writers mw))) \/
              tainted (setWriters mw (update j x (writers mw))))).
  { intros x Hx Hhx. split.
    - repeat split; simpl. apply length_update.
    - left. split; [exact Hq|]. split; [exact Hc|]. intros k y Hk. simpl in Hk.
      apply nth_error_update in Hk as [[-> [-> _]]|[_ Hk]].
      + split; [exact Hx|]. rewrite Hhx. exact Hh.
      + apply Hall. exact Hk. }
  assert (Hbad : forall x, sendingW x ->
             frame mw (setWriters mw (update j x (writers mw))) /\
             (sound f (setWriters mw (update j x (writers mw))) \/
              tainted (setWriters mw (update j x (writers mw))))).
  { intros x Hx. split.
    - repeat split; simpl. apply length_update.
    - right. split; simpl; auto. right. eapply Exists_update_here; eauto. }
  destruct (task mww) eqn:Ht; try discriminate; try contradiction.
  - destruct (wc mww) as [|d q] eqn:Hwc.
    + destruct (wcClosed mww) eqn:Hcl; [|discriminate]. injection H as <-.
      apply Hupd.
      * unfold okW. simpl. auto.
      * unfold handed. simpl. now rewrite Hwc.
    + destruct (accept (w mww) (received (w mww)) d) as [n err]. injection H as <-.
      destruct err as [e|]; [apply Hbad; exact I|].
      destruct (n <? len d); [apply Hbad; exact I|].
      apply Hupd.
      * unfold okW. simpl. exact I.
      * unfold handed. simpl. rewrite Hwc. now rewrite <- app_assoc.
  - destruct (closer (w mww)) as [[e|]|]; injection H as <-.
    + apply Hbad. exact I.
    + apply Hupd; [unfold okW; simpl; exact Hok|reflexivity].
    + apply Hupd; [unfold okW; simpl; exact Hok|reflexivity].
Qed.

Lemma app_not_nil {A : Type} (l : list A) x : l ++ [x] <> [].
Proof. destruct l; discriminate. Qed.

Ltac frame_tac := repeat split; simpl; auto using length_update.

(** Once a worker has failed, the steps of the workers do not undo it. *)
Lemma stepWorker_tainted j mw mw' :
  tainted mw -> stepWorker j mw = Ret mw' -> frame mw mw' /\ tainted mw'.
Proof.
  intros [Hc Ht] H. unfold stepWorker in H.
  destruct (nth_error (writers mw) j) as [mww|] eqn:Hj; [|discriminate].
  assert (Hupd : forall x, (sendingW mww -> sendingW x) ->
             frame mw (setWriters mw (update j x (writers mw))) /\
             tainted (setWriters mw (update j x (writers mw)))).
  { intros x Hx. split; [frame_tac|].
    split; simpl; auto. destruct Ht as [Ht|Ht]; [now left|right].
    destruct (task mww) eqn:Htask;
      try (eapply Exists_update; eauto; unfold sendingW; rewrite Htask; tauto);
      eapply Exists_update_here; eauto; apply Hx; unfold sendingW;
      rewrite Htask; exact I. }
  assert (Hsend : forall e next,
             sendErr j mww e next mw = Ret mw' -> frame mw mw' /\ tainted mw').
  { intros e next Hs. unfold sendErr in Hs.
    destruct (errClosed mw) eqn:Hc'; [discriminate|].
    destruct (length (errq mw) <? 1)%nat; [|discriminate]. injection Hs as <-.
    split; [frame_tac|].
    split; simpl; auto. left. apply app_not_nil. }
  destruct (task mww) eqn:Htask; try discriminate; eauto.
  - destruct (wc mww) as [|d q].
    + destruct (wcClosed mww); [|discriminate]. injection H as <-.
      apply Hupd. unfold sendingW. rewrite Htask. tauto.
    + destruct (accept (w mww) (received (w mww)) d) as [n err]. injection H as <-.
      apply Hupd. unfold sendingW. rewrite Htask. tauto.
  - destruct (closer (w mww)) as [res|]; injection H as <-;
      apply Hupd; unfold sendingW; rewrite Htask; tauto.
Qed.

(** [f], with [d] handed to writer [j] as well. *)
Definition bump (f : nat -> list bytes) (j : nat) (d : bytes) : nat -> list bytes :=
  fun k => if (k =? j)%nat then f k ++ [d] else f k.

Lemma sendData_Ret j d mw mw' :
  sendData j d mw = Ret mw' ->
  exists mww, nth_error (writers mw) j = Some mww /\ wcClosed mww = false /\
              task mww <> NotSpawned /\
              mw' = setWriters mw
                      (update j (mkWriter (w mww) (wc mww ++ [d]) false (task mww))
                              (writers mw)).
Proof.
  unfold sendData. intros H.
  destruct (nth_error (writers mw) j) as [mww|]; [|discriminate].
  exists mww. split; [reflexivity|].
  destruct (task mww) eqn:Ht; try discriminate;
    (destruct (wcClosed mww); [discriminate|]);
    (destruct (_ || _); [|discriminate]); injection H as <-;
    (split; [reflexivity|split; [discriminate|reflexivity]]).
Qed.

(** Queuing a payload for writer [j]. *)
Lemma sendData_sound f j d mw mw' :
  sound f mw -> sendData j d mw = Ret mw' ->
  frame mw mw' /\ sound (bump f j d) mw'.
Proof.
  intros [Hq [Hc Hall]] H.
  apply sendData_Ret in H as [mww [Hj [Hcl [Hns ->]]]].
  destruct (Hall _ _ Hj) as [Hok Hh]. split; [frame_tac|].
  split; [exact Hq|]. split; [exact Hc|]. intros k y Hk. simpl in Hk.
  unfold bump. apply nth_error_update in Hk as [[-> [-> _]]|[Hne Hk]].
  - rewrite Nat.eqb_refl. split.
    + unfold okW in *. simpl. destruct (task mww); auto; destruct Hok; congruence.
    + unfold handed in *. simpl. now rewrite app_assoc, Hh.
  - replace (k =? j)%nat with false by (symmetry; now apply Nat.eqb_neq).
    now apply Hall.
Qed.

Lemma sendData_tainted j d mw mw' :
  tainted mw -> sendData j d mw = Ret mw' -> frame mw mw' /\ tainted mw'.
Proof.
  intros [Hc Ht] H.
  apply sendData_Ret in H as [mww [Hj [Hcl [Hns ->]]]].
  split; [frame_tac|].
  split; simpl; auto. destruct Ht as [Ht|Ht]; [now left|right].
  destruct (task mww) eqn:Htask;
    try (eapply Exists_update; eauto; unfold sendingW; rewrite Htask; tauto);
    eapply Exists_update_here; eauto; unfold sendingW; simpl; exact I.
Qed.

(** The payloads [news], handed one after the other to a sink that had got
    [pre], were all written in full and without an error. *)
Fixpoint acceptedFrom (acc : list bytes -> bytes -> Z * option error)
         (pre news : list bytes) : Prop :=
  match news with
  | [] => True
  | d :: news' =>
    (snd (acc pre d) = None /\ len d <= fst (acc pre d)) /\
    acceptedFrom acc (pre ++ [d]) news'
  end.

Lemma acceptedFrom_app acc news : forall pre d,
  acceptedFrom acc pre news ->
  snd (acc (pre ++ news) d) = None -> len d <= fst (acc (pre ++ news) d) ->
  acceptedFrom acc pre (news ++ [d]).
Proof.
  induction news as [|x news IH]; intros pre d Ha He Hn; simpl in *.
  - rewrite app_nil_r in He, Hn. auto.
  - destruct Ha as [Hx Ha]. split; [exact Hx|]. apply IH; auto.
    + now rewrite <- app_assoc.
    + now rewrite <- app_assoc.
Qed.

(** The sink [s'] is the sink [s] after some writes that it accepted. *)
Definition took (s s' : sink) : Prop :=
  accept s' = accept s /\
  exists news, received s' = received s ++ news /\
               acceptedFrom (accept s) (received s) news.

Lemma took_refl s : took s s.
Proof. split; [reflexivity|]. exists []. now rewrite app_nil_r. Qed.

(** Every writer holds its sink of [sinks], which accepted what it got. *)
Definition clean (sinks : list sink) (mw : MultiWriter) : Prop :=
  forall k mww s, nth_error (writers mw) k = Some mww ->
                  nth_error sinks k = Some s -> took s (w mww).

Lemma clean_update sinks mw j mww x :
  clean sinks mw -> nth_error (writers mw) j = Some mww ->
  (forall s, took s (w mww) -> took s (w x)) ->
  forall q c, clean sinks (mkMultiWriter (update j x (writers mw)) (WriteChanLength mw)
                                         (inited mw) (closed mw) q c).
Proof.
  intros C Hj Hx q c k y s Hk Hs. simpl in Hk.
  apply nth_error_update in Hk as [[-> [-> _]]|[_ Hk]].
  - apply Hx. exact (C _ _ _ Hj Hs).
  - exact (C _ _ _ Hk Hs).
Qed.

(** A step of a worker that leaves the run sound was no refused write. *)
Lemma stepWorker_clean sinks f j mw mw' :
  clean sinks mw -> stepWorker j mw = Ret mw' -> sound f mw' -> clean sinks mw'.
Proof.
  intros C H S'. unfold stepWorker, sendErr in H.
  destruct (nth_error (writers mw) j) as [mww|] eqn:Hj; [|discriminate].
  destruct (task mww) eqn:Ht; try discriminate.
  - destruct (wc mww) as [|d q] eqn:Hwc.
    + destruct (wcClosed mww); [|discriminate]. injection H as <-.
      apply (clean_update _ _ _ _ _ C Hj). auto.
    + destruct (accept (w mww) (received (w mww)) d) as [n err] eqn:Ha.
      injection H as <-.
      assert (Hok : err = None /\ (n <? len d) = false).
      { destruct S' as [_ [_ Hall]]. simpl in Hall.
        destruct (Hall j _ (nth_error_update_eq _ _ _ _ Hj)) as [Hok _].
        unfold okW in Hok. simpl in Hok.
        destruct err as [e|]; [contradiction|]. split; [reflexivity|].
        destruct (n <? len d); [contradiction|reflexivity]. }
      destruct Hok as [-> Hn]. apply Z.ltb_ge in Hn.
      apply (clean_update _ _ _ _ _ C Hj).
      intros s [Hacc [news [Hr Hnews]]]. split; [exact Hacc|].
      exists (news ++ [d]). simpl. split; [rewrite Hr; now rewrite app_assoc|].
      rewrite Hacc, Hr in Ha.
      apply acceptedFrom_app; auto; rewrite Ha; simpl; auto.
  - destruct (errClosed mw); [discriminate|].
    destruct (length (errq mw) <? 1)%nat; [|discriminate]. injection H as <-.
    apply (clean_update _ _ _ _ _ C Hj). auto.
  - destruct (closer (w mww)) as [res|]; injection H as <-;
      apply (clean_update _ _ _ _ _ C Hj); auto.
  - destruct (errClosed mw); [discriminate|].
    destruct (length (errq mw) <? 1)%nat; [|discriminate]. injection H as <-.
    apply (clean_update _ _ _ _ _ C Hj). auto.
Qed.

Lemma sendData_clean sinks j d mw mw' :
  clean sinks mw -> sendData j d mw = Ret mw' -> clean sinks mw'.
Proof.
  intros C H. apply sendData_Ret in H as [mww [Hj [_ [_ ->]]]].
  apply (clean_update _ _ _ _ _ C Hj). auto.
Qed.

(** The state of a run in which no error has been taken from [mw.err]: no
    worker has failed and the sinks accepted what they got, or the error of
    a worker is on its way. *)
Definition live (sinks : list sink) (f : nat -> list bytes) (mw : MultiWriter)
  : Prop :=
  (sound f mw /\ clean sinks mw) \/ tainted mw.

Lemma stepWorker_live {sinks} f j mw mw' :
  live sinks f mw -> stepWorker j mw = Ret mw' -> frame mw mw' /\ live sinks f mw'.
Proof.
  intros [[Hs C]|Ht] H.
  - destruct (stepWorker_sound _ _ _ _ Hs H) as [F [S'|T]].
    + split; [exact F|]. left. split; [exact S'|].
      exact (stepWorker_clean _ _ _ _ _ C H S').
    + split; [exact F|now right].
  - destruct (stepWorker_tainted _ _ _ Ht H) as [F T]. split; [exact F|now right].
Qed.

Lemma sendData_live {sinks} f j d mw mw' :
  live sinks f mw -> sendData j d mw = Ret mw' ->
  frame mw mw' /\ live sinks (bump f j d) mw'.
Proof.
  intros [[Hs C]|Ht] H.
  - destruct (sendData_sound _ _ _ _ _ Hs H) as [F S']. split; [exact F|].
    left. split; [exact S'|]. exact (sendData_clean _ _ _ _ _ C H).
  - destruct (sendData_tainted _ _ _ _ Ht H) as [F T]. split; [exact F|now right].
Qed.

(** The select of [Write], when the payload is queued. *)
Lemma writeSelect_live {sinks} ticks : forall f j d mw mw' ts,
  live sinks f mw -> writeSelect ticks j d mw = Ret (None, mw', ts) ->
  frame mw mw' /\ live sinks (bump f j d) mw'.
Proof.
  induction ticks as [|t ticks IH]; intros f j d mw mw' ts L H; [discriminate|].
  destruct t as [i|[|]]; cbn [writeSelect] in H.
  - destruct (stepWorker i mw) as [mw1| | |] eqn:Hs; try discriminate.
    + destruct (stepWorker_live _ _ _ _ L Hs) as [F1 L1].
      destruct (IH _ _ _ _ _ _ L1 H) as [F2 L2].
      split; [exact (frame_trans _ _ _ F1 F2)|exact L2].
    + exact (IH _ _ _ _ _ _ L H).
  - destruct (sendData j d mw) as [mw1| | |] eqn:Hs; try discriminate.
    + injection H as <- <-. exact (sendData_live _ _ _ _ _ L Hs).
    + exact (IH _ _ _ _ _ _ L H).
  - destruct (errq mw) as [|e q]; [|discriminate].
    destruct (errClosed mw); [discriminate|]. exact (IH _ _ _ _ _ _ L H).
Qed.

Lemma sound_ext f g mw : (forall k, f k = g k) -> sound f mw -> sound g mw.
Proof.
  intros E [Hq [Hc Hall]]. split; [exact Hq|]. split; [exact Hc|].
  intros k mww Hk. rewrite <- E. now apply Hall.
Qed.

Lemma live_ext {sinks} f g mw :
  (forall k, f k = g k) -> live sinks f mw -> live sinks g mw.
Proof.
  intros E [[Hs C]|Ht]; [left|now right].
  split; [eapply sound_ext; eauto|exact C].
Qed.

(** [f], with [d] handed to the [n] writers from [j] on as well. *)
Definition bumps (f : nat -> list bytes) (j n : nat) (d : bytes) : nat -> list bytes :=
  fun k => if ((j <=? k) && (k <? j + n))%nat then f k ++ [d] else f k.

Lemma bumps_S f j n d k : bumps (bump f j d) (S j) n d k = bumps f j (S n) d k.
Proof.
  unfold bumps, bump.
  destruct ((S j <=? k) && (k <? S j + n))%nat eqn:E1;
    destruct ((j <=? k) && (k <? j + S n))%nat eqn:E2;
    destruct (Nat.eqb_spec k j) as [E|E]; try reflexivity; exfalso;
    rewrite ?andb_true_iff, ?andb_false_iff, ?Nat.leb_le, ?Nat.ltb_lt,
      ?Nat.leb_gt, ?Nat.ltb_ge in *; lia.
Qed.

Lemma bumps_0 f j d k : bumps f j 0 d k = f k.
Proof.
  unfold bumps.
  destruct ((j <=? k) && (k <? j + 0))%nat eqn:E; [exfalso|reflexivity].
  rewrite andb_true_iff, Nat.leb_le, Nat.ltb_lt in E. lia.
Qed.

(** The loop of [Write], when every payload is queued. *)
Lemma writeRange_live {sinks} n : forall f j ticks d mw mw' ts,
  live sinks f mw -> writeRange n j ticks d mw = Ret (None, mw', ts) ->
  frame mw mw' /\ live sinks (bumps f j n d) mw'.
Proof.
  induction n as [|n IH]; intros f j ticks d mw mw' ts L H; cbn [writeRange] in H.
  - injection H as <- <-. split; [apply frame_refl|].
    eapply live_ext; [|exact L]. intros k. symmetry. apply bumps_0.
  - destruct (writeSelect ticks j d mw) as [[[[o|] mw1] ts1]| | |] eqn:Hs;
      try discriminate.
    destruct (writeSelect_live _ _ _ _ _ _ _ L Hs) as [F1 L1].
    destruct (IH _ _ _ _ _ _ _ L1 H) as [F2 L2].
    split; [exact (frame_trans _ _ _ F1 F2)|].
    eapply live_ext; [|exact L2]. intros k. apply bumps_S.
Qed.

Lemma stepWorker_frame j mw mw' : stepWorker j mw = Ret mw' -> frame mw mw'.
Proof.
  unfold stepWorker, sendErr. intros H.
  destruct (nth_error (writers mw) j) as [mww|]; [|discriminate].
  destruct (task mww); try discriminate.
  - destruct (wc mww) as [|d q].
    + destruct (wcClosed mww); [|discriminate]. injection H as <-. frame_tac.
    + destruct (accept (w mww) (received (w mww)) d) as [n err].
      injection H as <-. frame_tac.
  - destruct (errClosed mw) eqn:Hc; [discriminate|].
    destruct (length (errq mw) <? 1)%nat; [|discriminate]. injection H as <-.
    frame_tac.
  - destruct (closer (w mww)) as [res|]; injection H as <-; frame_tac.
  - destruct (errClosed mw) eqn:Hc; [discriminate|].
    destruct (length (errq mw) <? 1)%nat; [|discriminate]. injection H as <-.
    frame_tac.
Qed.

(** Before [Close], the error case of the select yields an error. *)
Lemma writeSelect_frame ticks : forall j d mw r mw' ts,
  writeSelect ticks j d mw = Ret (r, mw', ts) ->
  frame mw mw' /\ (errClosed mw = false -> r <> Some None).
Proof.
  induction ticks as [|t ticks IH]; intros j d mw r mw' ts H; [discriminate|].
  destruct t as [i|[|]]; cbn [writeSelect] in H.
  - destruct (stepWorker i mw) as [mw1| | |] eqn:Hs; try discriminate.
    + pose proof (stepWorker_frame _ _ _ Hs) as F1.
      destruct (IH _ _ _ _ _ _ H) as [F2 E]. split; [exact (frame_trans _ _ _ F1 F2)|].
      intros Hc. apply E. destruct F1 as [_ [_ [_ [_ F1]]]]. congruence.
    + exact (IH _ _ _ _ _ _ H).
  - destruct (sendData j d mw) as [mw1| | |] eqn:Hs; try discriminate.
    + injection H as <- <- <-.
      apply sendData_Ret in Hs as [mww [_ [_ [_ ->]]]].
      split; [frame_tac|discriminate].
    + exact (IH _ _ _ _ _ _ H).
  - destruct (errq mw) as [|e q].
    + destruct (errClosed mw) eqn:Hc.
      * injection H as <- <- <-. split; [apply frame_refl|intros Hx; discriminate Hx].
      * destruct (IH _ _ _ _ _ _ H) as [F E]. split; [exact F|]. intros _.
        apply E. exact Hc.
    + injection H as <- <- <-. split; [frame_tac|discriminate].
Qed.

Lemma writeRange_frame n : forall j ticks d mw r mw' ts,
  writeRange n j ticks d mw = Ret (r, mw', ts) ->
  frame mw mw' /\ (errClosed mw = false -> r <> Some None).
Proof.
  induction n as [|n IH]; intros j ticks d mw r mw' ts H; cbn [writeRange] in H.
  - injection H as <- <- <-. split; [apply frame_refl|discriminate].
  - destruct (writeSelect ticks j d mw) as [[[[o|] mw1] ts1]| | |] eqn:Hs;
      try discriminate.
    + injection H as <- <- <-. exact (writeSelect_frame _ _ _ _ _ _ _ Hs).
    + destruct (writeSelect_frame _ _ _ _ _ _ _ Hs) as [F1 _].
      destruct (IH _ _ _ _ _ _ _ H) as [F2 E]. split; [exact (frame_trans _ _ _ F1 F2)|].
      intros Hc. apply E. destruct F1 as [_ [_ [_ [_ F1]]]]. congruence.
Qed.

Lemma live_open {sinks} f mw : live sinks f mw -> errClosed mw = false.
Proof. intros [[[_ [Hc _]] _]|[Hc _]]; exact Hc. Qed.

(** What the sinks had got before they were given to the [MultiWriter]. *)
Definition base (sinks : list sink) (k : nat) : list bytes :=
  match nth_error sinks k with
  | Some s => received s
  | None => []
  end.

(** A [MultiWriter] over [sinks] whose calls of [Write] have all succeeded,
    with the payloads [ps], and that is not closed. *)
Definition ready (sinks : list sink) (ps : list bytes) (mw : MultiWriter) : Prop :=
  closed mw = false /\ length (writers mw) = length sinks /\
  if inited mw then live sinks (fun k => base sinks k ++ ps) mw
  else ps = [] /\ errq mw = [] /\ errClosed mw = false /\
       map w (writers mw) = sinks.

Lemma NewMultiWriter_ready sinks cap :
  ready sinks [] (withChanLength (NewMultiWriter sinks) cap).
Proof.
  split; [reflexivity|]. split; [apply length_map|]. simpl.
  repeat split. rewrite map_map. simpl. apply map_id.
Qed.

Lemma init_writers mw mw1 :
  init mw = Ret mw1 ->
  writers mw1 = map (fun mww => mkWriter (w mww) [] false Idle) (writers mw) /\
  inited mw1 = true /\ closed mw1 = closed mw /\ errq mw1 = errq mw /\
  errClosed mw1 = errClosed mw.
Proof.
  unfold init. intros H. destruct (writers mw) as [|x ws] eqn:Hw.
  - injection H as <-. repeat split.
  - destruct (WriteChanLength mw <? 0); [discriminate|]. injection H as <-.
    repeat split.
Qed.

Lemma init_ready sinks mw mw1 :
  ready sinks [] mw -> inited mw = false -> init mw = Ret mw1 ->
  ready sinks [] mw1 /\ inited mw1 = true.
Proof.
  intros [Hcl [Hlen R]] Hi H. rewrite Hi in R. destruct R as [_ [Hq [Hc Hw]]].
  apply init_writers in H as [Hws [Hi1 [Hcl1 [Hq1 Hc1]]]].
  split; [|exact Hi1].
  split; [congruence|]. split; [rewrite Hws, length_map; exact Hlen|].
  rewrite Hi1. left.
  assert (Hk : forall k y, nth_error (writers mw1) k = Some y ->
             exists mww, nth_error (writers mw) k = Some mww /\
                         nth_error sinks k = Some (w mww) /\
                         y = mkWriter (w mww) [] false Idle).
  { intros k y Hy. rewrite Hws, nth_error_map in Hy.
    destruct (nth_error (writers mw) k) as [mww|] eqn:Hm; [|discriminate].
    injection Hy as <-. exists mww. split; [reflexivity|]. split; [|reflexivity].
    rewrite <- Hw, nth_error_map, Hm. reflexivity. }
  split.
  - split; [congruence|]. split; [congruence|]. intros k y Hy.
    destruct (Hk _ _ Hy) as [mww [_ [Hs ->]]]. split; [exact I|].
    unfold handed, base. simpl. now rewrite Hs.
  - intros k y s Hy Hs. destruct (Hk _ _ Hy) as [mww [_ [Hs' ->]]]. simpl.
    replace s with (w mww) by congruence. apply took_refl.
Qed.

(** A [Write] that succeeds hands its payload to every writer. *)
Lemma Write_ready sinks ps ticks d mw mw' n :
  ready sinks ps mw -> Write ticks d mw = Ret (mw', (n, None)) ->
  ready sinks (ps ++ [d]) mw' /\ inited mw' = true.
Proof.
  intros R H. unfold Write in H.
  assert (Hcl : closed mw = false) by apply R. rewrite Hcl in H.
  assert (Hgo : forall mw1, ready sinks ps mw1 -> inited mw1 = true ->
            match writeRange (length (writers mw1)) 0 ticks d mw1 with
            | Ret (None, mw2, _) => Ret (mw2, (len d, None))
            | Ret (Some e, mw2, _) => Ret (mw2, (0, e))
            | Panic => Panic
            | Blocked => Blocked
            | OutOfFuel => OutOfFuel
            end = Ret (mw', (n, None)) ->
            ready sinks (ps ++ [d]) mw' /\ inited mw' = true).
  { clear. intros mw1 [Hcl [Hlen R]] Hi H. rewrite Hi in R.
    destruct (writeRange _ 0 ticks d mw1) as [[[[o|] mw2] ts]| | |] eqn:Hr;
      try discriminate.
    { injection H as _ _ ->.
      destruct (writeRange_frame _ _ _ _ _ _ _ _ Hr) as [_ E].
      now destruct (E (live_open _ _ R)). }
    injection H as <- _.
    destruct (writeRange_live _ _ _ _ _ _ _ _ R Hr) as [[F1 [F2 [F3 [F4 F5]]]] L].
    split; [|congruence].
    split; [congruence|]. split; [congruence|]. rewrite F1, Hi.
    destruct L as [[[Hq [Hc Hall]] C]|T]; [left|now right].
    split; [|exact C].
    split; [exact Hq|]. split; [exact Hc|]. intros k mww Hk.
    destruct (Hall _ _ Hk) as [Hok Hh]. split; [exact Hok|]. rewrite Hh.
    unfold bumps.
    assert (Hlt : (k < length (writers mw2))%nat).
    { apply nth_error_Some. congruence. }
    replace ((0 <=? k) && (k <? 0 + length (writers mw1)))%nat with true.
    - now rewrite app_assoc.
    - symmetry. apply andb_true_iff. split; [apply Nat.leb_le; lia|].
      apply Nat.ltb_lt. lia. }
  destruct (inited mw) eqn:Hi; [exact (Hgo _ R Hi H)|].
  destruct (init mw) as [mw1| | |] eqn:Hinit; try discriminate.
  assert (Hps : ps = []).
  { destruct R as [_ [_ R]]. rewrite Hi in R. apply R. }
  subst ps. destruct (init_ready _ _ _ R Hi Hinit) as [R1 Hi1].
  exact (Hgo _ R1 Hi1 H).
Qed.

(** Writes that all succeed hand all their payloads to every writer. *)
Lemma writeAll_ready sinks calls : forall ps mw mw' rs,
  ready sinks ps mw -> writeAll calls mw = Ret (mw', rs) ->
  Forall (fun r => snd r = None) rs ->
  ready sinks (ps ++ map fst calls) mw'.
Proof.
  induction calls as [|[d ticks] calls IH]; intros ps mw mw' rs R H Hrs;
    cbn [writeAll] in H.
  - injection H as <- <-. simpl. now rewrite app_nil_r.
  - destruct (Write ticks d mw) as [[mw1 [n e]]| | |] eqn:Hw; try discriminate.
    destruct (writeAll calls mw1) as [[mw2 rs2]| | |] eqn:Ha; try discriminate.
    injection H as <- <-. inversion Hrs as [|r rs' He Hrs']; subst.
    simpl in He. subst e.
    destruct (Write_ready _ _ _ _ _ _ _ R Hw) as [R1 _].
    specialize (IH _ _ _ _ R1 Ha Hrs'). simpl.
    now rewrite <- app_assoc in IH.
Qed.

(** [Close] closes the channel of every writer, and changes nothing else. *)
Lemma closeChans_Ret ws : forall ws',
  closeChans ws = Ret ws' ->
  ws' = map (fun mww => mkWriter (w mww) (wc mww) true (task mww)) ws /\
  Forall (fun mww => wcClosed mww = false) ws.
Proof.
  induction ws as [|mww ws IH]; intros ws' H; cbn [closeChans] in H.
  - injection H as <-. split; [reflexivity|constructor].
  - assert (Hgo : (if wcClosed mww then Panic
                   else match closeChans ws with
                        | Ret ws'' =>
                          Ret (mkWriter (w mww) (wc mww) true (task mww) :: ws'')
                        | o => o
                        end) = Ret ws' ->
                  ws' = map (fun mww => mkWriter (w mww) (wc mww) true (task mww))
                            (mww :: ws) /\
                  Forall (fun mww => wcClosed mww = false) (mww :: ws)).
    { intros Hx. destruct (wcClosed mww) eqn:Hc; [discriminate|].
      destruct (closeChans ws) as [ws''| | |]; try discriminate.
      injection Hx as <-. destruct (IH _ eq_refl) as [-> HF].
      split; [reflexivity|]. constructor; assumption. }
    destruct (task mww); try discriminate; auto.
Qed.

Lemma closeChans_live sinks f mw ws :
  live sinks f mw -> closeChans (writers mw) = Ret ws ->
  live sinks f (mkMultiWriter ws (WriteChanLength mw) true true (errq mw)
                              (errClosed mw)).
Proof.
  intros L H. apply closeChans_Ret in H as [-> HF].
  destruct L as [[[Hq [Hc Hall]] C]|[Hc T]].
  - left. split.
    + split; [exact Hq|]. split; [exact Hc|]. intros k y Hk. simpl in Hk.
      rewrite nth_error_map in Hk.
      destruct (nth_error (writers mw) k) as [mww|] eqn:Hm; [|discriminate].
      injection Hk as <-. destruct (Hall _ _ Hm) as [Hok Hh].
      split; [|exact Hh]. unfold okW in *. simpl.
      destruct (task mww); auto; split; auto; apply Hok.
    + intros k y s Hk Hs. simpl in Hk. rewrite nth_error_map in Hk.
      destruct (nth_error (writers mw) k) as [mww|] eqn:Hm; [|discriminate].
      injection Hk as <-. simpl. exact (C _ _ _ Hm Hs).
  - right. split; [exact Hc|]. simpl. destruct T as [T|T]; [now left|right].
    apply Exists_exists in T as [x [Hin Hx]]. apply Exists_exists.
    exists (mkWriter (w x) (wc x) true (task x)). split; [|exact Hx].
    apply in_map_iff. exists x. auto.
Qed.

(** [mw.wg.Wait()] returns when every worker is gone. *)
Lemma waitAll_live {sinks} ticks : forall f mw mw' ts,
  live sinks f mw -> waitAll ticks mw = Ret (mw', ts) ->
  frame mw mw' /\ live sinks f mw' /\ forallb isDone (writers mw') = true.
Proof.
  induction ticks as [|t ticks IH]; intros f mw mw' ts L H; cbn [waitAll] in H;
    destruct (forallb isDone (writers mw)) eqn:Hd;
    try (injection H as <- <-; split; [apply frame_refl|split; assumption]);
    try discriminate.
  destruct t as [i|c].
  - destruct (stepWorker i mw) as [mw1| | |] eqn:Hs; try discriminate.
    + destruct (stepWorker_live _ _ _ _ L Hs) as [F1 L1].
      destruct (IH _ _ _ _ L1 H) as [F2 R]. split; [exact (frame_trans _ _ _ F1 F2)|].
      exact R.
    + exact (IH _ _ _ _ L H).
  - exact (IH _ _ _ _ L H).
Qed.

Lemma Done_not_sending ws : forallb isDone ws = true -> ~ Exists sendingW ws.
Proof.
  intros Hd HE. apply Exists_exists in HE as [x [Hin Hx]].
  rewrite forallb_forall in Hd. specialize (Hd _ Hin).
  unfold isDone in Hd. unfold sendingW in Hx. destruct (task x); auto; discriminate.
Qed.

(** What a sink has got at the end: after what it had, the payloads [ps],
    each written in full and without an error. *)
Definition gotAll (ps : list bytes) (mww : mwWriter) (s : sink) : Prop :=
  received (w mww) = received s ++ ps /\
  acceptedFrom (accept s) (received s) ps.

Lemma Forall2_nth_error {A B : Type} (R : A -> B -> Prop) : forall l l',
  length l = length l' ->
  (forall k a b, nth_error l k = Some a -> nth_error l' k = Some b -> R a b) ->
  Forall2 R l l'.
Proof.
  induction l as [|a l IH]; intros [|b l'] Hlen H; try discriminate; constructor.
  - exact (H 0%nat a b eq_refl eq_refl).
  - apply IH; [simpl in Hlen; congruence|].
    intros k x y Hx Hy. exact (H (S k) x y Hx Hy).
Qed.

(** A [Close] that returns nil: every sink has got what was handed to it. *)
Lemma Close_ready sinks ps ticks mw mw' :
  ready sinks ps mw -> Close ticks mw = Ret (mw', None) ->
  Forall2 (gotAll ps) (writers mw') sinks.
Proof.
  intros [Hcl [Hlen R]] H. unfold Close in H. destruct (inited mw) eqn:Hi.
  - destruct (closeChans (writers mw)) as [ws| | |] eqn:Hcc; try discriminate.
    pose proof (closeChans_live _ _ _ _ R Hcc) as L0.
    destruct (waitAll ticks _) as [[mw1 ts]| | |] eqn:Hw; try discriminate.
    destruct (waitAll_live _ _ _ _ _ L0 Hw) as [[_ [_ [_ [F4 _]]]] [L1 Hd]].
    simpl in F4.
    destruct (errClosed mw1); [discriminate|].
    destruct (errq mw1) as [|e q] eqn:Hq; [|discriminate]. injection H as <-.
    simpl. apply Forall2_nth_error.
    + rewrite F4. apply closeChans_Ret in Hcc as [-> _]. now rewrite length_map.
    + destruct L1 as [[[_ [_ Hall]] C]|[_ [T|T]]].
      * intros k mww s Hk Hs. destruct (Hall _ _ Hk) as [Hok Hh].
        rewrite forallb_forall in Hd.
        specialize (Hd _ (nth_error_In _ _ Hk)). unfold isDone in Hd.
        unfold okW in Hok. unfold handed in Hh.
        destruct (task mww); try discriminate. destruct Hok as [Hwc _].
        rewrite Hwc, app_nil_r in Hh. unfold base in Hh. rewrite Hs in Hh.
        destruct (C _ _ _ Hk Hs) as [_ [news [Hr Ha]]].
        assert (news = ps) as ->.
        { apply (app_inv_head (received s)). congruence. }
        split; [exact Hh|exact Ha].
      * congruence.
      * now destruct (Done_not_sending _ Hd).
  - destruct R as [-> [_ [_ Hw]]]. injection H as <-. simpl.
    apply Forall2_nth_error; [exact Hlen|]. intros k mww s Hk Hs.
    assert (s = w mww) as ->.
    { rewrite <- Hw, nth_error_map, Hk in Hs. simpl in Hs. congruence. }
    split; [now rewrite app_nil_r|exact I].
Qed.

(** C4 (amended): for every list of sinks, every capacity of the channels,
    every sequence of payloads and every schedule of the workers, if every
    [Write] returns a nil error and [Close], called next, returns nil, then
    there are as many writers as sinks and each sink has got, after what it
    had before, exactly the payloads written, in the order of the writes,
    each whole payload in one write that the sink took in full. The
    payloads are the values of the slices: nobody writes to a slice that
    was given to [Write]. *)
Theorem sinks_receive_all_payloads
        (sinks : list sink) (cap : Z) (calls : list (bytes * list tick))
        (ticks : list tick) (mw1 mw2 : MultiWriter) (rs : list (Z * option error)) :
  writeAll calls (withChanLength (NewMultiWriter sinks) cap) = Ret (mw1, rs) ->
  Forall (fun r => snd r = None) rs ->
  Close ticks mw1 = Ret (mw2, None) ->
  Forall2 (gotAll (map fst calls)) (writers mw2) sinks.
Proof.
  intros Hw Hrs Hc.
  pose proof (writeAll_ready _ _ _ _ _ _ (NewMultiWriter_ready sinks cap) Hw Hrs) as R.
  simpl in R. exact (Close_ready _ _ _ _ _ R Hc).
Qed.

(** *** Runs of the tests *)

Definition ab : bytes := [x61; x62].
Definition c : bytes := [x63].

(** Two writes, both queued; the first worker takes a payload in between. *)
Definition twoWrites : list (bytes * list tick) :=
  [(ab, [Go ChSend; Go ChSend]); (c, [Worker 0; Go ChSend; Go ChSend])].

Definition twoSinks : MultiWriter :=
  withChanLength (NewMultiWriter [buffer; testOKWriteCloser]) 2.

Definition twoSinksWritten : MultiWriter :=
  Eval vm_compute in
    match writeAll twoWrites twoSinks with
    | Ret (mw, _) => mw
    | _ => twoSinks
    end.

(** The workers in turn, until both are gone. *)
Definition inTurn : list tick :=
  [Worker 0; Worker 1; Worker 0; Worker 1; Worker 0; Worker 1; Worker 0; Worker 1].

(** Two buffered writes to a sink whose [Write] fails. *)
Definition bufferedWrites : list (bytes * list tick) :=
  [(ab, [Go ChSend]); (c, [Go ChSend])].

Definition failingSink : MultiWriter :=
  withChanLength (NewMultiWriter [testErrorWriter]) DefaultWriteChanLength.

(** Two sinks of [bytes.Buffer] kind, one of them a closer: both writes are
    queued, [Close] returns nil and both sinks have the two payloads. *)
Lemma sinks_receive_all_payloads_witness :
  writeAll twoWrites twoSinks = Ret (twoSinksWritten, [(2, None); (1, None)]) /\
  exists mw2,
    Close inTurn twoSinksWritten = Ret (mw2, None) /\
    Forall2 (gotAll [ab; c]) (writers mw2) [buffer; testOKWriteCloser].
Proof.
  assert (Hw : writeAll twoWrites twoSinks
               = Ret (twoSinksWritten, [(2, None); (1, None)])) by reflexivity.
  split; [exact Hw|].
  destruct (Close inTurn twoSinksWritten) as [[mw2 [e|]]| | |] eqn:Hc;
    try (vm_compute in Hc; discriminate).
  exists mw2. split; [reflexivity|].
  apply (sinks_receive_all_payloads [buffer; testOKWriteCloser] 2 twoWrites inTurn
                                    twoSinksWritten mw2 [(2, None); (1, None)]).
  - exact Hw.
  - repeat constructor.
  - exact Hc.
Defined.

(** C4 as stated fails: both writes to the failing sink are queued and
    return a nil error, [Close] returns, with the error of the sink, and the
    sink was handed the first payload only (which it refused); the second
    was dropped with the channel. *)
Lemma Close_after_lost_payload_counterexample :
  exists mw1 mw2,
    writeAll bufferedWrites failingSink = Ret (mw1, [(2, None); (1, None)]) /\
    Close [Worker 0; Worker 0; Worker 0] mw1 = Ret (mw2, Some writeErr) /\
    map (fun mww => received (w mww)) (writers mw2) = [[ab]] /\
    ~ Forall2 (gotAll (map fst bufferedWrites)) (writers mw2) [testErrorWriter].
Proof.
  eexists. eexists. split; [reflexivity|]. split; [reflexivity|].
  split; [reflexivity|]. intros HF. inversion HF as [|x y l l' [Hr _] _]; subst.
  discriminate Hr.
Qed.

(** *** [Close] after [Close] *)

Definition allClosed (ws : list mwWriter) : Prop :=
  Forall (fun mww => wcClosed mww = true) ws.

Lemma Forall_update {A : Type} (P : A -> Prop) x : forall l j,
  Forall P l -> P x -> Forall P (update j x l).
Proof.
  induction l as [|h t IH]; intros [|j] HF Hx; simpl; auto;
    inversion HF; subst; constructor; auto.
Qed.

Lemma stepWorker_allClosed j mw mw' :
  allClosed (writers mw) -> stepWorker j mw = Ret mw' -> allClosed (writers mw').
Proof.
  intros HA H. unfold stepWorker, sendErr in H.
  destruct (nth_error (writers mw) j) as [mww|] eqn:Hj; [|discriminate].
  assert (Hc : wcClosed mww = true).
  { unfold allClosed in HA. rewrite Forall_forall in HA.
    exact (HA _ (nth_error_In _ _ Hj)). }
  destruct (task mww); try discriminate.
  - destruct (wc mww) as [|d q].
    + destruct (wcClosed mww); [|discriminate]. injection H as <-.
      apply Forall_update; auto.
    + destruct (accept (w mww) (received (w mww)) d) as [n err].
      injection H as <-. apply Forall_update; auto.
  - destruct (errClosed mw); [discriminate|].
    destruct (length (errq mw) <? 1)%nat; [|discriminate]. injection H as <-.
    apply Forall_update; auto.
  - destruct (closer (w mww)) as [res|]; injection H as <-;
      apply Forall_update; auto.
  - destruct (errClosed mw); [discriminate|].
    destruct (length (errq mw) <? 1)%nat; [|discriminate]. injection H as <-.
    apply Forall_update; auto.
Qed.

Lemma waitAll_allClosed ticks : forall mw mw' ts,
  allClosed (writers mw) -> waitAll ticks mw = Ret (mw', ts) ->
  allClosed (writers mw') /\ inited mw' = inited mw.
Proof.
  induction ticks as [|t ticks IH]; intros mw mw' ts HA H; cbn [waitAll] in H;
    destruct (forallb isDone (writers mw)) eqn:Hd;
    try (injection H as <- <-; split; [assumption|reflexivity]);
    try discriminate.
  destruct t as [i|ch].
  - destruct (stepWorker i mw) as [mw1| | |] eqn:Hs; try discriminate.
    + destruct (IH _ _ _ (stepWorker_allClosed _ _ _ HA Hs) H) as [HA' Hi].
      split; [exact HA'|]. rewrite Hi. apply (stepWorker_frame _ _ _ Hs).
    + exact (IH _ _ _ HA H).
  - exact (IH _ _ _ HA H).
Qed.

Lemma closeChans_allClosed ws :
  allClosed ws -> ws <> [] -> closeChans ws = Panic.
Proof.
  intros HA Hne. destruct ws as [|mww ws]; [contradiction|].
  inversion HA as [|x l Hc _]; subst. cbn [closeChans]. rewrite Hc.
  destruct (task mww); reflexivity.
Qed.

(** C5 fails on the code: [Close] never looks at [mw.closed]. Whatever a
    first [Close] returned, the instance is marked closed and a second
    [Close] goes through the shutdown again: on an instance that was written
    to it panics (on [close(mww.wc)] of the first writer or, without
    writers, on [close(mw.err)]), and on one that was never written to it
    returns nil. It never returns [ErrClosed]. *)
Theorem second_Close_repeats_shutdown
        (ticks1 ticks2 : list tick) (mw mw1 : MultiWriter) (e : option error) :
  Close ticks1 mw = Ret (mw1, e) ->
  closed mw1 = true /\
  Close ticks2 mw1 = (if inited mw then Panic else Ret (mw1, None)).
Proof.
  intros H. unfold Close in H. destruct (inited mw) eqn:Hi.
  - destruct (closeChans (writers mw)) as [ws| | |] eqn:Hcc; try discriminate.
    destruct (waitAll ticks1 _) as [[mw0 ts]| | |] eqn:Hw; try discriminate.
    assert (HA : allClosed ws).
    { apply closeChans_Ret in Hcc as [-> _]. unfold allClosed.
      apply Forall_forall. intros x Hx. apply in_map_iff in Hx as [y [<- _]].
      reflexivity. }
    destruct (waitAll_allClosed _ _ _ _ (HA : allClosed (writers (mkMultiWriter ws _ _ _ _ _))) Hw)
      as [HA0 _].
    assert (Hgo : forall q, closed (mkMultiWriter (writers mw0) (WriteChanLength mw0)
                                                  true true q true) = true /\
                            Close ticks2 (mkMultiWriter (writers mw0)
                                            (WriteChanLength mw0) true true q true)
                            = Panic).
    { intros q. split; [reflexivity|]. unfold Close. simpl.
      destruct (writers mw0) as [|x l] eqn:Hws.
      - simpl. destruct ticks2; reflexivity.
      - rewrite closeChans_allClosed; [reflexivity|exact HA0|discriminate]. }
    destruct (errClosed mw0); [discriminate|].
    destruct (errq mw0) as [|x q]; injection H as <- <-; apply Hgo.
  - injection H as <- <-. split; reflexivity.
Qed.

(** One write to a [bytes.Buffer], a [Close] that returns nil, a second
    [Close]: it panics. *)
Lemma second_Close_repeats_shutdown_witness :
  exists mw0 mw1,
    Write [Go ChSend] ab (NewMultiWriter [buffer]) = Ret (mw0, (2, None)) /\
    Close [Worker 0; Worker 0; Worker 0] mw0 = Ret (mw1, None) /\
    closed mw1 = true /\ Close [] mw1 = Panic.
Proof.
  eexists. eexists. split; [reflexivity|].
  match goal with
  | |- ?C = Ret (?m, _) /\ _ =>
    assert (Hc : C = Ret (m, None)) by reflexivity
  end.
  split; [exact Hc|].
  exact (second_Close_repeats_shutdown _ [] _ _ _ Hc).
Defined.

(** On an instance that was never written to, the second [Close] returns
    nil as the first did. *)
Lemma second_Close_of_fresh_returns_nil :
  exists mw1,
    Close [] (NewMultiWriter [buffer]) = Ret (mw1, None) /\
    Close [] mw1 = Ret (mw1, None).
Proof. eexists. split; reflexivity. Qed.

(** *** Sinks that do not fail *)

(** A sink that takes every write in full and closes without an error. *)
Definition reliable (s : sink) : Prop :=
  (forall pre d, snd (accept s pre d) = None /\ len d <= fst (accept s pre d)) /\
  (closer s = None \/ closer s = Some None).

(** No error was sent, none is about to be, and the sinks are reliable. *)
Definition calm (mw : MultiWriter) : Prop :=
  errq mw = [] /\ errClosed mw = false /\
  Forall (fun mww => reliable (w mww) /\ ~ sendingW mww) (writers mw).

Lemma calm_update mw j x q c :
  calm mw -> reliable (w x) -> ~ sendingW x ->
  calm (mkMultiWriter (update j x (writers mw)) (WriteChanLength mw) q c
                      (errq mw) (errClosed mw)).
Proof.
  intros [Hq [Hc Hall]] Hr Hs. split; [exact Hq|]. split; [exact Hc|].
  simpl. apply Forall_update; auto.
Qed.

Lemma stepWorker_calm j mw mw' :
  calm mw -> stepWorker j mw = Ret mw' -> calm mw'.
Proof.
  intros Hcalm H. pose proof Hcalm as [Hq [Hc Hall]]. unfold stepWorker in H.
  destruct (nth_error (writers mw) j) as [mww|] eqn:Hj; [|discriminate].
  rewrite Forall_forall in Hall.
  destruct (Hall _ (nth_error_In _ _ Hj)) as [[Hacc Hcl] Hns].
  unfold sendingW in Hns.
  destruct (task mww) eqn:Ht; try discriminate; try (exfalso; apply Hns; exact I).
  - destruct (wc mww) as [|d q].
    + destruct (wcClosed mww); [|discriminate]. injection H as <-.
      apply (calm_update mw j _ _ _ Hcalm); [split; assumption|]. simpl. auto.
    + destruct (Hacc (received (w mww)) d) as [He Hn].
      destruct (accept (w mww) (received (w mww)) d) as [n err]. simpl in He, Hn.
      subst err. injection H as <-.
      replace (n <? len d) with false by (symmetry; apply Z.ltb_ge; lia).
      apply (calm_update mw j _ _ _ Hcalm); [split; assumption|]. simpl. auto.
  - destruct Hcl as [Hcl|Hcl]; rewrite Hcl in H; injection H as <-;
      apply (calm_update mw j _ _ _ Hcalm); simpl; auto;
      split; simpl; auto.
Qed.

Lemma sendData_calm j d mw mw' :
  calm mw -> sendData j d mw = Ret mw' -> calm mw'.
Proof.
  intros Hcalm H. apply sendData_Ret in H as [mww [Hj [_ [_ ->]]]].
  destruct Hcalm as [Hq [Hc Hall]]. pose proof Hall as Hall'.
  rewrite Forall_forall in Hall'.
  destruct (Hall' _ (nth_error_In _ _ Hj)) as [Hr Hns].
  split; [exact Hq|]. split; [exact Hc|]. simpl. apply Forall_update; auto.
Qed.

Lemma writeSelect_calm ticks : forall j d mw r mw' ts,
  calm mw -> writeSelect ticks j d mw = Ret (r, mw', ts) ->
  r = None /\ calm mw'.
Proof.
  induction ticks as [|t ticks IH]; intros j d mw r mw' ts Hc H; [discriminate|].
  destruct t as [i|[|]]; cbn [writeSelect] in H.
  - destruct (stepWorker i mw) as [mw1| | |] eqn:Hs; try discriminate.
    + eapply IH; [|exact H]. eapply stepWorker_calm; eauto.
    + eapply IH; eauto.
  - destruct (sendData j d mw) as [mw1| | |] eqn:Hs; try discriminate.
    + injection H as <- <- <-. split; [reflexivity|].
      eapply sendData_calm; eauto.
    + eapply IH; eauto.
  - destruct Hc as [Hq [Hc Hall]]. rewrite Hq, Hc in H.
    eapply IH; [|exact H]. repeat split; auto.
Qed.

Lemma writeRange_calm n : forall j ticks d mw r mw' ts,
  calm mw -> writeRange n j ticks d mw = Ret (r, mw', ts) ->
  r = None /\ calm mw'.
Proof.
  induction n as [|n IH]; intros j ticks d mw r mw' ts Hc H; cbn [writeRange] in H.
  - injection H as <- <- <-. auto.
  - destruct (writeSelect ticks j d mw) as [[[o mw1] ts1]| | |] eqn:Hs;
      try discriminate.
    destruct (writeSelect_calm _ _ _ _ _ _ _ Hc Hs) as [-> Hc1].
    eapply IH; eauto.
Qed.

Lemma init_calm mw mw1 : calm mw -> init mw = Ret mw1 -> calm mw1.
Proof.
  intros [Hq [Hc Hall]] H. apply init_writers in H as [Hw [_ [_ [Hq1 Hc1]]]].
  split; [congruence|]. split; [congruence|]. rewrite Hw.
  apply Forall_map. eapply Forall_impl; [|exact Hall].
  intros mww [Hr _]. simpl. split; [exact Hr|]. unfold sendingW. simpl. auto.
Qed.

Lemma Write_calm ticks d mw mw' r :
  calm mw -> closed mw = false -> Write ticks d mw = Ret (mw', r) ->
  r = (len d, None) /\ calm mw' /\ closed mw' = false.
Proof.
  intros Hc Hcl H. unfold Write in H. rewrite Hcl in H.
  assert (Hgo : forall mw1, calm mw1 -> closed mw1 = false ->
            match writeRange (length (writers mw1)) 0 ticks d mw1 with
            | Ret (None, mw2, _) => Ret (mw2, (len d, None))
            | Ret (Some e, mw2, _) => Ret (mw2, (0, e))
            | Panic => Panic
            | Blocked => Blocked
            | OutOfFuel => OutOfFuel
            end = Ret (mw', r) ->
            r = (len d, None) /\ calm mw' /\ closed mw' = false).
  { intros mw1 Hc1 Hcl1 Hr.
    destruct (writeRange _ 0 ticks d mw1) as [[[o mw2] ts]| | |] eqn:Hw;
      try discriminate.
    destruct (writeRange_calm _ _ _ _ _ _ _ _ Hc1 Hw) as [-> Hc2].
    destruct (writeRange_frame _ _ _ _ _ _ _ _ Hw) as [[_ [F2 _]] _].
    injection Hr as <- <-. split; [reflexivity|]. split; [exact Hc2|congruence]. }
  destruct (inited mw); [exact (Hgo _ Hc Hcl H)|].
  destruct (init mw) as [mw1| | |] eqn:Hi; try discriminate.
  apply (Hgo mw1); [eapply init_calm; eauto| |exact H].
  apply init_writers in Hi as [_ [_ [Hcl1 _]]]. congruence.
Qed.

Lemma writeAll_calm calls : forall mw mw' rs,
  calm mw -> closed mw = false -> writeAll calls mw = Ret (mw', rs) ->
  rs = map (fun c => (len (fst c), None)) calls /\ calm mw'.
Proof.
  induction calls as [|[d ticks] calls IH]; intros mw mw' rs Hc Hcl H;
    cbn [writeAll] in H.
  - injection H as <- <-. auto.
  - destruct (Write ticks d mw) as [[mw1 r]| | |] eqn:Hw; try discriminate.
    destruct (writeAll calls mw1) as [[mw2 rs2]| | |] eqn:Ha; try discriminate.
    injection H as <- <-.
    destruct (Write_calm _ _ _ _ _ Hc Hcl Hw) as [-> [Hc1 Hcl1]].
    destruct (IH _ _ _ Hc1 Hcl1 Ha) as [-> Hc2]. auto.
Qed.

Lemma waitAll_calm ticks : forall mw mw' ts,
  calm mw -> waitAll ticks mw = Ret (mw', ts) -> calm mw'.
Proof.
  induction ticks as [|t ticks IH]; intros mw mw' ts Hc H; cbn [waitAll] in H;
    destruct (forallb isDone (writers mw));
    try (injection H as <- <-; exact Hc); try discriminate.
  destruct t as [i|ch].
  - destruct (stepWorker i mw) as [mw1| | |] eqn:Hs; try discriminate.
    + eapply IH; [|exact H]. eapply stepWorker_calm; eauto.
    + eapply IH; eauto.
  - eapply IH; eauto.
Qed.

Lemma Close_calm ticks mw mw' e :
  calm mw -> Close ticks mw = Ret (mw', e) -> e = None.
Proof.
  intros [Hq [Hc Hall]] H. unfold Close in H.
  destruct (inited mw); [|now injection H as <- <-].
  destruct (closeChans (writers mw)) as [ws| | |] eqn:Hcc; try discriminate.
  destruct (waitAll ticks _) as [[mw1 ts]| | |] eqn:Hw; try discriminate.
  assert (Hc1 : calm mw1).
  { eapply waitAll_calm; [|exact Hw]. split; [exact Hq|]. split; [exact Hc|].
    simpl. apply closeChans_Ret in Hcc as [-> _]. apply Forall_map.
    eapply Forall_impl; [|exact Hall]. intros mww [Hr Hs]. auto. }
  destruct Hc1 as [Hq1 [Hc1 _]]. rewrite Hc1, Hq1 in H. now injection H as <- <-.
Qed.

(** With sinks that take every write in full and close without an error,
    whatever the capacity of the channels and the schedule: every [Write]
    that returns, returns [(len(data), nil)]; and a [Close] that returns,
    returns nil, every sink having got every payload, in order. *)
Theorem reliable_sinks_never_fail
        (sinks : list sink) (cap : Z) (calls : list (bytes * list tick))
        (mw1 : MultiWriter) (rs : list (Z * option error)) :
  Forall reliable sinks ->
  writeAll calls (withChanLength (NewMultiWriter sinks) cap) = Ret (mw1, rs) ->
  rs = map (fun c => (len (fst c), None)) calls /\
  forall ticks mw2 e,
    Close ticks mw1 = Ret (mw2, e) ->
    e = None /\ Forall2 (gotAll (map fst calls)) (writers mw2) sinks.
Proof.
  intros Hrel Hw.
  assert (Hc0 : calm (withChanLength (NewMultiWriter sinks) cap)).
  { split; [reflexivity|]. split; [reflexivity|]. simpl. apply Forall_map.
    eapply Forall_impl; [|exact Hrel]. intros s Hs. simpl. auto. }
  destruct (writeAll_calm _ _ _ _ Hc0 eq_refl Hw) as [Hrs Hc1].
  split; [exact Hrs|]. intros ticks mw2 e Hcl.
  pose proof (Close_calm _ _ _ _ Hc1 Hcl) as ->. split; [reflexivity|].
  assert (Hnil : Forall (fun r : Z * option error => snd r = None) rs).
  { rewrite Hrs. apply Forall_map. now apply Forall_forall. }
  pose proof (writeAll_ready _ _ _ _ _ _ (NewMultiWriter_ready sinks cap) Hw Hnil) as R.
  simpl in R. exact (Close_ready _ _ _ _ _ R Hcl).
Qed.

(** The sinks of [twoSinks] are reliable. *)
Lemma reliable_sinks_never_fail_witness :
  writeAll twoWrites twoSinks = Ret (twoSinksWritten, [(2, None); (1, None)]) /\
  forall ticks mw2 e, Close ticks twoSinksWritten = Ret (mw2, e) -> e = None.
Proof.
  assert (Hw : writeAll twoWrites twoSinks
               = Ret (twoSinksWritten, [(2, None); (1, None)])) by reflexivity.
  split; [exact Hw|].
  assert (Hrel : Forall reliable [buffer; testOKWriteCloser]).
  { repeat constructor; simpl; auto; unfold len; lia. }
  destruct (reliable_sinks_never_fail [buffer; testOKWriteCloser] 2 twoWrites
              twoSinksWritten _ Hrel Hw) as [_ Hcl].
  intros ticks mw2 e H. exact (proj1 (Hcl ticks mw2 e H)).
Defined.

(** *** Errors that nobody receives *)

Definition closerFails (s : sink) : nat :=
  match closer s with Some (Some _) => 1 | _ => 0 end.

(** The sink returns an error or a short count for the payload. *)
Definition refuses (s : sink) (d : bytes) : bool :=
  let '(n, err) := accept s (received s) d in
  match err with Some _ => true | None => n <? len d end.

(** The sends on [mw.err] that the goroutine of a writer has to make before
    it is gone, once its channel is closed: for the payload at the head of
    its queue when the sink refuses it, for the error it holds, and for the
    error of the [Close] of its sink. *)
Definition owed (mww : mwWriter) : nat :=
  match task mww with
  | NotSpawned | Done => 0
  | Idle =>
    match wc mww with
    | d :: _ => if refuses (w mww) d then 1 else 0
    | [] => 0
    end + closerFails (w mww)
  | SendingErr _ => 1 + closerFails (w mww)
  | Deferred => closerFails (w mww)
  | SendingCloseErr _ => 1
  end%nat.

(** The errors on [mw.err] and the ones that are to be sent on it. *)
Definition outstanding (mw : MultiWriter) : nat :=
  (length (errq mw) + list_sum (map owed (writers mw)))%nat.

Lemma list_sum_update {A : Type} (f : A -> nat) (x y : A) : forall l j,
  nth_error l j = Some y ->
  (list_sum (map f (update j x l)) + f y = list_sum (map f l) + f x)%nat.
Proof.
  induction l as [|h t IH]; intros [|j] H; try discriminate.
  - injection H as ->. simpl. lia.
  - simpl in *. specialize (IH j H). lia.
Qed.

Lemma stepWorker_outstanding j mw mw' :
  stepWorker j mw = Ret mw' ->
  (length (errq mw) <= 1)%nat ->
  (outstanding mw <= outstanding mw')%nat /\ (length (errq mw') <= 1)%nat.
Proof.
  unfold stepWorker, outstanding. intros H Hq.
  destruct (nth_error (writers mw) j) as [mww|] eqn:Hj; [|discriminate].
  assert (Hsend : forall e next x,
            sendErr j mww e next mw = Ret mw' ->
            x = mkWriter (w mww) (wc mww) (wcClosed mww) next ->
            (owed mww = owed x + 1)%nat ->
            (length (errq mw) + list_sum (map owed (writers mw))
             <= length (errq mw') + list_sum (map owed (writers mw')))%nat /\
            (length (errq mw') <= 1)%nat).
  { intros e next x Hs -> Ho. unfold sendErr in Hs.
    destruct (errClosed mw); [discriminate|].
    destruct (length (errq mw) <? 1)%nat eqn:Hl; [|discriminate].
    apply Nat.ltb_lt in Hl. injection Hs as <-. simpl.
    rewrite length_app. simpl.
    pose proof (list_sum_update owed
                  (mkWriter (w mww) (wc mww) (wcClosed mww) next) mww _ _ Hj).
    lia. }
  assert (Hset : forall x,
            mw' = setWriters mw (update j x (writers mw)) ->
            (owed mww <= owed x)%nat ->
            (length (errq mw) + list_sum (map owed (writers mw))
             <= length (errq mw') + list_sum (map owed (writers mw')))%nat /\
            (length (errq mw') <= 1)%nat).
  { intros x -> Ho. simpl.
    pose proof (list_sum_update owed x mww _ _ Hj). lia. }
  assert (Hown : owed mww
                 = match task mww with
                   | NotSpawned | Done => O
                   | Idle =>
                     match wc mww with
                     | d :: _ => if refuses (w mww) d then 1 else 0
                     | [] => 0
                     end + closerFails (w mww)
                   | SendingErr _ => 1 + closerFails (w mww)
                   | Deferred => closerFails (w mww)
                   | SendingCloseErr _ => 1
                   end%nat) by reflexivity.
  destruct (task mww) eqn:Ht; try discriminate.
  - destruct (wc mww) as [|d q] eqn:Hwc.
    + destruct (wcClosed mww); [|discriminate]. injection H as <-.
      eapply Hset; [reflexivity|]. rewrite Hown. unfold owed. simpl. lia.
    + unfold refuses in Hown.
      destruct (accept (w mww) (received (w mww)) d) as [n [e|]];
        injection H as <-; (eapply Hset; [reflexivity|]); rewrite Hown;
        unfold owed; simpl; unfold closerFails; simpl.
      * lia.
      * destruct (n <? len d); simpl.
        -- lia.
        -- destruct q; [|destruct (refuses _ _)]; lia.
  - eapply Hsend; [exact H|reflexivity|]. rewrite Hown. unfold owed. simpl. lia.
  - unfold closerFails in Hown.
    destruct (closer (w mww)) as [[e|]|]; injection H as <-;
      (eapply Hset; [reflexivity|]); rewrite Hown; unfold owed; simpl; lia.
  - eapply Hsend; [exact H|reflexivity|]. rewrite Hown. unfold owed. simpl. lia.
Qed.

Lemma waitAll_outstanding ticks : forall mw mw' ts,
  waitAll ticks mw = Ret (mw', ts) ->
  (length (errq mw) <= 1)%nat ->
  (outstanding mw <= outstanding mw')%nat /\ (length (errq mw') <= 1)%nat /\
  forallb isDone (writers mw') = true.
Proof.
  induction ticks as [|t ticks IH]; intros mw mw' ts H Hq; cbn [waitAll] in H;
    destruct (forallb isDone (writers mw)) eqn:Hd;
    try (injection H as <- <-; auto); try discriminate.
  destruct t as [i|ch].
  - destruct (stepWorker i mw) as [mw1| | |] eqn:Hs; try discriminate.
    + destruct (stepWorker_outstanding _ _ _ Hs Hq) as [Ho Hq1].
      destruct (IH _ _ _ H Hq1) as [Ho' R]. split; [lia|exact R].
    + eapply IH; eauto.
  - eapply IH; eauto.
Qed.

Lemma owed_Done ws :
  forallb isDone ws = true -> list_sum (map owed ws) = O.
Proof.
  induction ws as [|mww ws IH]; [reflexivity|]. simpl. intros H.
  apply andb_true_iff in H as [Hd Hr]. rewrite (IH Hr).
  unfold isDone in Hd. unfold owed. destruct (task mww); try discriminate.
  reflexivity.
Qed.

Lemma closeChans_owed ws : forall ws',
  closeChans ws = Ret ws' -> map owed ws' = map owed ws.
Proof.
  intros ws' H. apply closeChans_Ret in H as [-> _]. rewrite map_map.
  apply map_ext. intros mww. reflexivity.
Qed.

(** [mw.err] holds one error, and [Close] receives from it only after the
    goroutines are gone: when two or more errors are on the channel or to
    be sent on it, no [Close] returns, whatever the schedule. *)
Theorem Close_never_returns_with_two_errors
        (ticks : list tick) (mw : MultiWriter) :
  inited mw = true ->
  (length (errq mw) <= 1)%nat ->
  (2 <= outstanding mw)%nat ->
  forall r, Close ticks mw <> Ret r.
Proof.
  intros Hi Hq Ho r H. unfold Close in H. rewrite Hi in H.
  destruct (closeChans (writers mw)) as [ws| | |] eqn:Hcc; try discriminate.
  destruct (waitAll ticks _) as [[mw1 ts]| | |] eqn:Hw; try discriminate.
  apply waitAll_outstanding in Hw as [Ho1 [Hq1 Hd]]; [|exact Hq].
  unfold outstanding in Ho, Ho1. simpl in Ho1.
  rewrite (closeChans_owed _ _ Hcc), (owed_Done _ Hd) in Ho1. lia.
Qed.

(** Two sinks that refuse every payload, after one [Write]. *)
Definition twoRefusing : MultiWriter :=
  withChanLength (NewMultiWriter [testErrorWriter; testErrorWriter]) 2.

Definition twoRefused : MultiWriter :=
  mkMultiWriter [mkWriter testErrorWriter [ab] false Idle;
                 mkWriter testErrorWriter [ab] false Idle]
                2 true false [] false.

Lemma Close_never_returns_with_two_errors_witness :
  Write [Go ChSend; Go ChSend] ab twoRefusing = Ret (twoRefused, (2, None)) /\
  forall ticks r, Close ticks twoRefused <> Ret r.
Proof.
  split; [reflexivity|]. intros ticks.
  apply (Close_never_returns_with_two_errors ticks twoRefused).
  - reflexivity.
  - simpl. lia.
  - unfold outstanding. simpl. lia.
Defined.

(** *** The sinks that are closed *)

(** The calls of [Close] that the goroutine of a writer has made on its
    sink, a sink that was [s] at the start: one once it is past its
    deferred function, when the sink is an [io.WriteCloser]. *)
Definition closedByTask (mww : mwWriter) (s : sink) : Prop :=
  closer (w mww) = closer s /\
  closeCalls (w mww)
  = (closeCalls s +
     match task mww with
     | SendingCloseErr _ | Done =>
       match closer s with Some _ => 1 | None => 0 end
     | _ => 0
     end)%nat.

Definition closing (sinks : list sink) (mw : MultiWriter) : Prop :=
  Forall2 closedByTask (writers mw) sinks.

Lemma Forall2_update {A B : Type} (R : A -> B -> Prop) (x y : A) :
  forall l l' j,
    Forall2 R l l' -> nth_error l j = Some y -> (forall b, R y b -> R x b) ->
    Forall2 R (update j x l) l'.
Proof.
  induction l as [|h t IH]; intros l' [|j] HF Hj Hx; try discriminate;
    inversion HF; subst; simpl.
  - injection Hj as ->. constructor; auto.
  - constructor; auto.
Qed.

Lemma Forall2_map_l {A B C : Type} (R : A -> B -> Prop) (f : C -> A) :
  forall l l', Forall2 (fun c b => R (f c) b) l l' -> Forall2 R (map f l) l'.
Proof. induction 1; simpl; constructor; auto. Qed.

Lemma stepWorker_closing sinks j mw mw' :
  closing sinks mw -> stepWorker j mw = Ret mw' -> closing sinks mw'.
Proof.
  unfold closing, stepWorker. intros HK H.
  destruct (nth_error (writers mw) j) as [mww|] eqn:Hj; [|discriminate].
  assert (Hset : forall x q,
            (forall s, closedByTask mww s -> closedByTask x s) ->
            Forall2 closedByTask
                    (writers (mkMultiWriter (update j x (writers mw))
                                            (WriteChanLength mw) (inited mw)
                                            (closed mw) q (errClosed mw)))
                    sinks).
  { intros x q Hx. simpl. eapply Forall2_update; eauto. }
  assert (Hsend : forall e next,
            sendErr j mww e next mw = Ret mw' ->
            (forall s, closedByTask mww s ->
                       closedByTask (mkWriter (w mww) (wc mww) (wcClosed mww) next) s) ->
            Forall2 closedByTask (writers mw') sinks).
  { intros e next Hs Hx. unfold sendErr in Hs.
    destruct (errClosed mw); [discriminate|].
    destruct (length (errq mw) <? 1)%nat; [|discriminate].
    injection Hs as <-. apply Hset. exact Hx. }
  destruct (task mww) eqn:Ht; try discriminate.
  - destruct (wc mww) as [|d q].
    + destruct (wcClosed mww); [|discriminate]. injection H as <-.
      apply Hset. intros s [Hc Hn]. rewrite Ht in Hn. split; simpl; assumption.
    + destruct (accept (w mww) (received (w mww)) d) as [n err].
      injection H as <-. apply Hset. intros s [Hc Hn]. rewrite Ht in Hn.
      split; simpl; [exact Hc|]. rewrite Hn.
      destruct err; [reflexivity|]. destruct (n <? len d); reflexivity.
  - apply (Hsend _ _ H). intros s [Hc Hn]. rewrite Ht in Hn.
    split; simpl; assumption.
  - destruct (closer (w mww)) as [res|] eqn:Hcl; injection H as <-;
      apply Hset; intros s [Hc Hn]; rewrite Ht in Hn; rewrite Hcl in Hc;
      (split; simpl; [congruence|]); rewrite Hn, <- Hc.
    + destruct res; lia.
    + lia.
  - apply (Hsend _ _ H). intros s [Hc Hn]. rewrite Ht in Hn.
    split; simpl; assumption.
Qed.

Lemma sendData_closing sinks j d mw mw' :
  closing sinks mw -> sendData j d mw = Ret mw' -> closing sinks mw'.
Proof.
  unfold closing. intros HK H. apply sendData_Ret in H as [mww [Hj [_ [_ ->]]]].
  simpl. eapply Forall2_update; eauto.
Qed.

Lemma writeSelect_closing sinks ticks : forall j d mw r mw' ts,
  closing sinks mw -> writeSelect ticks j d mw = Ret (r, mw', ts) ->
  closing sinks mw'.
Proof.
  induction ticks as [|t ticks IH]; intros j d mw r mw' ts HK H; [discriminate|].
  destruct t as [i|[|]]; cbn [writeSelect] in H.
  - destruct (stepWorker i mw) as [mw1| | |] eqn:Hs; try discriminate.
    + eapply IH; [|exact H]. eapply stepWorker_closing; eauto.
    + eapply IH; eauto.
  - destruct (sendData j d mw) as [mw1| | |] eqn:Hs; try discriminate.
    + injection H as <- <- <-. eapply sendData_closing; eauto.
    + eapply IH; eauto.
  - destruct (errq mw) as [|e q].
    + destruct (errClosed mw); [now injection H as <- <- <-|eapply IH; eauto].
    + injection H as <- <- <-. exact HK.
Qed.

Lemma writeRange_closing sinks n : forall j ticks d mw r mw' ts,
  closing sinks mw -> writeRange n j ticks d mw = Ret (r, mw', ts) ->
  closing sinks mw'.
Proof.
  induction n as [|n IH]; intros j ticks d mw r mw' ts HK H; cbn [writeRange] in H.
  - now injection H as <- <- <-.
  - destruct (writeSelect ticks j d mw) as [[[[o|] mw1] ts1]| | |] eqn:Hs;
      try discriminate.
    + injection H as <- <- <-. eapply writeSelect_closing; eauto.
    + eapply IH; [|exact H]. eapply writeSelect_closing; eauto.
Qed.

Lemma init_closing sinks mw mw1 :
  Forall (fun mww => task mww = NotSpawned) (writers mw) ->
  closing sinks mw -> init mw = Ret mw1 -> closing sinks mw1.
Proof.
  unfold closing. intros Hn HK H. apply init_writers in H as [-> _].
  apply Forall2_map_l. revert Hn. induction HK as [|mww s ws ss Hh Ht IH];
    intros Hn; constructor.
  - inversion Hn as [|? ? Hm _]; subst. unfold closedByTask in *. simpl.
    rewrite Hm in Hh. exact Hh.
  - apply IH. now inversion Hn.
Qed.

(** The workers are spawned by the first [Write], and only by it. *)
Definition unspawned (mw : MultiWriter) : Prop :=
  inited mw = false -> Forall (fun mww => task mww = NotSpawned) (writers mw).

Lemma Write_closing sinks ticks d mw mw' r :
  closing sinks mw -> unspawned mw -> closed mw = false ->
  Write ticks d mw = Ret (mw', r) ->
  closing sinks mw' /\ inited mw' = true /\ closed mw' = false.
Proof.
  intros HK Hu Hcl H. unfold Write in H. rewrite Hcl in H.
  assert (Hgo : forall mw1, closing sinks mw1 -> inited mw1 = true ->
            closed mw1 = false ->
            match writeRange (length (writers mw1)) 0 ticks d mw1 with
            | Ret (None, mw2, _) => Ret (mw2, (len d, None))
            | Ret (Some e, mw2, _) => Ret (mw2, (0, e))
            | Panic => Panic
            | Blocked => Blocked
            | OutOfFuel => OutOfFuel
            end = Ret (mw', r) ->
            closing sinks mw' /\ inited mw' = true /\ closed mw' = false).
  { intros mw1 HK1 Hi1 Hcl1 Hr.
    destruct (writeRange _ 0 ticks d mw1) as [[[o mw2] ts]| | |] eqn:Hw;
      try discriminate.
    pose proof (writeRange_closing _ _ _ _ _ _ _ _ _ HK1 Hw) as HK2.
    destruct (writeRange_frame _ _ _ _ _ _ _ _ Hw) as [[F1 [F2 _]] _].
    assert (mw' = mw2) as -> by (destruct o; now injection Hr as <- _).
    split; [exact HK2|]. split; congruence. }
  destruct (inited mw) eqn:Hi; [exact (Hgo _ HK Hi Hcl H)|].
  destruct (init mw) as [mw1| | |] eqn:Hin; try discriminate.
  pose proof (init_closing _ _ _ (Hu Hi) HK Hin) as HK1.
  apply init_writers in Hin as [_ [Hi1 [Hcl1 _]]].
  apply (Hgo mw1 HK1 Hi1); [congruence|exact H].
Qed.

Lemma writeAll_closing sinks calls : forall mw mw' rs,
  closing sinks mw -> unspawned mw -> closed mw = false ->
  writeAll calls mw = Ret (mw', rs) ->
  closing sinks mw' /\ (calls <> [] -> inited mw' = true).
Proof.
  induction calls as [|[d ticks] calls IH]; intros mw mw' rs HK Hu Hcl H;
    cbn [writeAll] in H.
  - injection H as <- <-. split; [exact HK|]. intros E. now elim E.
  - destruct (Write ticks d mw) as [[mw1 r]| | |] eqn:Hw; try discriminate.
    destruct (writeAll calls mw1) as [[mw2 rs2]| | |] eqn:Ha; try discriminate.
    injection H as <- <-.
    destruct (Write_closing _ _ _ _ _ _ HK Hu Hcl Hw) as [HK1 [Hi1 Hcl1]].
    assert (Hu1 : unspawned mw1) by (intros E; congruence).
    destruct (IH _ _ _ HK1 Hu1 Hcl1 Ha) as [HK2 Hi2]. split; [exact HK2|].
    intros _. destruct calls as [|c calls'].
    + cbn [writeAll] in Ha. injection Ha as <- <-. exact Hi1.
    + apply Hi2. discriminate.
Qed.

Lemma waitAll_closing sinks ticks : forall mw mw' ts,
  closing sinks mw -> waitAll ticks mw = Ret (mw', ts) ->
  closing sinks mw' /\ forallb isDone (writers mw') = true.
Proof.
  induction ticks as [|t ticks IH]; intros mw mw' ts HK H; cbn [waitAll] in H;
    destruct (forallb isDone (writers mw)) eqn:Hd;
    try (injection H as <- <-; auto); try discriminate.
  destruct t as [i|ch].
  - destruct (stepWorker i mw) as [mw1| | |] eqn:Hs; try discriminate.
    + eapply IH; [|exact H]. eapply stepWorker_closing; eauto.
    + eapply IH; eauto.
  - eapply IH; eauto.
Qed.

(** The calls of [Close] a sink gets from a MultiWriter that was written to
    with [calls]: one when it is an [io.WriteCloser] and there was a call of
    [Write], none otherwise. *)
Definition closedTimes {A : Type} (calls : list A) (s : sink) : nat :=
  match calls, closer s with
  | _ :: _, Some _ => 1
  | _, _ => 0
  end.

(** When [Close] returns, whatever the calls of [Write] and itself returned:
    every sink that is an [io.WriteCloser] was closed once, by its
    goroutine, if there was a call of [Write]; with no call of [Write] there
    is no goroutine, and no sink is closed. *)
Theorem Close_closes_each_closer_once
        (sinks : list sink) (cap : Z) (calls : list (bytes * list tick))
        (ticks : list tick) (mw1 mw2 : MultiWriter)
        (rs : list (Z * option error)) (e : option error) :
  writeAll calls (withChanLength (NewMultiWriter sinks) cap) = Ret (mw1, rs) ->
  Close ticks mw1 = Ret (mw2, e) ->
  Forall2 (fun mww s =>
             closeCalls (w mww) = (closeCalls s + closedTimes calls s)%nat)
          (writers mw2) sinks.
Proof.
  intros Hw Hc.
  assert (HK0 : closing sinks (withChanLength (NewMultiWriter sinks) cap)).
  { unfold closing. simpl. apply Forall2_map_l.
    clear. induction sinks as [|s sinks IH]; constructor; [|exact IH].
    split; simpl; [reflexivity|lia]. }
  assert (Hu0 : unspawned (withChanLength (NewMultiWriter sinks) cap)).
  { intros _. simpl. apply Forall_map. now apply Forall_forall. }
  destruct (writeAll_closing _ _ _ _ _ HK0 Hu0 eq_refl Hw) as [HK1 Hi1].
  destruct calls as [|c calls].
  - cbn [writeAll] in Hw. injection Hw as <- <-. cbn in Hc. injection Hc as <- <-.
    simpl. apply Forall2_map_l. clear.
    induction sinks as [|s sinks IH]; constructor; [|exact IH].
    simpl. lia.
  - unfold Close in Hc. rewrite Hi1 in Hc by discriminate.
    destruct (closeChans (writers mw1)) as [ws| | |] eqn:Hcc; try discriminate.
    destruct (waitAll ticks _) as [[mw3 ts]| | |] eqn:Hwa; try discriminate.
    apply waitAll_closing with (sinks := sinks) in Hwa as [HK3 Hd].
    + assert (Hws : writers mw2 = writers mw3).
      { destruct (errClosed mw3); [discriminate|].
        destruct (errq mw3); now injection Hc as <- <-. }
      rewrite Hws. clear - HK3 Hd. unfold closing in HK3.
      induction HK3 as [|mww s ws ss Hh Ht IH]; constructor.
      * simpl in Hd. apply andb_true_iff in Hd as [Hd _]. unfold isDone in Hd.
        destruct Hh as [_ Hn]. destruct (task mww); try discriminate.
        rewrite Hn. reflexivity.
      * apply IH. simpl in Hd. now apply andb_true_iff in Hd as [_ Hd].
    + unfold closing. simpl. apply closeChans_Ret in Hcc as [-> _].
      apply Forall2_map_l. eapply Forall2_impl; [|exact HK1].
      intros mww s Hh. exact Hh.
Qed.

(** One write, queued for two sinks. *)
Definition oneWrite : list (bytes * list tick) := [(ab, [Go ChSend; Go ChSend])].

(** A sink whose [Close] fails and one whose [Close] succeeds. *)
Definition twoClosers : MultiWriter :=
  withChanLength (NewMultiWriter [testErrorWriteCloser; testOKWriteCloser]) 2.

Definition twoClosersWritten : MultiWriter :=
  Eval vm_compute in
    match writeAll oneWrite twoClosers with
    | Ret (mw, _) => mw
    | _ => twoClosers
    end.

(** One [Write], then a [Close] that returns the error of the first sink:
    both sinks were closed once. *)
Lemma Close_closes_each_closer_once_witness :
  writeAll oneWrite twoClosers
  = Ret (twoClosersWritten, [(2, None)]) /\
  exists mw2,
    Close inTurn twoClosersWritten = Ret (mw2, Some closeErr) /\
    Forall2 (fun mww s =>
               closeCalls (w mww) = (closeCalls s + closedTimes oneWrite s)%nat)
            (writers mw2) [testErrorWriteCloser; testOKWriteCloser].
Proof.
  assert (Hw : writeAll oneWrite twoClosers
               = Ret (twoClosersWritten, [(2, None)])) by reflexivity.
  split; [exact Hw|].
  destruct (Close inTurn twoClosersWritten) as [[mw2 e]| | |] eqn:Hc;
    try (vm_compute in Hc; discriminate).
  assert (He : e = Some closeErr).
  { vm_compute in Hc. injection Hc as _ <-. reflexivity. }
  subst e. exists mw2. split; [reflexivity|].
  exact (Close_closes_each_closer_once
           [testErrorWriteCloser; testOKWriteCloser] 2
           oneWrite inTurn twoClosersWritten mw2
           [(2, None)] (Some closeErr) Hw Hc).
Defined.

(** *** Unbuffered channels: the error of a write comes with the next *)

(** The error a worker sends for a payload its sink refuses. *)
Definition refusal (s : sink) (d : bytes) : error :=
  let '(_, err) := accept s (received s) d in
  match err with Some e => e | None => ErrShortWrite end.

Section Unbuffered.

Variable j : nat.
Variable d1 : bytes.
Variable e1 : error.

(** The writers other than [j] have reliable sinks and send no error. *)
Definition othersL (ws : list mwWriter) : Prop :=
  forall k mww, k <> j -> nth_error ws k = Some mww ->
                reliable (w mww) /\ ~ sendingW mww.

(** Writer [j] before it is given [d1], which its sink will refuse. *)
Definition waiting (mww : mwWriter) : Prop :=
  task mww = Idle /\ wc mww = [] /\ wcClosed mww = false /\
  refuses (w mww) d1 = true /\ refusal (w mww) d1 = e1.

(** Writer [j] once it is given [d1], with the queue [q] of [mw.err]: the
    payload is on its channel, or its error is being sent, or it is sent. *)
Definition failed (mww : mwWriter) (q : list error) : Prop :=
  match task mww with
  | NotSpawned => False
  | Idle => wc mww = [d1] /\ refuses (w mww) d1 = true /\
            refusal (w mww) d1 = e1 /\ q = []
  | SendingErr e => e = e1 /\ q = []
  | Deferred | SendingCloseErr _ | Done => q = [e1]
  end.

Definition before (mw : MultiWriter) : Prop :=
  WriteChanLength mw = 0 /\ errClosed mw = false /\ errq mw = [] /\
  (exists mww, nth_error (writers mw) j = Some mww /\ waiting mww) /\
  othersL (writers mw).

Definition after (mw : MultiWriter) : Prop :=
  WriteChanLength mw = 0 /\ errClosed mw = false /\
  (exists mww, nth_error (writers mw) j = Some mww /\ failed mww (errq mw)) /\
  othersL (writers mw).

Lemma othersL_update_other ws k x :
  othersL ws -> reliable (w x) -> ~ sendingW x -> othersL (update k x ws).
Proof.
  intros Ho Hr Hs i mww Hne Hi.
  apply nth_error_update in Hi as [[_ [-> _]]|[_ Hi]]; [auto|].
  exact (Ho _ _ Hne Hi).
Qed.

Lemma othersL_update_j ws x : othersL ws -> othersL (update j x ws).
Proof.
  intros Ho i mww Hne Hi.
  apply nth_error_update in Hi as [[-> _]|[_ Hi]]; [now elim Hne|].
  exact (Ho _ _ Hne Hi).
Qed.

(** A step of the goroutine of another writer. *)
Lemma stepWorker_other k mw mw' :
  othersL (writers mw) -> k <> j -> stepWorker k mw = Ret mw' ->
  exists x, mw' = setWriters mw (update k x (writers mw)) /\
            reliable (w x) /\ ~ sendingW x.
Proof.
  intros Ho Hne H. unfold stepWorker in H.
  destruct (nth_error (writers mw) k) as [mww|] eqn:Hk; [|discriminate].
  destruct (Ho _ _ Hne Hk) as [[Hacc Hcl] Hns]. unfold sendingW in Hns.
  destruct (task mww) eqn:Ht; try discriminate; try (exfalso; apply Hns; exact I).
  - destruct (wc mww) as [|d q].
    + destruct (wcClosed mww); [|discriminate]. injection H as <-.
      eexists. split; [reflexivity|]. split; [split; assumption|]. simpl. auto.
    + destruct (Hacc (received (w mww)) d) as [He Hn].
      destruct (accept (w mww) (received (w mww)) d) as [n err]. simpl in He, Hn.
      subst err. injection H as <-.
      replace (n <? len d) with false by (symmetry; apply Z.ltb_ge; lia).
      eexists. split; [reflexivity|]. split; [split; assumption|]. simpl. auto.
  - destruct Hcl as [Hcl|Hcl]; rewrite Hcl in H; injection H as <-;
      (eexists; split; [reflexivity|]); (split; [split; simpl; auto|]);
      simpl; auto.
Qed.

Lemma stepWorker_before k mw mw' :
  before mw -> stepWorker k mw = Ret mw' -> before mw'.
Proof.
  intros [Hcap [Hc [Hq [[mww [Hj Hw]] Ho]]]] H.
  destruct (Nat.eq_dec k j) as [->|Hne].
  - exfalso. unfold stepWorker in H. rewrite Hj in H.
    destruct Hw as [Ht [Hwc [Hcl _]]]. rewrite Ht, Hwc, Hcl in H. discriminate.
  - destruct (stepWorker_other _ _ _ Ho Hne H) as [x [-> [Hr Hs]]].
    split; [exact Hcap|]. split; [exact Hc|]. split; [exact Hq|]. simpl.
    split; [|now apply othersL_update_other].
    exists mww. split; [|exact Hw]. now rewrite nth_error_update_neq.
Qed.

Lemma failed_errq mww q : failed mww q -> q = [] \/ q = [e1].
Proof.
  unfold failed. destruct (task mww); intros H; try contradiction; auto.
  - destruct H as [_ [_ [_ H]]]. auto.
  - destruct H as [_ H]. auto.
Qed.

Lemma stepWorker_after k mw mw' :
  after mw -> stepWorker k mw = Ret mw' -> after mw'.
Proof.
  intros [Hcap [Hc [[mww [Hj Hf]] Ho]]] H.
  destruct (Nat.eq_dec k j) as [->|Hne].
  - unfold stepWorker in H. rewrite Hj in H. unfold failed in Hf.
    destruct (task mww) eqn:Ht; try discriminate.
    + destruct Hf as [Hwc [Href [Hrl Hq]]]. rewrite Hwc in H.
      unfold refuses in Href. unfold refusal in Hrl.
      destruct (accept (w mww) (received (w mww)) d1) as [n err].
      injection H as <-.
      split; [exact Hcap|]. split; [exact Hc|]. simpl.
      split; [|now apply othersL_update_j].
      eexists. split; [eapply nth_error_update_eq; eauto|].
      unfold failed. simpl. destruct err as [e|]; [auto|].
      rewrite Href. auto.
    + destruct Hf as [-> Hq]. unfold sendErr in H. rewrite Hc, Hq in H.
      simpl in H. injection H as <-.
      split; [exact Hcap|]. split; [reflexivity|]. simpl.
      split; [|now apply othersL_update_j].
      eexists. split; [eapply nth_error_update_eq; eauto|].
      unfold failed. simpl. reflexivity.
    + assert (Hgo : forall x, task x <> NotSpawned -> task x <> Idle ->
                (forall e, task x <> SendingErr e) ->
                after (setWriters mw (update j x (writers mw)))).
      { intros x N1 N2 N3. split; [exact Hcap|]. split; [exact Hc|]. simpl.
        split; [|now apply othersL_update_j].
        exists x. split; [eapply nth_error_update_eq; eauto|].
        unfold failed. simpl. destruct (task x); congruence. }
      destruct (closer (w mww)) as [[e|]|]; injection H as <-; apply Hgo;
        simpl; congruence.
    + unfold sendErr in H. rewrite Hc, Hf in H. discriminate.
  - destruct (stepWorker_other _ _ _ Ho Hne H) as [x [-> [Hr Hs]]].
    split; [exact Hcap|]. split; [exact Hc|]. simpl.
    split; [|now apply othersL_update_other].
    exists mww. split; [|exact Hf]. now rewrite nth_error_update_neq.
Qed.

Lemma sendData_before k mw mw' :
  before mw -> sendData k d1 mw = Ret mw' ->
  (k = j -> after mw') /\ (k <> j -> before mw').
Proof.
  intros [Hcap [Hc [Hq [[mww [Hj Hw]] Ho]]]] H.
  apply sendData_Ret in H as [x [Hk [_ [_ ->]]]]. split.
  - intros ->. assert (x = mww) as -> by congruence.
    destruct Hw as [Ht [Hwc [_ [Href Hrl]]]].
    split; [exact Hcap|]. split; [exact Hc|]. simpl.
    split; [|now apply othersL_update_j].
    eexists. split; [eapply nth_error_update_eq; eauto|].
    unfold failed. simpl. rewrite Ht, Hwc. auto.
  - intros Hne. destruct (Ho _ _ Hne Hk) as [Hr Hs].
    split; [exact Hcap|]. split; [exact Hc|]. split; [exact Hq|]. simpl.
    split; [|now apply othersL_update_other].
    exists mww. split; [|exact Hw]. now rewrite nth_error_update_neq.
Qed.

Lemma sendData_after k d mw mw' :
  after mw -> sendData k d mw = Ret mw' -> k <> j /\ after mw'.
Proof.
  intros [Hcap [Hc [[mww [Hj Hf]] Ho]]] H.
  destruct (Nat.eq_dec k j) as [->|Hne].
  - exfalso. unfold sendData in H. rewrite Hj, Hcap in H. unfold failed in Hf.
    assert (Hfull : forall t, isIdle t = false ->
              (len (wc mww) <? 0) ||
              ((0 =? 0) && (length (wc mww) =? 0)%nat && isIdle t) = false).
    { intros t ->. rewrite andb_false_r, orb_false_r. apply Z.ltb_ge.
      unfold len. lia. }
    destruct (task mww) eqn:Ht; try discriminate;
      (destruct (wcClosed mww); [discriminate|]).
    + destruct Hf as [Hwc _]. rewrite Hwc in H. discriminate.
    + rewrite Hfull in H by reflexivity. discriminate.
    + rewrite Hfull in H by reflexivity. discriminate.
    + rewrite Hfull in H by reflexivity. discriminate.
    + rewrite Hfull in H by reflexivity. discriminate.
  - split; [exact Hne|].
    apply sendData_Ret in H as [x [Hk [_ [_ ->]]]].
    destruct (Ho _ _ Hne Hk) as [Hr Hs].
    split; [exact Hcap|]. split; [exact Hc|]. simpl.
    split; [|now apply othersL_update_other].
    exists mww. split; [|exact Hf]. now rewrite nth_error_update_neq.
Qed.

Lemma writeSelect_before ticks : forall k mw r mw' ts,
  before mw -> writeSelect ticks k d1 mw = Ret (r, mw', ts) ->
  r = None /\ (k = j -> after mw') /\ (k <> j -> before mw').
Proof.
  induction ticks as [|t ticks IH]; intros k mw r mw' ts Hb H; [discriminate|].
  destruct t as [i|[|]]; cbn [writeSelect] in H.
  - destruct (stepWorker i mw) as [mw1| | |] eqn:Hs; try discriminate.
    + eapply IH; [|exact H]. eapply stepWorker_before; eauto.
    + eapply IH; eauto.
  - destruct (sendData k d1 mw) as [mw1| | |] eqn:Hs; try discriminate.
    + injection H as <- <- <-. split; [reflexivity|].
      eapply sendData_before; eauto.
    + eapply IH; eauto.
  - pose proof Hb as [_ [Hc [Hq _]]]. rewrite Hq, Hc in H. eapply IH; eauto.
Qed.

Lemma writeSelect_after ticks : forall k d mw r mw' ts,
  after mw -> writeSelect ticks k d mw = Ret (r, mw', ts) ->
  (r = None /\ k <> j /\ after mw') \/ r = Some (Some e1).
Proof.
  induction ticks as [|t ticks IH]; intros k d mw r mw' ts Ha H; [discriminate|].
  destruct t as [i|[|]]; cbn [writeSelect] in H.
  - destruct (stepWorker i mw) as [mw1| | |] eqn:Hs; try discriminate.
    + eapply IH; [|exact H]. eapply stepWorker_after; eauto.
    + eapply IH; eauto.
  - destruct (sendData k d mw) as [mw1| | |] eqn:Hs; try discriminate.
    + injection H as <- <- <-. left. split; [reflexivity|].
      eapply sendData_after; eauto.
    + eapply IH; eauto.
  - pose proof Ha as [_ [Hc [[mww [_ Hf]] _]]].
    destruct (failed_errq _ _ Hf) as [Hq|Hq]; rewrite Hq in H.
    + rewrite Hc in H. eapply IH; eauto.
    + injection H as <- _ _. right. reflexivity.
Qed.

Lemma writeRange_after n : forall k ticks d mw r mw' ts,
  after mw -> writeRange n k ticks d mw = Ret (r, mw', ts) ->
  (r = None /\ after mw' /\ ~ (k <= j < k + n)%nat) \/ r = Some (Some e1).
Proof.
  induction n as [|n IH]; intros k ticks d mw r mw' ts Ha H; cbn [writeRange] in H.
  - injection H as <- <- <-. left. split; [reflexivity|]. split; [exact Ha|lia].
  - destruct (writeSelect ticks k d mw) as [[[o mw1] ts1]| | |] eqn:Hs;
      try discriminate.
    destruct (writeSelect_after _ _ _ _ _ _ _ Ha Hs) as [[-> [Hne Ha1]]| ->].
    + destruct (IH _ _ _ _ _ _ _ Ha1 H) as [[-> [Ha2 Hn]]| ->]; [left|now right].
      split; [reflexivity|]. split; [exact Ha2|lia].
    + injection H as <- _ _. now right.
Qed.

Lemma writeRange_before n : forall k ticks mw r mw' ts,
  before mw -> writeRange n k ticks d1 mw = Ret (r, mw', ts) ->
  (r = None /\ ((k <= j < k + n)%nat -> after mw') /\
   (~ (k <= j < k + n)%nat -> before mw')) \/ r = Some (Some e1).
Proof.
  induction n as [|n IH]; intros k ticks mw r mw' ts Hb H; cbn [writeRange] in H.
  - injection H as <- <- <-. left. split; [reflexivity|]. split; [lia|auto].
  - destruct (writeSelect ticks k d1 mw) as [[[o mw1] ts1]| | |] eqn:Hs;
      try discriminate.
    destruct (writeSelect_before _ _ _ _ _ _ Hb Hs) as [-> [Hj Hn]].
    destruct (Nat.eq_dec k j) as [->|Hne].
    + destruct (writeRange_after _ _ _ _ _ _ _ _ (Hj eq_refl) H)
        as [[-> [Ha2 _]]| ->]; [left|now right].
      split; [reflexivity|]. split; [auto|lia].
    + destruct (IH _ _ _ _ _ _ (Hn Hne) H) as [[-> [Ha2 Hb2]]| ->];
        [left|now right].
      split; [reflexivity|].
      split; intros Hr; [apply Ha2|apply Hb2]; lia.
Qed.

End Unbuffered.

(** With unbuffered channels ([WriteChanLength] 0), sinks that are reliable
    but for one, and a first payload that this one refuses, by an error or
    a short count: the [Write] of that payload returns nil or the error of
    the sink; and when it returned nil, the next [Write] that returns,
    whatever its payload and the schedule, returns 0 and that error. *)
Theorem unbuffered_error_comes_with_next_Write
        (sinks : list sink) (j : nat) (s : sink) (d1 : bytes)
        (t1 : list tick) (mw1 : MultiWriter) (r1 : Z * option error) :
  nth_error sinks j = Some s ->
  refuses s d1 = true ->
  (forall k s', k <> j -> nth_error sinks k = Some s' -> reliable s') ->
  Write t1 d1 (withChanLength (NewMultiWriter sinks) 0) = Ret (mw1, r1) ->
  (r1 = (len d1, None) \/ r1 = (0, Some (refusal s d1))) /\
  (r1 = (len d1, None) ->
   forall t2 d2 mw2 r2,
     Write t2 d2 mw1 = Ret (mw2, r2) -> r2 = (0, Some (refusal s d1))).
Proof.
  intros Hj Href Hrel H.
  set (start := withChanLength (NewMultiWriter sinks) 0) in *.
  assert (Hcl0 : closed start = false) by reflexivity.
  assert (Hin0 : inited start = false) by reflexivity.
  unfold Write in H. rewrite Hcl0, Hin0 in H.
  destruct (init start) as [mwI| | |] eqn:Hi; try discriminate.
  pose proof (init_writers _ _ Hi) as [Hw [HiI [HclI [HqI HcI]]]].
  assert (Hcap : WriteChanLength mwI = 0).
  { unfold init in Hi. destruct (writers start); [|simpl in Hi];
      injection Hi as <-; reflexivity. }
  simpl in Hw, HclI, HqI, HcI. rewrite map_map in Hw. simpl in Hw.
  assert (Hb : before j d1 (refusal s d1) mwI).
  { split; [exact Hcap|]. split; [exact HcI|]. split; [exact HqI|]. rewrite Hw.
    split.
    - exists (mkWriter s [] false Idle). split.
      + rewrite nth_error_map, Hj. reflexivity.
      + repeat split. exact Href.
    - intros k mww Hne Hk. rewrite nth_error_map in Hk.
      destruct (nth_error sinks k) as [s'|] eqn:Hs'; [|discriminate].
      injection Hk as <-. simpl. split; [exact (Hrel _ _ Hne Hs')|].
      unfold sendingW. simpl. auto. }
  assert (Hlen : (j < length (writers mwI))%nat).
  { rewrite Hw, length_map. apply nth_error_Some. congruence. }
  destruct (writeRange (length (writers mwI)) 0 t1 d1 mwI)
    as [[[o mwR] ts]| | |] eqn:HwR; try discriminate.
  pose proof (writeRange_frame _ _ _ _ _ _ _ _ HwR) as [[F1 [F2 [_ [F4 _]]]] _].
  destruct (writeRange_before _ _ _ _ _ _ _ _ _ _ Hb HwR) as [[-> [Ha _]]| ->].
  - injection H as <- <-. split; [now left|]. intros _ t2 d2 mw2 r2 H2.
    assert (Ha' : after j d1 (refusal s d1) mwR) by (apply Ha; lia).
    unfold Write in H2. rewrite F2, HclI, F1, HiI in H2.
    destruct (writeRange (length (writers mwR)) 0 t2 d2 mwR)
      as [[[o2 mw3] ts2]| | |] eqn:HwR2; try discriminate.
    destruct (writeRange_after _ _ _ _ _ _ _ _ _ _ _ Ha' HwR2) as [[_ [_ Hn]]| ->].
    + exfalso. apply Hn. lia.
    + now injection H2 as <- <-.
  - injection H as <- <-. split; [now right|]. intros E. discriminate E.
Qed.

(** A [bytes.Buffer] and a sink that refuses every payload, unbuffered. *)
Definition oneRefusing : MultiWriter :=
  withChanLength (NewMultiWriter [buffer; testErrorWriter]) 0.

Definition oneRefused : MultiWriter :=
  Eval vm_compute in
    match Write [Go ChSend; Go ChSend] ab oneRefusing with
    | Ret (mw, _) => mw
    | _ => oneRefusing
    end.

Lemma unbuffered_error_comes_with_next_Write_witness :
  Write [Go ChSend; Go ChSend] ab oneRefusing = Ret (oneRefused, (2, None)) /\
  (exists mw2, Write [Worker 1; Worker 1; Go ChErr] c oneRefused
               = Ret (mw2, (0, Some writeErr))) /\
  forall t2 d2 mw2 r2,
    Write t2 d2 oneRefused = Ret (mw2, r2) -> r2 = (0, Some writeErr).
Proof.
  assert (Hw : Write [Go ChSend; Go ChSend] ab oneRefusing
               = Ret (oneRefused, (2, None))) by reflexivity.
  split; [exact Hw|]. split; [eexists; reflexivity|].
  assert (Hrel : forall k s', k <> 1%nat ->
                   nth_error [buffer; testErrorWriter] k = Some s' -> reliable s').
  { intros [|[|[|k]]] s' Hne Hk; try discriminate; [|now elim Hne].
    injection Hk as <-. split; simpl; [|auto]. intros pre d. split; [reflexivity|lia]. }
  exact (proj2 (unbuffered_error_comes_with_next_Write
                  [buffer; testErrorWriter] 1 testErrorWriter ab
                  [Go ChSend; Go ChSend] oneRefused (2, None)
                  eq_refl eq_refl Hrel Hw) eq_refl).
Defined.

(** *** What a sink can be handed *)

(** [l1] is [l2] with some elements left out. *)
Inductive subseq {A : Type} : list A -> list A -> Prop :=
| subseq_nil l : subseq [] l
| subseq_skip x l1 l2 : subseq l1 l2 -> subseq l1 (x :: l2)
| subseq_take x l1 l2 : subseq l1 l2 -> subseq (x :: l1) (x :: l2).

Lemma subseq_app_r {A : Type} (l1 l2 l3 : list A) :
  subseq l1 l2 -> subseq l1 (l2 ++ l3).
Proof.
  induction 1 as [l|y l1 l2 H IH|y l1 l2 H IH]; simpl.
  - apply subseq_nil.
  - now apply subseq_skip.
  - now apply subseq_take.
Qed.

Lemma subseq_snoc {A : Type} (x : A) (l1 l2 : list A) :
  subseq l1 l2 -> subseq (l1 ++ [x]) (l2 ++ [x]).
Proof.
  induction 1 as [l|y l1 l2 H IH|y l1 l2 H IH]; simpl.
  - induction l as [|y l IH]; simpl.
    + apply subseq_take. apply subseq_nil.
    + now apply subseq_skip.
  - now apply subseq_skip.
  - now apply subseq_take.
Qed.

Lemma subseq_prefix {A : Type} (a b l : list A) :
  subseq (a ++ b) l -> subseq a l.
Proof.
  intros H. remember (a ++ b) as x eqn:E. revert a b E.
  induction H as [l|y l1 l2 H IH|y l1 l2 H IH]; intros a b E.
  - symmetry in E. apply app_eq_nil in E as [-> _]. apply subseq_nil.
  - apply subseq_skip. eapply IH; eauto.
  - destruct a as [|z a]; [apply subseq_nil|]. simpl in E. injection E as <- E.
    apply subseq_take. eapply IH; eauto.
Qed.

(** A step leaves the payloads of a writer as they are, or hands the head
    of the queue to the sink. *)
Definition moved (mww x : mwWriter) : Prop :=
  (received (w x) = received (w mww) /\ wc x = wc mww) \/
  (exists d, received (w x) = received (w mww) ++ [d] /\ wc mww = d :: wc x).

Lemma stepWorker_moved j mw mw' :
  stepWorker j mw = Ret mw' ->
  exists mww x, nth_error (writers mw) j = Some mww /\
                writers mw' = update j x (writers mw) /\ moved mww x.
Proof.
  unfold stepWorker. intros H.
  destruct (nth_error (writers mw) j) as [mww|] eqn:Hj; [|discriminate].
  exists mww.
  assert (Hsend : forall e next,
            sendErr j mww e next mw = Ret mw' ->
            exists x, Some mww = Some mww /\
                      writers mw' = update j x (writers mw) /\ moved mww x).
  { intros e next Hs. unfold sendErr in Hs.
    destruct (errClosed mw); [discriminate|].
    destruct (length (errq mw) <? 1)%nat; [|discriminate].
    injection Hs as <-. eexists. split; [reflexivity|].
    split; [reflexivity|]. left. split; reflexivity. }
  destruct (task mww) eqn:Ht; try discriminate.
  - destruct (wc mww) as [|d q] eqn:Hwc.
    + destruct (wcClosed mww); [|discriminate]. injection H as <-.
      eexists. split; [reflexivity|]. split; [reflexivity|]. left.
      split; [reflexivity|]. simpl. now rewrite Hwc.
    + destruct (accept (w mww) (received (w mww)) d) as [n err].
      injection H as <-. eexists. split; [reflexivity|]. split; [reflexivity|].
      right. exists d. simpl. rewrite Hwc. split; reflexivity.
  - exact (Hsend _ _ H).
  - destruct (closer (w mww)) as [res|]; injection H as <-; eexists;
      (split; [reflexivity|]); (split; [reflexivity|]); left; split; reflexivity.
  - exact (Hsend _ _ H).
Qed.

Section Written.

(** The sinks as they were given to [NewMultiWriter]. *)
Variable sinks : list sink.

(** During the [Write] of [d] after the payloads [ps], the range loop being
    at writer [k]: what the sink of a writer has got since the start and
    what is queued for it are, together, [ps] and then [d] with some
    payloads left out, and without [d] from [k] on. *)
Definition withinL (ps : list bytes) (k : nat) (d : bytes)
           (ws : list mwWriter) : Prop :=
  length ws = length sinks /\
  forall i mww s,
    nth_error ws i = Some mww -> nth_error sinks i = Some s ->
    exists got, received (w mww) = received s ++ got /\
                subseq (got ++ wc mww) (ps ++ [d]) /\
                ((k <= i)%nat -> subseq (got ++ wc mww) ps).

(** The same between two calls. *)
Definition settledL (ps : list bytes) (ws : list mwWriter) : Prop :=
  length ws = length sinks /\
  forall i mww s,
    nth_error ws i = Some mww -> nth_error sinks i = Some s ->
    exists got, received (w mww) = received s ++ got /\
                subseq (got ++ wc mww) ps.

Lemma settledL_withinL ps d ws : settledL ps ws -> withinL ps 0 d ws.
Proof.
  intros [Hl H]. split; [exact Hl|]. intros i mww s Hi Hs.
  destruct (H _ _ _ Hi Hs) as [got [Hr Hsub]]. exists got.
  split; [exact Hr|]. split; [now apply subseq_app_r|auto].
Qed.

Lemma withinL_settledL ps k d ws : withinL ps k d ws -> settledL (ps ++ [d]) ws.
Proof.
  intros [Hl H]. split; [exact Hl|]. intros i mww s Hi Hs.
  destruct (H _ _ _ Hi Hs) as [got [Hr [Hsub _]]]. eauto.
Qed.

Lemma settledL_more ps d ws : settledL ps ws -> settledL (ps ++ [d]) ws.
Proof.
  intros H. eapply withinL_settledL. apply settledL_withinL. exact H.
Qed.

Lemma withinL_moved ps k d ws j mww x :
  withinL ps k d ws -> nth_error ws j = Some mww -> moved mww x ->
  withinL ps k d (update j x ws).
Proof.
  intros [Hl H] Hj Hm. split; [now rewrite length_update|].
  intros i y s Hi Hs.
  apply nth_error_update in Hi as [[-> [-> _]]|[_ Hi]]; [|exact (H _ _ _ Hi Hs)].
  destruct (H _ _ _ Hj Hs) as [got [Hr [Hsub Hk]]].
  destruct Hm as [[Hr' Hwc]|[p [Hr' Hwc]]].
  - exists got. rewrite Hr', Hwc. auto.
  - exists (got ++ [p]). rewrite Hr', Hr, <- !app_assoc. simpl.
    rewrite Hwc in Hsub, Hk. auto.
Qed.

Lemma stepWorker_withinL ps k d j mw mw' :
  withinL ps k d (writers mw) -> stepWorker j mw = Ret mw' ->
  withinL ps k d (writers mw').
Proof.
  intros HW H. apply stepWorker_moved in H as [mww [x [Hj [-> Hm]]]].
  eapply withinL_moved; eauto.
Qed.

Lemma sendData_withinL ps k d mw mw' :
  withinL ps k d (writers mw) -> sendData k d mw = Ret mw' ->
  withinL ps (S k) d (writers mw').
Proof.
  intros [Hl H] Hs. apply sendData_Ret in Hs as [mww [Hk [_ [_ ->]]]].
  simpl. split; [now rewrite length_update|]. intros i y s Hi Hs.
  apply nth_error_update in Hi as [[-> [-> _]]|[Hne Hi]].
  - destruct (H _ _ _ Hk Hs) as [got [Hr [_ Hsub]]]. exists got. simpl.
    split; [exact Hr|]. rewrite app_assoc.
    split; [apply subseq_snoc; apply Hsub; lia|lia].
  - destruct (H _ _ _ Hi Hs) as [got [Hr [Hsub Hge]]]. exists got.
    split; [exact Hr|]. split; [exact Hsub|]. intros Hle. apply Hge. lia.
Qed.

Lemma writeSelect_withinL ps d ticks : forall k mw r mw' ts,
  withinL ps k d (writers mw) -> writeSelect ticks k d mw = Ret (r, mw', ts) ->
  withinL ps (match r with None => S k | Some _ => k end) d (writers mw').
Proof.
  induction ticks as [|t ticks IH]; intros k mw r mw' ts HW H; [discriminate|].
  destruct t as [i|[|]]; cbn [writeSelect] in H.
  - destruct (stepWorker i mw) as [mw1| | |] eqn:Hs; try discriminate.
    + eapply IH; [|exact H]. eapply stepWorker_withinL; eauto.
    + eapply IH; eauto.
  - destruct (sendData k d mw) as [mw1| | |] eqn:Hs; try discriminate.
    + injection H as <- <- <-. eapply sendData_withinL; eauto.
    + eapply IH; eauto.
  - destruct (errq mw) as [|e q].
    + destruct (errClosed mw); [now injection H as <- <- <-|eapply IH; eauto].
    + injection H as <- <- <-. exact HW.
Qed.

Lemma writeRange_withinL ps d n : forall k ticks mw r mw' ts,
  withinL ps k d (writers mw) -> writeRange n k ticks d mw = Ret (r, mw', ts) ->
  exists k', withinL ps k' d (writers mw').
Proof.
  induction n as [|n IH]; intros k ticks mw r mw' ts HW H; cbn [writeRange] in H.
  - injection H as <- <- <-. eauto.
  - destruct (writeSelect ticks k d mw) as [[[[o|] mw1] ts1]| | |] eqn:Hs;
      try discriminate.
    + injection H as <- <- <-.
      exists k. exact (writeSelect_withinL _ _ _ _ _ _ _ _ HW Hs).
    + eapply IH; [|exact H]. exact (writeSelect_withinL _ _ _ _ _ _ _ _ HW Hs).
Qed.

Lemma init_settledL ps mw mw1 :
  settledL ps (writers mw) -> init mw = Ret mw1 -> settledL ps (writers mw1).
Proof.
  intros [Hl H] Hi. apply init_writers in Hi as [-> _].
  split; [now rewrite length_map|]. intros i mww s Hi Hs.
  rewrite nth_error_map in Hi.
  destruct (nth_error (writers mw) i) as [y|] eqn:Hy; [|discriminate].
  injection Hi as <-. destruct (H _ _ _ Hy Hs) as [got [Hr Hsub]].
  exists got. simpl. split; [exact Hr|]. rewrite app_nil_r.
  eapply subseq_prefix; eauto.
Qed.

Lemma Write_settledL ps ticks d mw mw' r :
  settledL ps (writers mw) -> Write ticks d mw = Ret (mw', r) ->
  settledL (ps ++ [d]) (writers mw').
Proof.
  intros HS H. unfold Write in H.
  destruct (closed mw); [injection H as <- _; now apply settledL_more|].
  assert (Hgo : forall mw1, settledL ps (writers mw1) ->
            match writeRange (length (writers mw1)) 0 ticks d mw1 with
            | Ret (None, mw2, _) => Ret (mw2, (len d, None))
            | Ret (Some e, mw2, _) => Ret (mw2, (0, e))
            | Panic => Panic
            | Blocked => Blocked
            | OutOfFuel => OutOfFuel
            end = Ret (mw', r) ->
            settledL (ps ++ [d]) (writers mw')).
  { intros mw1 HS1 Hr.
    destruct (writeRange _ 0 ticks d mw1) as [[[o mw2] ts]| | |] eqn:Hw;
      try discriminate.
    destruct (writeRange_withinL _ _ _ _ _ _ _ _ _
                (settledL_withinL _ d _ HS1) Hw) as [k' HW].
    assert (mw' = mw2) as -> by (destruct o; now injection Hr as <- _).
    eapply withinL_settledL; eauto. }
  destruct (inited mw); [exact (Hgo _ HS H)|].
  destruct (init mw) as [mw1| | |] eqn:Hin; try discriminate.
  apply (Hgo mw1); [eapply init_settledL; eauto|exact H].
Qed.

Lemma writeAll_settledL calls : forall ps mw mw' rs,
  settledL ps (writers mw) -> writeAll calls mw = Ret (mw', rs) ->
  settledL (ps ++ map fst calls) (writers mw').
Proof.
  induction calls as [|[d ticks] calls IH]; intros ps mw mw' rs HS H;
    cbn [writeAll] in H.
  - injection H as <- <-. simpl. now rewrite app_nil_r.
  - destruct (Write ticks d mw) as [[mw1 r]| | |] eqn:Hw; try discriminate.
    destruct (writeAll calls mw1) as [[mw2 rs2]| | |] eqn:Ha; try discriminate.
    injection H as <- <-. simpl.
    change (ps ++ d :: map fst calls) with (ps ++ [d] ++ map fst calls).
    rewrite app_assoc. eapply IH; [|exact Ha]. eapply Write_settledL; eauto.
Qed.

Lemma waitAll_settledL ps ticks : forall mw mw' ts,
  settledL ps (writers mw) -> waitAll ticks mw = Ret (mw', ts) ->
  settledL ps (writers mw').
Proof.
  induction ticks as [|t ticks IH]; intros mw mw' ts HS H; cbn [waitAll] in H;
    destruct (forallb isDone (writers mw));
    try (injection H as <- <-; exact HS); try discriminate.
  destruct t as [i|ch].
  - destruct (stepWorker i mw) as [mw1| | |] eqn:Hs; try discriminate.
    + eapply IH; [|exact H].
      apply stepWorker_moved in Hs as [mww [x [Hj [-> Hm]]]].
      destruct HS as [Hl HS]. split; [now rewrite length_update|].
      intros k y s Hk Hsk.
      apply nth_error_update in Hk as [[-> [-> _]]|[_ Hk]];
        [|exact (HS _ _ _ Hk Hsk)].
      destruct (HS _ _ _ Hj Hsk) as [got [Hr Hsub]].
      destruct Hm as [[Hr' Hwc]|[p [Hr' Hwc]]].
      * exists got. rewrite Hr', Hwc. auto.
      * exists (got ++ [p]). rewrite Hr', Hr, <- !app_assoc. simpl.
        rewrite Hwc in Hsub. auto.
    + eapply IH; eauto.
  - eapply IH; eauto.
Qed.

Lemma Close_settledL ps ticks mw mw' e :
  settledL ps (writers mw) -> Close ticks mw = Ret (mw', e) ->
  settledL ps (writers mw').
Proof.
  intros HS H. unfold Close in H.
  destruct (inited mw); [|now injection H as <- _].
  destruct (closeChans (writers mw)) as [ws| | |] eqn:Hcc; try discriminate.
  destruct (waitAll ticks _) as [[mw1 ts]| | |] eqn:Hw; try discriminate.
  assert (HS1 : settledL ps (writers mw1)).
  { eapply waitAll_settledL; [|exact Hw]. simpl.
    apply closeChans_Ret in Hcc as [-> _]. destruct HS as [Hl HS].
    split; [now rewrite length_map|]. intros i y s Hi Hs.
    rewrite nth_error_map in Hi.
    destruct (nth_error (writers mw) i) as [mww|] eqn:Hy; [|discriminate].
    injection Hi as <-. exact (HS _ _ _ Hy Hs). }
  destruct (errClosed mw1); [discriminate|].
  destruct (errq mw1); injection H as <- _; exact HS1.
Qed.

End Written.

(** The sink of [mww], which was [s] at the start, was handed since then
    payloads of [ps] only, in the order of [ps], each at most once. *)
Definition onlyFrom (ps : list bytes) (mww : mwWriter) (s : sink) : Prop :=
  exists got, received (w mww) = received s ++ got /\ subseq got ps.

Lemma settledL_onlyFrom sinks ps ws :
  settledL sinks ps ws -> Forall2 (onlyFrom ps) ws sinks.
Proof.
  intros [Hl H]. apply Forall2_nth_error; [exact Hl|].
  intros k mww s Hk Hs. destruct (H _ _ _ Hk Hs) as [got [Hr Hsub]].
  exists got. split; [exact Hr|]. eapply subseq_prefix; eauto.
Qed.

(** Whatever the calls of [Write] returned, errors included, and whatever
    the schedules: after them, and after a [Close] that returns, what a sink
    was handed is the sequence of the payloads written with some of them
    left out; a sink is handed no other payload, none twice, and none out
    of order. *)
Theorem sinks_get_written_payloads_only
        (sinks : list sink) (cap : Z) (calls : list (bytes * list tick))
        (mw1 : MultiWriter) (rs : list (Z * option error)) :
  writeAll calls (withChanLength (NewMultiWriter sinks) cap) = Ret (mw1, rs) ->
  Forall2 (onlyFrom (map fst calls)) (writers mw1) sinks /\
  forall ticks mw2 e,
    Close ticks mw1 = Ret (mw2, e) ->
    Forall2 (onlyFrom (map fst calls)) (writers mw2) sinks.
Proof.
  intros Hw.
  assert (H0 : settledL sinks [] (writers (withChanLength (NewMultiWriter sinks) cap))).
  { simpl. split; [apply length_map|]. intros i mww s Hi Hs.
    rewrite nth_error_map, Hs in Hi. injection Hi as <-. exists []. simpl.
    split; [now rewrite app_nil_r|constructor]. }
  pose proof (writeAll_settledL _ _ _ _ _ _ H0 Hw) as H1. simpl in H1.
  split; [now apply settledL_onlyFrom|]. intros ticks mw2 e Hc.
  apply settledL_onlyFrom. eapply Close_settledL; eauto.
Qed.

(** Two writes to a sink whose [Write] fails: the sink is handed the first
    payload only. *)
Lemma sinks_get_written_payloads_only_witness :
  exists mw1 rs,
    writeAll bufferedWrites failingSink = Ret (mw1, rs) /\
    Forall2 (onlyFrom [ab; c]) (writers mw1) [testErrorWriter].
Proof.
  eexists. eexists. split; [reflexivity|].
  exact (proj1 (sinks_get_written_payloads_only
                  [testErrorWriter] DefaultWriteChanLength bufferedWrites
                  _ _ eq_refl)).
Defined.

End MultiWriter.
